(** * llm-functions-ts: the function builder, its execution engine and the log registry

    A shallow embedding of [packages/llm-functions-ts/src/llm.ts] (the
    builder [createFn], the retriever [callZodOutput], the trace recorder,
    [run], [runDataset] and the registry's [logHandler]) and of the template
    utilities [parseFString] / [interpolateFString], followed by the
    properties established about them.

    JavaScript values are an inductive type; objects keep their keys in the
    order in which JavaScript enumerates them.  Asynchronous code is written
    in a state-and-error monad with fuel, one call after the other; the
    calls that [runDataset] has under way at the same time are written as
    promises that are resumed turn by turn.  Every external collaborator
    (chat provider, nanoid, clock, zod, document splitter, user callbacks) is
    a field of a type class. *)

From Stdlib Require Import List String Ascii ZArith NArith Bool Arith Lia DecimalString.
Import ListNotations.
Open Scope string_scope.
Set Warnings "-register-all".

(** ** JavaScript values *)

Module JS.

(** A number is held as [mantissa / 10 ^ decimals]; the embedded code never
    computes with the numbers it stores, it only prints them. *)
Inductive JSValue : Type :=
| JSUndefined
| JSNull
| JSBool (b : bool)
| JSNum (mantissa : Z) (decimals : nat)
| JSString (s : string)
| JSArray (items : list JSValue)
| JSObject (props : list (string * JSValue)).

Definition dquote : string := String (ascii_of_nat 34) EmptyString.

Definition string_of_Z (z : Z) : string := NilZero.string_of_int (Z.to_int z).
Definition string_of_nat (n : nat) : string := string_of_Z (Z.of_nat n).

Fixpoint join (sep : string) (l : list string) : string :=
  match l with
  | [] => ""
  | [x] => x
  | x :: r => x ++ sep ++ join sep r
  end.

Fixpoint repeat_string (n : nat) (s : string) : string :=
  match n with
  | O => ""
  | S k => s ++ repeat_string k s
  end.

(** [a] without the zeros it ends with ([a > 0]); [fuel] is at least the
    number of its digits. *)
Fixpoint strip_zeros (fuel : nat) (a : Z) : Z :=
  match fuel with
  | O => a
  | S fuel' => if (a mod 10 =? 0)%Z then strip_zeros fuel' (a / 10)%Z else a
  end.

(** [Number.prototype.toString] of [mantissa / 10 ^ decimals], as ECMAScript
    defines [Number::toString] for radix 10: with [k] the number of digits
    of the value without the zeros at its end, and the decimal point after
    the [n]-th digit, the text is in plain notation when [-6 < n <= 21] and
    in exponent notation otherwise.  A [JSNum] stands for the number that
    has these digits as its shortest decimal text. *)
Definition Number_toString (mantissa : Z) (decimals : nat) : string :=
  let a := Z.abs mantissa in
  if (a =? 0)%Z then "0"
  else
    let all := string_of_Z a in
    let digits := string_of_Z (strip_zeros (String.length all) a) in
    let k := String.length digits in
    let n := (Z.of_nat (String.length all) - Z.of_nat decimals)%Z in
    (if (mantissa <? 0)%Z then "-" else "")
      ++ (if ((Z.of_nat k <=? n) && (n <=? 21))%Z then
            digits ++ repeat_string (Z.to_nat n - k) "0"
          else if ((0 <? n) && (n <=? 21))%Z then
            String.substring 0 (Z.to_nat n) digits ++ "."
              ++ String.substring (Z.to_nat n) (k - Z.to_nat n) digits
          else if ((-6 <? n) && (n <=? 0))%Z then
            "0." ++ repeat_string (Z.to_nat (- n)) "0" ++ digits
          else
            let e := (n - 1)%Z in
            (if (k =? 1)%nat then digits
             else String.substring 0 1 digits ++ "."
                    ++ String.substring 1 (k - 1) digits)
              ++ "e" ++ (if (e <? 0)%Z then "-" else "+")
              ++ string_of_Z (Z.abs e)).

Definition hex_digit (n : nat) : string :=
  String.substring n 1 "0123456789abcdef".

(** The escape [JSON.stringify] writes for one character of a string. *)
Definition escape_char (c : ascii) : string :=
  let n := nat_of_ascii c in
  if (n =? 34)%nat then "\" ++ dquote
  else if (n =? 92)%nat then "\\"
  else if (n =? 8)%nat then "\b"
  else if (n =? 12)%nat then "\f"
  else if (n =? 10)%nat then "\n"
  else if (n =? 13)%nat then "\r"
  else if (n =? 9)%nat then "\t"
  else if (n <? 32)%nat then "\u00" ++ hex_digit (n / 16) ++ hex_digit (n mod 16)
  else String c EmptyString.

Fixpoint escape (s : string) : string :=
  match s with
  | EmptyString => ""
  | String c r => escape_char c ++ escape r
  end.

Definition JSON_quote (s : string) : string := dquote ++ escape s ++ dquote.

(** [JSON.stringify(v)]: [None] is the JavaScript result [undefined].  A
    property whose value does not serialise is left out of an object and
    printed as [null] inside an array. *)
Fixpoint JSON_stringify (v : JSValue) : option string :=
  match v with
  | JSUndefined => None
  | JSNull => Some "null"
  | JSBool b => Some (if b then "true" else "false")
  | JSNum m d => Some (Number_toString m d)
  | JSString s => Some (JSON_quote s)
  | JSArray items =>
      Some ("[" ++ join ","
              (map (fun i => match JSON_stringify i with
                             | Some s => s
                             | None => "null"
                             end) items) ++ "]")
  | JSObject props =>
      Some ("{" ++ join ","
              (flat_map (fun p => match JSON_stringify (snd p) with
                                  | Some s => [JSON_quote (fst p) ++ ":" ++ s]
                                  | None => []
                                  end) props) ++ "}")
  end.

(** The text a template literal or [+] gives for a value. *)
Fixpoint ToString (v : JSValue) : string :=
  match v with
  | JSUndefined => "undefined"
  | JSNull => "null"
  | JSBool b => if b then "true" else "false"
  | JSNum m d => Number_toString m d
  | JSString s => s
  | JSArray items =>
      join "," (map (fun i => match i with
                              | JSUndefined | JSNull => ""
                              | _ => ToString i
                              end) items)
  | JSObject _ => "[object Object]"
  end.

Definition option_ToString (o : option string) : string :=
  match o with
  | Some s => s
  | None => "undefined"
  end.

(** Truthiness, as [if], [!], [&&], [||] and [?:] test it. *)
Definition truthy (v : JSValue) : bool :=
  match v with
  | JSUndefined | JSNull => false
  | JSBool b => b
  | JSNum m _ => negb (m =? 0)%Z
  | JSString s => negb (s =? "")
  | JSArray _ | JSObject _ => true
  end.

Fixpoint assoc {A : Type} (k : string) (l : list (string * A)) : option A :=
  match l with
  | [] => None
  | (k', a) :: r => if k' =? k then Some a else assoc k r
  end.

Fixpoint indexed_from {A : Type} (i : nat) (l : list A) : list (string * A) :=
  match l with
  | [] => []
  | a :: r => (string_of_nat i, a) :: indexed_from (S i) r
  end.

Fixpoint chars (s : string) : list string :=
  match s with
  | EmptyString => []
  | String c r => String c EmptyString :: chars r
  end.

(** The own enumerable properties of a value, as [{...v}] copies them. *)
Definition own_props (v : JSValue) : list (string * JSValue) :=
  match v with
  | JSObject props => props
  | JSArray items => indexed_from 0 items
  | JSString s => indexed_from 0 (map JSString (chars s))
  | _ => []
  end.

(** [v.key] and [v[key]] on own properties; [None] is the [TypeError] that
    reading a property of [undefined] or [null] throws.  The module reads
    with it the keys [instructions], [documents], [query], [argument],
    [result] and array indices, none of which a prototype has; a key that
    can be any text is read with [prop_text] below. *)
Definition get_prop (key : string) (v : JSValue) : option JSValue :=
  match v with
  | JSUndefined | JSNull => None
  | JSArray items =>
      if key =? "length" then Some (JSNum (Z.of_nat (List.length items)) 0)
      else Some (match assoc key (indexed_from 0 items) with
                 | Some x => x
                 | None => JSUndefined
                 end)
  | JSString s =>
      if key =? "length" then Some (JSNum (Z.of_nat (String.length s)) 0)
      else Some (match assoc key (own_props v) with
                 | Some x => x
                 | None => JSUndefined
                 end)
  | JSObject props =>
      Some (match assoc key props with
            | Some x => x
            | None => JSUndefined
            end)
  | _ => Some JSUndefined
  end.

(** Whether [key] is an own property of the object [v]; [None] when [v] is
    not an object. *)
Definition has_own (key : string) (v : JSValue) : option bool :=
  match v with
  | JSObject props =>
      Some (match assoc key props with Some _ => true | None => false end)
  | JSArray items =>
      Some ((key =? "length")
            || match assoc key (indexed_from 0 items) with
               | Some _ => true
               | None => false
               end)
  | _ => None
  end.

(** [v?.[i]] *)
Definition optional_index (v : JSValue) (i : nat) : JSValue :=
  match get_prop (string_of_nat i) v with
  | Some x => x
  | None => JSUndefined
  end.

End JS.
Export JS.

(** ** JavaScript objects as keyed lists

    An object keeps its properties in the order in which they are
    enumerated: the keys that are array indices first, in ascending order,
    then the other keys in the order in which they were added.  An object
    literal [{...a, k: v, ...b}] is built left to right: a key that is
    already there keeps its place and takes the new value, a new key goes
    to its place among the array indices or, when it is not one, to the
    end. *)

(** The array index that the key [k] is: the decimal text, without leading
    zeros, of a number below [2^32 - 1]. *)
Definition array_index (k : string) : option N :=
  match NilEmpty.uint_of_string k with
  | Some d =>
      let n := N.of_uint d in
      if (NilZero.string_of_uint (N.to_uint n) =? k) && (n <? 4294967295)%N
      then Some n
      else None
  | None => None
  end.

Section Keyed.
Context {A : Type} (key : A -> string).

Fixpoint insert_index (n : N) (x : A) (o : list A) : list A :=
  match o with
  | [] => [x]
  | y :: r =>
      match array_index (key y) with
      | Some m => if (m <? n)%N then y :: insert_index n x r else x :: y :: r
      | None => x :: y :: r
      end
  end.

Definition set_entry (x : A) (o : list A) : list A :=
  if existsb (fun y => key y =? key x) o
  then map (fun y => if key y =? key x then x else y) o
  else match array_index (key x) with
       | Some n => insert_index n x o
       | None => o ++ [x]
       end.

Definition spread (target source : list A) : list A :=
  fold_left (fun acc x => set_entry x acc) source target.

Definition object_literal (parts : list (list A)) : list A :=
  fold_left spread parts [].

Fixpoint lookup {B : Type} (sel : A -> option B) (o : list A) : option B :=
  match o with
  | [] => None
  | x :: r => match sel x with
              | Some b => Some b
              | None => lookup sel r
              end
  end.

Definition keys (o : list A) : list string := map key o.
End Keyed.

(** ** Results of code that can throw, and the monad of the engine

    [Thrown] is a JavaScript exception (or a rejected promise) with its
    message; [OutOfFuel] is a recursion that was cut by the fuel of the
    embedding and says nothing about the program. *)

Inductive Outcome (A : Type) : Type :=
| Returned (a : A)
| Thrown (error : string)
| OutOfFuel.
Arguments Returned {A} a.
Arguments Thrown {A} error.
Arguments OutOfFuel {A}.

Definition M (S A : Type) : Type := S -> Outcome A * S.

Definition ret {S A : Type} (a : A) : M S A := fun s => (Returned a, s).

Definition bind {S A B : Type} (c : M S A) (k : A -> M S B) : M S B :=
  fun s => match c s with
           | (Returned a, s') => k a s'
           | (Thrown e, s') => (Thrown e, s')
           | (OutOfFuel, s') => (OutOfFuel, s')
           end.

Definition throw {S A : Type} (e : string) : M S A := fun s => (Thrown e, s).
Definition out_of_fuel {S A : Type} : M S A := fun s => (OutOfFuel, s).
Definition get {S : Type} : M S S := fun s => (Returned s, s).
Definition modify {S : Type} (f : S -> S) : M S unit := fun s => (Returned tt, f s).
Definition when {S : Type} (b : bool) (c : M S unit) : M S unit :=
  if b then c else ret tt.

Notation "x <- c ;; k" := (bind c (fun x => k))
  (at level 61, c at next level, right associativity).
Notation "c ;; k" := (bind c (fun _ => k))
  (at level 61, right associativity).

(** A [for] loop over a list, each step awaited before the next. *)
Fixpoint forM {S A B : Type} (f : A -> M S B) (l : list A) : M S (list B) :=
  match l with
  | [] => ret []
  | a :: r => b <- f a ;; bs <- forM f r ;; ret (b :: bs)
  end.

(** ** [parseFString] *)

Inductive ParsedFStringNode : Type :=
| literal (text : string)
| variable (name : string).

(** [nextBracket(bracket, start)] relative to [start]: [rest] is
    [chars.slice(start)], the result is [j - start], [None] is [-1]. *)
Fixpoint nextBracket (bracket : list string) (rest : list string) : option nat :=
  match rest with
  | [] => None
  | c :: r =>
      if existsb (String.eqb c) bracket then Some 0
      else option_map S (nextBracket bracket r)
  end.

(** The [while (i < chars.length)] loop; [rest] is [chars.slice(i)].  Every
    round consumes a character, so [length chars] rounds are enough. *)
Fixpoint parseFString_loop (fuel : nat) (rest : list string)
    (nodes : list ParsedFStringNode) : Outcome (list ParsedFStringNode) :=
  match rest with
  | [] => Returned nodes
  | c :: r =>
      match fuel with
      | O => OutOfFuel
      | S fuel' =>
          let next_is x := match r with
                           | c2 :: _ => c2 =? x
                           | [] => false
                           end in
          if (c =? "{") && next_is "{" then
            parseFString_loop fuel' (skipn 1 r) (nodes ++ [literal "{"])
          else if (c =? "}") && next_is "}" then
            parseFString_loop fuel' (skipn 1 r) (nodes ++ [literal "}"])
          else if c =? "{" then
            match nextBracket ["}"] rest with
            | None => Thrown "Unclosed '{' in template."
            | Some j =>
                parseFString_loop fuel' (skipn (j + 1) rest)
                  (nodes ++ [variable (String.concat "" (firstn (j - 1) r))])
            end
          else if c =? "}" then Thrown "Single '}' in template."
          else
            match nextBracket ["{"; "}"] rest with
            | None =>
                parseFString_loop fuel' []
                  (nodes ++ [literal (String.concat "" rest)])
            | Some next =>
                parseFString_loop fuel' (skipn next rest)
                  (nodes ++ [literal (String.concat "" (firstn next rest))])
            end
      end
  end.

Definition parseFString (template : string) : Outcome (list ParsedFStringNode) :=
  let chars := chars template in
  parseFString_loop (List.length chars) chars [].

(** ** The libraries and callbacks the module is written against *)

Inductive SafeParseReturnType (T : Type) : Type :=
| ParseSuccess (data : T)
| ParseError (message : string).
Arguments ParseSuccess {T} data.
Arguments ParseError {T} message.

(** zod ([z.ZodSchema], its constructors, [zod-to-json-schema], [zod-to-ts]),
    the types of the values that are JavaScript functions supplied by the
    caller, and the prototypes of the JavaScript engine.  [World] is
    everything outside the module that an asynchronous call can read or
    change.  [inherited v key] is for a [key] that is not an own property of
    the object [v]: the text that [v[key]] gives in a string concatenation
    when [v] inherits the property ([toString], [constructor] and the other
    properties of [Object.prototype] for a plain object), and [None] when it
    does not. *)
Class Platform : Type := {
  World : Type;
  inherited : JSValue -> string -> option string;
  Parser : Type;
  safeParse : Parser -> JSValue -> SafeParseReturnType JSValue;
  z_string : Parser;
  z_object : list (string * Parser) -> Parser;
  z_union : list Parser -> Parser;
  Parser_toJSON : Parser -> JSValue;
  zodToJsonSchema : Parser -> JSValue;
  printNode_zodToTs : Parser -> string;
  Transform : Type;
  VerifyFn : Type;
  SequenceFn : Type;
  OpenAiFunction : Type;
  Message : Type
}.

(** ** [interpolateFString] *)

Section Interpolation.
Context {platform : Platform}.

(** [key in v]: [key] is an own property of [v] or one that [v] inherits;
    [None] is the [TypeError] thrown when [v] is not an object. *)
Definition has_prop (key : string) (v : JSValue) : option bool :=
  match has_own key v with
  | Some own => Some (own || match inherited v key with
                             | Some _ => true
                             | None => false
                             end)
  | None => None
  end.

(** The text of [v[key]] in [res + v[key]]: of the own property when [v]
    has one, else of the inherited one. *)
Definition prop_text (key : string) (v : JSValue) : string :=
  match has_own key v, inherited v key with
  | Some false, Some text => text
  | _, _ => ToString (match get_prop key v with
                      | Some x => x
                      | None => JSUndefined
                      end)
  end.

(** The [reduce] of [interpolateFString]. *)
Fixpoint interpolate_nodes (nodes : list ParsedFStringNode) (values : JSValue)
    (res : string) : Outcome string :=
  match nodes with
  | [] => Returned res
  | variable name :: r =>
      match has_prop name values with
      | None => Thrown "TypeError: Cannot use 'in' operator"
      | Some true => interpolate_nodes r values (res ++ prop_text name values)
      | Some false => Thrown ("Missing value for input " ++ name)
      end
  | literal text :: r => interpolate_nodes r values (res ++ text)
  end.

Definition interpolateFString (template : string) (values : JSValue)
    : Outcome string :=
  match parseFString template with
  | Returned nodes => interpolate_nodes nodes values ""
  | Thrown e => Thrown e
  | OutOfFuel => OutOfFuel
  end.

End Interpolation.

Section Model.
Context {platform : Platform}.

(** [FunctionDef] of [./functions], with the fields this module reads. *)
Record FunctionDef : Type := {
  name : string;
  description : string;
  parameters : Parser;
  implements : option (JSValue -> World -> option string * World)
}.

(** *** [ProcedureBuilderDef]

    One constructor per key of the type; a Definition is the list of the keys
    it has, in insertion order. *)
Inductive Field : Type :=
| Fid (v : string)
| Fname (v : string)
| Fdescription (v : string)
| Foutput (v : Parser)
| FtsOutputString (v : string)
| Fmodel (v : list (string * JSValue))
| Fdocuments (v : list JSValue)
| Ffunctions (v : list FunctionDef)
| Fquery (queryInput : bool) (fn : JSValue -> World -> JSValue * World)
| Finstructions (v : string)
| Fdataset (v : list JSValue)
| FmapFns (v : list MapFn)
| Fverify (v : VerifyFn)
| Fsequences (v : list Sequence)
with MapFn : Type :=
| MapTransform (f : Transform)
| MapAiFunction (internal_def : list Field)
with Sequence : Type :=
| SequenceDef (d : list Field)
| SequenceFunction (f : SequenceFn).

Definition ProcedureBuilderDef : Type := list Field.

Definition key_of (f : Field) : string :=
  match f with
  | Fid _ => "id"
  | Fname _ => "name"
  | Fdescription _ => "description"
  | Foutput _ => "output"
  | FtsOutputString _ => "tsOutputString"
  | Fmodel _ => "model"
  | Fdocuments _ => "documents"
  | Ffunctions _ => "functions"
  | Fquery _ _ => "query"
  | Finstructions _ => "instructions"
  | Fdataset _ => "dataset"
  | FmapFns _ => "mapFns"
  | Fverify _ => "verify"
  | Fsequences _ => "sequences"
  end.

Definition def_spread := spread key_of.
Definition def_literal := object_literal key_of.

Definition def_id : ProcedureBuilderDef -> option string :=
  lookup (fun f => match f with Fid v => Some v | _ => None end).
Definition def_name : ProcedureBuilderDef -> option string :=
  lookup (fun f => match f with Fname v => Some v | _ => None end).
Definition def_description : ProcedureBuilderDef -> option string :=
  lookup (fun f => match f with Fdescription v => Some v | _ => None end).
Definition def_output : ProcedureBuilderDef -> option Parser :=
  lookup (fun f => match f with Foutput v => Some v | _ => None end).
Definition def_tsOutputString : ProcedureBuilderDef -> option string :=
  lookup (fun f => match f with FtsOutputString v => Some v | _ => None end).
Definition def_model : ProcedureBuilderDef -> option (list (string * JSValue)) :=
  lookup (fun f => match f with Fmodel v => Some v | _ => None end).
Definition def_documents : ProcedureBuilderDef -> option (list JSValue) :=
  lookup (fun f => match f with Fdocuments v => Some v | _ => None end).
Definition def_functions : ProcedureBuilderDef -> option (list FunctionDef) :=
  lookup (fun f => match f with Ffunctions v => Some v | _ => None end).
Definition def_query
  : ProcedureBuilderDef -> option (bool * (JSValue -> World -> JSValue * World)) :=
  lookup (fun f => match f with Fquery q fn => Some (q, fn) | _ => None end).
Definition def_instructions : ProcedureBuilderDef -> option string :=
  lookup (fun f => match f with Finstructions v => Some v | _ => None end).
Definition def_dataset : ProcedureBuilderDef -> option (list JSValue) :=
  lookup (fun f => match f with Fdataset v => Some v | _ => None end).
Definition def_mapFns : ProcedureBuilderDef -> option (list MapFn) :=
  lookup (fun f => match f with FmapFns v => Some v | _ => None end).
Definition def_verify : ProcedureBuilderDef -> option VerifyFn :=
  lookup (fun f => match f with Fverify v => Some v | _ => None end).
Definition def_sequences : ProcedureBuilderDef -> option (list Sequence) :=
  lookup (fun f => match f with Fsequences v => Some v | _ => None end).

(** [x || []] for an optional array. *)
Definition or_empty {A : Type} (x : option (list A)) : list A :=
  match x with
  | Some l => l
  | None => []
  end.

(** *** Messages, trace Actions and Executions *)

Record AIMessage : Type := {
  text : string;
  function_call : option JSValue
}.

(** [resp.additional_kwargs.function_call] as a condition: a value that [!]
    takes for false ([undefined], [null], [false], [0], the empty string)
    counts as no function call, as a key that is not there does. *)
Definition function_call_of (resp : AIMessage) : option JSValue :=
  match function_call resp with
  | Some raw_call => if truthy raw_call then Some raw_call else None
  | None => None
  end.

Inductive BaseMessage : Type :=
| SystemMessage (content : string)
| HumanMessage (content : JSValue)
| FunctionMessage (content : string) (fname : string)
| AIMessageOf (resp : AIMessage).

Inductive Response : Type :=
| Loading
| Success (output : JSValue)
| Error (error : string)
| ZodError (output : JSValue) (error : string)
| TimeoutError.

Inductive ActionBody : Type :=
| Log
| ExecutingFunction (functionDef : ProcedureBuilderDef) (input : JSValue)
| GetDocument (input : JSValue)
| Query (input : JSValue)
| CallingFunction (input : JSValue)
| CallingOpenAi (messages : list Message).

Record Action : Type := {
  action_id : string;
  action : ActionBody;
  response : option Response
}.

(** [Partial<Action>]: the fields an update carries. *)
Record PartialAction : Type := {
  partial_id : option string;
  partial_action : option ActionBody;
  partial_response : option Response
}.

Definition Trace : Type := list Action.

Record FunctionExecuted : Type := {
  functionExecutionId : string;
  inputs : JSValue;
  trace : Trace;
  sub_finalResponse : option JSValue;
  functionDef : ProcedureBuilderDef
}.

(** An optional key is [None] when the object does not have it; a key that
    is there with the value [undefined] is [Some JSUndefined]. *)
Record Execution : Type := {
  id : string;
  createdAt : Z;
  functionsExecuted : list FunctionExecuted;
  finalResponse : option JSValue;
  verified : option bool
}.

Record FunctionCall : Type := {
  call_name : string;
  call_arguments : JSValue
}.

Inductive FunctionCallOption : Type :=
| ForceName (fname : string)
| Auto.

(** What the module imports from files and packages that are not part of
    it: nanoid, the clock, the chat model, [./functions], [./Message],
    [./jsonSchema] (through [functionCallSchema], which is
    [z.object({ name: z.string(), arguments: stringToJSONSchema })]),
    [./documents/document], [./cyrb53] (a hash below [2 ^ 53], which prints
    in plain decimal), and the way a caller's map function runs.  A
    collaborator is taken to answer: a promise of a collaborator that is
    rejected is outside the embedding. *)
Class Collaborators : Type := {
  nanoid : World -> string * World;
  Date_now : World -> Z * World;
  ChatOpenAI_call :
    option (list (string * JSValue)) -> list BaseMessage ->
    list OpenAiFunction -> FunctionCallOption -> World -> AIMessage * World;
  toOpenAiFunction : FunctionDef -> OpenAiFunction;
  fromLangChainMessage : BaseMessage -> Message;
  functionCallSchema : JSValue -> SafeParseReturnType FunctionCall;
  splitDocument : JSValue -> string -> JSValue -> World -> JSValue * World;
  applyMapFn :
    Transform -> JSValue -> option Execution -> JSValue -> World ->
    JSValue * World;
  FunctionDef_toJSON : FunctionDef -> JSValue;
  cyrb53 : string -> N
}.

Context {collaborators : Collaborators}.

(** *** The state of one [createFn] closure and of its surroundings

    [execution] and [functionExecutionId] are the two [let] variables of the
    closure.  [events] records, in order, the calls that leave the module:
    each call of the chat model and each call of the two callbacks. *)
Inductive Event : Type :=
| ModelCall (messages : list BaseMessage) (functions : list OpenAiFunction)
    (mode : FunctionCallOption)
| ExecutionUpdate (e : Execution)
| Created (d : ProcedureBuilderDef).

Record State : Type := {
  execution : option Execution;
  current_functionExecutionId : option string;
  world : World;
  events : list Event
}.

Definition Async (A : Type) : Type := M State A.

Definition set_execution (e : option Execution) (s : State) : State :=
  {| execution := e;
     current_functionExecutionId := current_functionExecutionId s;
     world := world s;
     events := events s |}.

Definition emit (ev : Event) : Async unit :=
  modify (fun s =>
    {| execution := execution s;
       current_functionExecutionId := current_functionExecutionId s;
       world := world s;
       events := events s ++ [ev] |}).

(** A call of an external collaborator. *)
Definition external {A : Type} (f : World -> A * World) : Async A :=
  fun s =>
    let (a, w) := f (world s) in
    (Returned a,
     {| execution := execution s;
        current_functionExecutionId := current_functionExecutionId s;
        world := w;
        events := events s |}).

(** The arguments [onExecutionUpdate] and [onCreated] of [createFn]: whether
    each callback was given.  Calling one is an [Event]. *)
Record Callbacks : Type := {
  onExecutionUpdate : bool;
  onCreated : bool
}.

Definition with_functionsExecuted (e : Execution) (l : list FunctionExecuted)
    : Execution :=
  {| id := id e;
     createdAt := createdAt e;
     functionsExecuted := l;
     finalResponse := finalResponse e;
     verified := verified e |}.

Definition with_finalResponse (e : Execution) (r : JSValue) : Execution :=
  {| id := id e;
     createdAt := createdAt e;
     functionsExecuted := functionsExecuted e;
     finalResponse := Some r;
     verified := verified e |}.

Definition with_trace (fe : FunctionExecuted) (t : Trace) : FunctionExecuted :=
  {| functionExecutionId := functionExecutionId fe;
     inputs := inputs fe;
     trace := t;
     sub_finalResponse := sub_finalResponse fe;
     functionDef := functionDef fe |}.

Definition with_sub_finalResponse (fe : FunctionExecuted) (r : JSValue)
    : FunctionExecuted :=
  {| functionExecutionId := functionExecutionId fe;
     inputs := inputs fe;
     trace := trace fe;
     sub_finalResponse := Some r;
     functionDef := functionDef fe |}.

(** [{ ...t, ...action }] *)
Definition merge_action (t : Action) (p : PartialAction) : Action :=
  {| action_id := match partial_id p with Some i => i | None => action_id t end;
     action := match partial_action p with Some a => a | None => action t end;
     response := match partial_response p with
                 | Some r => Some r
                 | None => response t
                 end |}.

(** [{ response: r }] *)
Definition response_update (r : Response) : PartialAction :=
  {| partial_id := None; partial_action := None; partial_response := Some r |}.

(** [e.functionExecutionId === functionExecutionId] *)
Definition is_current (s : State) (fe : FunctionExecuted) : bool :=
  match current_functionExecutionId s with
  | Some f => functionExecutionId fe =? f
  | None => false
  end.

Definition nl : string := String (ascii_of_nat 10) EmptyString.
Definition triple_quote : string := dquote ++ dquote ++ dquote.

Definition default_model : list (string * JSValue) :=
  [("modelName", JSString "gpt-3.5-turbo-16k");
   ("temperature", JSNum 7 1);
   ("maxTokens", JSNum (-1) 0)].

End Model.

(** ** The engine inside one [createFn] closure *)

Module Engine.
Section Closure.
Context {platform : Platform} {collaborators : Collaborators}.

(** [def] and the callbacks are the constants of the closure. *)
Variable def : ProcedureBuilderDef.
Variable args : Callbacks.

Definition notify (e : Execution) : Async unit :=
  when (onExecutionUpdate args) (emit (ExecutionUpdate e)).

(** [onCreated && onCreated(d)] *)
Definition when_created (d : ProcedureBuilderDef) : Async unit :=
  when (onCreated args) (emit (Created d)).

Definition createExecution (arg : JSValue) (_executionId : option string)
    : Async string :=
  id <- match _executionId with
        | Some i => if i =? "" then external nanoid else ret i
        | None => external nanoid
        end ;;
  fid <- external nanoid ;;
  now <- external Date_now ;;
  modify (fun s =>
    {| execution :=
         Some {| id := id;
                 createdAt := now;
                 functionsExecuted :=
                   [{| functionExecutionId := fid;
                       inputs := arg;
                       trace := [];
                       sub_finalResponse := None;
                       functionDef := def |}];
                 finalResponse := None;
                 verified := None |};
       current_functionExecutionId := Some fid;
       world := world s;
       events := events s |}) ;;
  ret id.

Definition resolveExecution (finalResponse : JSValue) (trace' : Trace)
    : Async Execution :=
  s <- get ;;
  match execution s with
  | None => throw "Execution not found"
  | Some e =>
      let e' :=
        with_finalResponse
          (with_functionsExecuted e
             (map (fun fe =>
                     if is_current s fe
                     then with_sub_finalResponse
                            (with_trace fe (trace fe ++ trace')%list) finalResponse
                     else fe)
                  (functionsExecuted e)))
          finalResponse in
      modify (set_execution (Some e')) ;;
      notify e' ;;
      ret e'
  end.

Definition createTrace (body : ActionBody) (resp : option Response)
    : Async string :=
  id <- external nanoid ;;
  let actionWithId := {| action_id := id; action := body; response := resp |} in
  s <- get ;;
  match execution s with
  | None => throw "Execution not found"
  | Some e =>
      let e' :=
        with_functionsExecuted e
          (map (fun fe =>
                  if is_current s fe
                  then with_trace fe (trace fe ++ [actionWithId])%list
                  else fe)
               (functionsExecuted e)) in
      modify (set_execution (Some e')) ;;
      notify e' ;;
      ret id
  end.

Definition updateTrace (id : string) (action : PartialAction) : Async unit :=
  s <- get ;;
  match execution s with
  | None => throw "Execution not found"
  | Some e =>
      let e' :=
        with_functionsExecuted e
          (map (fun fe =>
                  if is_current s fe
                  then with_trace fe
                         (map (fun t => if action_id t =? id
                                        then merge_action t action
                                        else t)
                              (trace fe))
                  else fe)
               (functionsExecuted e)) in
      modify (set_execution (Some e')) ;;
      notify e'
  end.

Definition createValidationErrorFunctionMessage (error : string) : BaseMessage :=
  FunctionMessage
    ("function 'print' returned a Validation error" ++ nl ++ "'" ++ error ++ nl
       ++ " Try again with a valid response. You may be forgetting to add key called 'argument'")
    "print".

Definition printFn (zodSchema : Parser) : FunctionDef :=
  {| name := "print";
     description :=
       "Answer the user prompt using this function. This is the function you call once you have your final answer";
     parameters := zodSchema;
     implements := Some (fun _ w => (Some "Return", w)) |}.

Definition please_use_print (zodSchema : Parser) : BaseMessage :=
  HumanMessage
    (JSString
       ("Please use the print function to respond. print function has the following scheme:"
          ++ nl ++ option_ToString (JSON_stringify (zodToJsonSchema zodSchema))
          ++ "         " ++ nl)).

(** [getOpenAiModel().call(messages, {functions, function_call})] *)
Definition call_model (messages : list BaseMessage)
    (functions : list OpenAiFunction) (mode : FunctionCallOption)
    : Async AIMessage :=
  emit (ModelCall messages functions mode) ;;
  external (ChatOpenAI_call (def_model def) messages functions mode).

Fixpoint callZodOutput (fuel : nat) (messages : list BaseMessage)
    (zodSchema : Parser) (retries : nat)
    : Async (JSValue * list BaseMessage) :=
  match fuel with
  | O => out_of_fuel
  | S fuel' =>
      id <- createTrace (CallingOpenAi (map fromLangChainMessage messages))
              (Some Loading) ;;
      let userFunctions := or_empty (def_functions def) in
      let functions := (userFunctions ++ [printFn zodSchema])%list in
      let openAiFunctions := map toOpenAiFunction functions in
      resp <- call_model messages openAiFunctions
                (if (List.length userFunctions =? 0)%nat
                 then ForceName "print" else Auto) ;;
      let messages := (messages ++ [AIMessageOf resp])%list in
      match function_call_of resp with
      | None =>
          updateTrace id
            (response_update
               (Error ("No function call found, Got text instead: " ++ text resp))) ;;
          callZodOutput fuel' (messages ++ [please_use_print zodSchema])
            zodSchema (retries + 1)
      | Some raw_call =>
          match functionCallSchema raw_call with
          | ParseSuccess data =>
              match find (fun f => name f =? call_name data) functions with
              | None =>
                  throw ("Function " ++ call_name data ++ " not found in "
                           ++ option_ToString
                                (JSON_stringify
                                   (JSArray (map (fun f => JSString (name f))
                                                 functions))))
              | Some fn =>
                  match safeParse (parameters fn) (call_arguments data) with
                  | ParseSuccess argument_data =>
                      if name fn =? "print" then
                        match get_prop "argument" argument_data with
                        | None => throw "TypeError: Cannot read properties"
                        | Some response =>
                            updateTrace id
                              (response_update
                                 (Success
                                    (JSObject [("type", JSString "response");
                                               ("data", response)]))) ;;
                            ret (response,
                                 (messages ++ [FunctionMessage "Success" "print"])%list)
                        end
                      else
                        updateTrace id
                          (response_update
                             (Success
                                (JSObject [("type", JSString "functionCall");
                                           ("data", argument_data)]))) ;;
                        id2 <- createTrace
                                 (CallingFunction
                                    (JSObject
                                       [("name", JSString (name fn));
                                        ("description", JSString (description fn));
                                        ("parameters", argument_data)]))
                                 (Some Loading) ;;
                        fnResponse <- match implements fn with
                                      | Some f => external (f argument_data)
                                      | None => ret None
                                      end ;;
                        updateTrace id2
                          (response_update
                             (Success (match fnResponse with
                                       | Some r => JSString r
                                       | None => JSUndefined
                                       end))) ;;
                        callZodOutput fuel'
                          (messages
                             ++ [FunctionMessage
                                   (match fnResponse with
                                    | Some r => if r =? "" then "No response" else r
                                    | None => "No response"
                                    end)
                                   (name fn)])
                          zodSchema retries
                  | ParseError message =>
                      updateTrace id
                        (response_update (ZodError (call_arguments data) message)) ;;
                      if (3 <? retries)%nat then
                        updateTrace id (response_update TimeoutError) ;;
                        ret (JSString message, messages)
                      else
                        callZodOutput fuel'
                          (messages ++ [createValidationErrorFunctionMessage message])
                          zodSchema (retries + 1)
                  end
              end
          | ParseError message =>
              updateTrace id (response_update (ZodError raw_call message)) ;;
              if (3 <? retries)%nat then
                updateTrace id (response_update TimeoutError) ;;
                ret (JSString message, messages)
              else
                callZodOutput fuel'
                  (messages ++ [createValidationErrorFunctionMessage message])
                  zodSchema (retries + 1)
          end
      end
  end.

Definition getQueryDoc (queryArg : JSValue) : Async (option string) :=
  match truthy queryArg, def_query def with
  | true, Some (_, fn) =>
      id <- createTrace (Query queryArg) (Some Loading) ;;
      query <- external (fn queryArg) ;;
      let queryDoc := JSON_stringify query in
      updateTrace id
        (response_update
           (Success (match queryDoc with
                     | Some s => JSString s
                     | None => JSUndefined
                     end))) ;;
      ret queryDoc
  | _, _ => ret None
  end.

Fixpoint mapi_from {A B : Type} (i : nat) (f : A -> nat -> B) (l : list A)
    : list B :=
  match l with
  | [] => []
  | a :: r => f a i :: mapi_from (S i) f r
  end.

(** [def.instructions] as a condition: declared and not the empty string. *)
Definition instructions_template : option string :=
  match def_instructions def with
  | Some t => if t =? "" then None else Some t
  | None => None
  end.

Definition output_schema : Parser :=
  match def_output def with
  | Some output =>
      z_object
        [("argument", z_union [output; z_object [("error", z_string)]])]
  | None => z_string
  end.

Definition systemPrompt : BaseMessage :=
  SystemMessage
    ("Use the DOCUMENT to answer user prompts." ++ nl
       ++ "Once you have the answer, use the print function. Always call one of the provided functions").

Definition lift_outcome {A : Type} (o : Outcome A) : Async A :=
  match o with
  | Returned a => ret a
  | Thrown e => throw e
  | OutOfFuel => out_of_fuel
  end.

(** The [const run] of the closure.  The tasks of [Promise.all] over the
    documents each run up to their first [await] when they are created, in
    order; their continuations are taken in the same order. *)
Definition run (fuel : nat) (arg : JSValue) (_executionId : option string)
    : Async Execution :=
  executionId <- createExecution arg _executionId ;;
  match get_prop "instructions" arg, get_prop "documents" arg,
        get_prop "query" arg with
  | Some instructions, Some docs, Some queryArg =>
      createTrace (ExecutingFunction def arg) None ;;
      queryDoc <- getQueryDoc queryArg ;;
      let documents :=
        mapi_from 0
          (fun d i =>
             JSObject (set_entry fst ("input", optional_index docs i)
                         (own_props d)))
          (or_empty (def_documents def)) in
      let queryTemplate :=
        match truthy queryArg, def_query def with
        | true, Some _ =>
            "DOCUMENT:" ++ triple_quote ++ nl ++ "    "
              ++ option_ToString queryDoc ++ nl ++ "  " ++ triple_quote ++ nl
        | _, _ => ""
        end in
      userPrompt <- match instructions_template with
                    | Some template =>
                        p <- lift_outcome
                               (interpolateFString template instructions) ;;
                        ret (JSString p)
                    | None =>
                        ret (if truthy instructions then instructions
                             else JSString "")
                    end ;;
      started <- forM (fun d =>
                         id <- createTrace (GetDocument d) (Some Loading) ;;
                         ret (id, d))
                      documents ;;
      documentsTemplate <-
        forM (fun task =>
                documentContext <-
                  external (splitDocument (snd task) executionId userPrompt) ;;
                updateTrace (fst task)
                  (response_update (Success documentContext)) ;;
                match get_prop "result" documentContext with
                | None => throw "TypeError: Cannot read properties"
                | Some result =>
                    ret ("DOCUMENT:" ++ triple_quote ++ nl ++ "            "
                           ++ ToString result ++ nl ++ "            "
                           ++ triple_quote)
                end)
             started ;;
      match def_output def, instructions_template with
      | None, None => resolveExecution JSUndefined []
      | _, _ =>
          let zodSchema := output_schema in
          let userMessages :=
            ((if queryTemplate =? "" then []
              else [HumanMessage (JSString queryTemplate)])
             ++ (if (0 <? List.length documentsTemplate)%nat
                 then [HumanMessage (JSString (join nl documentsTemplate))]
                 else [])
             ++ (if truthy userPrompt then [HumanMessage userPrompt] else []))%list in
          let chatMessages := systemPrompt :: userMessages in
          answer <- callZodOutput fuel chatMessages zodSchema 0 ;;
          resolveExecution (fst answer) []
      end
  | _, _, _ => throw "TypeError: Cannot destructure"
  end.

End Closure.
End Engine.

(** ** The builder returned by [createFn] *)

Module Builder.
Section Methods.
Context {platform : Platform} {collaborators : Collaborators}.

(** The builder object: [__internal.def] and the callbacks its methods pass on. *)
Record ProcedureBuilder : Type := {
  internal_def : ProcedureBuilderDef;
  callbacks : Callbacks
}.

(** The function [create()] returns, with its [__internal_def]. *)
Record AiFunction : Type := {
  ai_internal_def : ProcedureBuilderDef;
  ai_callbacks : Callbacks
}.

(** [{ model: {...}, ...initDef }] *)
Definition createFn (initDef : option ProcedureBuilderDef) (args : Callbacks)
    : ProcedureBuilder :=
  {| internal_def := def_literal [[Fmodel default_model]; or_empty initDef];
     callbacks := args |}.

Definition name (b : ProcedureBuilder) (name : string) : ProcedureBuilder :=
  createFn (Some (def_literal [internal_def b; [Fname name]])) (callbacks b).

Definition description (b : ProcedureBuilder) (description : string)
    : ProcedureBuilder :=
  createFn (Some (def_literal [internal_def b; [Fdescription description]]))
    (callbacks b).

Definition functions (b : ProcedureBuilder) (functions : list FunctionDef)
    : ProcedureBuilder :=
  let def := internal_def b in
  createFn
    (Some (def_literal
             [def; [Ffunctions (or_empty (def_functions def) ++ functions)]]))
    (callbacks b).

Definition dataset (b : ProcedureBuilder) (dataset : list JSValue)
    : ProcedureBuilder :=
  createFn (Some (def_literal [internal_def b; [Fdataset dataset]])) (callbacks b).

Definition instructions (b : ProcedureBuilder) (template : string)
    : ProcedureBuilder :=
  createFn (Some (def_literal [internal_def b; [Finstructions template]]))
    (callbacks b).

Definition withModelParams (b : ProcedureBuilder)
    (model : option (list (string * JSValue))) : ProcedureBuilder :=
  let def := internal_def b in
  createFn
    (Some (def_literal
             [def;
              [Fmodel (object_literal fst
                         [or_empty (def_model def); or_empty model])]]))
    (callbacks b).

Definition output (b : ProcedureBuilder) (t : Parser) : ProcedureBuilder :=
  let tsOutputString := printNode_zodToTs t in
  createFn
    (Some (def_literal
             [[Foutput t; FtsOutputString tsOutputString]; internal_def b]))
    (callbacks b).

Definition map (b : ProcedureBuilder) (mapFn : MapFn) : ProcedureBuilder :=
  let def := internal_def b in
  createFn
    (Some (def_literal [def; [FmapFns (or_empty (def_mapFns def) ++ [mapFn])]]))
    (callbacks b).

Definition parseAiFn (fn : MapFn) : Outcome ProcedureBuilderDef :=
  match fn with
  | MapAiFunction d => Returned d
  | MapTransform _ => Thrown "Not an Ai function."
  end.

Definition safeParseAiFn (fn : MapFn) : option ProcedureBuilderDef :=
  match parseAiFn fn with
  | Returned d => Some d
  | _ => None
  end.

Definition sequence (b : ProcedureBuilder) (t : MapFn) : Outcome ProcedureBuilder :=
  let def := internal_def b in
  match parseAiFn t with
  | Returned aiFn_def =>
      Returned
        (createFn
           (Some (def_literal
                    [def;
                     [Fsequences (or_empty (def_sequences def)
                                    ++ [SequenceDef aiFn_def])]]))
           (callbacks b))
  | Thrown e => Thrown e
  | OutOfFuel => OutOfFuel
  end.

Definition document (b : ProcedureBuilder) (d : JSValue) : ProcedureBuilder :=
  let def := internal_def b in
  createFn
    (Some (def_literal [def; [Fdocuments (or_empty (def_documents def) ++ [d])]]))
    (callbacks b).

Definition query (b : ProcedureBuilder) (q : JSValue -> World -> JSValue * World)
    : ProcedureBuilder :=
  createFn (Some (def_literal [internal_def b; [Fquery true q]])) (callbacks b).

Definition verify (b : ProcedureBuilder) (verifyFn : VerifyFn) : ProcedureBuilder :=
  createFn (Some (def_literal [internal_def b; [Fverify verifyFn]])) (callbacks b).

(** What [JSON.stringify] sees of a Definition.  A value that is a
    JavaScript function serialises as [undefined] does. *)
Fixpoint Field_toJSON (f : Field) : JSValue :=
  match f with
  | Fid v => JSString v
  | Fname v => JSString v
  | Fdescription v => JSString v
  | Foutput p => Parser_toJSON p
  | FtsOutputString v => JSString v
  | Fmodel m => JSObject m
  | Fdocuments l => JSArray l
  | Ffunctions l => JSArray (List.map FunctionDef_toJSON l)
  | Fquery queryInput _ =>
      JSObject [("queryInput", JSBool queryInput); ("fn", JSUndefined)]
  | Finstructions v => JSString v
  | Fdataset l => JSArray l
  | FmapFns l => JSArray (List.map (fun _ => JSUndefined) l)
  | Fverify _ => JSUndefined
  | Fsequences l =>
      JSArray
        (List.map
           (fun s => match s with
                     | SequenceDef d =>
                         JSObject (List.map (fun g => (key_of g, Field_toJSON g)) d)
                     | SequenceFunction _ => JSUndefined
                     end) l)
  end.

Definition def_toJSON (def : ProcedureBuilderDef) : JSValue :=
  JSObject (List.map (fun f => (key_of f, Field_toJSON f)) def).

Definition Number_of_N (n : N) : string := string_of_Z (Z.of_N n).

(** The text [create()] hands to [cyrb53]. *)
Definition hashed_text (def : ProcedureBuilderDef) : string :=
  option_ToString (JSON_stringify (def_toJSON def)).

Definition create (b : ProcedureBuilder) : Async AiFunction :=
  let def := internal_def b in
  let sha := cyrb53 (hashed_text def) in
  let defWithId := def_literal [def; [Fid (Number_of_N sha)]] in
  let fn := {| ai_internal_def := defWithId; ai_callbacks := callbacks b |} in
  Engine.when_created (callbacks b) defWithId ;;
  ret fn.

(** A call on a builder that [createFn] has just made: the closure is new,
    its two variables start undefined and are dropped when the call is over. *)
Definition in_new_closure {A : Type} (c : Async A) : Async A :=
  fun s =>
    let (r, s') := c {| execution := None;
                        current_functionExecutionId := None;
                        world := world s;
                        events := events s |} in
    (r, {| execution := execution s;
           current_functionExecutionId := current_functionExecutionId s;
           world := world s';
           events := events s' |}).

(** [p.finalResponse] *)
Definition finalResponse_of (p : Execution) : JSValue :=
  match finalResponse p with
  | Some r => r
  | None => JSUndefined
  end.

(** The method [run]: the closure's [run], then the [reduce] over
    [def.mapFns].  Each round of the [reduce] awaits the one before it.
    [safeParseAiFn fn] is a Definition exactly when [fn] is a
    [MapAiFunction]. *)
Fixpoint run (fuel : nat) (b : ProcedureBuilder) (runtimeArgs : JSValue)
    (executionId : option string) : Async Execution :=
  match fuel with
  | O => out_of_fuel
  | S fuel' =>
      let def := internal_def b in
      let args := callbacks b in
      firstResponse <- Engine.run def args fuel' runtimeArgs executionId ;;
      (fix reduce (mapFns : list MapFn) (p : Execution) : Async Execution :=
         match mapFns with
         | [] => ret p
         | fn :: rest =>
             next <- match fn with
                     | MapAiFunction functionDef =>
                         Engine.createTrace args
                           (ExecutingFunction functionDef (finalResponse_of p))
                           None ;;
                         s <- get ;;
                         in_new_closure
                           (run fuel' (createFn (Some functionDef) args)
                              (JSObject (own_props (finalResponse_of p)))
                              (option_map id (execution s)))
                     | MapTransform f =>
                         s <- get ;;
                         appliedMap <-
                           external
                             (applyMapFn f (finalResponse_of p) (execution s)
                                runtimeArgs) ;;
                         Engine.resolveExecution args appliedMap []
                     end ;;
             reduce rest next
         end) (or_empty (def_mapFns def)) firstResponse
  end.

(** Calling the function [create()] returned. *)
Definition call (fuel : nat) (fn : AiFunction) (arg : JSValue)
    (executionId : option string) : Async JSValue :=
  r <- in_new_closure
         (run fuel (createFn (Some (ai_internal_def fn)) (ai_callbacks fn))
            arg executionId) ;;
  ret (finalResponse_of r).

End Methods.
End Builder.

(** ** Promises: the runs that are under way at the same time

    [runDataset] calls [run] for every entry of the dataset before any of
    these calls goes past its first [await], and all of them work on the
    two variables of the one closure.  For this the asynchronous functions
    of the module are written a second time, with their [await]s marked: a
    call runs up to its first [await] and leaves a promise, which says what
    the function does each time it is resumed.  Taken alone, from its call
    to its result, each of them is the function of the sections above
    ([method_run_alone] below). *)

Module Promises.
Section Resumptions.
Context {platform : Platform} {collaborators : Collaborators}.

(** The promise of an asynchronous function: settled, or pending with what
    the function does when it is resumed, up to its next [await]. *)
Inductive Promise (A : Type) : Type :=
| Settled (o : Outcome A)
| Pending (resume : State -> Promise A * State).
Arguments Settled {A} o.
Arguments Pending {A} resume.

(** A call of an asynchronous function: what it does up to its first
    [await], and its promise. *)
Definition Proc (A : Type) : Type := State -> Promise A * State.

(** Code without an [await]. *)
Definition sync {A : Type} (c : Async A) : Proc A :=
  fun s => let (o, s') := c s in (Settled o, s').

(** What follows a promise inside a function: right away when the promise
    is settled, in the same turn as the promise is otherwise; a rejection
    is thrown. *)
Fixpoint continue {A B : Type} (t : Promise A) (k : A -> Proc B) : Proc B :=
  match t with
  | Settled (Returned a) => k a
  | Settled (Thrown e) => fun s => (Settled (Thrown e), s)
  | Settled OutOfFuel => fun s => (Settled OutOfFuel, s)
  | Pending resume =>
      fun s =>
        (Pending (fun s1 => let (t', s2) := resume s1 in continue t' k s2), s)
  end.

Definition pbind {A B : Type} (p : Proc A) (k : A -> Proc B) : Proc B :=
  fun s => let (t, s') := p s in continue t k s'.

(** [await]: the function stops, also when the promise is settled already,
    and is resumed in a later turn than the one that settles the promise. *)
Fixpoint suspended {A : Type} (t : Promise A) : Promise A :=
  match t with
  | Settled o => Pending (fun s => (Settled o, s))
  | Pending resume =>
      Pending (fun s => let (t', s') := resume s in (suspended t', s'))
  end.

Definition await {A : Type} (p : Proc A) : Proc A :=
  fun s => let (t, s') := p s in (suspended t, s').

(** An asynchronous call of a collaborator: its answer is there when the
    promise is resumed. *)
Definition later {A : Type} (c : Async A) : Proc A :=
  fun s => (Pending (sync c), s).

(** A promise taken alone: resumed until it is settled. *)
Fixpoint alone {A : Type} (t : Promise A) (s : State) : Outcome A * State :=
  match t with
  | Settled o => (o, s)
  | Pending resume => let (t', s') := resume s in alone t' s'
  end.

Definition call_alone {A : Type} (p : Proc A) : Async A :=
  fun s => let (t, s') := p s in alone t s'.

(** The promise of a function of another closure, which has the two
    variables [closure] of its own: a turn of it reads and writes these, and
    the world and the events of everyone. *)
Fixpoint in_closure {A : Type}
    (closure : option Execution * option string) (t : Promise A) : Promise A :=
  match t with
  | Settled o => Settled o
  | Pending resume =>
      Pending
        (fun s =>
           let (t', s') := resume {| execution := fst closure;
                                     current_functionExecutionId := snd closure;
                                     world := world s;
                                     events := events s |} in
           (in_closure (execution s', current_functionExecutionId s') t',
            {| execution := execution s;
               current_functionExecutionId := current_functionExecutionId s;
               world := world s';
               events := events s' |}))
  end.

(** A call on a builder that [createFn] has just made. *)
Definition in_new_closure {A : Type} (p : Proc A) : Proc A :=
  fun s =>
    let (t, s') := p {| execution := None;
                        current_functionExecutionId := None;
                        world := world s;
                        events := events s |} in
    (in_closure (execution s', current_functionExecutionId s') t,
     {| execution := execution s;
        current_functionExecutionId := current_functionExecutionId s;
        world := world s';
        events := events s' |}).

End Resumptions.

Arguments Settled {platform A} o.
Arguments Pending {platform A} resume.

Declare Scope proc_scope.
Notation "x <- c ;; k" := (pbind c (fun x => k))
  (at level 61, c at next level, right associativity) : proc_scope.
Notation "c ;; k" := (pbind c (fun _ => k))
  (at level 61, right associativity) : proc_scope.

Section Closure.
Context {platform : Platform} {collaborators : Collaborators}.
Variable def : ProcedureBuilderDef.
Variable args : Callbacks.
Local Open Scope proc_scope.

(** A loop over a list, each step awaited before the next. *)
Fixpoint each {A B : Type} (f : A -> Proc B) (l : list A) : Proc (list B) :=
  match l with
  | [] => sync (ret [])
  | a :: r => b <- await (f a) ;; bs <- each f r ;; sync (ret (b :: bs))
  end.

(** [getOpenAiModel().call(messages, {functions, function_call})] *)
Definition call_model (messages : list BaseMessage)
    (functions : list OpenAiFunction) (mode : FunctionCallOption)
    : Proc AIMessage :=
  sync (emit (ModelCall messages functions mode)) ;;
  later (external (ChatOpenAI_call (def_model def) messages functions mode)).

Fixpoint callZodOutput (fuel : nat) (messages : list BaseMessage)
    (zodSchema : Parser) (retries : nat)
    : Proc (JSValue * list BaseMessage) :=
  match fuel with
  | O => sync out_of_fuel
  | S fuel' =>
      id <- sync (Engine.createTrace args
                    (CallingOpenAi (map fromLangChainMessage messages))
                    (Some Loading)) ;;
      let userFunctions := or_empty (def_functions def) in
      let functions := (userFunctions ++ [Engine.printFn zodSchema])%list in
      let openAiFunctions := map toOpenAiFunction functions in
      resp <- await (call_model messages openAiFunctions
                       (if (List.length userFunctions =? 0)%nat
                        then ForceName "print" else Auto)) ;;
      let messages := (messages ++ [AIMessageOf resp])%list in
      match function_call_of resp with
      | None =>
          sync (Engine.updateTrace args id
                  (response_update
                     (Error ("No function call found, Got text instead: "
                               ++ text resp)))) ;;
          callZodOutput fuel'
            (messages ++ [Engine.please_use_print zodSchema])
            zodSchema (retries + 1)
      | Some raw_call =>
          functionCallJson <- await (sync (ret (functionCallSchema raw_call))) ;;
          match functionCallJson with
          | ParseSuccess data =>
              match find (fun f => name f =? call_name data) functions with
              | None =>
                  sync (throw ("Function " ++ call_name data ++ " not found in "
                                 ++ option_ToString
                                      (JSON_stringify
                                         (JSArray
                                            (map (fun f => JSString (name f))
                                               functions)))))
              | Some fn =>
                  match safeParse (parameters fn) (call_arguments data) with
                  | ParseSuccess argument_data =>
                      if name fn =? "print" then
                        match get_prop "argument" argument_data with
                        | None => sync (throw "TypeError: Cannot read properties")
                        | Some response =>
                            sync (Engine.updateTrace args id
                                    (response_update
                                       (Success
                                          (JSObject
                                             [("type", JSString "response");
                                              ("data", response)])))) ;;
                            sync (ret (response,
                                       (messages
                                          ++ [FunctionMessage "Success" "print"])%list))
                        end
                      else
                        sync (Engine.updateTrace args id
                                (response_update
                                   (Success
                                      (JSObject
                                         [("type", JSString "functionCall");
                                          ("data", argument_data)])))) ;;
                        id2 <- sync (Engine.createTrace args
                                       (CallingFunction
                                          (JSObject
                                             [("name", JSString (name fn));
                                              ("description",
                                               JSString (description fn));
                                              ("parameters", argument_data)]))
                                       (Some Loading)) ;;
                        fnResponse <- await (match implements fn with
                                             | Some f =>
                                                 later (external (f argument_data))
                                             | None => sync (ret None)
                                             end) ;;
                        sync (Engine.updateTrace args id2
                                (response_update
                                   (Success (match fnResponse with
                                             | Some r => JSString r
                                             | None => JSUndefined
                                             end)))) ;;
                        callZodOutput fuel'
                          (messages
                             ++ [FunctionMessage
                                   (match fnResponse with
                                    | Some r =>
                                        if r =? "" then "No response" else r
                                    | None => "No response"
                                    end)
                                   (name fn)])
                          zodSchema retries
                  | ParseError message =>
                      sync (Engine.updateTrace args id
                              (response_update
                                 (ZodError (call_arguments data) message))) ;;
                      if (3 <? retries)%nat then
                        sync (Engine.updateTrace args id
                                (response_update TimeoutError)) ;;
                        sync (ret (JSString message, messages))
                      else
                        callZodOutput fuel'
                          (messages
                             ++ [Engine.createValidationErrorFunctionMessage
                                   message])
                          zodSchema (retries + 1)
                  end
              end
          | ParseError message =>
              sync (Engine.updateTrace args id
                      (response_update (ZodError raw_call message))) ;;
              if (3 <? retries)%nat then
                sync (Engine.updateTrace args id (response_update TimeoutError)) ;;
                sync (ret (JSString message, messages))
              else
                callZodOutput fuel'
                  (messages
                     ++ [Engine.createValidationErrorFunctionMessage message])
                  zodSchema (retries + 1)
          end
      end
  end.

Definition getQueryDoc (queryArg : JSValue) : Proc (option string) :=
  match truthy queryArg, def_query def with
  | true, Some (_, fn) =>
      id <- sync (Engine.createTrace args (Query queryArg) (Some Loading)) ;;
      query <- await (later (external (fn queryArg))) ;;
      let queryDoc := JSON_stringify query in
      sync (Engine.updateTrace args id
              (response_update
                 (Success (match queryDoc with
                           | Some s => JSString s
                           | None => JSUndefined
                           end)))) ;;
      sync (ret queryDoc)
  | _, _ => sync (ret None)
  end.

(** The [const run] of the closure.  As in [Engine.run], the promises of
    [Promise.all] over the documents are started in order and their
    continuations are taken in the same order. *)
Definition run (fuel : nat) (arg : JSValue) (_executionId : option string)
    : Proc Execution :=
  executionId <- sync (Engine.createExecution def arg _executionId) ;;
  match get_prop "instructions" arg, get_prop "documents" arg,
        get_prop "query" arg with
  | Some instructions, Some docs, Some queryArg =>
      sync (Engine.createTrace args (ExecutingFunction def arg) None) ;;
      queryDoc <- await (getQueryDoc queryArg) ;;
      let documents :=
        Engine.mapi_from 0
          (fun d i =>
             JSObject (set_entry fst ("input", optional_index docs i)
                         (own_props d)))
          (or_empty (def_documents def)) in
      let queryTemplate :=
        match truthy queryArg, def_query def with
        | true, Some _ =>
            "DOCUMENT:" ++ triple_quote ++ nl ++ "    "
              ++ option_ToString queryDoc ++ nl ++ "  " ++ triple_quote ++ nl
        | _, _ => ""
        end in
      userPrompt <- sync (match Engine.instructions_template def with
                          | Some template =>
                              bind (Engine.lift_outcome
                                      (interpolateFString template instructions))
                                (fun p => ret (JSString p))
                          | None =>
                              ret (if truthy instructions then instructions
                                   else JSString "")
                          end) ;;
      started <- sync (forM (fun d =>
                               bind (Engine.createTrace args (GetDocument d)
                                       (Some Loading))
                                 (fun id => ret (id, d)))
                            documents) ;;
      documentsTemplate <-
        await (each (fun task =>
                 documentContext <-
                   await (later (external
                                   (splitDocument (snd task) executionId
                                      userPrompt))) ;;
                 sync (Engine.updateTrace args (fst task)
                         (response_update (Success documentContext))) ;;
                 match get_prop "result" documentContext with
                 | None => sync (throw "TypeError: Cannot read properties")
                 | Some result =>
                     sync (ret ("DOCUMENT:" ++ triple_quote ++ nl
                                  ++ "            " ++ ToString result ++ nl
                                  ++ "            " ++ triple_quote))
                 end)
               started) ;;
      match def_output def, Engine.instructions_template def with
      | None, None => sync (Engine.resolveExecution args JSUndefined [])
      | _, _ =>
          let zodSchema := Engine.output_schema def in
          let userMessages :=
            ((if queryTemplate =? "" then []
              else [HumanMessage (JSString queryTemplate)])
             ++ (if (0 <? List.length documentsTemplate)%nat
                 then [HumanMessage (JSString (join nl documentsTemplate))]
                 else [])
             ++ (if truthy userPrompt then [HumanMessage userPrompt] else []))%list in
          let chatMessages := Engine.systemPrompt :: userMessages in
          answer <- await (callZodOutput fuel chatMessages zodSchema 0) ;;
          sync (Engine.resolveExecution args (fst answer) [])
      end
  | _, _, _ => sync (throw "TypeError: Cannot destructure")
  end.

End Closure.

Section Methods.
Context {platform : Platform} {collaborators : Collaborators}.
Local Open Scope proc_scope.

(** The method [run]: [await run(...).then(...)], and in the [reduce] one
    [await] of the step before at the start of every step. *)
Fixpoint method_run (fuel : nat) (b : Builder.ProcedureBuilder)
    (runtimeArgs : JSValue) (executionId : option string) : Proc Execution :=
  match fuel with
  | O => sync out_of_fuel
  | S fuel' =>
      let def := Builder.internal_def b in
      let args := Builder.callbacks b in
      firstResponse <- await (run def args fuel' runtimeArgs executionId) ;;
      finalResponse <-
        await
          ((fix reduce (mapFns : list MapFn) (_p : Proc Execution)
              : Proc Execution :=
              match mapFns with
              | [] => _p
              | fn :: rest =>
                  reduce rest
                    (p <- await _p ;;
                     match fn with
                     | MapAiFunction functionDef =>
                         sync (Engine.createTrace args
                                 (ExecutingFunction functionDef
                                    (Builder.finalResponse_of p))
                                 None) ;;
                         s <- sync get ;;
                         in_new_closure
                           (method_run fuel'
                              (Builder.createFn (Some functionDef) args)
                              (JSObject (own_props (Builder.finalResponse_of p)))
                              (option_map id (execution s)))
                     | MapTransform f =>
                         s <- sync get ;;
                         appliedMap <-
                           await (later
                                    (external
                                       (applyMapFn f (Builder.finalResponse_of p)
                                          (execution s) runtimeArgs))) ;;
                         sync (Engine.resolveExecution args appliedMap [])
                     end)
              end) (or_empty (def_mapFns def)) (sync (ret firstResponse))) ;;
      sync (ret finalResponse)
  end.

(** [Promise.all(procs)]: every call is made, in order; then the promises
    are resumed in the order of [schedule], which names one promise per
    turn.  The result is the first rejection there is, else the values once
    every promise is fulfilled; [OutOfFuel] when the schedule is over before
    that. *)
Fixpoint start_all {A : Type} (procs : list (Proc A)) (s : State)
    : list (Promise A) * State :=
  match procs with
  | [] => ([], s)
  | p :: rest =>
      let (t, s1) := p s in
      let (ts, s2) := start_all rest s1 in
      (t :: ts, s2)
  end.

Fixpoint first_rejection {A : Type} (ts : list (Promise A)) : option string :=
  match ts with
  | [] => None
  | Settled (Thrown e) :: _ => Some e
  | _ :: rest => first_rejection rest
  end.

Fixpoint replace_nth {A : Type} (i : nat) (x : A) (l : list A) : list A :=
  match l, i with
  | [], _ => []
  | _ :: r, O => x :: r
  | y :: r, S j => y :: replace_nth j x r
  end.

Fixpoint scheduled {A : Type} (schedule : list nat) (ts : list (Promise A))
    (rejected : option string) (s : State)
    : list (Promise A) * option string * State :=
  match schedule with
  | [] => (ts, rejected, s)
  | i :: turns =>
      match nth_error ts i with
      | Some (Pending resume) =>
          let (t', s') := resume s in
          scheduled turns (replace_nth i t' ts)
            (match rejected, t' with
             | None, Settled (Thrown e) => Some e
             | _, _ => rejected
             end) s'
      | _ => scheduled turns ts rejected s
      end
  end.

Fixpoint fulfilled {A : Type} (ts : list (Promise A)) : option (list A) :=
  match ts with
  | [] => Some []
  | Settled (Returned a) :: rest => option_map (cons a) (fulfilled rest)
  | _ :: _ => None
  end.

Definition Promise_all {A : Type} (procs : list (Proc A)) (schedule : list nat)
    : Async (list A) :=
  fun s =>
    let (ts, s1) := start_all procs s in
    let '(ts', rejected, s2) := scheduled schedule ts (first_rejection ts) s1 in
    (match rejected with
     | Some e => Thrown e
     | None => match fulfilled ts' with
               | Some values => Returned values
               | None => OutOfFuel
               end
     end, s2).

(** [runDataset()]: [this.run] is the method [run] of the builder itself, so
    every run of the dataset works on the variables of the one closure. *)
Definition runDataset (fuel : nat) (b : Builder.ProcedureBuilder)
    (schedule : list nat) : Async (list Execution) :=
  match def_dataset (Builder.internal_def b) with
  | None => throw "No dataset"
  | Some dataset =>
      Promise_all (map (fun d => method_run fuel b d None) dataset) schedule
  end.

End Methods.
End Promises.

(** ** The log registry of [initLLmFunction] *)

Module Registry.
Section Logs.
Context {platform : Platform}.

(** Modelled from the spec: one step of [mergeOrUpdate], for one incoming
    entry: it overwrites the existing entry with its key, and is appended
    when there is none. *)
Fixpoint upsert {A : Type} (key : A -> string) (x : A) (l : list A) : list A :=
  match l with
  | [] => [x]
  | y :: r => if key y =? key x then x :: r else y :: upsert key x r
  end.

(** Modelled from the spec: [mergeOrUpdate] of [./utils] is not among the
    sources.  The spec reconciles [functionsExecuted] by key: an incoming
    entry overwrites the existing entry with its key, an existing entry
    without an incoming one is preserved, the order is that of the existing
    list and incoming entries that match nothing are appended. *)
Definition mergeOrUpdate {A : Type} (existing incoming : list A)
    (key : A -> string) : list A :=
  fold_left (fun merged x => upsert key x merged) incoming existing.

(** [(o) => o.functionExecutionId || ''] *)
Definition execution_key (o : FunctionExecuted) : string :=
  if functionExecutionId o =? "" then "" else functionExecutionId o.

(** [mergedLogs] for an existing log and an incoming one. *)
Definition merge (existingLog l : Execution) : Execution :=
  {| id := id l;
     createdAt := createdAt l;
     functionsExecuted :=
       mergeOrUpdate (functionsExecuted existingLog) (functionsExecuted l)
         execution_key;
     finalResponse := match finalResponse l with
                      | Some r => Some r
                      | None => finalResponse existingLog
                      end;
     verified := match verified l with
                 | Some v => Some v
                 | None => verified existingLog
                 end |}.

(** [executionLogs], and the calls of [logsProvider.saveLog] in order. *)
Record Logs : Type := {
  executionLogs : list Execution;
  saved : list Execution
}.

Definition logHandler (logsProvider : bool) (l : Execution) (s : Logs)
    : Execution * Logs :=
  match find (fun e => id e =? id l) (executionLogs s) with
  | None =>
      (l, {| executionLogs := executionLogs s ++ [l];
             saved := if logsProvider then saved s ++ [l] else saved s |})
  | Some existingLog =>
      let mergedLogs := merge existingLog l in
      (mergedLogs,
       {| executionLogs :=
            map (fun e => if id e =? id mergedLogs then mergedLogs else e)
                (executionLogs s);
          saved := if logsProvider then saved s ++ [mergedLogs] else saved s |})
  end.

End Logs.
End Registry.

(** ** A small concrete platform, to run the definitions on

    The world is a counter that [nanoid] advances; a schema is its own
    validation function; the chat model is a function of the conversation. *)

Module Sample.

Definition string_schema : JSValue -> SafeParseReturnType JSValue :=
  fun v => match v with
           | JSString _ => ParseSuccess v
           | _ => ParseError "Expected string"
           end.

Definition object_schema
    (shape : list (string * (JSValue -> SafeParseReturnType JSValue)))
    : JSValue -> SafeParseReturnType JSValue :=
  fun v => match v with
           | JSObject props =>
               if forallb (fun field =>
                             match assoc (fst field) props with
                             | Some x => match snd field x with
                                         | ParseSuccess _ => true
                                         | ParseError _ => false
                                         end
                             | None => false
                             end) shape
               then ParseSuccess v
               else ParseError "Invalid object"
           | _ => ParseError "Expected object"
           end.

Definition union_schema
    (options : list (JSValue -> SafeParseReturnType JSValue))
    : JSValue -> SafeParseReturnType JSValue :=
  fun v => if existsb (fun p => match p v with
                                | ParseSuccess _ => true
                                | ParseError _ => false
                                end) options
           then ParseSuccess v
           else ParseError "Invalid input".

(** The properties of [Object.prototype], with the text V8 gives each of
    them in a string concatenation. *)
Definition native (fname : string) : string :=
  "function " ++ fname ++ "() { [native code] }".

Definition Object_prototype : list (string * string) :=
  [("constructor", native "Object");
   ("__defineGetter__", native "__defineGetter__");
   ("__defineSetter__", native "__defineSetter__");
   ("hasOwnProperty", native "hasOwnProperty");
   ("__lookupGetter__", native "__lookupGetter__");
   ("__lookupSetter__", native "__lookupSetter__");
   ("isPrototypeOf", native "isPrototypeOf");
   ("propertyIsEnumerable", native "propertyIsEnumerable");
   ("toString", native "toString");
   ("valueOf", native "valueOf");
   ("__proto__", "[object Object]");
   ("toLocaleString", native "toLocaleString")].

#[export] Instance platform : Platform := {|
  World := nat;
  inherited := fun v key => match v with
                            | JSObject _ => assoc key Object_prototype
                            | _ => None
                            end;
  Parser := JSValue -> SafeParseReturnType JSValue;
  safeParse := fun p v => p v;
  z_string := string_schema;
  z_object := object_schema;
  z_union := union_schema;
  Parser_toJSON := fun _ => JSObject [];
  zodToJsonSchema := fun _ => JSObject [];
  printNode_zodToTs := fun _ => "unknown";
  Transform := JSValue -> JSValue;
  VerifyFn := unit;
  SequenceFn := unit;
  OpenAiFunction := string;
  Message := BaseMessage
|}.

Definition envelope (v : JSValue) : SafeParseReturnType FunctionCall :=
  match v with
  | JSObject props =>
      match assoc "name" props, assoc "arguments" props with
      | Some (JSString n), Some a =>
          ParseSuccess {| call_name := n; call_arguments := a |}
      | _, _ => ParseError "Invalid function call"
      end
  | _ => ParseError "Invalid function call"
  end.

(** The collaborators around a chat model [reply]. *)
Definition collaborators_with (reply : list BaseMessage -> AIMessage)
    : Collaborators := {|
  nanoid := fun w => ("id" ++ string_of_nat w, S w);
  Date_now := fun w => (0%Z, w);
  ChatOpenAI_call := fun _ messages _ _ w => (reply messages, w);
  toOpenAiFunction := fun f => name f;
  fromLangChainMessage := fun m => m;
  functionCallSchema := envelope;
  splitDocument := fun d _ _ w => (JSObject [("result", JSString "text")], w);
  applyMapFn := fun f v _ _ w => (f v, w);
  FunctionDef_toJSON := fun f => JSObject [("name", JSString (name f))];
  cyrb53 := fun s => N.of_nat (String.length s)
|}.

Definition function_call_reply (fname : string) (arguments : JSValue) : AIMessage :=
  {| text := "";
     function_call :=
       Some (JSObject [("name", JSString fname); ("arguments", arguments)]) |}.

(** A model that always calls [print] with a number where the schema wants a
    string; one that answers in plain text; one whose function call has no
    name; one that always calls the sub-function [lookup] with a number. *)
Definition bad_print (_ : list BaseMessage) : AIMessage :=
  function_call_reply "print" (JSNum 1 0).
Definition plain_text (_ : list BaseMessage) : AIMessage :=
  {| text := "hello"; function_call := None |}.
Definition bad_envelope (_ : list BaseMessage) : AIMessage :=
  {| text := ""; function_call := Some (JSObject [("arguments", JSNull)]) |}.
Definition bad_lookup (_ : list BaseMessage) : AIMessage :=
  function_call_reply "lookup" (JSNum 1 0).

Definition lookup_fn : FunctionDef :=
  {| name := "lookup";
     description := "Look a word up";
     parameters := string_schema;
     implements := Some (fun _ w => (Some "found", w)) |}.

Definition plain_def : ProcedureBuilderDef :=
  Builder.internal_def
    (Builder.createFn None {| onExecutionUpdate := false; onCreated := false |}).

Definition lookup_def : ProcedureBuilderDef :=
  Builder.internal_def
    (Builder.functions
       (Builder.createFn None {| onExecutionUpdate := false; onCreated := false |})
       [lookup_fn]).

Definition no_callbacks : Callbacks :=
  {| onExecutionUpdate := false; onCreated := false |}.
Definition observed : Callbacks :=
  {| onExecutionUpdate := true; onCreated := true |}.

Definition good_print (_ : list BaseMessage) : AIMessage :=
  function_call_reply "print" (JSString "hi").

(** A builder with one plain map step, and one whose map step is an AI
    function that has instructions. *)
Definition mapped_builder : Builder.ProcedureBuilder :=
  Builder.map (Builder.createFn None no_callbacks)
    (MapTransform (fun _ => JSString "mapped")).

Definition instructed_def : ProcedureBuilderDef :=
  Builder.internal_def
    (Builder.instructions (Builder.createFn None no_callbacks) "Say hi").

Definition ai_mapped_builder : Builder.ProcedureBuilder :=
  Builder.map (Builder.createFn None no_callbacks) (MapAiFunction instructed_def).

Definition dataset_builder : Builder.ProcedureBuilder :=
  Builder.dataset (Builder.createFn None no_callbacks)
    [JSObject [("instructions", JSObject [("letter", JSString "A")])];
     JSObject [("instructions", JSObject [("letter", JSString "B")])]].

(** The builder [initLLmFunction] starts from: [createFn({ id: 'test' },
    logHandler, onCreate)]. *)
Definition registry_builder : Builder.ProcedureBuilder :=
  Builder.createFn (Some [Fid "test"]) observed.

(** A text with every double quote shown as an apostrophe. *)
Fixpoint apostrophes (s : string) : string :=
  match s with
  | EmptyString => ""
  | String c r =>
      String (if (nat_of_ascii c =? 34)%nat then "'"%char else c) (apostrophes r)
  end.

(** An Execution in the registry and an update of it that comes in. *)
Definition sub_record (fid : string) (t : Trace) (r : option JSValue)
    : FunctionExecuted :=
  {| functionExecutionId := fid;
     inputs := JSObject [];
     trace := t;
     sub_finalResponse := r;
     functionDef := plain_def |}.

Definition stored_execution : Execution :=
  {| id := "run";
     createdAt := 1%Z;
     functionsExecuted := [sub_record "a" [] None; sub_record "b" [] None];
     finalResponse := None;
     verified := None |}.

Definition incoming_execution : Execution :=
  {| id := "run";
     createdAt := 2%Z;
     functionsExecuted :=
       [sub_record "b" [] (Some (JSString "done")); sub_record "c" [] None];
     finalResponse := Some (JSString "done");
     verified := None |}.

Definition initial : State :=
  {| execution := None;
     current_functionExecutionId := None;
     world := 0;
     events := [] |}.

(** The state a closure is in once [createExecution] has run. *)
Definition started (def : ProcedureBuilderDef) : State :=
  snd (Engine.createExecution (collaborators := collaborators_with plain_text)
         def (JSObject []) None initial).

End Sample.

(** ** What a state records *)

Section Observations.
Context {platform : Platform}.

Definition is_ModelCall (ev : Event) : bool :=
  match ev with
  | ModelCall _ _ _ => true
  | _ => false
  end.

(** The number of calls of the chat model so far. *)
Definition model_calls (s : State) : nat :=
  List.length (filter is_ModelCall (events s)).

(** The traces of the sub-records that [createTrace] and [updateTrace]
    write to. *)
Definition current_traces (s : State) : list Trace :=
  match execution s with
  | Some e => map trace (filter (is_current s) (functionsExecuted e))
  | None => []
  end.

(** From [s] to [s']: an Execution is still there, the chat model was called
    [calls] more times, and every current trace went through [change]. *)
Definition evolves (calls : nat) (change : Trace -> Trace) (s s' : State) : Prop :=
  execution s' <> None
  /\ model_calls s' = calls + model_calls s
  /\ current_traces s' = map change (current_traces s).

Definition update_in (id : string) (p : PartialAction) (t : Trace) : Trace :=
  map (fun a => if action_id a =? id then merge_action a p else a) t.

Definition ends_with (P : Action -> Prop) (t : Trace) : Prop :=
  exists pre a, t = (pre ++ [a])%list /\ P a.

Definition is_CallingOpenAi (a : Action) : Prop :=
  match action a with
  | CallingOpenAi _ => True
  | _ => False
  end.

(** *** Definitions as the builder holds them *)

(** The shape of the Definition of every builder: [model] is its first key
    and no key occurs twice. *)
Definition builder_def (d : ProcedureBuilderDef) : Prop :=
  (exists m rest, d = Fmodel m :: rest) /\ NoDup (keys key_of d).

(** The field a Definition has under a key. *)
Definition field_at (k : string) (d : ProcedureBuilderDef) : option Field :=
  find (fun f => key_of f =? k) d.

(** A Definition without its [id]. *)
Definition without_id (d : ProcedureBuilderDef) : ProcedureBuilderDef :=
  filter (fun f => negb (key_of f =? "id")) d.

(** [b'] is [b] with the field [f] set: the key keeps its place when the
    Definition has it already and goes to the end otherwise; the callbacks
    are passed on. *)
Definition layered (f : Field) (b b' : Builder.ProcedureBuilder) : Prop :=
  Builder.internal_def b' = set_entry key_of f (Builder.internal_def b)
  /\ Builder.callbacks b' = Builder.callbacks b.

(** *** The reply the chat model gives, and the branch it takes

    [reply_of] is the reply [callZodOutput] receives when it is entered in
    state [s] with [messages]; [classify] names the branch of
    [callZodOutput] that a reply selects. *)

Context {collaborators : Collaborators}.
Variable def : ProcedureBuilderDef.

Definition functions_of (zodSchema : Parser) : list FunctionDef :=
  (or_empty (def_functions def) ++ [Engine.printFn zodSchema])%list.

Definition reply_of (zodSchema : Parser) (messages : list BaseMessage)
    (s : State) : AIMessage :=
  fst (ChatOpenAI_call (def_model def) messages
         (map toOpenAiFunction (functions_of zodSchema))
         (if (List.length (or_empty (def_functions def)) =? 0)%nat
          then ForceName "print" else Auto)
         (snd (nanoid (world s)))).

Inductive Branch : Type :=
| NoFunctionCall
| EnvelopeError (raw_call : JSValue) (message : string)
| FunctionNotFound (data : FunctionCall)
| ArgumentsError (data : FunctionCall) (fn : FunctionDef) (message : string)
| ArgumentsValid (data : FunctionCall) (fn : FunctionDef) (argument_data : JSValue).

Definition classify (zodSchema : Parser) (resp : AIMessage) : Branch :=
  match function_call_of resp with
  | None => NoFunctionCall
  | Some raw_call =>
      match functionCallSchema raw_call with
      | ParseError message => EnvelopeError raw_call message
      | ParseSuccess data =>
          match find (fun f => name f =? call_name data) (functions_of zodSchema) with
          | None => FunctionNotFound data
          | Some fn =>
              match safeParse (parameters fn) (call_arguments data) with
              | ParseError message => ArgumentsError data fn message
              | ParseSuccess argument_data => ArgumentsValid data fn argument_data
              end
          end
      end
  end.

(** The recorded action for a call of the chat model made with [messages]. *)
Definition calling_open_ai (id : string) (messages : list BaseMessage)
    (r : Response) : Action :=
  {| action_id := id;
     action := CallingOpenAi (map fromLangChainMessage messages);
     response := Some r |}.

(** What one round of [callZodOutput] does to a trace: the action of the
    call is appended as [loading], then updated with each response of
    [updates] in turn. *)
Definition recorded (id : string) (messages : list BaseMessage)
    (updates : list Response) (t : Trace) : Trace :=
  fold_left (fun t r => update_in id (response_update r) t) updates
    (t ++ [calling_open_ai id messages Loading])%list.

(** Every reply of the chat model satisfies [P]. *)
Definition always (P : AIMessage -> Prop) : Prop :=
  forall model messages functions mode w,
    P (fst (ChatOpenAI_call model messages functions mode w)).

(** The message of the validation error a reply runs into, if it does:
    either its envelope or its arguments do not parse. *)
Definition failure_message (zodSchema : Parser) (resp : AIMessage)
    : option string :=
  match classify zodSchema resp with
  | EnvelopeError _ message => Some message
  | ArgumentsError _ _ message => Some message
  | _ => None
  end.

Definition no_timeout (t : Trace) : Prop :=
  Forall (fun a => response a <> Some TimeoutError) t.

Definition timed_out (a : Action) : Prop :=
  is_CallingOpenAi a /\ response a = Some TimeoutError.

(** An Execution is active and all its sub-records are the current one. *)
Definition active (s : State) : Prop :=
  exists e,
    execution s = Some e
    /\ Forall (fun fe => is_current s fe = true) (functionsExecuted e).

(** [c] returns, with a value in [P], keeps an Execution active and does not
    call the chat model. *)
Definition produces {A : Type} (P : A -> Prop) (c : Async A) : Prop :=
  forall s, active s ->
    exists a s',
      c s = (Returned a, s') /\ P a /\ active s'
      /\ model_calls s' = model_calls s.

(** [c] returns the Execution it leaves active, resolved with [undefined],
    without a call of the chat model. *)
Definition resolves_undefined (c : Async Execution) : Prop :=
  forall s, active s ->
    exists e s',
      c s = (Returned e, s')
      /\ execution s' = Some e
      /\ finalResponse e = Some JSUndefined
      /\ Forall (fun fe => sub_finalResponse fe = Some JSUndefined)
           (functionsExecuted e)
      /\ model_calls s' = model_calls s.

(** [c] does not call the chat model and is not cut by the fuel; when it
    returns, [P] holds of its value and of the state it leaves. *)
Definition settles {A : Type} (P : A -> State -> Prop) (c : Async A) : Prop :=
  forall s, active s ->
    model_calls (snd (c s)) = model_calls s
    /\ match fst (c s) with
       | Returned a => P a (snd (c s))
       | Thrown _ => True
       | OutOfFuel => False
       end.

(** The Execution [e] is the one the state holds, resolved with [undefined]
    for itself and for its sub-records. *)
Definition resolved_undefined (e : Execution) (s : State) : Prop :=
  execution s = Some e
  /\ finalResponse e = Some JSUndefined
  /\ Forall (fun fe => sub_finalResponse fe = Some JSUndefined)
       (functionsExecuted e).

End Observations.

(** ** Templates: what the nodes of [parseFString] stand for *)

Module Template.

(** A template text with every brace doubled: what one writes to get the
    text itself. *)
Definition escape_chars (l : list string) : list string :=
  flat_map (fun c => if c =? "{" then ["{"; "{"]
                     else if c =? "}" then ["}"; "}"] else [c]) l.

Definition escape_braces (s : string) : string :=
  String.concat "" (escape_chars (chars s)).

(** The template text of one node, and of a list of nodes. *)
Definition node_source (n : ParsedFStringNode) : string :=
  match n with
  | literal text => escape_braces text
  | variable name => "{" ++ name ++ "}"
  end.

Definition unparse (nodes : list ParsedFStringNode) : string :=
  String.concat "" (map node_source nodes).

(** [input.filter((d) => d.type == 'variable')] of the playground form. *)
Definition inputVariables (nodes : list ParsedFStringNode) : list string :=
  flat_map (fun n => match n with
                     | variable name => [name]
                     | literal _ => []
                     end) nodes.

(** Whether the object with the properties [props] has no value for the
    variable [name]: neither an own property nor an inherited one. *)
Definition missing {platform : Platform} (props : list (string * JSValue))
    (name : string) : bool :=
  match assoc name props, inherited (JSObject props) name with
  | None, None => true
  | _, _ => false
  end.

(** What a node contributes to the interpolated text: for a variable, the
    text of the own property, else of the inherited one. *)
Definition rendered {platform : Platform} (props : list (string * JSValue))
    (n : ParsedFStringNode) : string :=
  match n with
  | literal text => text
  | variable name =>
      match assoc name props with
      | Some x => ToString x
      | None => match inherited (JSObject props) name with
                | Some text => text
                | None => "undefined"
                end
      end
  end.

Definition is_brace (c : string) : bool := (c =? "{") || (c =? "}").

(** A string of one character, as [template.split("")] gives them. *)
Definition single (c : string) : Prop := exists a, c = String a EmptyString.

End Template.

(** ** How a closure's state moves *)

Section Frames.
Context {platform : Platform}.

(** What identifies a recorded action: its id and what it is an action of. *)
Definition skeleton (a : Action) : string * ActionBody :=
  (action_id a, action a).

(** [t'] is [t] with responses rewritten and actions added at the end. *)
Definition grows (t t' : Trace) : Prop :=
  exists more, map skeleton t' = (map skeleton t ++ more)%list.

Definition same_record (fe fe' : FunctionExecuted) : Prop :=
  functionExecutionId fe' = functionExecutionId fe
  /\ inputs fe' = inputs fe
  /\ functionDef fe' = functionDef fe
  /\ grows (trace fe) (trace fe').

(** [e'] is a later version of the Execution [e]: same id, date and
    verdict, the same sub-records in the same order, each trace grown. *)
Definition later_version (e e' : Execution) : Prop :=
  id e' = id e
  /\ createdAt e' = createdAt e
  /\ verified e' = verified e
  /\ Forall2 same_record (functionsExecuted e) (functionsExecuted e').

(** An event that a closure holding [e] may add: a call of the chat model,
    or the observer told a later version of [e].  A closure that holds no
    Execution tells the observer nothing. *)
Definition told (e : option Execution) (ev : Event) : Prop :=
  match ev with
  | ExecutionUpdate u =>
      match e with
      | Some e => later_version e u
      | None => False
      end
  | ModelCall _ _ _ => True
  | Created _ => False
  end.

(** From [s] to [s'] the closure kept its Execution, as a later version, and
    what was added to the events is about that Execution. *)
Definition continues (s s' : State) : Prop :=
  current_functionExecutionId s' = current_functionExecutionId s
  /\ match execution s with
     | None => execution s' = None
     | Some e => exists e', execution s' = Some e' /\ later_version e e'
     end
  /\ exists more,
       events s' = (events s ++ more)%list /\ Forall (told (execution s)) more.

(** [c] moves the state along [R], however it ends. *)
Definition within {A : Type} (R : State -> State -> Prop) (c : Async A) : Prop :=
  forall s, R s (snd (c s)).

(** When [c] returns, [Q] holds of its value and of the state it leaves. *)
Definition post {A : Type} (Q : A -> State -> Prop) (c : Async A) : Prop :=
  forall s a s', c s = (Returned a, s') -> Q a s'.

(** [e] is the Execution the closure holds; it has a final response, which
    its current sub-records have too; and [e] is what the observer, when
    there is one, was told last. *)
Definition resolved (args : Callbacks) (e : Execution) (s : State) : Prop :=
  execution s = Some e
  /\ (exists r,
        finalResponse e = Some r
        /\ Forall (fun fe => is_current s fe = true ->
                             sub_finalResponse fe = Some r)
             (functionsExecuted e))
  /\ (onExecutionUpdate args = true ->
      exists before, events s = (before ++ [ExecutionUpdate e])%list).

End Frames.

Section RequestedId.
Context {platform : Platform} {collaborators : Collaborators}.

(** [_executionId || nanoid.nanoid()] in state [s]. *)
Definition execution_id_of (_executionId : option string) (s : State) : string :=
  match _executionId with
  | Some j => if j =? "" then fst (nanoid (world s)) else j
  | None => fst (nanoid (world s))
  end.

End RequestedId.

(** ** The calls of the chat model *)

Section Calls.
Context {platform : Platform}.

(** A call of the chat model: the conversation, the functions offered and
    the [function_call] option. *)
Definition Call : Type :=
  (list BaseMessage * list OpenAiFunction * FunctionCallOption)%type.

Definition calls_of (evs : list Event) : list Call :=
  flat_map (fun ev => match ev with
                      | ModelCall m f mode => [(m, f, mode)]
                      | _ => []
                      end) evs.

(** From [s] to [s'] the chat model was called with [cs], in this order. *)
Definition new_calls (s s' : State) (cs : list Call) : Prop :=
  exists more, events s' = (events s ++ more)%list /\ calls_of more = cs.

(** However [c] ends, the calls it made are in [P]. *)
Definition emits {A : Type} (P : list Call -> Prop) (c : Async A) : Prop :=
  forall s, exists cs, new_calls s (snd (c s)) cs /\ P cs.

End Calls.

Section Dialogues.
Context {platform : Platform} {collaborators : Collaborators}.

(** Calls that make one dialogue from the conversation [m] with the chat
    model of parameters [model]: each call is made with the same functions
    and option, and with the conversation of the call before it, a reply of
    the chat model to that call and one message more. *)
Inductive dialogue (model : option (list (string * JSValue)))
    (fns : list OpenAiFunction) (mode : FunctionCallOption)
    : list BaseMessage -> list Call -> Prop :=
| dialogue_over m : dialogue model fns mode m []
| dialogue_round m w followup cs :
    dialogue model fns mode
      ((m ++ [AIMessageOf (fst (ChatOpenAI_call model m fns mode w))])
         ++ [followup])%list cs ->
    dialogue model fns mode m ((m, fns, mode) :: cs).

End Dialogues.

(** ** The registry's array of logs, as [initLLmFunction] shares it *)

Module Shared.
Section Arrays.
Context {platform : Platform}.

(** The arrays of Executions that exist, by address, and the address the
    variable [executionLogs] holds.  The array made by [let executionLogs =
    []] has address 0; [registry.executionLogs] is that array, for good. *)
Record Store : Type := {
  arrays : list (list Execution);
  executionLogs : nat;
  saved : list Execution
}.

Definition initial : Store :=
  {| arrays := [[]]; executionLogs := 0; saved := [] |}.

Definition array_at (a : nat) (s : Store) : list Execution :=
  nth a (arrays s) [].

Fixpoint set_nth {A : Type} (n : nat) (x : A) (l : list A) : list A :=
  match n, l with
  | _, [] => []
  | O, _ :: r => x :: r
  | S k, y :: r => y :: set_nth k x r
  end.

(** [registry.executionLogs] *)
Definition registry_executionLogs (s : Store) : list Execution := array_at 0 s.

(** [(l) => (executionLogs = l)], when the promise of [getLogs()] resolves
    with a new array [l]. *)
Definition logs_loaded (l : list Execution) (s : Store) : Store :=
  {| arrays := (arrays s ++ [l])%list;
     executionLogs := List.length (arrays s);
     saved := saved s |}.

(** [logHandler]: [push] writes to the array the variable holds; [map] makes
    a new array, which the variable then holds. *)
Definition logHandler (logsProvider : bool) (l : Execution) (s : Store)
    : Execution * Store :=
  let current := array_at (executionLogs s) s in
  match find (fun e => id e =? id l) current with
  | None =>
      (l, {| arrays := set_nth (executionLogs s) (current ++ [l])%list (arrays s);
             executionLogs := executionLogs s;
             saved := if logsProvider then (saved s ++ [l])%list else saved s |})
  | Some existingLog =>
      let mergedLogs := Registry.merge existingLog l in
      (mergedLogs,
       {| arrays :=
            (arrays s
               ++ [map (fun e => if id e =? id mergedLogs then mergedLogs else e)
                       current])%list;
          executionLogs := List.length (arrays s);
          saved := if logsProvider then (saved s ++ [mergedLogs])%list
                   else saved s |})
  end.

(** What the list model of the registry sees of a store. *)
Definition logs_of (s : Store) : Registry.Logs :=
  {| Registry.executionLogs := array_at (executionLogs s) s;
     Registry.saved := saved s |}.

(** The variable holds an array that exists. *)
Definition well_formed (s : Store) : Prop :=
  executionLogs s < List.length (arrays s).

End Arrays.
End Shared.

(** ** The playground's list of responses *)

Module Playground.
Section Responses.
Context {platform : Platform}.

(** The updater given to [setResponse] for an Execution [t]:
    [(resp) => { const r = resp?.find((d) => d.id === t.id);
                 if (r) { return resp?.map((d) => (d.id === t.id ? t : d)); }
                 return [...(resp || []), t]; }].
    [None] is the initial state [undefined]. *)
Definition setResponse_updater (t : Execution) (resp : option (list Execution))
    : option (list Execution) :=
  match match resp with
        | Some l => find (fun d => id d =? id t) l
        | None => None
        end with
  | Some _ => option_map (map (fun d => if id d =? id t then t else d)) resp
  | None => Some (or_empty resp ++ [t])%list
  end.

End Responses.
End Playground.

(** ** The observer of a run, and the registry behind it *)

Section Observer.
Context {platform : Platform}.

(** The Executions the observer was told, in order. *)
Definition observed_executions (evs : list Event) : list Execution :=
  flat_map (fun ev => match ev with
                      | ExecutionUpdate e => [e]
                      | _ => []
                      end) evs.

(** [createFn({ id: 'test' }, logHandler, onCreate)]: the observer of the
    registry's builder is [logHandler].  The logs after the observer was
    told [evs]. *)
Definition logs_after (logsProvider : bool) (evs : list Event)
    (logs : Registry.Logs) : Registry.Logs :=
  fold_left (fun st e => snd (Registry.logHandler logsProvider e st))
    (observed_executions evs) logs.

(** What was added to the events from [s] to [s'] tells the observer of
    Executions with the id [i] only. *)
Definition tells_of (i : string) (s s' : State) : Prop :=
  exists more,
    events s' = (events s ++ more)%list
    /\ Forall (fun u => id u = i) (observed_executions more).

End Observer.

Section Guards.
Context {platform : Platform}.

(** In a closure that holds an Execution, [c] does not fail with the error
    of the trace recorder. *)
Definition guarded {A : Type} (c : Async A) : Prop :=
  forall s, execution s <> None -> fst (c s) <> Thrown "Execution not found".

End Guards.

Section Appending.
Context {platform : Platform}.

(** However [c] ends, it only added to the events. *)
Definition appends {A : Type} (c : Async A) : Prop := emits (fun _ => True) c.

End Appending.

Section SubFunctions.
Context {platform : Platform} {collaborators : Collaborators}.
Variable def : ProcedureBuilderDef.

(** The world in which the chat model has replied to the call that
    [callZodOutput] makes from [s] with [messages]. *)
Definition world_after_reply (zodSchema : Parser) (messages : list BaseMessage)
    (s : State) : World :=
  snd (ChatOpenAI_call (def_model def) messages
         (map toOpenAiFunction (functions_of def zodSchema))
         (if (List.length (or_empty (def_functions def)) =? 0)%nat
          then ForceName "print" else Auto)
         (snd (nanoid (world s)))).

(** [await fn?.implements?.(argument.data)] in the world [w]. *)
Definition fnResponse_in (fn : FunctionDef) (argument_data : JSValue) (w : World)
    : option string :=
  match implements fn with
  | Some f => fst (f argument_data w)
  | None => None
  end.

(** [fnResponse || 'No response'] *)
Definition or_No_response (fnResponse : option string) : string :=
  match fnResponse with
  | Some r => if r =? "" then "No response" else r
  | None => "No response"
  end.

End SubFunctions.

Section Evaluation.
Context {platform : Platform}.

(** [onCreate] pushes the Definition it is given: [functionsDefs] after the
    observer of [create()] was told [evs]. *)
Definition functionsDefs_after (evs : list Event)
    (functionsDefs : list ProcedureBuilderDef) : list ProcedureBuilderDef :=
  (functionsDefs
     ++ flat_map (fun ev => match ev with
                            | Created d => [d]
                            | _ => []
                            end) evs)%list.

(** The first statements of [evaluateFn] and of [evaluateDataset]:
    [functionsDefs.find((d) => d.id === idx)], and the error when there is
    none. *)
Definition find_fnDef (idx : string) (functionsDefs : list ProcedureBuilderDef)
    : Outcome ProcedureBuilderDef :=
  match find (fun d => match def_id d with
                       | Some i => i =? idx
                       | None => false
                       end) functionsDefs with
  | Some fnDef => Returned fnDef
  | None => Thrown "Function not found"
  end.

End Evaluation.

(** ** What the turns of a promise keep *)

Section PromiseInvariants.
Context {platform : Platform} {collaborators : Collaborators}.
Import Promises.

(** The closure holds a later version of the Execution [e0], and [fid] is
    its current sub-record. *)
Definition holds (e0 : Execution) (fid : option string) (s : State) : Prop :=
  current_functionExecutionId s = fid
  /\ exists e, execution s = Some e /\ later_version e0 e.

(** Every turn of the promise that starts in [I] ends in [I]; when the
    promise is fulfilled, its value is in [Q]. *)
Fixpoint keeps {A : Type} (I : State -> Prop) (Q : A -> Prop) (t : Promise A)
    : Prop :=
  match t with
  | Settled (Returned a) => Q a
  | Settled _ => True
  | Pending resume =>
      forall s, I s -> I (snd (resume s)) /\ keeps I Q (fst (resume s))
  end.

(** The same of a call made in [I], and of the promise of a call made
    anywhere. *)
Definition proc_keeps {A : Type} (I : State -> Prop) (Q : A -> Prop)
    (p : Proc A) : Prop :=
  forall s, I s -> I (snd (p s)) /\ keeps I Q (fst (p s)).

Definition proc_after {A : Type} (I : State -> Prop) (Q : A -> Prop)
    (p : Proc A) : Prop :=
  forall s, keeps I Q (fst (p s)).

(** The same of code without an [await]. *)
Definition stays {A : Type} (I : State -> Prop) (Q : A -> Prop) (c : Async A)
    : Prop :=
  forall s, I s -> I (snd (c s)) /\ forall a, fst (c s) = Returned a -> Q a.

(** [I] looks at the two variables of the closure only. *)
Definition of_closure (I : State -> Prop) : Prop :=
  forall s s',
    execution s' = execution s ->
    current_functionExecutionId s' = current_functionExecutionId s ->
    I s -> I s'.

(** The promise is fulfilled after [n] turns at most, each started in [I],
    with a value in [Q], and is not rejected. *)
Fixpoint fulfils {A : Type} (n : nat) (I : State -> Prop) (Q : A -> Prop)
    (t : Promise A) {struct t} : Prop :=
  match t with
  | Settled (Returned a) => Q a
  | Settled _ => False
  | Pending resume =>
      match n with
      | O => False
      | S n' =>
          forall s, I s -> I (snd (resume s)) /\ fulfils n' I Q (fst (resume s))
      end
  end.

Definition proc_fulfils {A : Type} (n : nat) (I : State -> Prop)
    (Q : A -> Prop) (p : Proc A) : Prop :=
  forall s, I s -> I (snd (p s)) /\ fulfils n I Q (fst (p s)).

(** Code without an [await] that, started in [I], returns a value in [Q]
    and ends in [I]. *)
Definition returns {A : Type} (I : State -> Prop) (Q : A -> Prop) (c : Async A)
    : Prop :=
  forall s, I s -> I (snd (c s)) /\ exists a, fst (c s) = Returned a /\ Q a.

(** The closure holds an Execution. *)
Definition busy (s : State) : Prop := execution s <> None.

(** No step of the pipeline is another AI function. *)
Definition plain (fns : list MapFn) : bool :=
  forallb (fun fn => match fn with
                     | MapTransform _ => true
                     | MapAiFunction _ => false
                     end) fns.

(** What is known of what a method [run] returns in a closure that holds
    [e0]: the id of [e0], and a later version of [e0] when [flag] says that
    no other closure took part. *)
Definition of_run (e0 : Execution) (flag : bool) (r : Execution) : Prop :=
  (id e0 <> "" -> id r = id e0)
  /\ (flag = true -> later_version e0 r).

End PromiseInvariants.

Section SameCode.
Context {platform : Platform} {collaborators : Collaborators}.

(** Two pieces of code that do the same in every state. *)
Definition same {A : Type} (c c' : Async A) : Prop := forall s, c s = c' s.

End SameCode.

(** * Properties *)

Section BasicFacts.
Context {platform : Platform}.

Lemma bind_returned {S A B : Type} (c : M S A) (k : A -> M S B) s a s' :
  c s = (Returned a, s') -> (x <- c ;; k x) s = k a s'.
Proof. intros H. unfold bind. now rewrite H. Qed.

Lemma evolves_trans c1 c2 f1 f2 s s1 s2 :
  evolves c1 f1 s s1 -> evolves c2 f2 s1 s2 ->
  evolves (c2 + c1) (fun t => f2 (f1 t)) s s2.
Proof.
  intros (_ & Hc1 & Ht1) (He2 & Hc2 & Ht2). repeat split.
  - exact He2.
  - rewrite Hc2, Hc1. lia.
  - rewrite Ht2, Ht1. now rewrite map_map.
Qed.

Lemma evolves_ext c f g s s' :
  (forall t, f t = g t) -> evolves c f s s' -> evolves c g s s'.
Proof.
  intros Hfg (He & Hc & Ht). repeat split; auto.
  rewrite Ht. apply map_ext. exact Hfg.
Qed.

Lemma model_calls_emit_other s ev :
  is_ModelCall ev = false ->
  List.length (filter is_ModelCall (events s ++ [ev])) = model_calls s.
Proof.
  intros H. unfold model_calls. rewrite filter_app. cbn. rewrite H.
  now rewrite app_nil_r.
Qed.

Lemma filter_current_map (cur : FunctionExecuted -> bool)
    (g : FunctionExecuted -> FunctionExecuted) (f : Trace -> Trace) l :
  (forall fe, cur (g fe) = cur fe) ->
  (forall fe, trace (g fe) = f (trace fe)) ->
  map trace (filter cur (map (fun fe => if cur fe then g fe else fe) l))
  = map f (map trace (filter cur l)).
Proof.
  intros Hcur Htr. induction l as [|fe l IH]; cbn; [reflexivity|].
  destruct (cur fe) eqn:E.
  - rewrite Hcur, E. cbn. now rewrite Htr, IH.
  - rewrite E. exact IH.
Qed.


End BasicFacts.

(** ** The trace recorder and the retriever, step by step *)

Section RetrieverFacts.
Context {platform : Platform} {collaborators : Collaborators}.
Variable def : ProcedureBuilderDef.
Variable args : Callbacks.

Lemma current_traces_set_execution s e l :
  execution s = Some e ->
  current_traces (set_execution (Some (with_functionsExecuted e l)) s)
  = map trace (filter (is_current s) l).
Proof. intros _. reflexivity. Qed.

Lemma notify_ok e s :
  exists s1,
    Engine.notify args e s = (Returned tt, s1)
    /\ execution s1 = execution s
    /\ current_functionExecutionId s1 = current_functionExecutionId s
    /\ world s1 = world s
    /\ model_calls s1 = model_calls s.
Proof.
  unfold Engine.notify, when. destruct (onExecutionUpdate args).
  - eexists. split; [reflexivity|]. cbn. repeat split.
    now apply model_calls_emit_other.
  - eexists. split; [reflexivity|]. repeat split.
Qed.

Lemma createTrace_ok body resp s :
  execution s <> None ->
  exists s1,
    Engine.createTrace args body resp s = (Returned (fst (nanoid (world s))), s1)
    /\ world s1 = snd (nanoid (world s))
    /\ evolves 0
         (fun t => (t ++ [{| action_id := fst (nanoid (world s));
                             action := body;
                             response := resp |}])%list) s s1.
Proof.
  intros He. destruct (execution s) as [e|] eqn:Ee; [clear He|congruence].
  unfold Engine.createTrace, external, get, modify.
  unfold bind at 1. destruct (nanoid (world s)) as [i w] eqn:En. cbn [fst snd].
  unfold bind at 1. cbn [execution]. rewrite Ee.
  unfold bind at 1.
  match goal with |- context [bind (Engine.notify args ?e') _ ?s'] =>
    destruct (notify_ok e' s') as (s1 & Hn & Hex & Hcur & Hw & Hc) end.
  rewrite (bind_returned _ _ _ _ _ Hn).
  exists s1. split; [reflexivity|]. split; [exact Hw|].
  repeat split.
  - rewrite Hex. discriminate.
  - rewrite Hc. reflexivity.
  - unfold current_traces at 1. rewrite Hex. cbn [set_execution execution].
    unfold is_current. rewrite Hcur. cbn [current_functionExecutionId set_execution functionsExecuted with_functionsExecuted].
    unfold current_traces. rewrite Ee.
    apply (filter_current_map
             (fun fe => match current_functionExecutionId s with
                        | Some f => functionExecutionId fe =? f
                        | None => false
                        end));
      reflexivity.
Qed.


Lemma updateTrace_ok id p s :
  execution s <> None ->
  exists s1,
    Engine.updateTrace args id p s = (Returned tt, s1)
    /\ world s1 = world s
    /\ evolves 0 (update_in id p) s s1.
Proof.
  intros He. destruct (execution s) as [e|] eqn:Ee; [clear He|congruence].
  unfold Engine.updateTrace, get, modify.
  unfold bind at 1. rewrite Ee.
  unfold bind at 1.
  match goal with |- context [Engine.notify args ?e' ?s'] =>
    destruct (notify_ok e' s') as (s1 & Hn & Hex & Hcur & Hw & Hc) end.
  exists s1. split; [exact Hn|]. split; [exact Hw|].
  repeat split.
  - rewrite Hex. discriminate.
  - rewrite Hc. reflexivity.
  - unfold current_traces at 1. rewrite Hex. cbn [set_execution execution].
    unfold is_current. rewrite Hcur.
    cbn [current_functionExecutionId set_execution functionsExecuted
         with_functionsExecuted].
    unfold current_traces. rewrite Ee.
    apply (filter_current_map
             (fun fe => match current_functionExecutionId s with
                        | Some f => functionExecutionId fe =? f
                        | None => false
                        end));
      reflexivity.
Qed.

Lemma call_model_ok messages fns mode s :
  execution s <> None ->
  exists s1,
    Engine.call_model def messages fns mode s
    = (Returned (fst (ChatOpenAI_call (def_model def) messages fns mode (world s))),
       s1)
    /\ world s1 = snd (ChatOpenAI_call (def_model def) messages fns mode (world s))
    /\ evolves 1 (fun t => t) s s1.
Proof.
  intros He. unfold Engine.call_model, emit, modify, external.
  unfold bind. cbn [world].
  destruct (ChatOpenAI_call (def_model def) messages fns mode (world s))
    as [resp w].
  eexists. split; [reflexivity|]. split; [reflexivity|].
  repeat split.
  - exact He.
  - unfold model_calls. cbn [events]. rewrite filter_app. cbn.
    rewrite length_app. cbn. lia.
  - unfold current_traces. cbn [execution]. unfold is_current.
    cbn [current_functionExecutionId]. now rewrite map_id.
Qed.


(** The first two statements of [callZodOutput]: the [loading] action and
    the call of the chat model. *)
Lemma callZodOutput_enter messages zodSchema s :
  execution s <> None ->
  exists s2,
    evolves 1 (recorded (fst (nanoid (world s))) messages []) s s2
    /\ forall (k : string -> AIMessage -> Async (JSValue * list BaseMessage)),
        (id <- Engine.createTrace args
                 (CallingOpenAi (map fromLangChainMessage messages))
                 (Some Loading) ;;
         resp <- Engine.call_model def messages
                   (map toOpenAiFunction
                      (or_empty (def_functions def) ++ [Engine.printFn zodSchema])%list)
                   (if (List.length (or_empty (def_functions def)) =? 0)%nat
                    then ForceName "print" else Auto) ;;
         k id resp) s
        = k (fst (nanoid (world s))) (reply_of def zodSchema messages s) s2.
Proof.
  intros He.
  destruct (createTrace_ok (CallingOpenAi (map fromLangChainMessage messages))
              (Some Loading) s He) as (s1 & Heq1 & Hw1 & Hev1).
  destruct (call_model_ok messages
              (map toOpenAiFunction (functions_of def zodSchema))
              (if (List.length (or_empty (def_functions def)) =? 0)%nat
               then ForceName "print" else Auto) s1 (proj1 Hev1))
    as (s2 & Heq2 & Hw2 & Hev2).
  exists s2. split.
  - apply (evolves_ext _ _ _ _ _ (fun t => eq_refl)
             (evolves_trans _ _ _ _ _ _ _ Hev1 Hev2)).
  - intros k. rewrite (bind_returned _ _ _ _ _ Heq1).
    rewrite (bind_returned _ _ _ _ _ Heq2). rewrite Hw1. reflexivity.
Qed.


Ltac enter_callZodOutput z He s2 Hev :=
  cbn [Engine.callZodOutput]; cbv zeta;
  match goal with
  | |- context [bind (Engine.createTrace _ _ _)
                  (fun id => bind (Engine.call_model _ ?m _ _)
                               (fun resp => @?k id resp)) ?s] =>
      let H := fresh "Henter" in
      destruct (callZodOutput_enter m z s He) as (s2 & Hev & H);
      rewrite (H k); clear H; cbv beta
  end.

Ltac run_updateTrace He s3 Hev :=
  match goal with
  | |- context [bind (Engine.updateTrace _ ?id ?p) ?k ?st] =>
      let Heq := fresh "Heq" in
      destruct (updateTrace_ok id p st He) as (s3 & Heq & _ & Hev);
      rewrite (bind_returned _ _ _ _ _ Heq); clear Heq
  end.

Ltac branch_of Hc :=
  unfold classify, functions_of in Hc;
  repeat match type of Hc with
         | match ?x with _ => _ end = _ =>
             let E := fresh "E" in
             destruct x eqn:E; try discriminate Hc
         end;
  inversion Hc; subst; clear Hc.

Lemma step_no_function_call n messages zodSchema retries s :
  execution s <> None ->
  classify def zodSchema (reply_of def zodSchema messages s) = NoFunctionCall ->
  exists s',
    evolves 1
      (recorded (fst (nanoid (world s))) messages
         [Error ("No function call found, Got text instead: "
                   ++ text (reply_of def zodSchema messages s))]) s s'
    /\ Engine.callZodOutput def args (S n) messages zodSchema retries s
       = Engine.callZodOutput def args n
           ((messages ++ [AIMessageOf (reply_of def zodSchema messages s)])
              ++ [Engine.please_use_print zodSchema])
           zodSchema (retries + 1) s'.
Proof.
  intros He Hc.
  enter_callZodOutput zodSchema He s2 Hev.
  branch_of Hc.
  run_updateTrace (proj1 Hev) s3 Hev3.
  exists s3. split; [|reflexivity].
  exact (evolves_trans _ _ _ _ _ _ _ Hev Hev3).
Qed.

Lemma step_arguments_error_retry n messages zodSchema retries s data fn message :
  execution s <> None ->
  classify def zodSchema (reply_of def zodSchema messages s)
  = ArgumentsError data fn message ->
  retries <= 3 ->
  exists s',
    evolves 1
      (recorded (fst (nanoid (world s))) messages
         [ZodError (call_arguments data) message]) s s'
    /\ Engine.callZodOutput def args (S n) messages zodSchema retries s
       = Engine.callZodOutput def args n
           ((messages ++ [AIMessageOf (reply_of def zodSchema messages s)])
              ++ [Engine.createValidationErrorFunctionMessage message])
           zodSchema (retries + 1) s'.
Proof.
  intros He Hc Hr.
  enter_callZodOutput zodSchema He s2 Hev.
  branch_of Hc.
  run_updateTrace (proj1 Hev) s3 Hev3.
  destruct (Nat.ltb_spec 3 retries) as [Hlt|_]; [lia|].
  exists s3. split; [|reflexivity].
  exact (evolves_trans _ _ _ _ _ _ _ Hev Hev3).
Qed.

Lemma step_arguments_error_timeout n messages zodSchema retries s data fn message :
  execution s <> None ->
  classify def zodSchema (reply_of def zodSchema messages s)
  = ArgumentsError data fn message ->
  3 < retries ->
  exists s',
    evolves 1
      (recorded (fst (nanoid (world s))) messages
         [ZodError (call_arguments data) message; TimeoutError]) s s'
    /\ Engine.callZodOutput def args (S n) messages zodSchema retries s
       = (Returned
            (JSString message,
             (messages ++ [AIMessageOf (reply_of def zodSchema messages s)])%list),
          s').
Proof.
  intros He Hc Hr.
  enter_callZodOutput zodSchema He s2 Hev.
  branch_of Hc.
  run_updateTrace (proj1 Hev) s3 Hev3.
  destruct (Nat.ltb_spec 3 retries) as [_|Hle]; [|lia].
  run_updateTrace (proj1 Hev3) s4 Hev4.
  exists s4. split; [|reflexivity].
  exact (evolves_trans _ _ _ _ _ _ _
           (evolves_trans _ _ _ _ _ _ _ Hev Hev3) Hev4).
Qed.

Lemma step_envelope_error_retry n messages zodSchema retries s raw_call message :
  execution s <> None ->
  classify def zodSchema (reply_of def zodSchema messages s)
  = EnvelopeError raw_call message ->
  retries <= 3 ->
  exists s',
    evolves 1
      (recorded (fst (nanoid (world s))) messages [ZodError raw_call message])
      s s'
    /\ Engine.callZodOutput def args (S n) messages zodSchema retries s
       = Engine.callZodOutput def args n
           ((messages ++ [AIMessageOf (reply_of def zodSchema messages s)])
              ++ [Engine.createValidationErrorFunctionMessage message])
           zodSchema (retries + 1) s'.
Proof.
  intros He Hc Hr.
  enter_callZodOutput zodSchema He s2 Hev.
  branch_of Hc.
  run_updateTrace (proj1 Hev) s3 Hev3.
  destruct (Nat.ltb_spec 3 retries) as [Hlt|_]; [lia|].
  exists s3. split; [|reflexivity].
  exact (evolves_trans _ _ _ _ _ _ _ Hev Hev3).
Qed.

Lemma step_envelope_error_timeout n messages zodSchema retries s raw_call message :
  execution s <> None ->
  classify def zodSchema (reply_of def zodSchema messages s)
  = EnvelopeError raw_call message ->
  3 < retries ->
  exists s',
    evolves 1
      (recorded (fst (nanoid (world s))) messages
         [ZodError raw_call message; TimeoutError]) s s'
    /\ Engine.callZodOutput def args (S n) messages zodSchema retries s
       = (Returned
            (JSString message,
             (messages ++ [AIMessageOf (reply_of def zodSchema messages s)])%list),
          s').
Proof.
  intros He Hc Hr.
  enter_callZodOutput zodSchema He s2 Hev.
  branch_of Hc.
  run_updateTrace (proj1 Hev) s3 Hev3.
  destruct (Nat.ltb_spec 3 retries) as [_|Hle]; [|lia].
  run_updateTrace (proj1 Hev3) s4 Hev4.
  exists s4. split; [|reflexivity].
  exact (evolves_trans _ _ _ _ _ _ _
           (evolves_trans _ _ _ _ _ _ _ Hev Hev3) Hev4).
Qed.


Lemma external_ok {A : Type} (f : World -> A * World) s :
  execution s <> None ->
  exists s1,
    external f s = (Returned (fst (f (world s))), s1)
    /\ evolves 0 (fun t => t) s s1.
Proof.
  intros He. unfold external. destruct (f (world s)) as [a w].
  eexists. split; [reflexivity|]. repeat split.
  - exact He.
  - unfold current_traces. cbn [execution]. unfold is_current.
    cbn [current_functionExecutionId]. now rewrite map_id.
Qed.

Lemma step_sub_function_call n messages zodSchema retries s data fn argument_data :
  execution s <> None ->
  classify def zodSchema (reply_of def zodSchema messages s)
  = ArgumentsValid data fn argument_data ->
  (name fn =? "print") = false ->
  exists s' content,
    execution s' <> None
    /\ model_calls s' = 1 + model_calls s
    /\ Engine.callZodOutput def args (S n) messages zodSchema retries s
       = Engine.callZodOutput def args n
           ((messages ++ [AIMessageOf (reply_of def zodSchema messages s)])
              ++ [FunctionMessage content (name fn)])
           zodSchema retries s'.
Proof.
  intros He Hc Hname.
  enter_callZodOutput zodSchema He s2 Hev.
  branch_of Hc. rewrite Hname.
  run_updateTrace (proj1 Hev) s3 Hev3.
  match goal with
  | |- context [bind (Engine.createTrace _ ?b ?r) ?k ?st] =>
      destruct (createTrace_ok b r st (proj1 Hev3)) as (s4 & Heq4 & _ & Hev4);
      rewrite (bind_returned _ _ _ _ _ Heq4); clear Heq4
  end.
  assert (Hcalls : forall s5 s6 f,
             evolves 0 (fun t => t) s4 s5 -> evolves 0 f s5 s6 ->
             execution s6 <> None /\ model_calls s6 = 1 + model_calls s).
  { intros s5 s6 f H5 H6. split; [apply H6|].
    destruct Hev as (_ & C2 & _), Hev3 as (_ & C3 & _), Hev4 as (_ & C4 & _),
             H5 as (_ & C5 & _), H6 as (_ & C6 & _).
    rewrite C6, C5, C4, C3, C2. reflexivity. }
  destruct (implements fn) as [f|].
  - destruct (external_ok (f argument_data) s4 (proj1 Hev4)) as (s5 & Heq5 & Hev5).
    rewrite (bind_returned _ _ _ _ _ Heq5); clear Heq5.
    run_updateTrace (proj1 Hev5) s6 Hev6.
    eexists s6, _. destruct (Hcalls _ _ _ Hev5 Hev6). repeat split; eauto.
  - unfold bind at 1, ret at 1.
    run_updateTrace (proj1 Hev4) s6 Hev6.
    eexists s6, _.
    assert (H4 : evolves 0 (fun t => t) s4 s4).
    { repeat split; [apply Hev4|]. now rewrite map_id. }
    destruct (Hcalls _ _ _ H4 Hev6). repeat split; eauto.
Qed.

Lemma update_in_last id p pre a :
  action_id a = id ->
  update_in id p (pre ++ [a])%list = (update_in id p pre ++ [merge_action a p])%list.
Proof.
  intros <-. unfold update_in. rewrite map_app. cbn.
  now rewrite String.eqb_refl.
Qed.

Lemma last_cons_default {A : Type} (x : A) l d d' :
  last (x :: l) d = last (x :: l) d'.
Proof.
  revert x. induction l as [|y l IH]; intros x; [reflexivity|].
  change (last (y :: l) d = last (y :: l) d'). apply IH.
Qed.

Lemma recorded_ends id messages updates t :
  exists pre,
    recorded id messages updates t
    = (pre ++ [calling_open_ai id messages (last updates Loading)])%list.
Proof.
  unfold recorded. generalize (t : Trace) as pre. generalize Loading as r.
  induction updates as [|u updates IH]; intros r pre.
  - exists pre. reflexivity.
  - cbn [fold_left]. rewrite update_in_last by reflexivity.
    destruct (IH u (update_in id (response_update u) pre)) as (pre' & Hpre').
    exists pre'.
    change (merge_action (calling_open_ai id messages r) (response_update u))
      with (calling_open_ai id messages u).
    rewrite Hpre'. destruct updates as [|u' updates]; [reflexivity|].
    change (last (u :: u' :: updates) r) with (last (u' :: updates) r).
    now rewrite (last_cons_default u' updates u r).
Qed.

Lemma recorded_length id messages updates t :
  List.length (recorded id messages updates t) = S (List.length t).
Proof.
  unfold recorded.
  assert (H : forall l : Trace,
             List.length
               (fold_left (fun t r => update_in id (response_update r) t) updates l)
             = List.length l).
  { induction updates as [|u updates IH]; intros l; [reflexivity|].
    cbn [fold_left]. rewrite IH. unfold update_in. apply length_map. }
  rewrite H, length_app. cbn. lia.
Qed.


Lemma Forall2_untouched_trans id (l1 l2 l3 : Trace) :
  Forall2 (fun a b => action_id a <> id -> b = a) l1 l2 ->
  Forall2 (fun a b => action_id a <> id -> b = a) l2 l3 ->
  Forall2 (fun a b => action_id a <> id -> b = a) l1 l3.
Proof.
  intros H. revert l3.
  induction H as [|x y l1 l2 Hxy _ IH]; intros l3 H3;
    inversion H3 as [|? z ? l3' Hyz Hrest]; subst; constructor.
  - intros Ha. specialize (Hxy Ha). subst y. exact (Hyz Ha).
  - now apply IH.
Qed.

(** The trace after a round, spelt out: the actions that were there, those
    with another id untouched, followed by the action of the call with the
    last response it was given. *)
Lemma recorded_spelt id messages updates u t :
  exists pre,
    recorded id messages (updates ++ [u]) t
    = (pre ++ [{| action_id := id;
                  action := CallingOpenAi (map fromLangChainMessage messages);
                  response := Some u |}])%list
    /\ List.length pre = List.length t
    /\ Forall2 (fun a b => action_id a <> id -> b = a) t pre.
Proof.
  unfold recorded.
  assert (H : forall ups (l : Trace) r,
             exists pre,
               fold_left (fun t r => update_in id (response_update r) t)
                 (ups ++ [u]) (l ++ [calling_open_ai id messages r])%list
               = (pre ++ [calling_open_ai id messages u])%list
               /\ List.length pre = List.length l
               /\ Forall2 (fun a b => action_id a <> id -> b = a) l pre).
  { assert (Hone : forall (l : Trace) r,
               Forall2 (fun a b => action_id a <> id -> b = a) l
                 (update_in id (response_update r) l)).
    { intros l r. induction l as [|a l IH]; [constructor|].
      unfold update_in in *. cbn [map]. constructor; [|exact IH].
      intros Ha. apply String.eqb_neq in Ha. now rewrite Ha. }
    induction ups as [|v ups IH]; intros l r.
    - exists (update_in id (response_update u) l). cbn [app fold_left].
      rewrite update_in_last by reflexivity. split; [reflexivity|]. split.
      + unfold update_in. apply length_map.
      + apply Hone.
    - cbn [app fold_left]. rewrite update_in_last by reflexivity.
      change (merge_action (calling_open_ai id messages r) (response_update v))
        with (calling_open_ai id messages v).
      destruct (IH (update_in id (response_update v) l) v)
        as (pre & Heq & Hlen & Hsame).
      exists pre. split; [exact Heq|]. split.
      + rewrite Hlen. unfold update_in. apply length_map.
      + exact (Forall2_untouched_trans _ _ _ _ (Hone l v) Hsame). }
  destruct (H updates t Loading) as (pre & Heq & Hlen & Hsame).
  exists pre. split; [exact Heq|]. split; assumption.
Qed.

Lemma evolves_then c c1 c2 f1 f2 s s1 s2 :
  evolves c1 f1 s s1 -> evolves c2 f2 s1 s2 -> c = c2 + c1 ->
  evolves c (fun t => f2 (f1 t)) s s2.
Proof. intros H1 H2 ->. exact (evolves_trans _ _ _ _ _ _ _ H1 H2). Qed.

Lemma evolves_refl s : execution s <> None -> evolves 0 (fun t => t) s s.
Proof. intros He. repeat split; [exact He|]. now rewrite map_id. Qed.

Lemma recorded_timed_out id messages updates t :
  ends_with timed_out (recorded id messages (updates ++ [TimeoutError]) t).
Proof.
  destruct (recorded_ends id messages (updates ++ [TimeoutError]) t) as (pre & H).
  exists pre, (calling_open_ai id messages TimeoutError). split.
  - rewrite H. now rewrite last_last.
  - split; [exact I|reflexivity].
Qed.

Lemma no_timeout_update id r t :
  r <> TimeoutError -> no_timeout t ->
  no_timeout (update_in id (response_update r) t).
Proof.
  intros Hr Ht. unfold no_timeout, update_in. apply Forall_map.
  revert Ht. apply Forall_impl. intros a Ha.
  destruct (action_id a =? id); [|exact Ha].
  cbn. congruence.
Qed.

Lemma no_timeout_recorded id messages updates t :
  Forall (fun r => r <> TimeoutError) updates -> no_timeout t ->
  no_timeout (recorded id messages updates t).
Proof.
  intros Hu Ht. unfold recorded.
  assert (H0 : no_timeout (t ++ [calling_open_ai id messages Loading])%list).
  { apply Forall_app. split; [exact Ht|]. constructor; [|constructor].
    cbn. discriminate. }
  revert H0. generalize (t ++ [calling_open_ai id messages Loading])%list.
  induction Hu as [|u updates Hu _ IH]; intros l Hl; [exact Hl|].
  cbn [fold_left]. apply IH. now apply no_timeout_update.
Qed.

(** Replies that all run into a validation error, of the envelope or of the
    arguments, use one counter: from [retries] the retriever makes
    [S (4 - retries)] calls and stops on [timeout-error]. *)
Lemma failures_terminate zodSchema :
  (forall messages s,
      failure_message def zodSchema (reply_of def zodSchema messages s) <> None) ->
  forall fuel messages retries s,
    execution s <> None -> S (4 - retries) <= fuel ->
    exists message pre st s' change,
      Engine.callZodOutput def args fuel messages zodSchema retries s
      = (Returned
           (JSString message,
            (pre ++ [AIMessageOf (reply_of def zodSchema pre st)])%list), s')
      /\ failure_message def zodSchema (reply_of def zodSchema pre st)
         = Some message
      /\ evolves (S (4 - retries)) change s s'
      /\ forall t, ends_with timed_out (change t).
Proof.
  intros Hall. induction fuel as [|n IH]; intros messages retries s He Hfuel;
    [lia|].
  specialize (Hall messages s).
  destruct (failure_message def zodSchema (reply_of def zodSchema messages s))
    as [message|] eqn:Hf; [clear Hall|congruence].
  destruct (le_lt_dec retries 3) as [Hr|Hr].
  - assert (Hstep : exists s1 updates,
               evolves 1 (recorded (fst (nanoid (world s))) messages updates) s s1
               /\ Engine.callZodOutput def args (S n) messages zodSchema retries s
                  = Engine.callZodOutput def args n
                      ((messages
                          ++ [AIMessageOf (reply_of def zodSchema messages s)])
                         ++ [Engine.createValidationErrorFunctionMessage message])
                      zodSchema (retries + 1) s1).
    { unfold failure_message in Hf.
      destruct (classify def zodSchema (reply_of def zodSchema messages s))
        eqn:Hc; try discriminate Hf; inversion Hf; subst.
      - destruct (step_envelope_error_retry n _ _ _ _ _ _ He Hc Hr)
          as (s1 & H1 & H2). eauto.
      - destruct (step_arguments_error_retry n _ _ _ _ _ _ _ He Hc Hr)
          as (s1 & H1 & H2). eauto. }
    destruct Hstep as (s1 & updates & Hev1 & Heq). rewrite Heq.
    destruct (IH ((messages ++ [AIMessageOf (reply_of def zodSchema messages s)])
                    ++ [Engine.createValidationErrorFunctionMessage message])%list
                (retries + 1) s1 (proj1 Hev1) ltac:(lia))
      as (message' & pre & st & s' & change & Hres & Hmsg & Hev & Hend).
    exists message', pre, st, s'. eexists. repeat split.
    + exact Hres.
    + exact Hmsg.
    + apply Hev.
    + destruct Hev1 as (_ & C1 & _), Hev as (_ & C2 & _). rewrite C2, C1. lia.
    + destruct Hev1 as (_ & _ & T1), Hev as (_ & _ & T2).
      rewrite T2, T1, map_map. reflexivity.
    + intros t. apply Hend.
  - assert (Hstep : exists s1 updates,
               evolves 1
                 (recorded (fst (nanoid (world s))) messages
                    (updates ++ [TimeoutError])) s s1
               /\ Engine.callZodOutput def args (S n) messages zodSchema retries s
                  = (Returned
                       (JSString message,
                        (messages
                           ++ [AIMessageOf (reply_of def zodSchema messages s)])%list),
                     s1)).
    { unfold failure_message in Hf.
      destruct (classify def zodSchema (reply_of def zodSchema messages s))
        eqn:Hc; try discriminate Hf; inversion Hf; subst.
      - destruct (step_envelope_error_timeout n _ _ _ _ _ _ He Hc Hr)
          as (s1 & H1 & H2). exists s1, [ZodError raw_call message]. eauto.
      - destruct (step_arguments_error_timeout n _ _ _ _ _ _ _ He Hc Hr)
          as (s1 & H1 & H2).
        exists s1, [ZodError (call_arguments data) message]. eauto. }
    destruct Hstep as (s1 & updates & Hev1 & Heq).
    exists message, messages, s, s1.
    eexists. repeat split.
    + exact Heq.
    + exact Hf.
    + apply Hev1.
    + destruct Hev1 as (_ & C1 & _). rewrite C1. lia.
    + apply Hev1.
    + intros t. apply recorded_timed_out.
Qed.

(** Replies that never carry a function call keep the retriever going: it
    uses up any fuel, one call of the chat model per unit, and records no
    [timeout-error]. *)
Lemma no_function_call_diverges zodSchema :
  (forall messages s,
      classify def zodSchema (reply_of def zodSchema messages s) = NoFunctionCall) ->
  forall fuel messages retries s,
    execution s <> None ->
    exists s' change,
      Engine.callZodOutput def args fuel messages zodSchema retries s
      = (OutOfFuel, s')
      /\ evolves fuel change s s'
      /\ forall t, (no_timeout t -> no_timeout (change t))
                   /\ List.length (change t) = fuel + List.length t.
Proof.
  intros Hall. induction fuel as [|n IH]; intros messages retries s He.
  - exists s, (fun t => t). split; [reflexivity|]. split.
    + now apply evolves_refl.
    + intros t. split; [auto|reflexivity].
  - destruct (step_no_function_call n messages zodSchema retries s He (Hall _ _))
      as (s1 & Hev1 & Heq).
    rewrite Heq.
    destruct (IH ((messages ++ [AIMessageOf (reply_of def zodSchema messages s)])
                    ++ [Engine.please_use_print zodSchema])%list
                (retries + 1) s1 (proj1 Hev1))
      as (s' & change & Hres & Hev & Hchange).
    exists s'. eexists. split; [exact Hres|]. split.
    + apply (evolves_then _ _ _ _ _ _ _ _ Hev1 Hev). lia.
    + intros t. cbv beta. destruct (Hchange
        (recorded (fst (nanoid (world s))) messages
           [Error ("No function call found, Got text instead: "
                     ++ text (reply_of def zodSchema messages s))] t))
        as (Hno & Hlen).
      split.
      * intros Ht. apply Hno. apply no_timeout_recorded; [|exact Ht].
        constructor; [discriminate|constructor].
      * rewrite Hlen, recorded_length. lia.
Qed.


(** ** The retriever: bounded and unbounded retries *)

(** C1.  If every reply of the chat provider is a function call whose
    arguments fail the schema of the function it names, then, entered with a
    retry counter [retries], [callZodOutput] returns after exactly
    [max 1 (5 - retries)] calls of the provider: 5 from the initial counter 0
    (the first call and 4 retries), one fewer for each of the counter values
    1, 2, 3, and a single call once the counter is greater than 3.  The
    action of the last call ends as [timeout-error], and the value returned
    is the validation message of the last reply, not a value of the schema. *)
Theorem schema_failures_time_out_after_five_attempts
    zodSchema messages retries fuel s :
  always (fun resp => exists data fn message,
            classify def zodSchema resp = ArgumentsError data fn message) ->
  execution s <> None ->
  Nat.max 1 (5 - retries) <= fuel ->
  exists message pre resp data fn s' change,
    Engine.callZodOutput def args fuel messages zodSchema retries s
    = (Returned (JSString message, (pre ++ [AIMessageOf resp])%list), s')
    /\ classify def zodSchema resp = ArgumentsError data fn message
    /\ model_calls s' = Nat.max 1 (5 - retries) + model_calls s
    /\ current_traces s' = map change (current_traces s)
    /\ forall t, ends_with timed_out (change t).
Proof.
  intros Hall He Hfuel.
  assert (Hfail : forall m st,
             failure_message def zodSchema (reply_of def zodSchema m st) <> None).
  { intros m st. unfold failure_message, reply_of.
    destruct (Hall (def_model def) m
                (map toOpenAiFunction (functions_of def zodSchema))
                (if (List.length (or_empty (def_functions def)) =? 0)%nat
                 then ForceName "print" else Auto)
                (snd (nanoid (world st)))) as (data & fn & message & ->).
    discriminate. }
  destruct (failures_terminate zodSchema Hfail fuel messages retries s He
              ltac:(lia))
    as (message & pre & st & s' & change & Hres & Hmsg & Hev & Hend).
  assert (Hresp : exists data fn,
             classify def zodSchema (reply_of def zodSchema pre st)
             = ArgumentsError data fn message).
  { revert Hmsg. unfold failure_message.
    destruct (Hall (def_model def) pre
                (map toOpenAiFunction (functions_of def zodSchema))
                (if (List.length (or_empty (def_functions def)) =? 0)%nat
                 then ForceName "print" else Auto)
                (snd (nanoid (world st)))) as (data & fn & message' & Hc).
    fold (reply_of def zodSchema pre st) in Hc. rewrite Hc.
    intros [= ->]. eauto. }
  destruct Hresp as (data & fn & Hresp).
  exists message, pre, (reply_of def zodSchema pre st), data, fn, s', change.
  repeat split; auto.
  - destruct Hev as (_ & C & _). rewrite C. lia.
  - apply Hev.
Qed.



Lemma classify_no_function_call zodSchema resp :
  function_call_of resp = None -> classify def zodSchema resp = NoFunctionCall.
Proof. intros H. unfold classify. now rewrite H. Qed.

Lemma function_call_of_none resp :
  function_call_of resp = None
  <-> function_call resp = None
      \/ exists raw_call,
           function_call resp = Some raw_call /\ truthy raw_call = false.
Proof.
  unfold function_call_of. destruct (function_call resp) as [v|].
  - destruct (truthy v) eqn:Hv; split.
    + discriminate.
    + intros [H|(w & [= <-] & H)]; congruence.
    + intros _. right. now exists v.
    + reflexivity.
  - split; [now left|reflexivity].
Qed.

(** C5.  A reply carries no function call when the key is not there or its
    value is falsy.  [callZodOutput] then sets the pending action to
    [error], with the text [No function call found, Got text instead: ]
    followed by the text of the reply, and calls itself with [retries + 1]
    and the conversation extended by the reply and by the human message
    [Please use the print function to respond. ...] that states the JSON
    schema of [print] again, whatever the value of [retries]: the round
    calls the provider once, leaves the actions with other ids as they are
    and the action of the call last, with that [error].  With a provider
    that never sends a function call the recursion does not end: for every
    amount of fuel the provider is called once per unit of fuel, no result
    is returned and no action is given [timeout-error]. *)
Theorem missing_function_call_is_retried_without_bound zodSchema :
  (forall resp,
      function_call_of resp = None
      <-> function_call resp = None
          \/ exists raw_call,
               function_call resp = Some raw_call /\ truthy raw_call = false)
  /\ (forall n messages retries s,
      execution s <> None ->
      function_call_of (reply_of def zodSchema messages s) = None ->
      exists s' change,
        Engine.callZodOutput def args (S n) messages zodSchema retries s
        = Engine.callZodOutput def args n
            ((messages ++ [AIMessageOf (reply_of def zodSchema messages s)])
               ++ [HumanMessage
                     (JSString
                        ("Please use the print function to respond. print function has the following scheme:"
                           ++ nl
                           ++ option_ToString
                                (JSON_stringify (zodToJsonSchema zodSchema))
                           ++ "         " ++ nl))])
            zodSchema (retries + 1) s'
        /\ execution s' <> None
        /\ model_calls s' = 1 + model_calls s
        /\ current_traces s' = map change (current_traces s)
        /\ forall t,
             exists pre,
               change t
               = (pre ++ [{| action_id := fst (nanoid (world s));
                             action :=
                               CallingOpenAi (map fromLangChainMessage messages);
                             response :=
                               Some (Error
                                       ("No function call found, Got text instead: "
                                          ++ text (reply_of def zodSchema
                                                     messages s))) |}])%list
               /\ List.length pre = List.length t
               /\ Forall2 (fun a b =>
                             action_id a <> fst (nanoid (world s)) -> b = a)
                    t pre)
  /\ (always (fun resp => function_call_of resp = None) ->
      forall fuel messages retries s,
        execution s <> None ->
        exists s' change,
          Engine.callZodOutput def args fuel messages zodSchema retries s
          = (OutOfFuel, s')
          /\ model_calls s' = fuel + model_calls s
          /\ current_traces s' = map change (current_traces s)
          /\ forall t, (no_timeout t -> no_timeout (change t))
                       /\ List.length (change t) = fuel + List.length t).
Proof.
  split; [exact function_call_of_none|]. split.
  - intros n messages retries s He Hc.
    destruct (step_no_function_call n messages zodSchema retries s He
                (classify_no_function_call zodSchema _ Hc))
      as (s' & Hev & Heq).
    exists s'. eexists. split; [exact Heq|].
    destruct Hev as (He' & Hcalls & Htraces).
    split; [exact He'|]. split; [exact Hcalls|]. split; [exact Htraces|].
    intros t. cbv beta. apply (recorded_spelt _ _ []).
  - intros Hall fuel messages retries s He.
    destruct (no_function_call_diverges zodSchema
                (fun m st => classify_no_function_call zodSchema _ (Hall _ _ _ _ _))
                fuel messages retries s He)
      as (s' & change & Hres & Hev & Hchange).
    exists s', change. repeat split; try apply Hev; try apply Hchange; auto.
Qed.

Lemma classify_envelope_error zodSchema resp raw_call message :
  classify def zodSchema resp = EnvelopeError raw_call message
  <-> function_call resp = Some raw_call
      /\ truthy raw_call = true
      /\ functionCallSchema raw_call = ParseError message.
Proof.
  unfold classify, function_call_of. split.
  - destruct (function_call resp) as [v|]; [|discriminate].
    destruct (truthy v) eqn:Hv; [|discriminate].
    destruct (functionCallSchema v) as [data|m] eqn:Hp.
    + destruct (find _ _) as [fn|]; [|discriminate].
      destruct (safeParse _ _); discriminate.
    + intros [= <- <-]. auto.
  - intros (-> & -> & ->). reflexivity.
Qed.

(** C9.  A reply takes this branch when its function call is there, is
    truthy and does not parse as an envelope [{name, arguments}].
    [callZodOutput] then sets the action to [zod-error] with the raw
    function call and the message of the parse error, and treats the retry
    counter as it does for a schema failure: with [retries <= 3] it calls
    itself with [retries + 1] and the conversation extended by the reply and
    by the function message of [print] that reports the validation error,
    with [retries > 3] it sets the action to [timeout-error] and returns the
    message of the parse error.  The round calls the provider once and
    leaves the actions with other ids as they are.  So a provider whose
    envelopes never parse is called [max 1 (5 - retries)] times. *)
Theorem envelope_failures_use_the_retry_budget zodSchema :
  (forall resp raw_call message,
      classify def zodSchema resp = EnvelopeError raw_call message
      <-> function_call resp = Some raw_call
          /\ truthy raw_call = true
          /\ functionCallSchema raw_call = ParseError message)
  /\ (forall n messages retries s raw_call message,
      execution s <> None ->
      classify def zodSchema (reply_of def zodSchema messages s)
      = EnvelopeError raw_call message ->
      exists s',
        evolves 1
          (recorded (fst (nanoid (world s))) messages
             (if (3 <? retries)%nat
              then [ZodError raw_call message; TimeoutError]
              else [ZodError raw_call message])) s s'
        /\ Engine.callZodOutput def args (S n) messages zodSchema retries s
           = (if (3 <? retries)%nat
              then (Returned
                      (JSString message,
                       (messages
                          ++ [AIMessageOf (reply_of def zodSchema messages s)])%list),
                    s')
              else Engine.callZodOutput def args n
                     ((messages
                         ++ [AIMessageOf (reply_of def zodSchema messages s)])
                        ++ [FunctionMessage
                              ("function 'print' returned a Validation error"
                                 ++ nl ++ "'" ++ message ++ nl
                                 ++ " Try again with a valid response. You may be forgetting to add key called 'argument'")
                              "print"])
                     zodSchema (retries + 1) s')
        /\ exists change,
             current_traces s' = map change (current_traces s)
             /\ forall t,
                  exists pre,
                    change t
                    = (pre ++ [{| action_id := fst (nanoid (world s));
                                  action :=
                                    CallingOpenAi
                                      (map fromLangChainMessage messages);
                                  response :=
                                    Some (if (3 <? retries)%nat
                                          then TimeoutError
                                          else ZodError raw_call message) |}])%list
                    /\ List.length pre = List.length t
                    /\ Forall2 (fun a b =>
                                  action_id a <> fst (nanoid (world s)) -> b = a)
                         t pre)
  /\ (always (fun resp => exists raw_call message,
                classify def zodSchema resp = EnvelopeError raw_call message) ->
      forall messages retries fuel s,
        execution s <> None ->
        Nat.max 1 (5 - retries) <= fuel ->
        exists message pre resp raw_call s' change,
          Engine.callZodOutput def args fuel messages zodSchema retries s
          = (Returned (JSString message, (pre ++ [AIMessageOf resp])%list), s')
          /\ classify def zodSchema resp = EnvelopeError raw_call message
          /\ model_calls s' = Nat.max 1 (5 - retries) + model_calls s
          /\ current_traces s' = map change (current_traces s)
          /\ forall t, ends_with timed_out (change t)).
Proof.
  split; [exact (classify_envelope_error zodSchema)|]. split.
  - intros n messages retries s raw_call message He Hc.
    destruct (Nat.ltb_spec 3 retries) as [Hr|Hr].
    + destruct (step_envelope_error_timeout n _ _ _ _ _ _ He Hc Hr)
        as (s' & Hev & Heq).
      exists s'. split; [exact Hev|]. split; [exact Heq|].
      eexists. split; [apply Hev|]. intros t. cbv beta.
      apply (recorded_spelt _ _ [ZodError raw_call message]).
    + destruct (step_envelope_error_retry n _ _ _ _ _ _ He Hc Hr)
        as (s' & Hev & Heq).
      exists s'. split; [exact Hev|]. split; [exact Heq|].
      eexists. split; [apply Hev|]. intros t. cbv beta.
      apply (recorded_spelt _ _ []).
  - intros Hall messages retries fuel s He Hfuel.
    assert (Hreply : forall m st, exists raw_call message,
               classify def zodSchema (reply_of def zodSchema m st)
               = EnvelopeError raw_call message).
    { intros m st. unfold reply_of. apply Hall. }
    assert (Hfail : forall m st,
               failure_message def zodSchema (reply_of def zodSchema m st)
               <> None).
    { intros m st. unfold failure_message.
      destruct (Hreply m st) as (raw_call & message & ->). discriminate. }
    destruct (failures_terminate zodSchema Hfail fuel messages retries s He
                ltac:(lia))
      as (message & pre & st & s' & change & Hres & Hmsg & Hev & Hend).
    destruct (Hreply pre st) as (raw_call & message' & Hc).
    unfold failure_message in Hmsg. rewrite Hc in Hmsg.
    injection Hmsg as ->.
    exists message, pre, (reply_of def zodSchema pre st), raw_call, s', change.
    repeat split; auto.
    + destruct Hev as (_ & C & _). rewrite C. lia.
    + apply Hev.
Qed.

(** C6, as the code has it.  A call of a sub-function (a function whose name
    is not [print]) with valid arguments leaves the retry counter as it is:
    [callZodOutput] calls itself with the same [retries].  A call of a
    sub-function whose arguments fail its parameter schema takes the same
    branch as a failing [print]: with [retries <= 3] the action is
    [zod-error] and the recursion has [retries + 1], with [retries > 3] the
    action becomes [timeout-error] and the validation message is returned. *)
Theorem sub_function_calls_and_the_retry_counter
    zodSchema n messages retries s data fn :
  execution s <> None ->
  (name fn =? "print") = false ->
  (forall argument_data,
      classify def zodSchema (reply_of def zodSchema messages s)
      = ArgumentsValid data fn argument_data ->
      exists s' content,
        execution s' <> None
        /\ model_calls s' = 1 + model_calls s
        /\ Engine.callZodOutput def args (S n) messages zodSchema retries s
           = Engine.callZodOutput def args n
               ((messages ++ [AIMessageOf (reply_of def zodSchema messages s)])
                  ++ [FunctionMessage content (name fn)])
               zodSchema retries s')
  /\ (forall message,
      classify def zodSchema (reply_of def zodSchema messages s)
      = ArgumentsError data fn message ->
      exists s',
        evolves 1
          (recorded (fst (nanoid (world s))) messages
             (if (3 <? retries)%nat
              then [ZodError (call_arguments data) message; TimeoutError]
              else [ZodError (call_arguments data) message])) s s'
        /\ Engine.callZodOutput def args (S n) messages zodSchema retries s
           = if (3 <? retries)%nat
             then (Returned
                     (JSString message,
                      (messages
                         ++ [AIMessageOf (reply_of def zodSchema messages s)])%list),
                   s')
             else Engine.callZodOutput def args n
                    ((messages
                        ++ [AIMessageOf (reply_of def zodSchema messages s)])
                       ++ [Engine.createValidationErrorFunctionMessage message])
                    zodSchema (retries + 1) s').
Proof.
  intros He Hname. split.
  - intros argument_data Hc. now apply (step_sub_function_call n _ _ _ _ _ _ _ He Hc).
  - intros message Hc. destruct (Nat.ltb_spec 3 retries) as [Hr|Hr].
    + exact (step_arguments_error_timeout n _ _ _ _ _ _ _ He Hc Hr).
    + exact (step_arguments_error_retry n _ _ _ _ _ _ _ He Hc Hr).
Qed.

End RetrieverFacts.

(** ** The retriever on the sample platform *)

Lemma schema_failures_time_out_after_five_attempts_witness :
  let c := Sample.collaborators_with Sample.bad_print in
  let s := Sample.started Sample.plain_def in
  always (collaborators := c)
    (fun resp => exists data fn message,
       classify (collaborators := c) Sample.plain_def Sample.string_schema resp
       = ArgumentsError data fn message)
  /\ execution s <> None
  /\ Nat.max 1 (5 - 0) <= 5
  /\ exists message pre resp data fn s' change,
       Engine.callZodOutput (collaborators := c) Sample.plain_def
         Sample.no_callbacks 5 [] Sample.string_schema 0 s
       = (Returned (JSString message, (pre ++ [AIMessageOf resp])%list), s')
       /\ classify (collaborators := c) Sample.plain_def Sample.string_schema resp
          = ArgumentsError data fn message
       /\ model_calls s' = Nat.max 1 (5 - 0) + model_calls s
       /\ current_traces s' = map change (current_traces s)
       /\ forall t, ends_with timed_out (change t).
Proof.
  intros c s.
  assert (H1 : always (collaborators := c)
                 (fun resp => exists data fn message,
                    classify (collaborators := c) Sample.plain_def
                      Sample.string_schema resp
                    = ArgumentsError data fn message)).
  { intros model messages fns mode w. eexists _, _, _. reflexivity. }
  assert (H2 : execution s <> None) by (vm_compute; discriminate).
  assert (H3 : Nat.max 1 (5 - 0) <= 5) by (cbn; lia).
  split; [exact H1|]. split; [exact H2|]. split; [exact H3|].
  exact (schema_failures_time_out_after_five_attempts (collaborators := c)
           Sample.plain_def Sample.no_callbacks Sample.string_schema [] 0 5 s
           H1 H2 H3).
Defined.

Lemma missing_function_call_is_retried_without_bound_witness :
  let c := Sample.collaborators_with Sample.plain_text in
  let s := Sample.started Sample.plain_def in
  always (collaborators := c) (fun resp => function_call_of resp = None)
  /\ execution s <> None
  /\ (exists s',
        Engine.callZodOutput (collaborators := c) Sample.plain_def
          Sample.no_callbacks 1 [] Sample.string_schema 0 s
        = Engine.callZodOutput (collaborators := c) Sample.plain_def
            Sample.no_callbacks 0
            [AIMessageOf {| text := "hello"; function_call := None |};
             HumanMessage
               (JSString
                  ("Please use the print function to respond. print function has the following scheme:"
                     ++ nl ++ "{}" ++ "         " ++ nl))]
            Sample.string_schema 1 s'
        /\ current_traces s'
           = [[{| action_id := "id2";
                  action := CallingOpenAi [];
                  response :=
                    Some (Error "No function call found, Got text instead: hello")
               |}]])
  /\ exists s' change,
       Engine.callZodOutput (collaborators := c) Sample.plain_def
         Sample.no_callbacks 40 [] Sample.string_schema 0 s
       = (OutOfFuel, s')
       /\ model_calls s' = 40 + model_calls s
       /\ current_traces s' = map change (current_traces s)
       /\ forall t, (no_timeout t -> no_timeout (change t))
                    /\ List.length (change t) = 40 + List.length t.
Proof.
  intros c s.
  assert (H1 : always (collaborators := c) (fun resp => function_call_of resp = None)).
  { intros model messages fns mode w. reflexivity. }
  assert (H2 : execution s <> None) by (vm_compute; discriminate).
  split; [exact H1|]. split; [exact H2|].
  pose proof (missing_function_call_is_retried_without_bound
                (collaborators := c) Sample.plain_def Sample.no_callbacks
                Sample.string_schema) as (_ & Hround & Hall).
  split.
  - destruct (Hround 0 [] 0 s H2 eq_refl)
      as (s' & change & Heq & _ & _ & Htraces & Hchange).
    exists s'. split; [exact Heq|]. rewrite Htraces.
    change (current_traces s) with [@nil (@Action Sample.platform)]. cbn [map].
    destruct (Hchange []) as (pre & -> & Hlen & _).
    destruct pre; [reflexivity|discriminate Hlen].
  - exact (Hall H1 40 [] 0 s H2).
Defined.

Lemma envelope_failures_use_the_retry_budget_witness :
  let c := Sample.collaborators_with Sample.bad_envelope in
  let s := Sample.started Sample.plain_def in
  let raw_call := JSObject [("arguments", JSNull)] in
  always (collaborators := c)
    (fun resp => exists raw_call message,
       classify (collaborators := c) Sample.plain_def Sample.string_schema resp
       = EnvelopeError raw_call message)
  /\ execution s <> None
  /\ Nat.max 1 (5 - 0) <= 5
  /\ (exists s',
        Engine.callZodOutput (collaborators := c) Sample.plain_def
          Sample.no_callbacks 1 [] Sample.string_schema 0 s
        = Engine.callZodOutput (collaborators := c) Sample.plain_def
            Sample.no_callbacks 0
            [AIMessageOf {| text := ""; function_call := Some raw_call |};
             FunctionMessage
               ("function 'print' returned a Validation error" ++ nl
                  ++ "'Invalid function call" ++ nl
                  ++ " Try again with a valid response. You may be forgetting to add key called 'argument'")
               "print"]
            Sample.string_schema 1 s'
        /\ current_traces s'
           = [[{| action_id := "id2";
                  action := CallingOpenAi [];
                  response := Some (ZodError raw_call "Invalid function call")
               |}]])
  /\ exists message pre resp raw_call s' change,
       Engine.callZodOutput (collaborators := c) Sample.plain_def
         Sample.no_callbacks 5 [] Sample.string_schema 0 s
       = (Returned (JSString message, (pre ++ [AIMessageOf resp])%list), s')
       /\ classify (collaborators := c) Sample.plain_def Sample.string_schema resp
          = EnvelopeError raw_call message
       /\ model_calls s' = Nat.max 1 (5 - 0) + model_calls s
       /\ current_traces s' = map change (current_traces s)
       /\ forall t, ends_with timed_out (change t).
Proof.
  intros c s raw_call.
  assert (H1 : always (collaborators := c)
                 (fun resp => exists raw_call message,
                    classify (collaborators := c) Sample.plain_def
                      Sample.string_schema resp
                    = EnvelopeError raw_call message)).
  { intros model messages fns mode w. eexists _, _. reflexivity. }
  assert (H2 : execution s <> None) by (vm_compute; discriminate).
  assert (H3 : Nat.max 1 (5 - 0) <= 5) by (cbn; lia).
  split; [exact H1|]. split; [exact H2|]. split; [exact H3|].
  pose proof (envelope_failures_use_the_retry_budget (collaborators := c)
                Sample.plain_def Sample.no_callbacks Sample.string_schema)
    as (_ & Hround & Hall).
  split.
  - destruct (Hround 0 [] 0 s raw_call "Invalid function call" H2 eq_refl)
      as (s' & _ & Heq & change & Htraces & Hchange).
    exists s'. split; [exact Heq|]. rewrite Htraces.
    change (current_traces s) with [@nil (@Action Sample.platform)]. cbn [map].
    destruct (Hchange []) as (pre & -> & Hlen & _).
    destruct pre; [reflexivity|discriminate Hlen].
  - exact (Hall H1 [] 0 5 s H2 H3).
Defined.

Lemma sub_function_calls_and_the_retry_counter_witness :
  let c := Sample.collaborators_with Sample.bad_lookup in
  let s := Sample.started Sample.lookup_def in
  let data := {| call_name := "lookup"; call_arguments := JSNum 1 0 |} in
  execution s <> None
  /\ (name Sample.lookup_fn =? "print") = false
  /\ classify (collaborators := c) Sample.lookup_def Sample.string_schema
       (reply_of (collaborators := c) Sample.lookup_def Sample.string_schema [] s)
     = ArgumentsError data Sample.lookup_fn "Expected string"
  /\ exists s',
       Engine.callZodOutput (collaborators := c) Sample.lookup_def
         Sample.no_callbacks 1 [] Sample.string_schema 4 s
       = (Returned
            (JSString "Expected string",
             [AIMessageOf
                (reply_of (collaborators := c) Sample.lookup_def
                   Sample.string_schema [] s)]), s').
Proof.
  intros c s data.
  assert (H1 : execution s <> None) by (vm_compute; discriminate).
  assert (H2 : (name Sample.lookup_fn =? "print") = false) by reflexivity.
  assert (H3 : classify (collaborators := c) Sample.lookup_def
                 Sample.string_schema
                 (reply_of (collaborators := c) Sample.lookup_def
                    Sample.string_schema [] s)
               = ArgumentsError data Sample.lookup_fn "Expected string")
    by reflexivity.
  split; [exact H1|]. split; [exact H2|]. split; [exact H3|].
  destruct (proj2 (sub_function_calls_and_the_retry_counter (collaborators := c)
                     Sample.lookup_def Sample.no_callbacks Sample.string_schema
                     0 [] 4 s data Sample.lookup_fn H1 H2)
              "Expected string" H3) as (s' & _ & Heq).
  exists s'. exact Heq.
Defined.

(** Against C6 as the spec words it: on the sample platform the model calls
    only the sub-function [lookup], each time with arguments that fail its
    schema, and the retriever still runs into [timeout-error] after its 5
    calls: those failures have moved the counter from 0 past 3. *)
Lemma sub_function_failures_reach_timeout :
  let c := Sample.collaborators_with Sample.bad_lookup in
  let s := Sample.started Sample.lookup_def in
  let r := Engine.callZodOutput (collaborators := c) Sample.lookup_def
             Sample.no_callbacks 5 [] Sample.string_schema 0 s in
  (forall messages st,
      classify (collaborators := c) Sample.lookup_def Sample.string_schema
        (reply_of (collaborators := c) Sample.lookup_def Sample.string_schema
           messages st)
      = ArgumentsError {| call_name := "lookup"; call_arguments := JSNum 1 0 |}
          Sample.lookup_fn "Expected string")
  /\ (exists messages, fst r = Returned (JSString "Expected string", messages))
  /\ model_calls (snd r) = 5
  /\ map (fun t => map response t) (current_traces (snd r))
     = [[Some (ZodError (JSNum 1 0) "Expected string");
         Some (ZodError (JSNum 1 0) "Expected string");
         Some (ZodError (JSNum 1 0) "Expected string");
         Some (ZodError (JSNum 1 0) "Expected string");
         Some TimeoutError]].
Proof.
  intros c s r. split; [|split; [|split]].
  - intros messages st. reflexivity.
  - eexists. vm_compute. reflexivity.
  - vm_compute. reflexivity.
  - vm_compute. reflexivity.
Qed.

(** ** The trace recorder *)

Section TraceRecorderFacts.
Context {platform : Platform} {collaborators : Collaborators}.
Variable args : Callbacks.

Lemma with_trace_same fe : with_trace fe (trace fe) = fe.
Proof. now destruct fe. Qed.

Lemma with_functionsExecuted_same e :
  with_functionsExecuted e (functionsExecuted e) = e.
Proof. now destruct e. Qed.

Lemma update_in_unknown id fields t :
  (forall a, In a t -> action_id a <> id) -> update_in id fields t = t.
Proof.
  intros H. unfold update_in.
  transitivity (map (fun a : Action => a) t); [|apply map_id].
  apply map_ext_in. intros a Ha.
  destruct (String.eqb_spec (action_id a) id) as [E|_]; [|reflexivity].
  now destruct (H a Ha).
Qed.

(** C10.  With an active Execution [e], when [id] is the id of no Action in
    the trace of a sub-record that [updateTrace] writes to, the call
    [updateTrace(id, fields)] returns without an error and leaves the
    Execution exactly as it was: every Action of every sub-record is
    unchanged.  The observer callback, when one was given, is still called,
    with that same Execution. *)
Theorem updateTrace_with_unknown_id_changes_nothing id fields s e :
  execution s = Some e ->
  (forall fe a,
      In fe (functionsExecuted e) -> is_current s fe = true ->
      In a (trace fe) -> action_id a <> id) ->
  Engine.updateTrace args id fields s
  = (Returned tt,
     {| execution := Some e;
        current_functionExecutionId := current_functionExecutionId s;
        world := world s;
        events := if onExecutionUpdate args
                  then (events s ++ [ExecutionUpdate e])%list
                  else events s |}).
Proof.
  intros He Hid.
  assert (Hsame :
            with_functionsExecuted e
              (map (fun fe =>
                      if is_current s fe
                      then with_trace fe
                             (map (fun t => if action_id t =? id
                                            then merge_action t fields
                                            else t) (trace fe))
                      else fe)
                   (functionsExecuted e)) = e).
  { transitivity (with_functionsExecuted e (functionsExecuted e));
      [|apply with_functionsExecuted_same].
    f_equal.
    transitivity (map (fun fe : FunctionExecuted => fe) (functionsExecuted e));
      [|apply map_id].
    apply map_ext_in. intros fe Hfe.
    destruct (is_current s fe) eqn:Hcur; [|reflexivity].
    transitivity (with_trace fe (trace fe)); [|apply with_trace_same].
    f_equal.
    apply (update_in_unknown id fields). intros a Ha.
    exact (Hid fe a Hfe Hcur Ha). }
  unfold Engine.updateTrace, get. unfold bind at 1. rewrite He.
  rewrite Hsame. unfold modify, Engine.notify, when, bind, emit, modify.
  destruct (onExecutionUpdate args); cbn; destruct s; cbn in *; now subst.
Qed.

End TraceRecorderFacts.

Lemma updateTrace_with_unknown_id_changes_nothing_witness :
  let c := Sample.collaborators_with Sample.plain_text in
  let s := snd (Engine.createTrace (collaborators := c) Sample.observed
                  (Query JSNull) (Some Loading)
                  (Sample.started Sample.plain_def)) in
  exists e,
    execution s = Some e
    /\ current_traces s
       = [[{| action_id := "id2"; action := Query JSNull; response := Some Loading |}]]
    /\ Engine.updateTrace Sample.observed "nobody"
         (response_update TimeoutError) s
       = (Returned tt,
          {| execution := Some e;
             current_functionExecutionId := current_functionExecutionId s;
             world := world s;
             events := (events s ++ [ExecutionUpdate e])%list |}).
Proof.
  intros c s. eexists. split; [reflexivity|]. split; [reflexivity|].
  apply (updateTrace_with_unknown_id_changes_nothing
           Sample.observed "nobody" (response_update TimeoutError) s).
  - reflexivity.
  - intros fe a [<-|[]] _ [<-|[]]. cbn. discriminate.
Defined.

(** ** [run] on a Definition without output schema and instructions *)

Section RunFacts.
Context {platform : Platform} {collaborators : Collaborators}.
Variable args : Callbacks.



Lemma produces_ret {A : Type} (P : A -> Prop) a : P a -> produces P (ret a).
Proof. intros Ha s Hs. exists a, s. repeat split; auto. Qed.

Lemma produces_bind {A B : Type} (P : A -> Prop) (Q : B -> Prop) c k :
  produces P c -> (forall a, P a -> produces Q (k a)) ->
  produces Q (x <- c ;; k x).
Proof.
  intros Hc Hk s Hs.
  destruct (Hc s Hs) as (a & s1 & Heq & Ha & Hs1 & Hm1).
  destruct (Hk a Ha s1 Hs1) as (b & s2 & Heq2 & Hb & Hs2 & Hm2).
  exists b, s2. rewrite (bind_returned _ _ _ _ _ Heq). repeat split; auto.
  congruence.
Qed.

Lemma produces_weaken {A : Type} (P Q : A -> Prop) c :
  produces P c -> (forall a, P a -> Q a) -> produces Q c.
Proof.
  intros Hc HPQ s Hs. destruct (Hc s Hs) as (a & s1 & Heq & Ha & H).
  exists a, s1. split; [exact Heq|]. split; [auto|exact H].
Qed.

Lemma produces_external {A : Type} (f : World -> A * World) :
  produces (fun a => exists w, a = fst (f w)) (external f).
Proof.
  intros s (e & He & Hcur). unfold external.
  destruct (f (world s)) as [a w] eqn:Ef.
  eexists a, _. split; [reflexivity|]. split.
  - exists (world s). now rewrite Ef.
  - split; [|reflexivity]. exists e. split; [exact He|exact Hcur].
Qed.

Lemma active_after_map s e (g : FunctionExecuted -> FunctionExecuted) s1 :
  execution s = Some e ->
  Forall (fun fe => is_current s fe = true) (functionsExecuted e) ->
  (forall fe, functionExecutionId (g fe) = functionExecutionId fe) ->
  execution s1
  = Some (with_functionsExecuted e
            (map (fun fe => if is_current s fe then g fe else fe)
                 (functionsExecuted e))) ->
  current_functionExecutionId s1 = current_functionExecutionId s ->
  active s1.
Proof.
  intros He Hcur Hg He1 Hid1. eexists. split; [exact He1|].
  cbn [functionsExecuted with_functionsExecuted]. apply Forall_map.
  revert Hcur. apply Forall_impl. intros fe Hfe. rewrite Hfe.
  unfold is_current in *. rewrite Hid1, Hg. exact Hfe.
Qed.

Lemma produces_createTrace body resp :
  produces (fun _ => True) (Engine.createTrace args body resp).
Proof.
  intros s (e & He & Hcur).
  unfold Engine.createTrace, external, get, modify.
  unfold bind at 1. destruct (nanoid (world s)) as [i w].
  unfold bind at 1. cbn [execution]. rewrite He. unfold bind at 1.
  match goal with |- context [bind (Engine.notify args ?e') _ ?s'] =>
    destruct (notify_ok args e' s') as (s1 & Hn & Hex & Hid & Hw & Hc) end.
  rewrite (bind_returned _ _ _ _ _ Hn).
  exists i, s1. split; [reflexivity|]. split; [exact I|]. split.
  - refine (active_after_map s e
              (fun fe => with_trace fe
                           (trace fe ++ [{| action_id := i;
                                            action := body;
                                            response := resp |}])%list)
              s1 He Hcur _ _ Hid).
    + intros fe. reflexivity.
    + rewrite Hex. reflexivity.
  - exact Hc.
Qed.

Lemma produces_updateTrace id fields :
  produces (fun _ => True) (Engine.updateTrace args id fields).
Proof.
  intros s (e & He & Hcur).
  unfold Engine.updateTrace, get, modify.
  unfold bind at 1. rewrite He. unfold bind at 1.
  match goal with |- context [Engine.notify args ?e' ?s'] =>
    destruct (notify_ok args e' s') as (s1 & Hn & Hex & Hid & Hw & Hc) end.
  exists tt, s1. split; [exact Hn|]. split; [exact I|]. split.
  - refine (active_after_map s e
              (fun fe => with_trace fe (update_in id fields (trace fe)))
              s1 He Hcur _ _ Hid).
    + intros fe. reflexivity.
    + rewrite Hex. reflexivity.
  - exact Hc.
Qed.

Lemma produces_forM {A B : Type} (P : B -> Prop) (f : A -> Async B) l :
  (forall a, produces P (f a)) -> produces (Forall P) (forM f l).
Proof.
  intros Hf. induction l as [|a l IH]; cbn [forM].
  - apply produces_ret. constructor.
  - apply (produces_bind P); [apply Hf|]. intros b Hb.
    apply (produces_bind (Forall P)); [exact IH|]. intros bs Hbs.
    apply produces_ret. now constructor.
Qed.

End RunFacts.

Section RunShortCircuit.
Context {platform : Platform} {collaborators : Collaborators}.
Variable args : Callbacks.


Lemma resolves_undefined_bind {A : Type} (P : A -> Prop) c k :
  produces P c -> (forall a, P a -> resolves_undefined (k a)) ->
  resolves_undefined (x <- c ;; k x).
Proof.
  intros Hc Hk s Hs.
  destruct (Hc s Hs) as (a & s1 & Heq & Ha & Hs1 & Hm1).
  destruct (Hk a Ha s1 Hs1) as (e & s2 & Heq2 & H1 & H2 & H3 & H4).
  exists e, s2. rewrite (bind_returned _ _ _ _ _ Heq). repeat split; auto.
  congruence.
Qed.

Lemma resolveExecution_undefined :
  resolves_undefined (Engine.resolveExecution args JSUndefined []).
Proof.
  intros s (e & He & Hcur).
  unfold Engine.resolveExecution, get, modify.
  unfold bind at 1. rewrite He. unfold bind at 1.
  match goal with |- context [bind (Engine.notify args ?e') _ ?s'] =>
    destruct (notify_ok args e' s') as (s1 & Hn & Hex & Hid & Hw & Hc) end.
  rewrite (bind_returned _ _ _ _ _ Hn).
  eexists _, s1. split; [reflexivity|]. split; [exact Hex|].
  split; [reflexivity|]. split; [|exact Hc].
  cbn [functionsExecuted with_finalResponse with_functionsExecuted].
  apply Forall_map. revert Hcur. apply Forall_impl. intros fe Hfe.
  rewrite Hfe. reflexivity.
Qed.

Lemma createExecution_active def arg _executionId s :
  exists id s',
    Engine.createExecution def arg _executionId s = (Returned id, s')
    /\ active s' /\ model_calls s' = model_calls s.
Proof.
  unfold Engine.createExecution.
  assert (Hext : forall (A : Type) (f : World -> A * World)
                        (k : A -> Async string) st,
             (x <- external f ;; k x) st
             = k (fst (f (world st)))
                 {| execution := execution st;
                    current_functionExecutionId := current_functionExecutionId st;
                    world := snd (f (world st));
                    events := events st |}).
  { intros A f k st. unfold bind, external. now destruct (f (world st)). }
  assert (Hrest : forall id st,
             exists s',
               (fid <- external nanoid ;;
                now <- external Date_now ;;
                modify (fun s0 =>
                  {| execution :=
                       Some {| id := id;
                               createdAt := now;
                               functionsExecuted :=
                                 [{| functionExecutionId := fid;
                                     inputs := arg;
                                     trace := [];
                                     sub_finalResponse := None;
                                     functionDef := def |}];
                               finalResponse := None;
                               verified := None |};
                     current_functionExecutionId := Some fid;
                     world := world s0;
                     events := events s0 |}) ;;
                ret id) st = (Returned id, s')
               /\ active s' /\ model_calls s' = model_calls st).
  { intros id st. rewrite Hext, Hext. eexists. split; [reflexivity|]. split.
    - eexists. split; [reflexivity|]. constructor; [|constructor].
      unfold is_current. cbn. apply String.eqb_refl.
    - reflexivity. }
  destruct _executionId as [i|].
  - destruct (i =? "").
    + rewrite Hext. destruct (Hrest (fst (nanoid (world s)))
        {| execution := execution s;
           current_functionExecutionId := current_functionExecutionId s;
           world := snd (nanoid (world s));
           events := events s |}) as (s' & H1 & H2 & H3).
      exists (fst (nanoid (world s))), s'. repeat split; auto.
    + unfold bind at 1, ret at 1. destruct (Hrest i s) as (s' & H1 & H2 & H3).
      exists i, s'. repeat split; auto.
  - rewrite Hext. destruct (Hrest (fst (nanoid (world s)))
      {| execution := execution s;
         current_functionExecutionId := current_functionExecutionId s;
         world := snd (nanoid (world s));
         events := events s |}) as (s' & H1 & H2 & H3).
    exists (fst (nanoid (world s))), s'. repeat split; auto.
Qed.

Lemma produces_getQueryDoc def queryArg :
  produces (fun _ => True) (Engine.getQueryDoc def args queryArg).
Proof.
  unfold Engine.getQueryDoc.
  destruct (truthy queryArg); [|now apply produces_ret].
  destruct (def_query def) as [[q fn]|]; [|now apply produces_ret].
  apply (produces_bind (fun _ => True)); [apply produces_createTrace|].
  intros id _.
  apply (produces_bind (fun _ => True)).
  { eapply produces_weaken; [apply produces_external|auto]. }
  intros query _.
  apply (produces_bind (fun _ => True)); [apply produces_updateTrace|].
  intros _ _. now apply produces_ret.
Qed.

Lemma get_prop_defined k k' v :
  get_prop k v <> None -> exists x, get_prop k' v = Some x.
Proof.
  destruct v; cbn; try congruence; intros _; eauto.
  - destruct (k' =? "length"); eauto.
  - destruct (k' =? "length"); eauto.
Qed.

(** The closure's [run] on a Definition without output schema and without
    instructions. *)
Lemma run_short_circuit def fuel arg _executionId s :
  def_output def = None ->
  Engine.instructions_template def = None ->
  get_prop "instructions" arg <> None ->
  (forall d i p w, get_prop "result" (fst (splitDocument d i p w)) <> None) ->
  exists e s',
    Engine.run def args fuel arg _executionId s = (Returned e, s')
    /\ execution s' = Some e
    /\ finalResponse e = Some JSUndefined
    /\ Forall (fun fe => sub_finalResponse fe = Some JSUndefined)
         (functionsExecuted e)
    /\ model_calls s' = model_calls s.
Proof.
  intros Hout Hins Harg Hsplit.
  unfold Engine.run.
  destruct (createExecution_active def arg _executionId s)
    as (executionId & s1 & Heq & Hact & Hm).
  rewrite (bind_returned _ _ _ _ _ Heq).
  destruct (get_prop_defined _ "instructions" _ Harg) as (instructions & ->).
  destruct (get_prop_defined _ "documents" _ Harg) as (docs & ->).
  destruct (get_prop_defined _ "query" _ Harg) as (queryArg & ->).
  rewrite <- Hm. clear Heq Hm. cbv zeta.
  refine (resolves_undefined_bind (fun _ => True) _ _ _ _ s1 Hact);
    [apply produces_createTrace|].
  intros _ _.
  apply (resolves_undefined_bind (fun _ => True)); [apply produces_getQueryDoc|].
  intros queryDoc _.
  rewrite Hins, Hout.
  apply (resolves_undefined_bind (fun _ => True)); [now apply produces_ret|].
  intros userPrompt _.
  apply (resolves_undefined_bind (fun _ => True)).
  { eapply produces_weaken; [|auto].
    apply (produces_forM (fun _ => True)). intros d.
    apply (produces_bind (fun _ => True)); [apply produces_createTrace|].
    intros id _. now apply produces_ret. }
  intros started _.
  apply (resolves_undefined_bind (fun _ => True)).
  { eapply produces_weaken; [|auto].
    apply (produces_forM (fun _ => True)). intros task.
    eapply produces_bind; [apply produces_external|].
    intros documentContext (w & ->).
    apply (produces_bind (fun _ => True)); [apply produces_updateTrace|].
    intros _ _.
    destruct (get_prop "result"
                (fst (splitDocument (snd task) executionId userPrompt w)))
      eqn:E.
    - now apply produces_ret.
    - now destruct (Hsplit _ _ _ _ E). }
  intros documentsTemplate _.
  apply resolveExecution_undefined.
Qed.

Lemma settles_of_produces {A : Type} (P : A -> Prop) (c : Async A) :
  produces P c -> settles (fun _ s' => active s') c.
Proof.
  intros Hc s Hs. destruct (Hc s Hs) as (a & s' & Heq & _ & Hact & Hm).
  rewrite Heq. split; [exact Hm|exact Hact].
Qed.

Lemma settles_bind {A B : Type} (Q : B -> State -> Prop) (c : Async A) k :
  settles (fun _ s' => active s') c -> (forall a, settles Q (k a)) ->
  settles Q (x <- c ;; k x).
Proof.
  intros Hc Hk s Hs. destruct (Hc s Hs) as (Hm & Hr). unfold bind.
  destruct (c s) as [[a| |] s1]; cbn [fst snd] in *.
  - destruct (Hk a s1 Hr) as (Hm2 & Hr2). split; [congruence|exact Hr2].
  - split; [exact Hm|exact I].
  - destruct Hr.
Qed.

Lemma settles_throw {A : Type} (Q : A -> State -> Prop) e :
  settles Q (throw e).
Proof. intros s _. split; [reflexivity|exact I]. Qed.

Lemma settles_ret {A : Type} (a : A) :
  settles (fun _ s' => active s') (ret a).
Proof. intros s Hs. split; [reflexivity|exact Hs]. Qed.

Lemma settles_forM {A B : Type} (f : A -> Async B) l :
  (forall a, settles (fun _ s' => active s') (f a)) ->
  settles (fun _ s' => active s') (forM f l).
Proof.
  intros Hf. induction l as [|a l IH]; cbn [forM]; [apply settles_ret|].
  apply settles_bind; [apply Hf|]. intros b.
  apply settles_bind; [exact IH|]. intros bs. apply settles_ret.
Qed.

Lemma resolveExecution_settles :
  settles resolved_undefined (Engine.resolveExecution args JSUndefined []).
Proof.
  intros s Hs.
  destruct (resolveExecution_undefined s Hs)
    as (e & s' & Heq & H1 & H2 & H3 & H4).
  rewrite Heq. split; [exact H4|]. repeat split; assumption.
Qed.

(** The closure's [run] on a Definition without output schema and without
    instructions, for any arguments and any collaborators: no call of the
    chat model, no recursion to cut, and when it returns, the Execution is
    resolved with [undefined]. *)
Lemma run_settles def fuel arg _executionId s :
  def_output def = None ->
  Engine.instructions_template def = None ->
  let r := Engine.run def args fuel arg _executionId s in
  model_calls (snd r) = model_calls s
  /\ fst r <> OutOfFuel
  /\ forall e, fst r = Returned e -> resolved_undefined e (snd r).
Proof.
  intros Hout Hins r.
  assert (H : model_calls (snd r) = model_calls s
              /\ match fst r with
                 | Returned e => resolved_undefined e (snd r)
                 | Thrown _ => True
                 | OutOfFuel => False
                 end).
  { unfold r, Engine.run.
    destruct (createExecution_active def arg _executionId s)
      as (executionId & s1 & Heq & Hact & Hm).
    rewrite (bind_returned _ _ _ _ _ Heq). rewrite <- Hm. clear Heq Hm.
    destruct (get_prop "instructions" arg) as [instructions|];
      [|exact (settles_throw resolved_undefined _ s1 Hact)].
    destruct (get_prop "documents" arg) as [docs|];
      [|exact (settles_throw resolved_undefined _ s1 Hact)].
    destruct (get_prop "query" arg) as [queryArg|];
      [|exact (settles_throw resolved_undefined _ s1 Hact)].
    cbv zeta. rewrite Hins, Hout.
    refine (settles_bind resolved_undefined _ _ _ _ s1 Hact);
      [apply (settles_of_produces _ _ (produces_createTrace args _ _))|].
    intros _.
    apply settles_bind;
      [apply (settles_of_produces _ _ (produces_getQueryDoc def queryArg))|].
    intros queryDoc.
    apply settles_bind; [apply settles_ret|]. intros userPrompt.
    apply settles_bind.
    { apply settles_forM. intros d.
      apply settles_bind;
        [apply (settles_of_produces _ _ (produces_createTrace args _ _))|].
      intros id. apply settles_ret. }
    intros started.
    apply settles_bind.
    { apply settles_forM. intros task.
      apply settles_bind;
        [apply (settles_of_produces _ _ (produces_external _))|].
      intros documentContext.
      apply settles_bind;
        [apply (settles_of_produces _ _ (produces_updateTrace args _ _))|].
      intros _.
      destruct (get_prop "result" documentContext);
        [apply settles_ret|apply settles_throw]. }
    intros documentsTemplate. apply resolveExecution_settles. }
  destruct H as (Hm & Hr). split; [exact Hm|]. split.
  - intros E. now rewrite E in Hr.
  - intros e E. now rewrite E in Hr.
Qed.

End RunShortCircuit.

Section RunClaims.
Context {platform : Platform} {collaborators : Collaborators}.

Lemma instructions_template_absent def :
  def_instructions def = None -> Engine.instructions_template def = None.
Proof. intros H. unfold Engine.instructions_template. now rewrite H. Qed.

(** The method [run] when there is nothing to fold. *)
Lemma method_run_short_circuit b fuel runtimeArgs executionId s :
  def_output (Builder.internal_def b) = None ->
  def_instructions (Builder.internal_def b) = None ->
  get_prop "instructions" runtimeArgs <> None ->
  (forall d i p w, get_prop "result" (fst (splitDocument d i p w)) <> None) ->
  or_empty (def_mapFns (Builder.internal_def b)) = [] ->
  exists e s',
    Builder.run (S fuel) b runtimeArgs executionId s = (Returned e, s')
    /\ execution s' = Some e
    /\ finalResponse e = Some JSUndefined
    /\ Forall (fun fe => sub_finalResponse fe = Some JSUndefined)
         (functionsExecuted e)
    /\ model_calls s' = model_calls s.
Proof.
  intros Hout Hins Harg Hsplit Hmap.
  destruct (run_short_circuit (Builder.callbacks b) (Builder.internal_def b)
              fuel runtimeArgs executionId s Hout
              (instructions_template_absent _ Hins) Harg Hsplit)
    as (e & s' & Heq & H).
  exists e, s'. split; [|exact H].
  cbn [Builder.run]. rewrite (bind_returned _ _ _ _ _ Heq).
  rewrite Hmap. reflexivity.
Qed.

(** C7, as the code has it.  Take a Definition that declares neither an
    output schema nor instructions.  Whatever the arguments and the
    collaborators, the closure's [run] issues no call of the chat provider
    and is not a recursion (no fuel is used); when it returns, it has
    resolved the Execution with the final response [undefined], for the
    Execution and for its sub-record.  It does return when the arguments are
    not [undefined] or [null] and the document collaborator answers with a
    [result].  The method [run] then folds the map steps over that
    Execution; when the Definition declares none, the method does what the
    closure's [run] does. *)
Theorem run_without_output_and_instructions b fuel runtimeArgs executionId s :
  def_output (Builder.internal_def b) = None ->
  def_instructions (Builder.internal_def b) = None ->
  let closure_run :=
    Engine.run (Builder.internal_def b) (Builder.callbacks b) fuel
      runtimeArgs executionId s in
  (model_calls (snd closure_run) = model_calls s
   /\ fst closure_run <> OutOfFuel
   /\ forall e, fst closure_run = Returned e ->
                resolved_undefined e (snd closure_run))
  /\ (get_prop "instructions" runtimeArgs <> None ->
      (forall d i p w, get_prop "result" (fst (splitDocument d i p w)) <> None) ->
      exists e, fst closure_run = Returned e)
  /\ (or_empty (def_mapFns (Builder.internal_def b)) = [] ->
      Builder.run (S fuel) b runtimeArgs executionId s = closure_run).
Proof.
  intros Hout Hins closure_run. split; [|split].
  - exact (run_settles (Builder.callbacks b) (Builder.internal_def b) fuel
             runtimeArgs executionId s Hout
             (instructions_template_absent _ Hins)).
  - intros Harg Hsplit.
    destruct (run_short_circuit (Builder.callbacks b) (Builder.internal_def b)
                fuel runtimeArgs executionId s Hout
                (instructions_template_absent _ Hins) Harg Hsplit)
      as (e & s' & Heq & _).
    exists e. unfold closure_run. now rewrite Heq.
  - intros Hmap. unfold closure_run. cbn [Builder.run]. rewrite Hmap.
    unfold bind.
    destruct (Engine.run (Builder.internal_def b) (Builder.callbacks b) fuel
                runtimeArgs executionId s) as [[e| |] s']; reflexivity.
Qed.

End RunClaims.

Lemma run_without_output_and_instructions_witness :
  let c := Sample.collaborators_with Sample.bad_print in
  let b := Builder.createFn None Sample.observed in
  let closure_run :=
    Engine.run (collaborators := c) (Builder.internal_def b)
      (Builder.callbacks b) 0 (JSObject []) None Sample.initial in
  def_output (Builder.internal_def b) = None
  /\ def_instructions (Builder.internal_def b) = None
  /\ get_prop "instructions" (JSObject []) <> None
  /\ or_empty (def_mapFns (Builder.internal_def b)) = []
  /\ model_calls (snd closure_run) = model_calls Sample.initial
  /\ (exists e, fst closure_run = Returned e
                /\ resolved_undefined e (snd closure_run))
  /\ Builder.run (collaborators := c) 1 b (JSObject []) None Sample.initial
     = closure_run.
Proof.
  intros c b closure_run.
  assert (H1 : def_output (Builder.internal_def b) = None) by reflexivity.
  assert (H2 : def_instructions (Builder.internal_def b) = None) by reflexivity.
  assert (H3 : get_prop "instructions" (JSObject []) <> None)
    by (cbn; discriminate).
  assert (H4 : or_empty (def_mapFns (Builder.internal_def b)) = [])
    by reflexivity.
  split; [exact H1|]. split; [exact H2|]. split; [exact H3|].
  split; [exact H4|].
  destruct (run_without_output_and_instructions (collaborators := c)
              b 0 (JSObject []) None Sample.initial H1 H2)
    as ((Hcalls & _ & Hres) & Hret & Hmethod).
  split; [exact Hcalls|]. split.
  - destruct (Hret H3 (fun d i p w => ltac:(cbn; discriminate))) as (e & He).
    exists e. split; [exact He|]. exact (Hres e He).
  - exact (Hmethod H4).
Defined.

(** Against C7 as the spec words it: two Definitions without output schema
    and without instructions.  With a plain map step, [run] returns an
    Execution whose final response is the value of the map step, not
    [undefined]; with a map step that is an AI function with instructions,
    [run] calls the chat provider. *)
Lemma map_steps_follow_the_short_circuit :
  let c := Sample.collaborators_with Sample.good_print in
  let r1 := Builder.run (collaborators := c) 3 Sample.mapped_builder
              (JSObject []) None Sample.initial in
  let r2 := Builder.run (collaborators := c) 5 Sample.ai_mapped_builder
              (JSObject []) None Sample.initial in
  (def_output (Builder.internal_def Sample.mapped_builder) = None
   /\ def_instructions (Builder.internal_def Sample.mapped_builder) = None
   /\ exists e, fst r1 = Returned e
                /\ finalResponse e = Some (JSString "mapped"))
  /\ (def_output (Builder.internal_def Sample.ai_mapped_builder) = None
      /\ def_instructions (Builder.internal_def Sample.ai_mapped_builder) = None
      /\ (exists e, fst r2 = Returned e)
      /\ model_calls (snd r2) = 1).
Proof.
  intros c r1 r2. split.
  - split; [reflexivity|]. split; [reflexivity|].
    eexists. split; vm_compute; reflexivity.
  - split; [reflexivity|]. split; [reflexivity|]. split.
    + eexists. vm_compute. reflexivity.
    + vm_compute. reflexivity.
Qed.

(** ** The log registry *)

Section UpsertFacts.
Context {A : Type} (key : A -> string).

Let has_key (k : string) (l : list A) : bool :=
  existsb (fun y => key y =? k) l.

Lemma upsert_same_key x y l :
  key x = key y ->
  Registry.upsert key x (Registry.upsert key y l) = Registry.upsert key x l.
Proof.
  intros Hxy. induction l as [|z l IH]; cbn.
  - destruct (String.eqb_spec (key y) (key x)); [reflexivity|congruence].
  - destruct (String.eqb_spec (key z) (key y)) as [E1|E1];
      destruct (String.eqb_spec (key z) (key x)) as [E2|E2];
      try congruence; cbn.
    + destruct (String.eqb_spec (key y) (key x)); [reflexivity|congruence].
    + destruct (String.eqb_spec (key z) (key x)); [congruence|].
      now rewrite IH.
Qed.

Lemma upsert_absent x l :
  has_key (key x) l = false -> Registry.upsert key x l = (l ++ [x])%list.
Proof.
  induction l as [|z l IH]; cbn; [reflexivity|].
  destruct (key z =? key x); cbn; [discriminate|].
  intros H. now rewrite IH.
Qed.

Lemma upsert_fixed_has_key x l :
  Registry.upsert key x l = l -> has_key (key x) l = true.
Proof.
  intros H. destruct (has_key (key x) l) eqn:E; [reflexivity|].
  rewrite (upsert_absent x l E) in H.
  apply (f_equal (@List.length A)) in H. rewrite length_app in H. cbn in H. lia.
Qed.

Lemma has_key_upsert k y l :
  has_key k l = true -> has_key k (Registry.upsert key y l) = true.
Proof.
  induction l as [|z l IH]; cbn; [discriminate|].
  destruct (key z =? key y) eqn:E; cbn.
  - apply String.eqb_eq in E. rewrite <- E. auto.
  - destruct (key z =? k); cbn; auto.
Qed.

Lemma upsert_comm x y l :
  key x <> key y -> has_key (key x) l = true ->
  Registry.upsert key x (Registry.upsert key y l)
  = Registry.upsert key y (Registry.upsert key x l).
Proof.
  intros Hxy. induction l as [|z l IH]; cbn; [discriminate|].
  destruct (String.eqb_spec (key z) (key x)) as [Ezx|Ezx];
    destruct (String.eqb_spec (key z) (key y)) as [Ezy|Ezy]; cbn.
  - congruence.
  - intros _. rewrite (proj2 (String.eqb_eq _ _) Ezx).
    destruct (String.eqb_spec (key x) (key y)); [congruence|reflexivity].
  - intros H. destruct (String.eqb_spec (key y) (key x)); [congruence|].
    rewrite (proj2 (String.eqb_eq _ _) Ezy). reflexivity.
  - intros H. rewrite (proj2 (String.eqb_neq _ _) Ezx),
      (proj2 (String.eqb_neq _ _) Ezy). f_equal. now apply IH.
Qed.

Lemma has_key_merge k existing incoming :
  has_key k existing = true ->
  has_key k (Registry.mergeOrUpdate existing incoming key) = true.
Proof.
  unfold Registry.mergeOrUpdate. revert existing.
  induction incoming as [|y incoming IH]; intros existing H; cbn; [exact H|].
  apply IH. now apply has_key_upsert.
Qed.

Lemma merge_absorbs x l incoming :
  has_key (key x) l = true -> has_key (key x) incoming = true ->
  Registry.mergeOrUpdate (Registry.upsert key x l) incoming key
  = Registry.mergeOrUpdate l incoming key.
Proof.
  unfold Registry.mergeOrUpdate. revert l.
  induction incoming as [|y incoming IH]; intros l Hl Hin; cbn in *;
    [discriminate|].
  destruct (String.eqb_spec (key y) (key x)) as [E|E].
  - now rewrite (upsert_same_key y x l E).
  - cbn in Hin. rewrite <- (upsert_comm x y l) by congruence.
    apply IH; [now apply has_key_upsert|exact Hin].
Qed.

Lemma merge_keeps x l incoming :
  has_key (key x) incoming = false -> Registry.upsert key x l = l ->
  Registry.upsert key x (Registry.mergeOrUpdate l incoming key)
  = Registry.mergeOrUpdate l incoming key.
Proof.
  unfold Registry.mergeOrUpdate. revert l.
  induction incoming as [|y incoming IH]; intros l Hin Hl; cbn in *;
    [exact Hl|].
  destruct (String.eqb_spec (key y) (key x)) as [E|E]; [discriminate|].
  cbn in Hin. apply IH; [exact Hin|].
  rewrite upsert_comm; [now rewrite Hl|congruence|].
  now apply upsert_fixed_has_key.
Qed.

Lemma upsert_idem x l :
  Registry.upsert key x (Registry.upsert key x l) = Registry.upsert key x l.
Proof. now apply upsert_same_key. Qed.

(** Merging the same incoming list a second time changes nothing. *)
Lemma mergeOrUpdate_idem existing incoming :
  Registry.mergeOrUpdate
    (Registry.mergeOrUpdate existing incoming key) incoming key
  = Registry.mergeOrUpdate existing incoming key.
Proof.
  revert existing. induction incoming as [|x incoming IH]; intros existing;
    [reflexivity|].
  change (Registry.mergeOrUpdate existing (x :: incoming) key)
    with (Registry.mergeOrUpdate (Registry.upsert key x existing) incoming key).
  set (m := Registry.mergeOrUpdate (Registry.upsert key x existing) incoming key).
  change (Registry.mergeOrUpdate m (x :: incoming) key)
    with (Registry.mergeOrUpdate (Registry.upsert key x m) incoming key).
  assert (Hm : has_key (key x) m = true).
  { apply has_key_merge. apply upsert_fixed_has_key. apply upsert_idem. }
  destruct (has_key (key x) incoming) eqn:Hin.
  - rewrite (merge_absorbs x m incoming Hm Hin). apply IH.
  - unfold m at 1. rewrite (merge_keeps x _ incoming Hin (upsert_idem x existing)).
    apply IH.
Qed.

End UpsertFacts.

Section RegistryFacts.
Context {platform : Platform}.

Lemma merge_idem A B :
  Registry.merge (Registry.merge A B) B = Registry.merge A B.
Proof.
  unfold Registry.merge. cbn [id createdAt functionsExecuted finalResponse verified].
  rewrite mergeOrUpdate_idem.
  destruct (finalResponse B), (verified B); reflexivity.
Qed.

Lemma find_replaced (M : Execution) logs A :
  find (fun e => id e =? id M) logs = Some A ->
  find (fun e => id e =? id M)
    (map (fun e => if id e =? id M then M else e) logs) = Some M.
Proof.
  induction logs as [|e logs IH]; cbn; [discriminate|].
  destruct (id e =? id M) eqn:E; cbn.
  - intros _. now rewrite String.eqb_refl.
  - rewrite E. exact IH.
Qed.

Lemma replace_twice (M : Execution) logs :
  map (fun e => if id e =? id M then M else e)
    (map (fun e => if id e =? id M then M else e) logs)
  = map (fun e => if id e =? id M then M else e) logs.
Proof.
  rewrite map_map. apply map_ext. intros e.
  destruct (id e =? id M) eqn:E; [now rewrite String.eqb_refl|now rewrite E].
Qed.

(** C3.  For every existing Execution [A] and incoming Execution [B], merging
    [B] into the merge of [A] and [B] gives that merge again; this needs no
    assumption on the two, so it holds for those that share an id.  Hence
    when the registry holds an Execution with the id of [B], handling [B]
    and then handling [B] once more returns the same merged Execution and
    leaves the stored list of Executions as the first handling left it. *)
Theorem replaying_an_execution_is_a_no_op :
  (forall A B, Registry.merge (Registry.merge A B) B = Registry.merge A B)
  /\ (forall logsProvider B s A,
        find (fun e => id e =? id B) (Registry.executionLogs s) = Some A ->
        let first := Registry.logHandler logsProvider B s in
        let second := Registry.logHandler logsProvider B (snd first) in
        fst first = Registry.merge A B
        /\ fst second = fst first
        /\ Registry.executionLogs (snd second)
           = Registry.executionLogs (snd first)).
Proof.
  split; [exact merge_idem|].
  intros logsProvider B s A Hfind first second.
  assert (Hid : id (Registry.merge A B) = id B) by reflexivity.
  assert (Hfirst : first
                   = (Registry.merge A B,
                      {| Registry.executionLogs :=
                           map (fun e => if id e =? id (Registry.merge A B)
                                         then Registry.merge A B else e)
                               (Registry.executionLogs s);
                         Registry.saved :=
                           if logsProvider
                           then (Registry.saved s ++ [Registry.merge A B])%list
                           else Registry.saved s |})).
  { unfold first, Registry.logHandler. now rewrite Hfind. }
  assert (Hfind' : find (fun e => id e =? id B)
                     (Registry.executionLogs (snd first))
                   = Some (Registry.merge A B)).
  { rewrite Hfirst. cbn [snd Registry.executionLogs].
    rewrite <- Hid. apply (find_replaced _ _ A). now rewrite Hid. }
  split; [now rewrite Hfirst|].
  unfold second, Registry.logHandler. rewrite Hfind'.
  cbn [fst snd Registry.executionLogs]. rewrite merge_idem.
  split; [now rewrite Hfirst|].
  rewrite Hfirst. cbn [snd Registry.executionLogs]. apply replace_twice.
Qed.

End RegistryFacts.

(** ** The builder *)

Section KeyedFacts.
Context {A : Type} (key : A -> string).

Let has_key (k : string) (o : list A) : bool :=
  existsb (fun y => key y =? k) o.

Lemma has_key_in k o : has_key k o = true <-> In k (keys key o).
Proof.
  unfold has_key, keys. rewrite existsb_exists, in_map_iff.
  split; intros (y & H1 & H2).
  - exists y. split; [now apply String.eqb_eq|exact H1].
  - exists y. split; [exact H2|now apply String.eqb_eq].
Qed.

(** A key that is not an array index goes to the end. *)
Lemma set_entry_plain x o :
  array_index (key x) = None ->
  set_entry key x o
  = if existsb (fun y => key y =? key x) o
    then map (fun y => if key y =? key x then x else y) o
    else (o ++ [x])%list.
Proof. intros H. unfold set_entry. now rewrite H. Qed.

Lemma set_entry_absent x o :
  array_index (key x) = None ->
  ~ In (key x) (keys key o) -> set_entry key x o = (o ++ [x])%list.
Proof.
  intros Hp H. rewrite (set_entry_plain x o Hp).
  destruct (existsb (fun y => key y =? key x) o) eqn:E; [|reflexivity].
  destruct H. now apply has_key_in.
Qed.

Lemma in_keys_insert_index n x o k :
  In k (keys key (insert_index key n x o)) <-> k = key x \/ In k (keys key o).
Proof.
  induction o as [|y o IH]; cbn [insert_index keys map In].
  - split; [intros [H|[]]; auto|intros [H|[]]; auto].
  - destruct (array_index (key y)) as [m|]; [destruct (m <? n)%N|];
      cbn [keys map In]; fold (keys key (insert_index key n x o));
      fold (keys key o); try rewrite IH; intuition auto.
Qed.

Lemma NoDup_insert_index n x o :
  ~ In (key x) (keys key o) -> NoDup (keys key o) ->
  NoDup (keys key (insert_index key n x o)).
Proof.
  induction o as [|y o IH]; cbn [insert_index keys map]; intros Hx Hnd.
  - constructor; [intros []|constructor].
  - assert (Hins : NoDup (key x :: key y :: map key o))
      by (constructor; [exact Hx|exact Hnd]).
    destruct (array_index (key y)) as [m|]; [destruct (m <? n)%N|];
      cbn [keys map]; try exact Hins.
    inversion Hnd as [|? ? Hy Hrest]; subst. constructor.
    + fold (keys key (insert_index key n x o)). rewrite in_keys_insert_index.
      intros [H|H]; [|now apply Hy]. apply Hx. left. now symmetry.
    + apply IH; [|exact Hrest]. intros H. apply Hx. now right.
Qed.

Lemma find_insert_index_same n x o :
  existsb (fun y => key y =? key x) o = false ->
  find (fun y => key y =? key x) (insert_index key n x o) = Some x.
Proof.
  induction o as [|y o IH]; cbn [insert_index existsb find]; intros H.
  - now rewrite String.eqb_refl.
  - apply orb_false_iff in H. destruct H as (Hy & Ho).
    destruct (array_index (key y)) as [m|]; [destruct (m <? n)%N|];
      cbn [find]; rewrite ?String.eqb_refl; try reflexivity.
    rewrite Hy. now apply IH.
Qed.

Lemma find_insert_index_other k n x o :
  k <> key x ->
  find (fun y => key y =? k) (insert_index key n x o)
  = find (fun y => key y =? k) o.
Proof.
  intros Hk.
  assert (Hx : (key x =? k) = false)
    by (apply String.eqb_neq; congruence).
  induction o as [|y o IH]; cbn [insert_index find].
  - now rewrite Hx.
  - destruct (array_index (key y)) as [m|]; [destruct (m <? n)%N|];
      cbn [find]; rewrite ?Hx; try reflexivity.
    now rewrite IH.
Qed.

Lemma keys_replace x o :
  keys key (map (fun y => if key y =? key x then x else y) o) = keys key o.
Proof.
  unfold keys. rewrite map_map. apply map_ext. intros y.
  destruct (String.eqb_spec (key y) (key x)) as [E|E]; [now rewrite E|reflexivity].
Qed.

Lemma keys_set_entry x o :
  array_index (key x) = None ->
  keys key (set_entry key x o)
  = if has_key (key x) o then keys key o else (keys key o ++ [key x])%list.
Proof.
  intros Hp. rewrite (set_entry_plain x o Hp). unfold has_key.
  destruct (existsb (fun y => key y =? key x) o).
  - apply keys_replace.
  - unfold keys. now rewrite map_app.
Qed.

Lemma NoDup_set_entry x o :
  NoDup (keys key o) -> NoDup (keys key (set_entry key x o)).
Proof.
  intros H. unfold set_entry.
  destruct (existsb (fun y => key y =? key x) o) eqn:E;
    [now rewrite keys_replace|].
  assert (Hx : ~ In (key x) (keys key o)).
  { intros Hin. apply has_key_in in Hin. unfold has_key in Hin.
    rewrite Hin in E. discriminate. }
  destruct (array_index (key x)) as [n|]; [now apply NoDup_insert_index|].
  unfold keys. rewrite map_app.
  apply NoDup_app; [exact H|constructor; [intros []|constructor]|].
  intros k Hk [<-|[]]. now apply Hx.
Qed.

Lemma NoDup_spread target source :
  NoDup (keys key target) -> NoDup (keys key (spread key target source)).
Proof.
  unfold spread. revert target.
  induction source as [|x source IH]; intros target H; cbn; [exact H|].
  apply IH. now apply NoDup_set_entry.
Qed.

Lemma spread_app target source :
  (forall x, array_index (key x) = None) ->
  NoDup (keys key (target ++ source)) ->
  spread key target source = (target ++ source)%list.
Proof.
  intros Hp. unfold spread. revert target.
  induction source as [|x source IH]; intros target H; cbn.
  - now rewrite app_nil_r.
  - rewrite set_entry_absent.
    + rewrite IH; rewrite <- app_assoc; [reflexivity|exact H].
    + apply Hp.
    + unfold keys in H. rewrite map_app in H. cbn in H.
      apply NoDup_remove_2 in H. intros Hin. apply H.
      apply in_or_app. now left.
Qed.

Lemma spread_nil o :
  (forall x, array_index (key x) = None) ->
  NoDup (keys key o) -> spread key [] o = o.
Proof. intros Hp H. now rewrite spread_app. Qed.

Lemma find_set_entry_same x o :
  find (fun y => key y =? key x) (set_entry key x o) = Some x.
Proof.
  unfold set_entry.
  destruct (existsb (fun y => key y =? key x) o) eqn:E.
  - induction o as [|z o IH]; cbn in *; [discriminate|].
    destruct (key z =? key x) eqn:Ez; cbn.
    + now rewrite String.eqb_refl.
    + rewrite Ez. auto.
  - destruct (array_index (key x)) as [n|];
      [now apply find_insert_index_same|].
    induction o as [|z o IH]; cbn in *.
    + now rewrite String.eqb_refl.
    + destruct (key z =? key x); [discriminate|]. auto.
Qed.

Lemma find_set_entry_other k x o :
  k <> key x ->
  find (fun y => key y =? k) (set_entry key x o)
  = find (fun y => key y =? k) o.
Proof.
  intros Hk. unfold set_entry.
  destruct (existsb (fun y => key y =? key x) o).
  - induction o as [|z o IH]; cbn; [reflexivity|].
    destruct (String.eqb_spec (key z) (key x)) as [E|E].
    + destruct (String.eqb_spec (key x) k); [congruence|].
      destruct (String.eqb_spec (key z) k); [congruence|exact IH].
    + destruct (key z =? k); [reflexivity|exact IH].
  - destruct (array_index (key x)) as [n|];
      [now apply find_insert_index_other|].
    induction o as [|z o IH]; cbn.
    + destruct (String.eqb_spec (key x) k); [congruence|reflexivity].
    + destruct (key z =? k); [reflexivity|exact IH].
Qed.

End KeyedFacts.

Section BuilderFacts.
Context {platform : Platform}.

Lemma key_model f : key_of f = "model" -> exists m, f = Fmodel m.
Proof. destruct f; cbn; intros H; try discriminate H. eauto. Qed.

(** No key of a Definition is an array index. *)
Lemma key_of_plain f : array_index (key_of f) = None.
Proof. destruct f; reflexivity. Qed.

Lemma builder_def_set_entry f d :
  builder_def d -> builder_def (set_entry key_of f d).
Proof.
  intros ((m & rest & ->) & Hnd). split; [|now apply NoDup_set_entry].
  rewrite (set_entry_plain key_of f _ (key_of_plain f)).
  destruct (existsb (fun y => key_of y =? key_of f) (Fmodel m :: rest)).
  - cbn [map]. destruct (String.eqb_spec (key_of (Fmodel m)) (key_of f)) as [E|E].
    + destruct (key_model f (eq_sym E)) as (m' & ->). eauto.
    + eauto.
  - cbn. eauto.
Qed.

Lemma builder_def_spread d source :
  builder_def d -> builder_def (def_spread d source).
Proof.
  unfold def_spread, spread. revert d.
  induction source as [|f source IH]; intros d H; cbn; [exact H|].
  apply IH. now apply builder_def_set_entry.
Qed.

Lemma createFn_builder_def initDef args :
  builder_def (Builder.internal_def (Builder.createFn initDef args)).
Proof.
  cbn [Builder.createFn Builder.internal_def].
  change (builder_def (def_spread [Fmodel default_model] (or_empty initDef))).
  apply builder_def_spread. split; [eauto|].
  constructor; [intros []|constructor].
Qed.

Lemma createFn_keeps d args :
  builder_def d -> Builder.internal_def (Builder.createFn (Some d) args) = d.
Proof.
  intros ((m & rest & ->) & Hnd).
  cbn [Builder.createFn Builder.internal_def or_empty].
  change (spread key_of [Fmodel m] rest = Fmodel m :: rest).
  now rewrite (spread_app key_of _ _ key_of_plain).
Qed.

Lemma def_literal_field d f :
  builder_def d -> def_literal [d; [f]] = set_entry key_of f d.
Proof.
  intros (_ & Hnd).
  change (def_literal [d; [f]]) with (set_entry key_of f (spread key_of [] d)).
  now rewrite (spread_nil key_of _ key_of_plain).
Qed.

(** A method that builds [{ ...def, key: value }]. *)
Lemma method_layers b f :
  builder_def (Builder.internal_def b) ->
  layered f b
    (Builder.createFn (Some (def_literal [Builder.internal_def b; [f]]))
       (Builder.callbacks b)).
Proof.
  intros H. split; [|reflexivity].
  rewrite (def_literal_field _ f H).
  apply createFn_keeps. now apply builder_def_set_entry.
Qed.

Lemma lookup_none_key {B : Type} (sel : Field -> option B) k d :
  (forall f, key_of f = k -> sel f <> None) ->
  lookup sel d = None -> ~ In k (keys key_of d).
Proof.
  intros Hsel. induction d as [|f d IH]; cbn; [auto|].
  destruct (sel f) eqn:E; [discriminate|].
  intros H [Hk|Hk]; [|now apply IH].
  now apply (Hsel f Hk).
Qed.

Lemma output_layers b t m rest :
  Builder.internal_def b = Fmodel m :: rest ->
  NoDup (keys key_of (Builder.internal_def b)) ->
  def_output (Builder.internal_def b) = None ->
  def_tsOutputString (Builder.internal_def b) = None ->
  Builder.internal_def (Builder.output b t)
  = Fmodel m :: Foutput t :: FtsOutputString (printNode_zodToTs t) :: rest.
Proof.
  intros Hd Hnd Hout Hts.
  assert (Ho : ~ In "output" (keys key_of (Builder.internal_def b))).
  { apply (lookup_none_key _ "output" _) in Hout; [exact Hout|].
    intros f Hf. destruct f; cbn in Hf; try discriminate Hf. discriminate. }
  assert (Hs : ~ In "tsOutputString" (keys key_of (Builder.internal_def b))).
  { apply (lookup_none_key _ "tsOutputString" _) in Hts; [exact Hts|].
    intros f Hf. destruct f; cbn in Hf; try discriminate Hf. discriminate. }
  unfold Builder.output.
  cbn [Builder.createFn Builder.internal_def or_empty].
  rewrite Hd in *. cbn [keys map key_of] in Hnd, Ho, Hs.
  change (def_literal
            [[Foutput t; FtsOutputString (printNode_zodToTs t)];
             Fmodel m :: rest])
    with (spread key_of [Foutput t; FtsOutputString (printNode_zodToTs t)]
            (Fmodel m :: rest)).
  rewrite (spread_app key_of _ _ key_of_plain).
  - change (spread key_of
              [Fmodel m; Foutput t; FtsOutputString (printNode_zodToTs t)] rest
            = Fmodel m :: Foutput t
                :: FtsOutputString (printNode_zodToTs t) :: rest).
    rewrite (spread_app key_of _ _ key_of_plain); [reflexivity|].
    cbn [keys map app key_of]. inversion Hnd as [|? ? Hm Hrest]; subst.
    constructor; [|constructor; [|constructor; [|exact Hrest]]].
    + intros [H|[H|H]]; try discriminate H. now apply Hm.
    + intros [H|H]; [discriminate H|]. apply Ho. now right.
    + intros H. apply Hs. now right.
  - cbn [keys map app key_of].
    constructor; [|constructor; [|exact Hnd]].
    + intros [H|H]; [discriminate H|]. now apply Ho.
    + exact Hs.
Qed.

End BuilderFacts.

Section BuilderClaims.
Context {platform : Platform} {collaborators : Collaborators}.

(** C4, as the code has it.  Every builder is [createFn initDef args].  Each
    method returns a new builder with the same callbacks, whose Definition is
    the previous one with one field set ([layered]): [name], [description],
    [instructions], [dataset], [verify] and [query] set the field to the
    value given; [functions], [document] and [map] set it to the previous
    list (empty when absent) followed by what is given; [withModelParams]
    sets [model] to the previous parameters overlaid with the given ones;
    [sequence] does the same with the Definition of the AI function it is
    given and throws when its argument is not an AI function.  [output], on a
    Definition that has neither [output] nor [tsOutputString], puts these two
    keys right after [model].  Setting a field makes it the field of its key
    and leaves the field of every other key as it was. *)
Theorem builder_methods_layer_a_new_definition initDef args :
  let b := Builder.createFn initDef args in
  let def := Builder.internal_def b in
  (forall v, layered (Fname v) b (Builder.name b v))
  /\ (forall v, layered (Fdescription v) b (Builder.description b v))
  /\ (forall v, layered (Finstructions v) b (Builder.instructions b v))
  /\ (forall v, layered (Fdataset v) b (Builder.dataset b v))
  /\ (forall v, layered (Fverify v) b (Builder.verify b v))
  /\ (forall q, layered (Fquery true q) b (Builder.query b q))
  /\ (forall fs,
        layered (Ffunctions (or_empty (def_functions def) ++ fs)) b
          (Builder.functions b fs))
  /\ (forall d,
        layered (Fdocuments (or_empty (def_documents def) ++ [d])) b
          (Builder.document b d))
  /\ (forall fn,
        layered (FmapFns (or_empty (def_mapFns def) ++ [fn])) b
          (Builder.map b fn))
  /\ (forall model,
        layered
          (Fmodel (object_literal fst [or_empty (def_model def); or_empty model]))
          b (Builder.withModelParams b model))
  /\ (forall aiFn_def,
        exists b',
          Builder.sequence b (MapAiFunction aiFn_def) = Returned b'
          /\ layered
               (Fsequences (or_empty (def_sequences def) ++ [SequenceDef aiFn_def]))
               b b')
  /\ (forall f, Builder.sequence b (MapTransform f) = Thrown "Not an Ai function.")
  /\ (forall t,
        def_output def = None -> def_tsOutputString def = None ->
        exists m rest,
          def = Fmodel m :: rest
          /\ Builder.internal_def (Builder.output b t)
             = Fmodel m :: Foutput t
                 :: FtsOutputString (printNode_zodToTs t) :: rest
          /\ Builder.callbacks (Builder.output b t) = Builder.callbacks b)
  /\ (forall f,
        field_at (key_of f) (set_entry key_of f def) = Some f
        /\ forall k, k <> key_of f ->
                     field_at k (set_entry key_of f def) = field_at k def).
Proof.
  intros b def.
  pose proof (createFn_builder_def initDef args) as Hb.
  fold b in Hb. fold def in Hb.
  repeat match goal with
         | |- _ /\ _ => split
         end;
    try (intros v; exact (method_layers b _ Hb)).
  - intros aiFn_def. eexists. split; [reflexivity|]. exact (method_layers b _ Hb).
  - reflexivity.
  - intros t Hout Hts. destruct Hb as ((m & rest & Hd) & Hnd).
    exists m, rest. split; [exact Hd|]. split; [|reflexivity].
    now apply output_layers.
  - intros f. split.
    + apply find_set_entry_same.
    + intros k Hk. now apply find_set_entry_other.
Qed.

Lemma def_id_field_at d :
  def_id d = match field_at "id" d with
             | Some (Fid v) => Some v
             | _ => None
             end.
Proof.
  unfold def_id, field_at. induction d as [|f d IH]; cbn; [reflexivity|].
  destruct f; cbn; try exact IH. reflexivity.
Qed.

Lemma without_id_fresh d sha :
  NoDup (keys key_of d) -> def_id d = None ->
  without_id (set_entry key_of (Fid sha) d) = d.
Proof.
  intros Hnd Hid.
  assert (Hno : ~ In "id" (keys key_of d)).
  { apply (lookup_none_key _ "id" _) in Hid; [exact Hid|].
    intros f Hf. destruct f; cbn in Hf; try discriminate Hf. discriminate. }
  rewrite (set_entry_absent key_of _ _ (key_of_plain _)) by exact Hno.
  unfold without_id. rewrite filter_app. cbn. rewrite app_nil_r.
  clear Hnd Hid. induction d as [|f d IH]; cbn; [reflexivity|].
  cbn in Hno. destruct (String.eqb_spec (key_of f) "id") as [E|E].
  - destruct Hno. now left.
  - cbn. f_equal. apply IH. intros H. apply Hno. now right.
Qed.

Lemma create_returns b s :
  builder_def (Builder.internal_def b) ->
  exists s',
    Builder.create b s
    = (Returned
         {| Builder.ai_internal_def :=
              set_entry key_of
                (Fid (Builder.Number_of_N
                        (cyrb53 (Builder.hashed_text (Builder.internal_def b)))))
                (Builder.internal_def b);
            Builder.ai_callbacks := Builder.callbacks b |}, s').
Proof.
  intros Hb. unfold Builder.create. rewrite (def_literal_field _ _ Hb).
  unfold Engine.when_created, when, bind, emit, modify, ret.
  destruct (onCreated (Builder.callbacks b)); eauto.
Qed.

(** C2, as the code has it.  [create()] serializes the Definition that the
    builder holds, hashes that text with [cyrb53] and sets the decimal text
    of the hash as the [id], leaving the fields of the other keys as they
    were.  An [id] the Definition had before is part of the text that is
    hashed.  Builders that hold the same Definition get the same id.  When
    the Definition had no [id] before, the finalized Definition without its
    [id] is the Definition that was hashed, so that serializing and hashing
    it gives the id again. *)
Theorem create_assigns_the_hash_of_the_definition_it_holds initDef args s :
  let b := Builder.createFn initDef args in
  let def := Builder.internal_def b in
  let sha := Builder.Number_of_N (cyrb53 (Builder.hashed_text def)) in
  exists fn s',
    Builder.create b s = (Returned fn, s')
    /\ Builder.hashed_text def
       = option_ToString (JSON_stringify (Builder.def_toJSON def))
    /\ Builder.ai_internal_def fn = set_entry key_of (Fid sha) def
    /\ def_id (Builder.ai_internal_def fn) = Some sha
    /\ (forall k, k <> "id" ->
                  field_at k (Builder.ai_internal_def fn) = field_at k def)
    /\ (forall initDef2 args2 s2,
          Builder.internal_def (Builder.createFn initDef2 args2) = def ->
          exists fn2 s2',
            Builder.create (Builder.createFn initDef2 args2) s2
            = (Returned fn2, s2')
            /\ def_id (Builder.ai_internal_def fn2) = Some sha)
    /\ (def_id def = None ->
        without_id (Builder.ai_internal_def fn) = def
        /\ Builder.Number_of_N
             (cyrb53 (Builder.hashed_text
                        (without_id (Builder.ai_internal_def fn)))) = sha).
Proof.
  intros b def sha.
  pose proof (createFn_builder_def initDef args) as Hb.
  fold b in Hb. fold def in Hb.
  destruct (create_returns b s Hb) as (s' & Heq).
  assert (Hid : forall d x, def_id (set_entry key_of (Fid x) d) = Some x).
  { intros d x. rewrite def_id_field_at.
    pose proof (find_set_entry_same key_of (Fid x) d) as H.
    cbn [key_of] in H. unfold field_at. now rewrite H. }
  eexists _, s'. split; [exact Heq|]. cbn [Builder.ai_internal_def].
  split; [reflexivity|]. split; [reflexivity|]. split; [apply Hid|].
  split; [|split].
  - intros k Hk. now apply find_set_entry_other.
  - intros initDef2 args2 s2 Hsame.
    destruct (create_returns (Builder.createFn initDef2 args2) s2
                (createFn_builder_def initDef2 args2)) as (s2' & Heq2).
    eexists _, s2'. split; [exact Heq2|]. cbn [Builder.ai_internal_def].
    rewrite Hsame. apply Hid.
  - intros Hnone.
    pose proof (without_id_fresh def sha (proj2 Hb) Hnone) as Hw.
    split; [exact Hw|].
    exact (f_equal
             (fun d => Builder.Number_of_N (cyrb53 (Builder.hashed_text d))) Hw).
Qed.

End BuilderClaims.

(** ** The builder and the registry on the sample platform *)

#[local] Existing Instance Sample.platform.

Lemma builder_methods_layer_a_new_definition_witness :
  let b := Builder.createFn (platform := Sample.platform) None Sample.no_callbacks in
  def_output (Builder.internal_def b) = None
  /\ def_tsOutputString (Builder.internal_def b) = None
  /\ exists m rest,
       Builder.internal_def b = Fmodel m :: rest
       /\ Builder.internal_def (Builder.output b Sample.string_schema)
          = Fmodel m :: Foutput Sample.string_schema
              :: FtsOutputString
                   (printNode_zodToTs (Platform := Sample.platform)
                      Sample.string_schema) :: rest
       /\ Builder.callbacks (Builder.output b Sample.string_schema)
          = Builder.callbacks b.
Proof.
  intros b.
  assert (H1 : def_output (Builder.internal_def b) = None) by reflexivity.
  assert (H2 : def_tsOutputString (Builder.internal_def b) = None) by reflexivity.
  split; [exact H1|]. split; [exact H2|].
  destruct (builder_methods_layer_a_new_definition None Sample.no_callbacks)
    as (_ & _ & _ & _ & _ & _ & _ & _ & _ & _ & _ & _ & Hout & _).
  exact (Hout Sample.string_schema H1 H2).
Defined.

(** Against C4 as the spec words it: [sequence] returns no builder when its
    argument is a plain function, and [functions] does not make the list it
    is given the new field, it appends that list to the one already there. *)
Lemma sequence_rejects_a_plain_function :
  let b := Builder.createFn (platform := Sample.platform) None Sample.no_callbacks in
  Builder.sequence b (MapTransform (fun v => v)) = Thrown "Not an Ai function."
  /\ def_functions
       (Builder.internal_def
          (Builder.functions (Builder.functions b [Sample.lookup_fn])
             [Engine.printFn Sample.string_schema]))
     = Some [Sample.lookup_fn; Engine.printFn Sample.string_schema].
Proof. intros b. split; reflexivity. Qed.

(** What [output] does on a Definition that has an output schema already:
    [{ output: t, tsOutputString, ...def }] spreads [def] last, so the
    earlier schema stays. *)
Remark output_keeps_an_earlier_schema :
  let b := Builder.createFn (platform := Sample.platform) None Sample.no_callbacks in
  def_output
    (Builder.internal_def
       (Builder.output (Builder.output b Sample.string_schema)
          (Sample.object_schema [])))
  = Some Sample.string_schema.
Proof. reflexivity. Qed.

Lemma create_assigns_the_hash_of_the_definition_it_holds_witness :
  let c := Sample.collaborators_with Sample.bad_print in
  let b := Builder.createFn (platform := Sample.platform) None Sample.observed in
  let def := Builder.internal_def b in
  let sha := Builder.Number_of_N
               (cyrb53 (Collaborators := c) (Builder.hashed_text (collaborators := c) def)) in
  def_id def = None
  /\ exists fn s',
       Builder.create (collaborators := c) b Sample.initial = (Returned fn, s')
       /\ def_id (Builder.ai_internal_def fn) = Some sha
       /\ without_id (Builder.ai_internal_def fn) = def
       /\ Builder.Number_of_N
            (cyrb53 (Collaborators := c)
               (Builder.hashed_text (collaborators := c)
                  (without_id (Builder.ai_internal_def fn)))) = sha.
Proof.
  intros c b def sha.
  assert (H1 : def_id def = None) by reflexivity.
  split; [exact H1|].
  destruct (create_assigns_the_hash_of_the_definition_it_holds
              (collaborators := c) None Sample.observed Sample.initial)
    as (fn & s' & Hc & _ & _ & Hid & _ & _ & Hre).
  exists fn, s'. split; [exact Hc|]. split; [exact Hid|]. exact (Hre H1).
Defined.

(** Against C2 as the spec words it.  The Definition of the registry's
    builder has the id [test], and the text [create()] hashes contains it:
    it is not the text of the Definition without its id.  And the text of a
    finalized Definition contains the new id, so it is not the text that was
    hashed.  With the hash of the sample platform (the length of the text)
    the ids differ as the texts do. *)
Lemma create_hashes_an_earlier_id_too :
  let c := Sample.collaborators_with Sample.bad_print in
  let text := Builder.hashed_text (collaborators := c) in
  let hash := fun d => Builder.Number_of_N (cyrb53 (Collaborators := c) (text d)) in
  let def := Builder.internal_def Sample.registry_builder in
  let plain :=
    Builder.internal_def
      (Builder.createFn (platform := Sample.platform) None Sample.observed) in
  let finalized := fun b =>
    match fst (Builder.create (collaborators := c) b Sample.initial) with
    | Returned fn => Builder.ai_internal_def fn
    | _ => []
    end in
  def_id def = Some "test"
  /\ Sample.apostrophes (text def)
     = "{'model':{'modelName':'gpt-3.5-turbo-16k','temperature':0.7,'maxTokens':-1},'id':'test'}"
  /\ Sample.apostrophes (text (without_id def))
     = "{'model':{'modelName':'gpt-3.5-turbo-16k','temperature':0.7,'maxTokens':-1}}"
  /\ def_id (finalized Sample.registry_builder) = Some (hash def)
  /\ hash def <> hash (without_id def)
  /\ def_id (finalized (Builder.createFn None Sample.observed)) = Some (hash plain)
  /\ Sample.apostrophes (text (finalized (Builder.createFn None Sample.observed)))
     = "{'model':{'modelName':'gpt-3.5-turbo-16k','temperature':0.7,'maxTokens':-1},'id':'76'}"
  /\ hash (finalized (Builder.createFn None Sample.observed)) <> hash plain.
Proof.
  intros c text hash def plain finalized.
  repeat match goal with
         | |- _ /\ _ => split
         end;
    try (vm_compute; reflexivity); vm_compute; discriminate.
Qed.

Lemma replaying_an_execution_is_a_no_op_witness :
  let s := {| Registry.executionLogs := [Sample.stored_execution];
              Registry.saved := [] |} in
  let first := Registry.logHandler true Sample.incoming_execution s in
  let second := Registry.logHandler true Sample.incoming_execution (snd first) in
  find (fun e => id e =? id Sample.incoming_execution) (Registry.executionLogs s)
  = Some Sample.stored_execution
  /\ fst first = Registry.merge Sample.stored_execution Sample.incoming_execution
  /\ fst second = fst first
  /\ Registry.executionLogs (snd second) = Registry.executionLogs (snd first).
Proof.
  intros s first second.
  assert (H1 : find (fun e => id e =? id Sample.incoming_execution)
                 (Registry.executionLogs s)
               = Some Sample.stored_execution) by reflexivity.
  split; [exact H1|].
  exact (proj2 replaying_an_execution_is_a_no_op true Sample.incoming_execution
           s Sample.stored_execution H1).
Defined.

(** * Further properties *)

Section TemplateFacts.
Context {platform : Platform}.
Import Template.

Lemma chars_single s : Forall single (chars s).
Proof. induction s; cbn; constructor; [now eexists|assumption]. Qed.

Lemma concat_cons_single c l :
  single c -> String.concat "" (c :: l) = c ++ String.concat "" l.
Proof.
  intros (a & ->). destruct l; cbn; [reflexivity|reflexivity].
Qed.

Lemma concat_cons x l : String.concat "" (x :: l) = x ++ String.concat "" l.
Proof.
  destruct l; cbn.
  - induction x; cbn; [reflexivity|]. now rewrite <- IHx.
  - reflexivity.
Qed.

Lemma string_app_assoc (a b c : string) : (a ++ b) ++ c = a ++ b ++ c.
Proof. induction a; cbn; [reflexivity|now rewrite IHa]. Qed.

Lemma string_app_nil_r (a : string) : a ++ "" = a.
Proof. induction a; cbn; [reflexivity|now rewrite IHa]. Qed.

Lemma concat_app l1 l2 :
  String.concat "" (l1 ++ l2) = String.concat "" l1 ++ String.concat "" l2.
Proof.
  induction l1 as [|x l1 IH]; [reflexivity|].
  change ((x :: l1) ++ l2)%list with (x :: (l1 ++ l2))%list.
  now rewrite !concat_cons, IH, string_app_assoc.
Qed.

Lemma concat_chars s : String.concat "" (chars s) = s.
Proof.
  induction s as [|a s IH]; [reflexivity|].
  cbn [chars]. rewrite concat_cons, IH. reflexivity.
Qed.

Lemma chars_app a b : chars (a ++ b) = (chars a ++ chars b)%list.
Proof. induction a; cbn; [reflexivity|now rewrite IHa]. Qed.

Lemma chars_concat l : Forall single l -> chars (String.concat "" l) = l.
Proof.
  induction 1 as [|c l (a & ->) _ IH]; [reflexivity|].
  rewrite concat_cons. cbn. now rewrite IH.
Qed.


Lemma nextBracket_some b l j :
  nextBracket b l = Some j ->
  exists x,
    existsb (String.eqb x) b = true
    /\ Forall (fun c => existsb (String.eqb c) b = false) (firstn j l)
    /\ skipn j l = x :: skipn (S j) l.
Proof.
  revert j. induction l as [|c l IH]; intros j; cbn [nextBracket]; [discriminate|].
  destruct (existsb (String.eqb c) b) eqn:E.
  - intros [= <-]. exists c. cbn. repeat split; [exact E|constructor].
  - destruct (nextBracket b l) as [j'|]; [|discriminate].
    intros [= <-]. destruct (IH j' eq_refl) as (x & Hx & Hpre & Hskip).
    exists x. split; [exact Hx|]. split.
    + cbn [firstn]. constructor; assumption.
    + exact Hskip.
Qed.

Lemma nextBracket_none b l :
  nextBracket b l = None ->
  Forall (fun c => existsb (String.eqb c) b = false) l.
Proof.
  induction l as [|c l IH]; cbn [nextBracket]; [constructor|].
  destruct (existsb (String.eqb c) b) eqn:E; [discriminate|].
  destruct (nextBracket b l); [discriminate|].
  intros _. constructor; [exact E|now apply IH].
Qed.

Lemma not_brace_spec c :
  existsb (String.eqb c) ["{"; "}"] = false <-> is_brace c = false.
Proof.
  unfold is_brace. cbn. rewrite orb_false_r.
  rewrite (String.eqb_sym c "{"), (String.eqb_sym c "}"). reflexivity.
Qed.

Lemma escape_chars_plain l :
  Forall (fun c => is_brace c = false) l -> escape_chars l = l.
Proof.
  induction 1 as [|c l Hc _ IH]; [reflexivity|].
  unfold is_brace in Hc. apply orb_false_iff in Hc. destruct Hc as (H1 & H2).
  unfold escape_chars in *. cbn [flat_map]. rewrite H1, H2, IH. reflexivity.
Qed.

Lemma escape_braces_plain l :
  Forall single l -> Forall (fun c => is_brace c = false) l ->
  escape_braces (String.concat "" l) = String.concat "" l.
Proof.
  intros Hs Hb. unfold escape_braces.
  now rewrite (chars_concat _ Hs), (escape_chars_plain _ Hb).
Qed.

Lemma Forall_skipn_of {A : Type} (P : A -> Prop) n l :
  Forall P l -> Forall P (skipn n l).
Proof.
  revert l. induction n as [|n IH]; intros l H; [exact H|].
  destruct l as [|x l]; [constructor|]. cbn. apply IH. now inversion H.
Qed.

Lemma Forall_firstn_of {A : Type} (P : A -> Prop) n l :
  Forall P l -> Forall P (firstn n l).
Proof.
  revert l. induction n as [|n IH]; intros l H; [constructor|].
  destruct l as [|x l]; [constructor|]. cbn. inversion H; subst.
  constructor; [assumption|now apply IH].
Qed.

Lemma nextBracket_open r :
  nextBracket ["}"] ("{" :: r) = option_map S (nextBracket ["}"] r).
Proof. reflexivity. Qed.

Lemma unparse_cons n nodes :
  unparse (n :: nodes) = node_source n ++ unparse nodes.
Proof. unfold unparse. cbn [map]. apply concat_cons. Qed.

Lemma single_brace_open : single "{".
Proof. now eexists. Qed.

Lemma single_brace_close : single "}".
Proof. now eexists. Qed.

(** The loop of [parseFString], when it returns: the nodes it adds are a
    reading of exactly the characters it was given. *)
Lemma parseFString_loop_unparse fuel :
  forall rest nodes out,
    Forall single rest ->
    parseFString_loop fuel rest nodes = Returned out ->
    exists added,
      out = (nodes ++ added)%list /\ unparse added = String.concat "" rest.
Proof.
  induction fuel as [|fuel IH]; intros rest nodes out Hs.
  - destruct rest; cbn; [|discriminate].
    intros [= <-]. exists []. now rewrite app_nil_r.
  - destruct rest as [|c r].
    { cbn. intros [= <-]. exists []. now rewrite app_nil_r. }
    cbn [parseFString_loop]. cbv zeta.
    assert (Hr : Forall single r) by now inversion Hs.
    assert (Hstep : forall n rest' out,
               Forall single rest' ->
               node_source n ++ String.concat "" rest' = String.concat "" (c :: r) ->
               parseFString_loop fuel rest' (nodes ++ [n]) = Returned out ->
               exists added,
                 out = (nodes ++ added)%list
                 /\ unparse added = String.concat "" (c :: r)).
    { intros n rest' out' Hs' Hsrc Hloop.
      destruct (IH rest' (nodes ++ [n])%list out' Hs' Hloop) as (added & -> & Hun).
      exists (n :: added). split; [now rewrite <- app_assoc|].
      now rewrite unparse_cons, Hun. }
    destruct (String.eqb_spec c "{") as [->|Hopen].
    + destruct r as [|c2 r'].
      * cbn. discriminate.
      * destruct (String.eqb_spec c2 "{") as [->|Hc2].
        -- cbn [andb skipn]. apply Hstep; [now inversion Hr|].
           now rewrite !concat_cons.
        -- cbn [andb]. cbn [String.eqb Ascii.eqb Bool.eqb andb].
           rewrite nextBracket_open.
           destruct (nextBracket ["}"] (c2 :: r')) as [j|] eqn:Ej;
             cbn [option_map]; [|discriminate].
           destruct (nextBracket_some _ _ _ Ej) as (x & Hx & _ & Hskip).
           cbn in Hx. rewrite orb_false_r in Hx. apply String.eqb_eq in Hx. subst x.
           replace (S j + 1) with (S (S j)) by lia.
           replace (S j - 1) with j by lia.
           change (skipn (S (S j)) ("{" :: c2 :: r')) with (skipn (S j) (c2 :: r')).
           apply Hstep.
           ++ now apply Forall_skipn_of.
           ++ cbn [node_source].
              rewrite (concat_cons "{" (c2 :: r')).
              transitivity
                ("{" ++ String.concat ""
                          (firstn j (c2 :: r') ++ skipn j (c2 :: r'))%list);
                [|now rewrite firstn_skipn].
              rewrite Hskip, concat_app, (concat_cons "}").
              now rewrite !string_app_assoc.
    + destruct (String.eqb_spec c "}") as [->|Hclose].
      * destruct r as [|c2 r'].
        -- cbn. discriminate.
        -- destruct (String.eqb_spec c2 "}") as [->|Hc2].
           ++ cbn [andb skipn]. cbn [String.eqb Ascii.eqb Bool.eqb andb].
              apply Hstep; [now inversion Hr|].
              now rewrite !concat_cons.
           ++ cbn. destruct (c2 =? "{"); cbn; discriminate.
      * cbn [andb].
        assert (Hc : is_brace c = false).
        { unfold is_brace. apply orb_false_iff.
          split; now apply String.eqb_neq. }
        destruct (nextBracket ["{"; "}"] (c :: r)) as [next|] eqn:En.
        -- destruct (nextBracket_some _ _ _ En) as (x & Hx & Hpre & Hskip).
           apply Hstep.
           ++ now apply Forall_skipn_of.
           ++ cbn [node_source]. rewrite escape_braces_plain.
              ** rewrite <- concat_app. now rewrite firstn_skipn.
              ** now apply Forall_firstn_of.
              ** revert Hpre. apply Forall_impl. intros y.
                 apply not_brace_spec.
        -- pose proof (nextBracket_none _ _ En) as Hall.
           apply Hstep; [constructor|].
           cbn [node_source]. rewrite escape_braces_plain.
           ++ change (String.concat "" []) with "". apply string_app_nil_r.
           ++ exact Hs.
           ++ revert Hall. apply Forall_impl. intros y. apply not_brace_spec.
Qed.


Lemma length_skipn_le {A : Type} n (l : list A) :
  List.length (skipn n l) <= List.length l.
Proof. rewrite length_skipn. lia. Qed.

(** The loop does not run out of rounds when it is given one round per
    character, and it throws nothing but its two errors. *)
Lemma parseFString_loop_outcome fuel :
  forall rest nodes,
    List.length rest <= fuel ->
    match parseFString_loop fuel rest nodes with
    | Returned _ => True
    | Thrown e => e = "Unclosed '{' in template." \/ e = "Single '}' in template."
    | OutOfFuel => False
    end.
Proof.
  induction fuel as [|fuel IH]; intros rest nodes Hlen.
  - destruct rest; [exact I|cbn in Hlen; lia].
  - destruct rest as [|c r]; [exact I|].
    cbn [parseFString_loop]. cbv zeta. cbn [List.length] in Hlen.
    assert (Hnext : forall n ns, 1 <= n ->
               match parseFString_loop fuel (skipn n (c :: r)) ns with
               | Returned _ => True
               | Thrown e =>
                   e = "Unclosed '{' in template." \/ e = "Single '}' in template."
               | OutOfFuel => False
               end).
    { intros n ns Hn. apply IH. rewrite length_skipn. cbn [List.length]. lia. }
    destruct ((c =? "{") && match r with
                            | c2 :: _ => c2 =? "{"
                            | [] => false
                            end).
    { apply IH. pose proof (length_skipn_le 1 r). lia. }
    destruct ((c =? "}") && match r with
                            | c2 :: _ => c2 =? "}"
                            | [] => false
                            end).
    { apply IH. pose proof (length_skipn_le 1 r). lia. }
    destruct (c =? "{") eqn:Eo.
    { destruct (nextBracket ["}"] (c :: r)) as [j|]; [|now left].
      apply Hnext. lia. }
    destruct (c =? "}") eqn:Ec; [now right|].
    destruct (nextBracket ["{"; "}"] (c :: r)) as [next|] eqn:En.
    + destruct next as [|next].
      * cbn [nextBracket existsb] in En. rewrite Eo, Ec in En. cbn in En.
        destruct (nextBracket ["{"; "}"] r); discriminate.
      * apply Hnext. lia.
    + apply IH. cbn. lia.
Qed.


Lemma interpolate_nodes_object nodes props :
  forall res,
    interpolate_nodes nodes (JSObject props) res
    = match find (missing props) (inputVariables nodes) with
      | Some name => Thrown ("Missing value for input " ++ name)
      | None => Returned (res ++ String.concat "" (map (rendered props) nodes))
      end.
Proof.
  induction nodes as [|n nodes IH]; intros res.
  - cbn. now rewrite string_app_nil_r.
  - destruct n as [text|name].
    + cbn [interpolate_nodes inputVariables flat_map app map rendered].
      rewrite IH. fold (inputVariables nodes).
      destruct (find _ (inputVariables nodes)); [reflexivity|].
      now rewrite concat_cons, string_app_assoc.
    + cbn [interpolate_nodes inputVariables flat_map app map rendered find].
      fold (inputVariables nodes).
      unfold has_prop, prop_text, missing at 1. cbn [has_own get_prop].
      destruct (assoc name props) as [x|];
        [|destruct (inherited (JSObject props) name) as [inherited_text|]];
        cbn [orb]; try reflexivity;
        rewrite IH;
        (destruct (find _ (inputVariables nodes)); [reflexivity|]);
        now rewrite concat_cons, string_app_assoc.
Qed.

Lemma interpolate_literals lits values :
  forall res,
    interpolate_nodes (map literal lits) values res
    = Returned (res ++ String.concat "" lits).
Proof.
  induction lits as [|t lits IH]; intros res.
  - cbn. now rewrite string_app_nil_r.
  - cbn [map interpolate_nodes]. rewrite IH.
    now rewrite concat_cons, string_app_assoc.
Qed.

Lemma escape_chars_single l : Forall single l -> Forall single (escape_chars l).
Proof.
  induction 1 as [|c l Hc _ IH]; [constructor|].
  unfold escape_chars in *. cbn [flat_map].
  destruct (c =? "{"); [|destruct (c =? "}")];
    repeat (constructor; try apply single_brace_open;
            try apply single_brace_close; try assumption).
Qed.

Lemma escape_chars_cons_plain c l :
  is_brace c = false -> escape_chars (c :: l) = c :: escape_chars l.
Proof.
  unfold is_brace. intros H. apply orb_false_iff in H. destruct H as (H1 & H2).
  unfold escape_chars. cbn [flat_map]. now rewrite H1, H2.
Qed.

(** A stretch without braces at the head of an escaped text is a stretch of
    the text itself. *)
Lemma escape_chars_prefix n :
  forall l,
    n <= List.length (escape_chars l) ->
    Forall (fun c => is_brace c = false) (firstn n (escape_chars l)) ->
    firstn n (escape_chars l) = firstn n l
    /\ skipn n (escape_chars l) = escape_chars (skipn n l).
Proof.
  induction n as [|n IH]; intros l Hlen Hpre; [split; reflexivity|].
  destruct l as [|c l]; [cbn in Hlen; lia|].
  destruct (is_brace c) eqn:Hc.
  - exfalso. unfold is_brace in Hc. unfold escape_chars in Hpre.
    cbn [flat_map] in Hpre.
    destruct (String.eqb_spec c "{") as [->|_].
    + cbn in Hpre. inversion Hpre; subst. discriminate.
    + destruct (String.eqb_spec c "}") as [->|_]; [|discriminate].
      cbn in Hpre. inversion Hpre; subst. discriminate.
  - rewrite (escape_chars_cons_plain _ _ Hc) in *. cbn [firstn skipn] in *.
    cbn [List.length] in Hlen. inversion Hpre as [|? ? Hhd Htl]; subst.
    destruct (IH l ltac:(lia) Htl) as (E1 & E2).
    split; [now rewrite E1|exact E2].
Qed.

(** The loop of [parseFString] on an escaped text: only literal nodes, and
    together they spell the text. *)
Lemma parseFString_loop_escaped fuel :
  forall l nodes,
    List.length (escape_chars l) <= fuel ->
    exists lits,
      parseFString_loop fuel (escape_chars l) nodes
      = Returned (nodes ++ map literal lits)%list
      /\ String.concat "" lits = String.concat "" l.
Proof.
  induction fuel as [|fuel IH]; intros l nodes Hlen.
  - destruct l as [|c l].
    + exists []. cbn. now rewrite app_nil_r.
    + exfalso. unfold escape_chars in Hlen. cbn [flat_map] in Hlen.
      destruct (c =? "{"); [|destruct (c =? "}")]; cbn in Hlen; lia.
  - destruct l as [|c l].
    { exists []. cbn. now rewrite app_nil_r. }
    assert (Hstep : forall t l',
               List.length (escape_chars l') <= fuel ->
               t ++ String.concat "" l' = String.concat "" (c :: l) ->
               exists lits,
                 parseFString_loop fuel (escape_chars l') (nodes ++ [literal t])
                 = Returned (nodes ++ map literal lits)%list
                 /\ String.concat "" lits = String.concat "" (c :: l)).
    { intros t l' Hl' Ht.
      destruct (IH l' (nodes ++ [literal t])%list Hl') as (lits & Heq & Hc).
      exists (t :: lits). split.
      - rewrite Heq. cbn [map]. now rewrite <- app_assoc.
      - now rewrite concat_cons, Hc. }
    destruct (String.eqb_spec c "{") as [->|Hopen].
    + change (escape_chars ("{" :: l)) with ("{" :: "{" :: escape_chars l) in *.
      cbn [List.length] in Hlen.
      cbn [parseFString_loop String.eqb Ascii.eqb Bool.eqb andb skipn].
      apply Hstep; [lia|]. now rewrite concat_cons.
    + destruct (String.eqb_spec c "}") as [->|Hclose].
      * change (escape_chars ("}" :: l)) with ("}" :: "}" :: escape_chars l) in *.
        cbn [List.length] in Hlen.
        cbn [parseFString_loop String.eqb Ascii.eqb Bool.eqb andb skipn].
        apply Hstep; [lia|]. now rewrite concat_cons.
      * assert (Hc : is_brace c = false).
        { unfold is_brace. apply orb_false_iff.
          split; now apply String.eqb_neq. }
        rewrite (escape_chars_cons_plain _ _ Hc) in *.
        cbn [List.length] in Hlen.
        cbn [parseFString_loop]. cbv zeta.
        apply String.eqb_neq in Hopen, Hclose. rewrite Hopen, Hclose.
        cbn [andb].
        rewrite <- (escape_chars_cons_plain _ _ Hc) in *.
        destruct (nextBracket ["{"; "}"] (escape_chars (c :: l))) as [next|] eqn:En.
        -- destruct (nextBracket_some _ _ _ En) as (x & Hx & Hpre & Hskip).
           assert (Hpre' : Forall (fun c => is_brace c = false)
                             (firstn next (escape_chars (c :: l)))).
           { revert Hpre. apply Forall_impl. intros y. apply not_brace_spec. }
           assert (Hnext : next <= List.length (escape_chars (c :: l))).
           { destruct (Nat.le_gt_cases next (List.length (escape_chars (c :: l))))
               as [H|H]; [exact H|].
             rewrite skipn_all2 in Hskip by lia. discriminate. }
           destruct (escape_chars_prefix next (c :: l) Hnext Hpre') as (H1 & H2).
           rewrite H1, H2.
           destruct next as [|next].
           { exfalso. rewrite (escape_chars_cons_plain _ _ Hc) in Hskip.
             cbn in Hskip. injection Hskip as Hx'. subst x.
             apply not_brace_spec in Hc. congruence. }
           apply Hstep.
           ++ rewrite <- H2. rewrite length_skipn.
              rewrite (escape_chars_cons_plain _ _ Hc). cbn [List.length]. lia.
           ++ rewrite <- concat_app. now rewrite firstn_skipn.
        -- pose proof (nextBracket_none _ _ En) as Hall.
           assert (Hplain : escape_chars (c :: l) = c :: l).
           { destruct (escape_chars_prefix (List.length (escape_chars (c :: l)))
                         (c :: l) (le_n _)) as (H1 & H2).
             - rewrite firstn_all. revert Hall. apply Forall_impl.
               intros y. apply not_brace_spec.
             - rewrite firstn_all in H1. rewrite H1.
               rewrite skipn_all in H2.
               destruct (skipn (List.length (escape_chars (c :: l))) (c :: l))
                 as [|y rest] eqn:Es.
               + transitivity
                   (firstn (List.length (escape_chars (c :: l))) (c :: l)
                      ++ skipn (List.length (escape_chars (c :: l))) (c :: l))%list;
                   [|apply firstn_skipn].
                 now rewrite Es, app_nil_r.
               + exfalso. unfold escape_chars in H2. cbn [flat_map] in H2.
                 destruct (y =? "{"); [|destruct (y =? "}")]; discriminate. }
           rewrite Hplain.
           exists [String.concat "" (c :: l)]. split; [|reflexivity].
           destruct fuel; reflexivity.
Qed.


(** X1.  [parseFString] loses nothing of the template: when it returns, the
    template can be written back from the nodes, a variable node as its name
    between braces and a literal node as its text with each brace doubled.
    Two templates that parse to the same nodes are therefore the same
    template. *)
Theorem parseFString_nodes_spell_the_template template nodes :
  parseFString template = Returned nodes ->
  unparse nodes = template
  /\ forall template',
       parseFString template' = Returned nodes -> template' = template.
Proof.
  assert (H : forall t ns, parseFString t = Returned ns -> unparse ns = t).
  { intros t ns Hp. unfold parseFString in Hp.
    destruct (parseFString_loop_unparse _ _ _ _ (chars_single t) Hp)
      as (added & -> & Hun).
    cbn [app]. now rewrite Hun, concat_chars. }
  intros Hp. split; [now apply H|].
  intros t' Hp'. now rewrite <- (H _ _ Hp), <- (H _ _ Hp').
Qed.

(** X2.  [parseFString] always comes to an end, one round of its loop per
    character being enough: it returns its nodes, or it throws one of its two
    errors, and nothing else. *)
Theorem parseFString_returns_or_throws_one_of_two_errors template :
  (exists nodes, parseFString template = Returned nodes)
  \/ parseFString template = Thrown "Unclosed '{' in template."
  \/ parseFString template = Thrown "Single '}' in template.".
Proof.
  pose proof (parseFString_loop_outcome (List.length (chars template))
                (chars template) [] (le_n _)) as H.
  unfold parseFString.
  destruct (parseFString_loop _ _ _) as [nodes|e|].
  - left. now exists nodes.
  - right. destruct H as [->| ->]; [now left|now right].
  - destruct H.
Qed.

(** X3.  A text with each of its braces doubled is a template without
    variables that renders as the text: [parseFString] gives literal nodes
    only, and [interpolateFString] returns the text whatever [values] is,
    [undefined] included. *)
Theorem escaped_text_is_rendered_as_written text values :
  (exists texts,
      parseFString (escape_braces text) = Returned (map literal texts))
  /\ interpolateFString (escape_braces text) values = Returned text.
Proof.
  unfold interpolateFString, parseFString, escape_braces.
  rewrite (chars_concat _ (escape_chars_single _ (chars_single text))).
  destruct (parseFString_loop_escaped (List.length (escape_chars (chars text)))
              (chars text) [] (le_n _)) as (lits & -> & Hc).
  cbn [app]. split.
  - now exists lits.
  - rewrite interpolate_literals. cbn [append].
    now rewrite Hc, concat_chars.
Qed.

(** X4.  With an object for [values], [interpolateFString] asks for exactly
    the variables of the template, and [in] finds a variable that is an own
    property of [values] or one it inherits ([toString], [constructor]):
    when [values] has each variable in one of these ways it returns the
    literal texts and, for a variable, the text of the own property or else
    of the inherited one, in order; otherwise it throws
    [Missing value for input] with the first variable, in the order of the
    template, that [values] has in neither way.  With a value that is not an
    object and a template that has a variable, [in] throws its
    [TypeError]. *)
Theorem interpolateFString_needs_each_variable template nodes props :
  parseFString template = Returned nodes ->
  interpolateFString template (JSObject props)
  = match find (fun name =>
                  match assoc name props, inherited (JSObject props) name with
                  | None, None => true
                  | _, _ => false
                  end) (inputVariables nodes) with
    | Some name => Thrown ("Missing value for input " ++ name)
    | None =>
        Returned
          (String.concat ""
             (map (fun n =>
                     match n with
                     | literal text => text
                     | variable name =>
                         match assoc name props with
                         | Some x => ToString x
                         | None =>
                             match inherited (JSObject props) name with
                             | Some text => text
                             | None => "undefined"
                             end
                         end
                     end) nodes))
    end
  /\ forall values,
       match values with
       | JSObject _ | JSArray _ => False
       | _ => True
       end ->
       inputVariables nodes <> [] ->
       interpolateFString template values
       = Thrown "TypeError: Cannot use 'in' operator".
Proof.
  intros Hp. unfold interpolateFString. rewrite Hp. split.
  - now rewrite interpolate_nodes_object.
  - intros values Hv Hvars. clear Hp.
    enough (H : forall res,
               interpolate_nodes nodes values res
               = Thrown "TypeError: Cannot use 'in' operator") by apply H.
    induction nodes as [|n nodes IH]; intros res;
      [exfalso; now apply Hvars|].
    destruct n as [text|name].
    + assert (Hn : inputVariables nodes <> []) by exact Hvars.
      exact (IH Hn (res ++ text)).
    + cbn [interpolate_nodes]. unfold has_prop.
      destruct values; try reflexivity; contradiction.
Qed.

End TemplateFacts.

Lemma parseFString_nodes_spell_the_template_witness :
  let nodes := [literal "Dear "; variable "who"; literal ", see ";
                literal "{"; literal "x"; literal "}"] in
  parseFString "Dear {who}, see {{x}}" = Returned nodes
  /\ Template.unparse nodes = "Dear {who}, see {{x}}".
Proof.
  intros nodes.
  assert (H : parseFString "Dear {who}, see {{x}}" = Returned nodes)
    by reflexivity.
  split; [exact H|].
  exact (proj1 (parseFString_nodes_spell_the_template _ _ H)).
Defined.

Lemma interpolateFString_needs_each_variable_witness :
  let template := "{greeting} {who}{{!}}" in
  parseFString template
  = Returned [variable "greeting"; literal " "; variable "who";
              literal "{"; literal "!"; literal "}"]
  /\ interpolateFString template
       (JSObject [("who", JSString "Ada"); ("greeting", JSString "Hello")])
     = Returned "Hello Ada{!}"
  /\ interpolateFString template (JSObject [("who", JSString "Ada")])
     = Thrown "Missing value for input greeting"
  /\ interpolateFString "{toString}" (JSObject [])
     = Returned "function toString() { [native code] }"
  /\ interpolateFString template JSUndefined
     = Thrown "TypeError: Cannot use 'in' operator".
Proof.
  intros template.
  assert (H : parseFString template
              = Returned [variable "greeting"; literal " "; variable "who";
                          literal "{"; literal "!"; literal "}"])
    by reflexivity.
  split; [exact H|]. split; [|split; [|split]].
  - exact (proj1 (interpolateFString_needs_each_variable
                    (platform := Sample.platform) template _
                    [("who", JSString "Ada"); ("greeting", JSString "Hello")] H)).
  - exact (proj1 (interpolateFString_needs_each_variable
                    (platform := Sample.platform) template _
                    [("who", JSString "Ada")] H)).
  - exact (proj1 (interpolateFString_needs_each_variable
                    (platform := Sample.platform) "{toString}"
                    [variable "toString"] [] eq_refl)).
  - apply (proj2 (interpolateFString_needs_each_variable
                    (platform := Sample.platform) template _ [] H)).
    + exact I.
    + discriminate.
Defined.

Section FrameFacts.
Context {platform : Platform} {collaborators : Collaborators}.

Lemma grows_refl t : grows t t.
Proof. exists []. now rewrite app_nil_r. Qed.

Lemma grows_trans t1 t2 t3 : grows t1 t2 -> grows t2 t3 -> grows t1 t3.
Proof.
  intros (m1 & H1) (m2 & H2). exists (m1 ++ m2)%list.
  now rewrite H2, H1, app_assoc.
Qed.

Lemma same_record_refl fe : same_record fe fe.
Proof. repeat split. apply grows_refl. Qed.

Lemma same_record_trans a b c :
  same_record a b -> same_record b c -> same_record a c.
Proof.
  intros (A1 & A2 & A3 & A4) (B1 & B2 & B3 & B4). repeat split; try congruence.
  eapply grows_trans; eassumption.
Qed.

Lemma Forall2_same_record_refl l : Forall2 same_record l l.
Proof. induction l; constructor; [apply same_record_refl|assumption]. Qed.

Lemma Forall2_same_record_trans l1 :
  forall l2 l3,
    Forall2 same_record l1 l2 -> Forall2 same_record l2 l3 ->
    Forall2 same_record l1 l3.
Proof.
  induction l1 as [|a l1 IH]; intros l2 l3 H12 H23.
  - inversion H12; subst. inversion H23; subst. constructor.
  - inversion H12; subst. inversion H23; subst. constructor.
    + eapply same_record_trans; eassumption.
    + eapply IH; eassumption.
Qed.

Lemma later_version_refl e : later_version e e.
Proof. repeat split. apply Forall2_same_record_refl. Qed.

Lemma later_version_trans e1 e2 e3 :
  later_version e1 e2 -> later_version e2 e3 -> later_version e1 e3.
Proof.
  intros (A1 & A2 & A3 & A4) (B1 & B2 & B3 & B4). repeat split; try congruence.
  eapply Forall2_same_record_trans; eassumption.
Qed.

Lemma told_later e e' ev :
  later_version e e' -> told (Some e') ev -> told (Some e) ev.
Proof.
  intros H. destruct ev as [| u |]; cbn; auto.
  now apply later_version_trans.
Qed.

Lemma continues_refl s : continues s s.
Proof.
  split; [reflexivity|]. split.
  - destruct (execution s) as [e|]; [|reflexivity].
    exists e. split; [reflexivity|apply later_version_refl].
  - exists []. split; [now rewrite app_nil_r|constructor].
Qed.

Lemma continues_trans s1 s2 s3 :
  continues s1 s2 -> continues s2 s3 -> continues s1 s3.
Proof.
  intros (A1 & A2 & m1 & A3 & T1) (B1 & B2 & m2 & B3 & T2).
  split; [congruence|].
  destruct (execution s1) as [e1|].
  - destruct A2 as (e2 & E2 & L2). rewrite E2 in B2, T2.
    destruct B2 as (e3 & E3 & L3). split.
    + exists e3. split; [exact E3|]. eapply later_version_trans; eassumption.
    + exists (m1 ++ m2)%list. split; [now rewrite B3, A3, app_assoc|].
      apply Forall_app. split; [exact T1|].
      revert T2. apply Forall_impl. intros ev. now apply told_later.
  - rewrite A2 in B2, T2. split; [exact B2|].
    exists (m1 ++ m2)%list. split; [now rewrite B3, A3, app_assoc|].
    apply Forall_app. split; assumption.
Qed.

(** The three parts of [continues], for a state that holds an Execution. *)
Lemma continues_some s s' e :
  continues s s' -> execution s = Some e ->
  current_functionExecutionId s' = current_functionExecutionId s
  /\ (exists e', execution s' = Some e' /\ later_version e e')
  /\ exists more,
       events s' = (events s ++ more)%list /\ Forall (told (Some e)) more.
Proof.
  intros (H1 & H2 & H3) He. rewrite He in H2, H3. auto.
Qed.

Lemma within_ret {A : Type} (a : A) : within continues (ret a).
Proof. intros s. apply continues_refl. Qed.

Lemma within_throw {A : Type} e : within continues (throw (A := A) e).
Proof. intros s. apply continues_refl. Qed.

Lemma within_out_of_fuel {A : Type} : within continues (out_of_fuel (A := A)).
Proof. intros s. apply continues_refl. Qed.

Lemma within_bind {A B : Type} (c : Async A) (k : A -> Async B) :
  within continues c -> (forall a, within continues (k a)) ->
  within continues (x <- c ;; k x).
Proof.
  intros Hc Hk s. specialize (Hc s). unfold bind.
  destruct (c s) as [[a| |] s1]; cbn [snd] in *; [|exact Hc|exact Hc].
  eapply continues_trans; [exact Hc|apply Hk].
Qed.

Lemma continues_same_execution s s' :
  execution s' = execution s ->
  current_functionExecutionId s' = current_functionExecutionId s ->
  (exists more,
      events s' = (events s ++ more)%list
      /\ Forall (fun ev => match ev with
                           | ModelCall _ _ _ => True
                           | _ => False
                           end) more) ->
  continues s s'.
Proof.
  intros He Hc (more & Hev & Hmore). split; [exact Hc|]. split.
  - rewrite He. destruct (execution s) as [e|]; [|reflexivity].
    exists e. split; [reflexivity|apply later_version_refl].
  - exists more. split; [exact Hev|].
    revert Hmore. apply Forall_impl. intros [| |]; cbn; tauto.
Qed.

Lemma within_external {A : Type} (f : World -> A * World) :
  within continues (external f).
Proof.
  intros s. unfold external. destruct (f (world s)) as [a w]. cbn [snd].
  apply continues_same_execution; [reflexivity|reflexivity|].
  exists []. split; [cbn; now rewrite app_nil_r|constructor].
Qed.

Lemma within_emit_call messages fns mode :
  within continues (emit (ModelCall messages fns mode)).
Proof.
  intros s. unfold emit, modify. cbn [snd].
  apply continues_same_execution; [reflexivity|reflexivity|].
  exists [ModelCall messages fns mode]. split; [reflexivity|].
  constructor; [exact I|constructor].
Qed.

Lemma within_forM {A B : Type} (f : A -> Async B) l :
  (forall a, within continues (f a)) -> within continues (forM f l).
Proof.
  intros Hf. induction l as [|a l IH]; cbn [forM]; [apply within_ret|].
  apply within_bind; [apply Hf|]. intros b.
  apply within_bind; [exact IH|]. intros bs. apply within_ret.
Qed.

Lemma Forall2_same_record_map (cur : FunctionExecuted -> bool)
    (g : FunctionExecuted -> FunctionExecuted) l :
  (forall fe, same_record fe (g fe)) ->
  Forall2 same_record l (map (fun fe => if cur fe then g fe else fe) l).
Proof.
  intros Hg. induction l as [|fe l IH]; constructor; [|exact IH].
  destruct (cur fe); [apply Hg|apply same_record_refl].
Qed.

(** Writing to the sub-records that are current, each trace going through
    a change that makes it grow. *)
Lemma within_rewrite args (change : Trace -> Trace)
    (g : FunctionExecuted -> FunctionExecuted) (h : Execution -> Execution) {A}
    (k : Execution -> Async A) :
  (forall t, grows t (change t)) ->
  (forall fe, functionExecutionId (g fe) = functionExecutionId fe
              /\ inputs (g fe) = inputs fe
              /\ functionDef (g fe) = functionDef fe
              /\ trace (g fe) = change (trace fe)) ->
  (forall e, id (h e) = id e /\ createdAt (h e) = createdAt e
             /\ verified (h e) = verified e
             /\ functionsExecuted (h e) = functionsExecuted e) ->
  (forall e, within continues (k e)) ->
  within continues
    (s <- get ;;
     match execution s with
     | None => throw "Execution not found"
     | Some e =>
         let e' :=
           h (with_functionsExecuted e
                (map (fun fe => if is_current s fe then g fe else fe)
                     (functionsExecuted e))) in
         modify (set_execution (Some e')) ;;
         Engine.notify args e' ;;
         k e'
     end).
Proof.
  intros Hchange Hg Hh Hk s. unfold bind at 1, get.
  destruct (execution s) as [e|] eqn:He; [|apply continues_refl].
  cbv zeta.
  set (e' := h (with_functionsExecuted e
                  (map (fun fe => if is_current s fe then g fe else fe)
                       (functionsExecuted e)))).
  assert (Hlater : later_version e e').
  { destruct (Hh (with_functionsExecuted e
                    (map (fun fe => if is_current s fe then g fe else fe)
                         (functionsExecuted e)))) as (I1 & I2 & I3 & I4).
    unfold e', later_version. rewrite I1, I2, I3, I4. repeat split.
    cbn [functionsExecuted with_functionsExecuted].
    apply Forall2_same_record_map. intros fe.
    destruct (Hg fe) as (G1 & G2 & G3 & G4).
    repeat split; try assumption. rewrite G4. apply Hchange. }
  unfold bind at 1, modify. unfold bind at 1, Engine.notify, when, emit, modify, ret.
  match goal with
  | |- continues _ (snd (k e' ?st)) =>
      eapply (continues_trans s st); [|apply Hk]
  | |- continues _ (snd (match ?c with _ => _ end)) =>
      destruct (onExecutionUpdate args);
      match goal with
      | |- continues _ (snd (k e' ?st)) =>
          eapply (continues_trans s st); [|apply Hk]
      end
  end.
  - split; [reflexivity|]. rewrite He. split.
    + exists e'. split; [reflexivity|exact Hlater].
    + exists [ExecutionUpdate e']. split; [reflexivity|].
      constructor; [exact Hlater|constructor].
  - split; [reflexivity|]. rewrite He. split.
    + exists e'. split; [reflexivity|exact Hlater].
    + exists []. split; [cbn; now rewrite app_nil_r|constructor].
Qed.

Lemma grows_append t a : grows t (t ++ [a])%list.
Proof. exists [skeleton a]. now rewrite map_app. Qed.

Lemma grows_response_update id r t :
  grows t (update_in id (response_update r) t).
Proof.
  exists []. rewrite app_nil_r. unfold update_in. rewrite map_map.
  apply map_ext. intros a. destruct (action_id a =? id); reflexivity.
Qed.

Lemma within_createTrace args body resp :
  within continues (Engine.createTrace args body resp).
Proof.
  unfold Engine.createTrace. apply within_bind; [apply within_external|].
  intros i.
  apply (within_rewrite args
           (fun t => (t ++ [{| action_id := i; action := body;
                               response := resp |}])%list)
           (fun fe => with_trace fe
                        (trace fe ++ [{| action_id := i; action := body;
                                         response := resp |}])%list)
           (fun e => e) (fun _ => ret i)).
  - intros t. apply grows_append.
  - intros fe. repeat split.
  - intros e. repeat split.
  - intros e. apply within_ret.
Qed.

Lemma within_updateTrace args id r :
  within continues (Engine.updateTrace args id (response_update r)).
Proof.
  unfold Engine.updateTrace.
  pose proof (within_rewrite args (update_in id (response_update r))
                (fun fe => with_trace fe
                             (update_in id (response_update r) (trace fe)))
                (fun e => e) (fun _ => ret tt)) as H.
  intros s. specialize (H (grows_response_update id r)).
  specialize (H (fun fe => conj eq_refl (conj eq_refl (conj eq_refl eq_refl)))).
  specialize (H (fun e => conj eq_refl (conj eq_refl (conj eq_refl eq_refl)))).
  specialize (H (fun e => within_ret tt) s).
  unfold bind at 1, get in H. unfold bind at 1, get.
  destruct (execution s) as [e|]; [|exact H].
  cbv zeta in H. unfold bind in *. cbn [modify] in *.
  unfold update_in in H.
  destruct (Engine.notify args _ _) as [[[]| |] s1]; exact H.
Qed.

Lemma grows_app t more : grows t (t ++ more)%list.
Proof. exists (map skeleton more). now rewrite map_app. Qed.

Lemma within_resolveExecution args r trace' :
  within continues (Engine.resolveExecution args r trace').
Proof.
  unfold Engine.resolveExecution.
  apply (within_rewrite args (fun t => (t ++ trace')%list)
           (fun fe => with_sub_finalResponse
                        (with_trace fe (trace fe ++ trace')%list) r)
           (fun e => with_finalResponse e r) (fun e => ret e)).
  - intros t. apply grows_app.
  - intros fe. repeat split.
  - intros e. repeat split.
  - intros e. apply within_ret.
Qed.

Lemma within_call_model def messages fns mode :
  within continues (Engine.call_model def messages fns mode).
Proof.
  unfold Engine.call_model. apply within_bind; [apply within_emit_call|].
  intros _. apply within_external.
Qed.


End FrameFacts.

Ltac within_step :=
  first
    [ apply within_ret
    | apply within_throw
    | apply within_out_of_fuel
    | apply within_createTrace
    | apply within_updateTrace
    | apply within_resolveExecution
    | apply within_call_model
    | apply within_external
    | apply within_bind; [|intros ?]
    | match goal with
      | |- within _ (match ?x with _ => _ end) => destruct x
      end ].

Section RetrieverFrame.
Context {platform : Platform} {collaborators : Collaborators}.

Lemma within_callZodOutput def args fuel :
  forall messages zodSchema retries,
    within continues (Engine.callZodOutput def args fuel messages zodSchema retries).
Proof.
  induction fuel as [|fuel IH]; intros messages zodSchema retries;
    cbn [Engine.callZodOutput]; [apply within_out_of_fuel|].
  cbv zeta.
  repeat first [apply IH | within_step].
Qed.


Lemma within_lift_outcome {A : Type} (o : Outcome A) :
  within continues (Engine.lift_outcome o).
Proof. destruct o; [apply within_ret|apply within_throw|apply within_out_of_fuel]. Qed.

End RetrieverFrame.

Ltac within_run_step :=
  first
    [ apply within_callZodOutput
    | apply within_lift_outcome
    | apply within_forM; intros ?
    | within_step ].

Section RunFrame.
Context {platform : Platform} {collaborators : Collaborators}.

Lemma within_getQueryDoc def args queryArg :
  within continues (Engine.getQueryDoc def args queryArg).
Proof. unfold Engine.getQueryDoc. repeat within_run_step. Qed.

(** What [createExecution] leaves: a new Execution with one sub-record, which
    is the current one; no callback is called. *)
Lemma createExecution_spec def arg _executionId s :
  exists i fid now w,
    Engine.createExecution def arg _executionId s
    = (Returned i,
       {| execution :=
            Some {| id := i;
                    createdAt := now;
                    functionsExecuted :=
                      [{| functionExecutionId := fid;
                          inputs := arg;
                          trace := [];
                          sub_finalResponse := None;
                          functionDef := def |}];
                    finalResponse := None;
                    verified := None |};
          current_functionExecutionId := Some fid;
          world := w;
          events := events s |})
    /\ match _executionId with
       | Some j => if j =? "" then i = fst (nanoid (world s)) else i = j
       | None => i = fst (nanoid (world s))
       end.
Proof.
  unfold Engine.createExecution.
  assert (Hext : forall (A B : Type) (f : World -> A * World)
                        (k : A -> Async B) st,
             (x <- external f ;; k x) st
             = k (fst (f (world st)))
                 {| execution := execution st;
                    current_functionExecutionId := current_functionExecutionId st;
                    world := snd (f (world st));
                    events := events st |}).
  { intros A B f k st. unfold bind, external. now destruct (f (world st)). }
  destruct _executionId as [j|]; [destruct (j =? "") eqn:Ej|].
  - rewrite !Hext. cbn. unfold bind, modify, ret. cbn.
    do 4 eexists. split; reflexivity.
  - unfold bind at 1, ret at 1. rewrite !Hext. cbn. unfold bind, modify, ret. cbn.
    do 4 eexists. split; reflexivity.
  - rewrite !Hext. cbn. unfold bind, modify, ret. cbn.
    do 4 eexists. split; reflexivity.
Qed.


Lemma bind_returned_inv {S A B : Type} (c : M S A) (k : A -> M S B) s b s' :
  (x <- c ;; k x) s = (Returned b, s') ->
  exists a s1, c s = (Returned a, s1) /\ k a s1 = (Returned b, s').
Proof.
  unfold bind. destruct (c s) as [[a| |] s1]; try discriminate.
  intros H. now exists a, s1.
Qed.

Lemma post_bind {A B : Type} (Q : B -> State -> Prop) (c : Async A) k :
  (forall a, post Q (k a)) -> post Q (x <- c ;; k x).
Proof.
  intros Hk s b s' H.
  destruct (bind_returned_inv _ _ _ _ _ H) as (a & s1 & _ & H2).
  exact (Hk a s1 b s' H2).
Qed.

Lemma post_throw {A : Type} (Q : A -> State -> Prop) e : post Q (throw e).
Proof. intros s a s'. discriminate. Qed.

Lemma post_out_of_fuel {A : Type} (Q : A -> State -> Prop) : post Q out_of_fuel.
Proof. intros s a s'. discriminate. Qed.

Lemma post_resolveExecution args r trace' :
  post (resolved args) (Engine.resolveExecution args r trace').
Proof.
  intros s e s'. unfold Engine.resolveExecution, get. unfold bind at 1.
  destruct (execution s) as [e0|] eqn:He; [|discriminate].
  unfold bind at 1, modify. unfold bind, Engine.notify, when, emit, modify, ret.
  destruct (onExecutionUpdate args) eqn:Hobs; intros [= <- <-].
  - split; [reflexivity|]. split.
    + exists r. split; [reflexivity|].
      cbn [functionsExecuted with_finalResponse with_functionsExecuted].
      apply Forall_map. apply Forall_forall. intros fe _.
      unfold is_current. cbn [current_functionExecutionId set_execution].
      fold (is_current s fe). destruct (is_current s fe) eqn:E; [reflexivity|].
      intros H. unfold is_current in E. congruence.
    + intros _. eexists. reflexivity.
  - split; [reflexivity|]. split.
    + exists r. split; [reflexivity|].
      cbn [functionsExecuted with_finalResponse with_functionsExecuted].
      apply Forall_map. apply Forall_forall. intros fe _.
      unfold is_current. cbn [current_functionExecutionId set_execution].
      fold (is_current s fe). destruct (is_current s fe) eqn:E; [reflexivity|].
      intros H. unfold is_current in E. congruence.
    + congruence.
Qed.

End RunFrame.

Ltac post_step :=
  first
    [ apply post_resolveExecution
    | apply post_throw
    | apply post_out_of_fuel
    | apply post_bind; intros ?
    | match goal with
      | |- post _ (match ?x with _ => _ end) => destruct x
      end ].

Ltac frame_of H Hw :=
  match type of H with
  | ?c ?s = (_, _) =>
      assert (Hw : within continues c) by (repeat within_run_step);
      specialize (Hw s); rewrite H in Hw; cbn [snd] in Hw
  end.

Ltac post_of H Q Hp :=
  match type of H with
  | ?c ?s = (_, _) =>
      assert (Hp : post Q c) by (repeat post_step);
      specialize (Hp _ _ _ H)
  end.

Section RunResults.
Context {platform : Platform} {collaborators : Collaborators}.

Lemma grows_from_one a t :
  grows [a] t -> exists first rest, t = first :: rest /\ skeleton first = skeleton a.
Proof.
  intros (more & H). destruct t as [|first rest]; [discriminate|].
  exists first, rest. split; [reflexivity|].
  change (hd (skeleton a) (map skeleton (first :: rest)) = skeleton a).
  now rewrite H.
Qed.


Lemma Forall2_same_record_one fe l :
  Forall2 same_record [fe] l -> exists fe', l = [fe'] /\ same_record fe fe'.
Proof.
  intros H. inversion H as [|? fe' ? l' Hfe Hl]; subst.
  inversion Hl; subst. now exists fe'.
Qed.

(** The closure's [run], when it returns: [createExecution] and the first
    [createTrace] leave a state [s2] whose Execution has the requested id and
    one sub-record with the [executing-function] action; the rest of [run]
    continues from [s2] and ends resolved. *)
Lemma run_frame def args fuel arg _executionId s e s' :
  Engine.run def args fuel arg _executionId s = (Returned e, s') ->
  exists fid now a s2,
    execution s2
    = Some {| id := execution_id_of _executionId s;
              createdAt := now;
              functionsExecuted :=
                [{| functionExecutionId := fid;
                    inputs := arg;
                    trace := [a];
                    sub_finalResponse := None;
                    functionDef := def |}];
              finalResponse := None;
              verified := None |}
    /\ current_functionExecutionId s2 = Some fid
    /\ action a = ExecutingFunction def arg
    /\ continues s2 s'
    /\ resolved args e s'.
Proof.
  intros Hrun. unfold Engine.run in Hrun.
  destruct (createExecution_spec def arg _executionId s)
    as (i & fid & now & w & Hce & Hid).
  assert (Hi : i = execution_id_of _executionId s).
  { unfold execution_id_of. destruct _executionId as [j|]; [|exact Hid].
    destruct (j =? ""); exact Hid. }
  clear Hid. subst i.
  rewrite (bind_returned _ _ _ _ _ Hce) in Hrun.
  destruct (get_prop "instructions" arg) as [instructions|]; [|discriminate].
  destruct (get_prop "documents" arg) as [docs|]; [|discriminate].
  destruct (get_prop "query" arg) as [queryArg|]; [|discriminate].
  cbv zeta in Hrun.
  destruct (bind_returned_inv _ _ _ _ _ Hrun) as (x & s2 & H1 & H2).
  exists fid, now.
  exists {| action_id := fst (nanoid w);
            action := ExecutingFunction def arg;
            response := None |}.
  exists s2.
  assert (Hs2 : execution s2
                = Some {| id := execution_id_of _executionId s;
                          createdAt := now;
                          functionsExecuted :=
                            [{| functionExecutionId := fid;
                                inputs := arg;
                                trace := [{| action_id := fst (nanoid w);
                                             action := ExecutingFunction def arg;
                                             response := None |}];
                                sub_finalResponse := None;
                                functionDef := def |}];
                          finalResponse := None;
                          verified := None |}
                /\ current_functionExecutionId s2 = Some fid).
  { clear H2 Hrun Hce. revert H1.
    unfold Engine.createTrace, external, get, modify, Engine.notify, when, emit,
      modify, ret, bind. cbn.
    destruct (nanoid w) as [i' w']. cbn.
    unfold is_current. cbn. rewrite String.eqb_refl.
    destruct (onExecutionUpdate args); intros [= _ <-]; split; reflexivity. }
  destruct Hs2 as (Hs2 & Hc2).
  split; [exact Hs2|]. split; [exact Hc2|]. split; [reflexivity|].
  split.
  - match type of H2 with
    | ?c s2 = _ =>
        assert (Hw : within continues c)
          by (unfold Engine.getQueryDoc; repeat within_run_step);
        specialize (Hw s2); now rewrite H2 in Hw
    end.
  - match type of H2 with
    | ?c s2 = _ =>
        assert (Hp : post (resolved args) c) by (repeat post_step);
        exact (Hp _ _ _ H2)
    end.
Qed.

(** X5.  The Execution that the closure's [run] returns is the one the
    closure holds and the one the observer was told last.  It has the id
    that was asked for, when one was, and a single sub-record: for the
    arguments and the Definition of the run, with the final response of the
    Execution, and with a trace that starts with the [executing-function]
    action of that Definition and those arguments. *)
Theorem run_returns_the_execution_of_its_arguments
    def args fuel arg _executionId s e s' :
  Engine.run def args fuel arg _executionId s = (Returned e, s') ->
  resolved args e s'
  /\ id e = execution_id_of _executionId s
  /\ exists fe first rest,
       functionsExecuted e = [fe]
       /\ inputs fe = arg
       /\ functionDef fe = def
       /\ sub_finalResponse fe = finalResponse e
       /\ trace fe = first :: rest
       /\ action first = ExecutingFunction def arg.
Proof.
  intros Hrun.
  destruct (run_frame _ _ _ _ _ _ _ _ Hrun)
    as (fid & now & a & s2 & He2 & Hc2 & Ha & C2 & P2).
  split; [exact P2|].
  destruct C2 as (Cid & C2 & _). rewrite He2 in C2.
  destruct C2 as (e' & He' & Hid' & _ & _ & F').
  destruct P2 as (Pe & (r & Pr & Psub) & _).
  assert (e' = e) by congruence. subst e'.
  split; [exact Hid'|].
  cbn [functionsExecuted] in F'.
  destruct (Forall2_same_record_one _ _ F') as (fe & Hfe & R).
  destruct R as (Rid & Rin & Rdef & Rgrow). cbn in Rid, Rin, Rdef, Rgrow.
  destruct (grows_from_one _ _ Rgrow) as (first & rest & Ht & Hsk).
  exists fe, first, rest. repeat split; try assumption.
  - rewrite Hfe in Psub. apply Forall_inv in Psub.
    rewrite Pr. apply Psub. unfold is_current. rewrite Cid, Hc2, Rid.
    apply String.eqb_refl.
  - injection Hsk as _ Hact. congruence.
Qed.


Lemma in_new_closure_returned {A : Type} (c : Async A) st a st' :
  Builder.in_new_closure c st = (Returned a, st') ->
  exists sn,
    c {| execution := None;
         current_functionExecutionId := None;
         world := world st;
         events := events st |} = (Returned a, sn)
    /\ execution st' = execution st
    /\ current_functionExecutionId st' = current_functionExecutionId st
    /\ events st' = events sn.
Proof.
  unfold Builder.in_new_closure.
  destruct (c _) as [r sn] eqn:E. intros [= -> <-]. now exists sn.
Qed.

(** X6.  The method [run], map steps included, returns an Execution with
    the id the run was given (or the one [nanoid] made for it): when the id
    is not the empty string, a map step that is an AI function runs under
    the id of the Execution so far.  The Execution returned is the one the
    observer, when there is one, was told last. *)
Theorem method_run_keeps_the_execution_id
    fuel b runtimeArgs executionId s e s' :
  Builder.run fuel b runtimeArgs executionId s = (Returned e, s') ->
  (execution_id_of executionId s <> "" -> id e = execution_id_of executionId s)
  /\ (onExecutionUpdate (Builder.callbacks b) = true ->
      exists before, events s' = (before ++ [ExecutionUpdate e])%list).
Proof.
  revert b runtimeArgs executionId s e s'.
  induction fuel as [|fuel IH]; intros b runtimeArgs executionId s e s' Hrun;
    [discriminate|].
  cbn [Builder.run] in Hrun. cbv zeta in Hrun.
  destruct (bind_returned_inv _ _ _ _ _ Hrun) as (first & s1 & H1 & H2).
  clear Hrun.
  destruct (run_frame _ _ _ _ _ _ _ _ H1)
    as (fid & now & a & s2 & He2 & Hc2 & Ha & C2 & P2).
  generalize dependent (execution_id_of executionId s). intros i He2.
  assert (Hinv : (exists ec, execution s1 = Some ec /\ (i <> "" -> id ec = i))
                 /\ (i <> "" -> id first = i)
                 /\ (onExecutionUpdate (Builder.callbacks b) = true ->
                     exists before,
                       events s1 = (before ++ [ExecutionUpdate first])%list)).
  { destruct C2 as (_ & C2 & _). rewrite He2 in C2.
    destruct C2 as (e' & He' & Hid' & _).
    destruct P2 as (Pe & _ & Pobs).
    assert (e' = first) by congruence. subst e'.
    split; [now exists first|]. split; [intros _; exact Hid'|exact Pobs]. }
  clear H1 He2 Hc2 Ha C2 P2 fid now a s2.
  revert first s1 Hinv H2.
  generalize (or_empty (def_mapFns (Builder.internal_def b))) as mapFns.
  induction mapFns as [|fn rest IHl]; intros p st (Hex & Hp & Hobs) H2.
  - injection H2 as <- <-. split; [exact Hp|exact Hobs].
  - destruct (bind_returned_inv _ _ _ _ _ H2) as (next & st1 & Hstep & Hrest).
    clear H2. apply (IHl next st1); [|exact Hrest]. clear IHl Hrest.
    destruct Hex as (ec & Hec & Hidc).
    destruct fn as [f|functionDef].
    + destruct (bind_returned_inv _ _ _ _ _ Hstep) as (s0 & st0 & Hg & Hstep').
      injection Hg as <- <-.
      frame_of Hstep' Hw.
      post_of Hstep' (resolved (Builder.callbacks b)) Hp'.
      destruct Hw as (_ & Hw & _). rewrite Hec in Hw.
      destruct Hw as (e' & He' & Hid' & _).
      destruct Hp' as (Pe & _ & Pobs).
      assert (e' = next) by congruence. subst e'.
      split; [exists next; split; [exact Pe|intros Hi; rewrite Hid'; auto]|].
      split; [intros Hi; rewrite Hid'; auto|exact Pobs].
    + destruct (bind_returned_inv _ _ _ _ _ Hstep) as (x & st0 & Hct & Hstep').
      frame_of Hct Hw.
      destruct Hw as (_ & Hw & _). rewrite Hec in Hw.
      destruct Hw as (e0 & He0 & Hid0 & _).
      destruct (bind_returned_inv _ _ _ _ _ Hstep') as (s0 & st0' & Hg & Hnest).
      injection Hg as <- <-.
      destruct (in_new_closure_returned _ _ _ _ Hnest)
        as (sn & Hn & Hex' & _ & Hev').
      destruct (IH _ _ _ _ _ _ Hn) as (Hidn & Hobsn).
      rewrite He0 in Hidn. cbn [option_map execution_id_of] in Hidn.
      split; [exists e0; split; [congruence|intros Hi; rewrite Hid0; auto]|].
      split.
      * intros Hi. assert (Hi0 : id e0 = i) by (rewrite Hid0; auto).
        rewrite Hi0 in Hidn. apply String.eqb_neq in Hi. rewrite Hi in Hidn.
        apply Hidn. now apply String.eqb_neq.
      * intros Ho. rewrite Hev'. apply Hobsn. exact Ho.
Qed.

End RunResults.

Section CallFacts.
Context {platform : Platform} {collaborators : Collaborators}.

Lemma calls_of_app a b : calls_of (a ++ b) = (calls_of a ++ calls_of b)%list.
Proof. unfold calls_of. apply flat_map_app. Qed.

Lemma new_calls_refl s : new_calls s s [].
Proof. exists []. now rewrite app_nil_r. Qed.

Lemma new_calls_trans s1 s2 s3 a b :
  new_calls s1 s2 a -> new_calls s2 s3 b -> new_calls s1 s3 (a ++ b).
Proof.
  intros (m1 & E1 & C1) (m2 & E2 & C2). exists (m1 ++ m2)%list. split.
  - now rewrite E2, E1, app_assoc.
  - now rewrite calls_of_app, C1, C2.
Qed.

Lemma emits_ret {A : Type} (P : list Call -> Prop) (a : A) :
  P [] -> emits P (ret a).
Proof. intros H s. exists []. split; [apply new_calls_refl|exact H]. Qed.

Lemma emits_throw {A : Type} (P : list Call -> Prop) e :
  P [] -> emits P (throw (A := A) e).
Proof. intros H s. exists []. split; [apply new_calls_refl|exact H]. Qed.

Lemma emits_out_of_fuel {A : Type} (P : list Call -> Prop) :
  P [] -> emits P (out_of_fuel (A := A)).
Proof. intros H s. exists []. split; [apply new_calls_refl|exact H]. Qed.

Lemma emits_weaken {A : Type} (P Q : list Call -> Prop) (c : Async A) :
  emits P c -> (forall cs, P cs -> Q cs) -> emits Q c.
Proof.
  intros Hc HPQ s. destruct (Hc s) as (cs & H1 & H2). exists cs. auto.
Qed.

(** A step that does not call the chat model, then the rest. *)
Lemma emits_after_quiet {A B : Type} (P : list Call -> Prop)
    (c : Async A) (k : A -> Async B) :
  emits (fun cs => cs = []) c -> P [] -> (forall a, emits P (k a)) ->
  emits P (x <- c ;; k x).
Proof.
  intros Hc H0 Hk s. destruct (Hc s) as (cs & H1 & ->). unfold bind.
  destruct (c s) as [[a| |] s1]; cbn [snd] in *.
  - destruct (Hk a s1) as (cs & H2 & H3). exists cs. split; [|exact H3].
    exact (new_calls_trans _ _ _ _ _ H1 H2).
  - exists []. auto.
  - exists []. auto.
Qed.

Lemma quiet_external {A : Type} (f : World -> A * World) :
  emits (fun cs => cs = []) (external f).
Proof.
  intros s. exists []. split; [|reflexivity]. unfold external.
  destruct (f (world s)). exists []. cbn. now rewrite app_nil_r.
Qed.

Lemma quiet_notify args e : emits (fun cs => cs = []) (Engine.notify args e).
Proof.
  intros s. exists []. split; [|reflexivity].
  unfold Engine.notify, when, emit, modify.
  destruct (onExecutionUpdate args); cbn.
  - now exists [ExecutionUpdate e].
  - apply new_calls_refl.
Qed.

Lemma quiet_createTrace args body resp :
  emits (fun cs => cs = []) (Engine.createTrace args body resp).
Proof.
  unfold Engine.createTrace.
  apply emits_after_quiet; [apply quiet_external|reflexivity|]. intros i.
  intros s. unfold bind at 1, get. destruct (execution s) as [e|].
  - cbv zeta. unfold bind at 1, modify.
    match goal with
    | |- context [bind (Engine.notify args ?e') _ ?st] =>
        destruct (quiet_notify args e' st) as (cs & H & ->);
        unfold bind; destruct (Engine.notify args e' st) as [[[]| |] s1]
    end; exists []; (split; [exact H|reflexivity]).
  - exists []. split; [apply new_calls_refl|reflexivity].
Qed.

Lemma quiet_updateTrace args id p :
  emits (fun cs => cs = []) (Engine.updateTrace args id p).
Proof.
  unfold Engine.updateTrace.
  intros s. unfold bind at 1, get. destruct (execution s) as [e|].
  - cbv zeta. unfold bind at 1, modify.
    match goal with
    | |- context [Engine.notify args ?e' ?st] =>
        destruct (quiet_notify args e' st) as (cs & H & ->)
    end.
    exists []. split; [exact H|reflexivity].
  - exists []. split; [apply new_calls_refl|reflexivity].
Qed.

Lemma quiet_resolveExecution args r trace' :
  emits (fun cs => cs = []) (Engine.resolveExecution args r trace').
Proof.
  unfold Engine.resolveExecution.
  intros s. unfold bind at 1, get. destruct (execution s) as [e|].
  - cbv zeta. unfold bind at 1, modify.
    match goal with
    | |- context [bind (Engine.notify args ?e') _ ?st] =>
        destruct (quiet_notify args e' st) as (cs & H & ->);
        unfold bind; destruct (Engine.notify args e' st) as [[[]| |] s1]
    end; exists []; (split; [exact H|reflexivity]).
  - exists []. split; [apply new_calls_refl|reflexivity].
Qed.

(** The call of the chat model, then the rest. *)
Lemma emits_after_call {B : Type} (Q : World -> list Call -> Prop)
    def messages fns mode (k : AIMessage -> Async B) :
  (forall w,
      emits (Q w) (k (fst (ChatOpenAI_call (def_model def) messages fns mode w)))) ->
  emits (fun cs => exists w rest,
                     cs = (messages, fns, mode) :: rest /\ Q w rest)
    (resp <- Engine.call_model def messages fns mode ;; k resp).
Proof.
  intros Hk s. unfold Engine.call_model, emit, modify, external, bind.
  cbn [world events].
  specialize (Hk (world s)).
  destruct (ChatOpenAI_call (def_model def) messages fns mode (world s))
    as [resp w]. cbn [fst] in Hk.
  match goal with
  | |- context [k resp ?st] =>
      destruct (Hk st) as (cs & (more & E & C) & HQ)
  end.
  exists ((messages, fns, mode) :: cs). split.
  - exists (ModelCall messages fns mode :: more). split.
    + rewrite E. cbn [events]. now rewrite <- app_assoc.
    + change (calls_of (ModelCall messages fns mode :: more))
        with ((messages, fns, mode) :: calls_of more).
      now rewrite C.
  - now exists (world s), cs.
Qed.

Ltac quiet_atom :=
  first
    [ apply quiet_createTrace
    | apply quiet_updateTrace
    | apply quiet_external
    | apply quiet_resolveExecution
    | apply emits_ret; reflexivity
    | match goal with
      | |- emits _ (match ?x with _ => _ end) => destruct x; quiet_atom
      end ].

Ltac quiet_step :=
  first
    [ apply emits_ret; left; reflexivity
    | apply emits_throw; left; reflexivity
    | apply emits_out_of_fuel; left; reflexivity
    | apply emits_after_quiet; [quiet_atom|left; reflexivity|intros ?]
    | match goal with
      | |- emits _ (match ?x with _ => _ end) => destruct x
      end ].

(** X7.  The calls of the chat model that [callZodOutput] makes, however it
    ends, are one dialogue: the first call is made with the conversation
    [callZodOutput] was given, each later call with the conversation of the
    call before it followed by the reply of the chat model to that call and
    by one more message; every call offers the functions of the Definition
    followed by [print], and asks for [print] by name exactly when the
    Definition has no function of its own.  A round makes one call at most. *)
Theorem callZodOutput_calls_make_one_dialogue
    def args fuel messages zodSchema retries s :
  exists cs,
    new_calls s
      (snd (Engine.callZodOutput def args fuel messages zodSchema retries s)) cs
    /\ dialogue (def_model def)
         (map toOpenAiFunction
            (or_empty (def_functions def) ++ [Engine.printFn zodSchema])%list)
         (if (List.length (or_empty (def_functions def)) =? 0)%nat
          then ForceName "print" else Auto)
         messages cs
    /\ List.length cs <= fuel.
Proof.
  set (fns := map toOpenAiFunction
                (or_empty (def_functions def) ++ [Engine.printFn zodSchema])%list).
  set (mode := if (List.length (or_empty (def_functions def)) =? 0)%nat
               then ForceName "print" else Auto).
  revert s.
  change (emits (fun cs => dialogue (def_model def) fns mode messages cs
                           /\ List.length cs <= fuel)
            (Engine.callZodOutput def args fuel messages zodSchema retries)).
  revert messages retries.
  induction fuel as [|fuel IH]; intros messages retries.
  - apply emits_out_of_fuel. split; [apply dialogue_over|reflexivity].
  - cbn [Engine.callZodOutput]. cbv zeta.
    apply emits_after_quiet;
      [apply quiet_createTrace|split; [apply dialogue_over|cbn; lia]|].
    intros id. fold fns mode.
    eapply emits_weaken.
    + apply (emits_after_call
               (fun w cs =>
                  cs = []
                  \/ exists followup,
                       dialogue (def_model def) fns mode
                         ((messages
                             ++ [AIMessageOf
                                   (fst (ChatOpenAI_call (def_model def)
                                           messages fns mode w))])
                            ++ [followup])%list cs
                       /\ List.length cs <= fuel)).
      intros w.
      repeat first
        [ quiet_step
        | eapply emits_weaken;
            [ apply IH
            | intros cs (Hd & Hl); right; eexists; split; eassumption ] ].
    + intros cs (w & rest & -> & [->|(followup & Hd & Hl)]).
      * split; [|cbn; lia].
        apply (dialogue_round _ fns mode messages w (SystemMessage "")).
        apply dialogue_over.
      * split; [|cbn; lia].
        exact (dialogue_round _ fns mode messages w followup rest Hd).
Qed.

End CallFacts.

Section RetrieverOutcomes.
Context {platform : Platform} {collaborators : Collaborators}.
Variable def : ProcedureBuilderDef.
Variable args : Callbacks.

Ltac enter_round z He s2 Hev :=
  cbn [Engine.callZodOutput]; cbv zeta;
  match goal with
  | |- context [bind (Engine.createTrace _ _ _)
                  (fun id => bind (Engine.call_model _ ?m _ _)
                               (fun resp => @?k id resp)) ?s] =>
      let H := fresh "Henter" in
      destruct (callZodOutput_enter def args m z s He) as (s2 & Hev & H);
      rewrite (H k); clear H; cbv beta
  end.

Ltac take_branch Hc :=
  unfold classify, functions_of in Hc;
  repeat match type of Hc with
         | match ?x with _ => _ end = _ =>
             let E := fresh "E" in
             destruct x eqn:E; try discriminate Hc
         end;
  inversion Hc; subst; clear Hc.


(** X9.  When the reply of the chat model calls a function that is neither
    a function of the Definition nor [print], [callZodOutput] throws
    [Function ... not found in ...] with the names it offered; this happens
    after the call of the chat model, and the action of the call is left as
    it was recorded, [loading]. *)
Theorem unknown_function_call_throws
    n messages zodSchema retries s data :
  execution s <> None ->
  classify def zodSchema (reply_of def zodSchema messages s)
  = FunctionNotFound data ->
  exists s',
    Engine.callZodOutput def args (S n) messages zodSchema retries s
    = (Thrown
         ("Function " ++ call_name data ++ " not found in "
            ++ option_ToString
                 (JSON_stringify
                    (JSArray
                       (map (fun f => JSString (name f))
                          (or_empty (def_functions def)
                             ++ [Engine.printFn zodSchema])%list)))), s')
    /\ evolves 1 (fun t => (t ++ [calling_open_ai (fst (nanoid (world s)))
                                    messages Loading])%list) s s'.
Proof.
  intros He Hc.
  enter_round zodSchema He s2 Hev.
  take_branch Hc.
  exists s2. split; [reflexivity|exact Hev].
Qed.

End RetrieverOutcomes.

Section RecorderFacts.
Context {platform : Platform} {collaborators : Collaborators}.
Variable args : Callbacks.

Lemma update_in_app id p t1 t2 :
  update_in id p (t1 ++ t2)%list = (update_in id p t1 ++ update_in id p t2)%list.
Proof. unfold update_in. apply map_app. Qed.

Lemma update_in_fresh id p t :
  Forall (fun a => action_id a <> id) t -> update_in id p t = t.
Proof.
  induction 1 as [|a t Ha _ IH]; [reflexivity|].
  unfold update_in in *. cbn [map]. rewrite IH.
  apply String.eqb_neq in Ha. now rewrite Ha.
Qed.

(** X10.  An action recorded by [createTrace] is the one that [updateTrace]
    reaches under the id [createTrace] returned: when that id is the id of no
    action recorded before, creating an action and then updating its
    response leaves every current trace as it was, followed by the one
    action, with the new response; no other action is touched. *)
Theorem created_action_is_found_by_its_id body first_response r s :
  execution s <> None ->
  Forall (Forall (fun a => action_id a <> fst (nanoid (world s))))
    (current_traces s) ->
  exists s',
    (id <- Engine.createTrace args body (Some first_response) ;;
     Engine.updateTrace args id (response_update r)) s
    = (Returned tt, s')
    /\ current_traces s'
       = map (fun t => (t ++ [{| action_id := fst (nanoid (world s));
                                 action := body;
                                 response := Some r |}])%list)
           (current_traces s).
Proof.
  intros He Hfresh.
  destruct (createTrace_ok args body (Some first_response) s He)
    as (s1 & H1 & _ & He1 & _ & Ht1).
  destruct (updateTrace_ok args (fst (nanoid (world s))) (response_update r)
              s1 He1) as (s2 & H2 & _ & _ & _ & Ht2).
  exists s2. split.
  - now rewrite (bind_returned _ _ _ _ _ H1).
  - rewrite Ht2, Ht1, map_map. apply map_ext_in. intros t Ht.
    rewrite update_in_app.
    rewrite update_in_fresh
      by exact (proj1 (Forall_forall _ _) Hfresh t Ht).
    unfold update_in. cbn. now rewrite String.eqb_refl.
Qed.

Lemma merge_action_idem a p :
  merge_action (merge_action a p) p = merge_action a p.
Proof.
  unfold merge_action. cbn.
  destruct (partial_id p), (partial_action p), (partial_response p); reflexivity.
Qed.

Lemma update_in_idem id p t :
  update_in id p (update_in id p t) = update_in id p t.
Proof.
  unfold update_in. rewrite map_map. apply map_ext. intros a.
  destruct (action_id a =? id) eqn:E; [|now rewrite E].
  destruct (action_id (merge_action a p) =? id); [|reflexivity].
  apply merge_action_idem.
Qed.

(** X11.  [updateTrace] is idempotent on the Execution: a second call with
    the same id and the same fields leaves the Execution as the first call
    left it, whatever the fields are (the observer is told again). *)
Theorem updateTrace_twice_is_updateTrace_once id fields s :
  let once := snd (Engine.updateTrace args id fields s) in
  let twice := snd (Engine.updateTrace args id fields once) in
  execution twice = execution once
  /\ fst (Engine.updateTrace args id fields once)
     = fst (Engine.updateTrace args id fields s).
Proof.
  cbv zeta.
  assert (Hstep : forall st,
             Engine.updateTrace args id fields st
             = match execution st with
               | None => (Thrown "Execution not found", st)
               | Some e =>
                   let e' :=
                     with_functionsExecuted e
                       (map (fun fe =>
                               if is_current st fe
                               then with_trace fe (update_in id fields (trace fe))
                               else fe)
                            (functionsExecuted e)) in
                   (Returned tt,
                    {| execution := Some e';
                       current_functionExecutionId :=
                         current_functionExecutionId st;
                       world := world st;
                       events := if onExecutionUpdate args
                                 then (events st ++ [ExecutionUpdate e'])%list
                                 else events st |})
               end).
  { intros st. unfold Engine.updateTrace, get. unfold bind at 1.
    destruct (execution st) as [e|]; [|reflexivity].
    cbv zeta. unfold bind, modify, Engine.notify, when, emit, modify, ret.
    destruct (onExecutionUpdate args); reflexivity. }
  rewrite (Hstep s). destruct (execution s) as [e|] eqn:He; cbv zeta.
  - cbv zeta. cbn [snd fst]. rewrite Hstep. cbn [execution snd fst].
    split; [|reflexivity]. f_equal.
    unfold with_functionsExecuted. cbn. f_equal.
    rewrite map_map. apply map_ext. intros fe.
    unfold is_current. cbn [current_functionExecutionId].
    destruct (current_functionExecutionId s) as [f|]; [|reflexivity].
    destruct (functionExecutionId fe =? f) eqn:E.
    + cbn [with_trace functionExecutionId]. rewrite E.
      unfold with_trace. cbn. f_equal. apply update_in_idem.
    + now rewrite E.
  - cbn [snd fst]. rewrite Hstep, He. cbn [snd fst]. split; [exact He|reflexivity].
Qed.

End RecorderFacts.

Section RegistryLookups.
Context {platform : Platform}.

Lemma find_absent_app (P : Execution -> bool) l x :
  find P l = None -> find P (l ++ [x]) = if P x then Some x else None.
Proof.
  induction l as [|y l IH]; cbn; [reflexivity|].
  destruct (P y); [discriminate|exact IH].
Qed.

Lemma find_app_other (P : Execution -> bool) l x :
  P x = false -> find P (l ++ [x]) = find P l.
Proof.
  intros Hx. induction l as [|y l IH]; cbn; [now rewrite Hx|].
  destruct (P y); [reflexivity|exact IH].
Qed.

Lemma find_replace_same (M : Execution) k l :
  id M = k ->
  find (fun e => id e =? k) (map (fun e => if id e =? k then M else e) l)
  = match find (fun e => id e =? k) l with
    | Some _ => Some M
    | None => None
    end.
Proof.
  intros HM. induction l as [|e l IH]; cbn; [reflexivity|].
  destruct (id e =? k) eqn:E; cbn.
  - now rewrite HM, String.eqb_refl.
  - rewrite E. exact IH.
Qed.

Lemma find_replace_other (M : Execution) k k' l :
  id M = k -> k' <> k ->
  find (fun e => id e =? k') (map (fun e => if id e =? k then M else e) l)
  = find (fun e => id e =? k') l.
Proof.
  intros HM Hk. induction l as [|e l IH]; cbn; [reflexivity|].
  destruct (String.eqb_spec (id e) k) as [E|E].
  - rewrite HM. destruct (String.eqb_spec k k') as [E'|E']; [congruence|].
    destruct (String.eqb_spec (id e) k'); [congruence|exact IH].
  - destruct (id e =? k'); [reflexivity|exact IH].
Qed.

Lemma ids_replace (M : Execution) k l :
  id M = k ->
  map id (map (fun e => if id e =? k then M else e) l) = map id l.
Proof.
  intros HM. rewrite map_map. apply map_ext. intros e.
  destruct (String.eqb_spec (id e) k); congruence.
Qed.

Lemma find_none_not_in k (l : list Execution) :
  find (fun e => id e =? k) l = None -> ~ In k (map id l).
Proof.
  induction l as [|e l IH]; cbn; [auto|].
  destruct (String.eqb_spec (id e) k) as [E|E]; [discriminate|].
  intros H [H'|H']; [congruence|now apply IH].
Qed.

(** X12.  [logHandler] stores what it returns.  The Execution returned has
    the id of the incoming one; after the call it is the entry that
    [executionLogs] has under that id, and the entries under the other ids
    are the ones that were there; with a logs provider, it is what
    [saveLog] was called with, once. *)
Theorem logHandler_stores_what_it_returns logsProvider l s :
  let result := Registry.logHandler logsProvider l s in
  id (fst result) = id l
  /\ find (fun e => id e =? id l) (Registry.executionLogs (snd result))
     = Some (fst result)
  /\ (forall k, k <> id l ->
        find (fun e => id e =? k) (Registry.executionLogs (snd result))
        = find (fun e => id e =? k) (Registry.executionLogs s))
  /\ Registry.saved (snd result)
     = if logsProvider then (Registry.saved s ++ [fst result])%list
       else Registry.saved s.
Proof.
  cbv zeta. unfold Registry.logHandler.
  destruct (find (fun e => id e =? id l) (Registry.executionLogs s))
    as [existingLog|] eqn:Hfind; cbn [fst snd Registry.executionLogs Registry.saved].
  - assert (Hid : id (Registry.merge existingLog l) = id l) by reflexivity.
    split; [exact Hid|]. split; [|split; [|reflexivity]].
    + rewrite Hid, (find_replace_same _ _ _ Hid), Hfind. reflexivity.
    + intros k Hk. rewrite Hid. now apply find_replace_other.
  - split; [reflexivity|]. split; [|split; [|reflexivity]].
    + rewrite (find_absent_app _ _ _ Hfind). now rewrite String.eqb_refl.
    + intros k Hk. apply find_app_other. apply String.eqb_neq. congruence.
Qed.

(** The ids in [executionLogs] after one call of [logHandler]. *)
Lemma ids_after_logHandler logsProvider x st :
  map id (Registry.executionLogs (snd (Registry.logHandler logsProvider x st)))
  = (if existsb (String.eqb (id x)) (map id (Registry.executionLogs st))
     then map id (Registry.executionLogs st)
     else map id (Registry.executionLogs st) ++ [id x])%list.
Proof.
  unfold Registry.logHandler.
  destruct (find (fun e => id e =? id x) (Registry.executionLogs st))
    as [existingLog|] eqn:Hfind; cbn [snd Registry.executionLogs].
  - rewrite (ids_replace _ _ _ eq_refl).
    assert (H : existsb (String.eqb (id x)) (map id (Registry.executionLogs st))
                = true).
    { apply find_some in Hfind. destruct Hfind as (Hin & Heq).
      apply existsb_exists. exists (id existingLog). split.
      - now apply in_map.
      - now rewrite String.eqb_sym. }
    now rewrite H.
  - rewrite map_app. cbn [map].
    assert (H : existsb (String.eqb (id x)) (map id (Registry.executionLogs st))
                = false).
    { apply not_true_is_false. intros H. apply existsb_exists in H.
      destruct H as (k & Hin & Heq). apply String.eqb_eq in Heq. subst k.
      exact (find_none_not_in _ _ Hfind Hin). }
    now rewrite H.
Qed.

(** X13.  [logHandler] keeps one entry per id, in place.  When the incoming
    id is in [executionLogs], the ids stay as they are, in their order;
    otherwise the incoming id is added at the end.  So a list with no id
    twice stays one, through any number of calls, and no entry is ever
    dropped. *)
Theorem logHandler_keeps_one_entry_per_id logsProvider l s :
  let ids := map id (Registry.executionLogs s) in
  let ids' := map id (Registry.executionLogs
                        (snd (Registry.logHandler logsProvider l s))) in
  ids' = (if existsb (String.eqb (id l)) ids then ids else ids ++ [id l])%list
  /\ (NoDup ids -> NoDup ids')
  /\ forall incoming,
       NoDup ids ->
       NoDup (map id (Registry.executionLogs
                        (fold_left
                           (fun st x => snd (Registry.logHandler logsProvider x st))
                           incoming s))).
Proof.
  cbv zeta.
  assert (Hnodup : forall x st,
             NoDup (map id (Registry.executionLogs st)) ->
             NoDup (map id (Registry.executionLogs
                              (snd (Registry.logHandler logsProvider x st))))).
  { intros x st Hnd. rewrite ids_after_logHandler.
    destruct (existsb (String.eqb (id x)) (map id (Registry.executionLogs st)))
      eqn:E; [exact Hnd|].
    apply NoDup_app; [exact Hnd|constructor; [intros []|constructor]|].
    intros k Hk [<-|[]].
    assert (H : existsb (String.eqb (id x)) (map id (Registry.executionLogs st))
                = true)
      by (apply existsb_exists; exists (id x); split;
          [exact Hk|apply String.eqb_refl]).
    congruence. }
  split; [apply ids_after_logHandler|]. split; [apply Hnodup|].
  intros incoming. revert s.
  induction incoming as [|x incoming IH]; intros s Hnd; cbn [fold_left];
    [exact Hnd|].
  apply IH. now apply Hnodup.
Qed.

(** Executions of one id make one entry, however many they are. *)
Lemma ids_after_one_id logsProvider i us :
  Forall (fun u : Execution => id u = i) us ->
  forall st,
    map id (Registry.executionLogs
              (fold_left (fun st e => snd (Registry.logHandler logsProvider e st))
                 us st))
    = (if existsb (String.eqb i) (map id (Registry.executionLogs st))
       then map id (Registry.executionLogs st)
       else match us with
            | [] => map id (Registry.executionLogs st)
            | _ :: _ => map id (Registry.executionLogs st) ++ [i]
            end)%list.
Proof.
  induction 1 as [|u us Hu _ IH]; intros st; cbn [fold_left].
  - now destruct (existsb _ _).
  - rewrite IH, ids_after_logHandler, Hu.
    destruct (existsb (String.eqb i) (map id (Registry.executionLogs st)))
      eqn:E; [now rewrite E|].
    rewrite existsb_app. cbn [existsb]. rewrite String.eqb_refl.
    now rewrite orb_true_r.
Qed.

End RegistryLookups.

Section SharedArrayFacts.
Context {platform : Platform}.

Lemma nth_set_nth_same {A : Type} n (x d : A) l :
  n < List.length l -> nth n (Shared.set_nth n x l) d = x.
Proof.
  revert l. induction n as [|n IH]; intros [|y l] H; cbn in *; try lia.
  - reflexivity.
  - apply IH. lia.
Qed.

Lemma nth_set_nth_other {A : Type} n m (x d : A) l :
  n <> m -> nth m (Shared.set_nth n x l) d = nth m l d.
Proof.
  revert m l. induction n as [|n IH]; intros m [|y l] H; cbn.
  - reflexivity.
  - destruct m; [congruence|reflexivity].
  - reflexivity.
  - destruct m; [reflexivity|]. apply IH. congruence.
Qed.

Lemma length_set_nth {A : Type} n (x : A) l :
  List.length (Shared.set_nth n x l) = List.length l.
Proof.
  revert l. induction n as [|n IH]; intros [|y l]; cbn; try reflexivity.
  now rewrite IH.
Qed.

Lemma nth_app_new {A : Type} (l : list A) x d :
  nth (List.length l) (l ++ [x]) d = x.
Proof. rewrite app_nth2 by lia. now rewrite Nat.sub_diag. Qed.

(** The array the variable holds goes through [logHandler] as the list of
    the registry does. *)
Lemma shared_logHandler_refines logsProvider l s :
  Shared.well_formed s ->
  let result := Shared.logHandler logsProvider l s in
  fst result = fst (Registry.logHandler logsProvider l (Shared.logs_of s))
  /\ Shared.logs_of (snd result)
     = snd (Registry.logHandler logsProvider l (Shared.logs_of s))
  /\ Shared.well_formed (snd result).
Proof.
  intros Hwf. cbv zeta. unfold Shared.logHandler, Registry.logHandler.
  cbn [Shared.logs_of Registry.executionLogs Registry.saved].
  destruct (find (fun e => id e =? id l)
              (Shared.array_at (Shared.executionLogs s) s)) as [existingLog|];
    cbn [fst snd]; (split; [reflexivity|]); unfold Shared.logs_of,
      Shared.array_at, Shared.well_formed in *;
    cbn [Shared.arrays Shared.executionLogs Shared.saved].
  - rewrite nth_app_new. split; [reflexivity|]. rewrite length_app. cbn. lia.
  - rewrite nth_set_nth_same by exact Hwf. split; [reflexivity|].
    now rewrite length_set_nth.
Qed.

(** X14.  [registry.executionLogs] is the array [executionLogs] started as,
    not the variable.  While the variable holds that array, a first
    Execution of an id is pushed on it and shows in the registry.  The first
    Execution whose id is already there makes [logHandler] put a new array in
    the variable (as the logs loaded by [getLogs()] do), and from then on
    nothing [logHandler] does shows in [registry.executionLogs] any more. *)
Theorem registry_executionLogs_stops_following logsProvider l s :
  Shared.well_formed s ->
  let s' := snd (Shared.logHandler logsProvider l s) in
  (Shared.executionLogs s = 0 ->
   match find (fun e => id e =? id l) (Shared.registry_executionLogs s) with
   | None =>
       Shared.executionLogs s' = 0
       /\ Shared.registry_executionLogs s'
          = (Shared.registry_executionLogs s ++ [l])%list
   | Some _ =>
       Shared.executionLogs s' <> 0
       /\ Shared.registry_executionLogs s' = Shared.registry_executionLogs s
   end)
  /\ (Shared.executionLogs s <> 0 ->
      forall incoming,
        let after :=
          fold_left (fun st x => snd (Shared.logHandler logsProvider x st))
            incoming s in
        Shared.executionLogs after <> 0
        /\ Shared.registry_executionLogs after = Shared.registry_executionLogs s)
  /\ (forall loaded,
        Shared.executionLogs (Shared.logs_loaded loaded s) <> 0
        /\ Shared.registry_executionLogs (Shared.logs_loaded loaded s)
           = Shared.registry_executionLogs s).
Proof.
  intros Hwf. cbv zeta.
  assert (Hnew : forall st x,
             Shared.well_formed st ->
             Shared.array_at 0
               {| Shared.arrays := (Shared.arrays st ++ [x])%list;
                  Shared.executionLogs := List.length (Shared.arrays st);
                  Shared.saved := Shared.saved st |}
             = Shared.array_at 0 st
             /\ List.length (Shared.arrays st) <> 0).
  { intros st x H. unfold Shared.well_formed in H. unfold Shared.array_at.
    cbn [Shared.arrays]. split; [|lia].
    apply app_nth1. lia. }
  assert (Hstale : forall st x,
             Shared.well_formed st -> Shared.executionLogs st <> 0 ->
             let st' := snd (Shared.logHandler logsProvider x st) in
             Shared.well_formed st'
             /\ Shared.executionLogs st' <> 0
             /\ Shared.registry_executionLogs st'
                = Shared.registry_executionLogs st).
  { intros st x H Hvar. cbv zeta.
    split; [exact (proj2 (proj2 (shared_logHandler_refines logsProvider x st H)))|].
    unfold Shared.logHandler, Shared.registry_executionLogs.
    destruct (find (fun e => id e =? id x)
                (Shared.array_at (Shared.executionLogs st) st)); cbn [snd].
    - cbn [Shared.executionLogs]. destruct (Hnew st
        (map (fun e0 => if id e0 =? id (Registry.merge e x)
                        then Registry.merge e x else e0)
             (Shared.array_at (Shared.executionLogs st) st)) H) as (H1 & H2).
      split; [exact H2|exact H1].
    - cbn [Shared.executionLogs]. split; [exact Hvar|].
      unfold Shared.array_at. cbn [Shared.arrays].
      now apply nth_set_nth_other. }
  split; [|split].
  - intros Hvar. unfold Shared.registry_executionLogs.
    unfold Shared.logHandler. rewrite Hvar.
    destruct (find (fun e => id e =? id l) (Shared.array_at 0 s)); cbn [snd].
    + cbn [Shared.executionLogs]. destruct (Hnew s
        (map (fun e0 => if id e0 =? id (Registry.merge e l)
                        then Registry.merge e l else e0)
             (Shared.array_at 0 s)) Hwf) as (H1 & H2).
      split; [exact H2|exact H1].
    + cbn [Shared.executionLogs]. split; [reflexivity|].
      unfold Shared.array_at. cbn [Shared.arrays].
      apply nth_set_nth_same. unfold Shared.well_formed in Hwf. lia.
  - intros Hvar incoming. revert s Hwf Hvar.
    induction incoming as [|x incoming IH]; intros s Hwf Hvar; cbn [fold_left];
      [split; [exact Hvar|reflexivity]|].
    destruct (Hstale s x Hwf Hvar) as (Hwf' & Hvar' & Hview).
    destruct (IH _ Hwf' Hvar') as (H1 & H2).
    split; [exact H1|]. now rewrite H2.
  - intros loaded. unfold Shared.logs_loaded, Shared.registry_executionLogs.
    destruct (Hnew s loaded Hwf) as (H1 & H2).
    cbn [Shared.executionLogs]. split; [exact H2|exact H1].
Qed.

End SharedArrayFacts.

Section PlaygroundFacts.
Context {platform : Platform}.

(** X15.  The playground keeps one response per Execution id.  The updater
    gives a list, also from the initial [undefined]; the entry that list has
    under the id of [t] is [t]; the ids of the other entries, their order
    and the entries themselves are as before, [t] taking the place of every
    entry with its id or, when there is none, the end of the list.  Applying
    the updater a second time changes nothing. *)
Theorem setResponse_updater_keeps_one_response_per_id t resp :
  exists l',
    Playground.setResponse_updater t resp = Some l'
    /\ find (fun d => id d =? id t) l' = Some t
    /\ (forall k, k <> id t ->
          find (fun d => id d =? k) l' = find (fun d => id d =? k) (or_empty resp))
    /\ map id l'
       = (if existsb (String.eqb (id t)) (map id (or_empty resp))
          then map id (or_empty resp)
          else map id (or_empty resp) ++ [id t])%list
    /\ Playground.setResponse_updater t (Some l') = Some l'.
Proof.
  unfold Playground.setResponse_updater.
  destruct resp as [l|]; cbn [or_empty option_map].
  - destruct (find (fun d => id d =? id t) l) as [r|] eqn:Hfind.
    + eexists. split; [reflexivity|].
      assert (Hf : find (fun d => id d =? id t)
                     (map (fun d => if id d =? id t then t else d) l) = Some t).
      { rewrite (find_replace_same t (id t) l eq_refl). now rewrite Hfind. }
      split; [exact Hf|]. split; [|split].
      * intros k Hk. now apply find_replace_other.
      * rewrite (ids_replace t (id t) l eq_refl).
        assert (H : existsb (String.eqb (id t)) (map id l) = true).
        { apply find_some in Hfind. destruct Hfind as (Hin & Heq).
          apply existsb_exists. exists (id r). split.
          - now apply in_map.
          - now rewrite String.eqb_sym. }
        now rewrite H.
      * rewrite Hf. f_equal. rewrite map_map. apply map_ext. intros d.
        destruct (id d =? id t) eqn:E; [now rewrite String.eqb_refl|now rewrite E].
    + eexists. split; [reflexivity|].
      assert (Hf : find (fun d => id d =? id t) (l ++ [t]) = Some t).
      { rewrite (find_absent_app _ _ _ Hfind). now rewrite String.eqb_refl. }
      split; [exact Hf|]. split; [|split].
      * intros k Hk. apply find_app_other. apply String.eqb_neq. congruence.
      * rewrite map_app. cbn [map].
        assert (H : existsb (String.eqb (id t)) (map id l) = false).
        { apply not_true_is_false. intros H. apply existsb_exists in H.
          destruct H as (k & Hin & Heq). apply String.eqb_eq in Heq. subst k.
          exact (find_none_not_in _ _ Hfind Hin). }
        now rewrite H.
      * rewrite Hf. f_equal. rewrite map_app. cbn [map].
        rewrite String.eqb_refl. f_equal.
        transitivity (map (fun d : Execution => d) l); [|apply map_id].
        apply map_ext_in. intros d Hd.
        destruct (String.eqb_spec (id d) (id t)) as [E|E]; [|reflexivity].
        exfalso. apply (find_none_not_in _ _ Hfind). rewrite <- E.
        now apply in_map.
  - eexists. split; [reflexivity|]. cbn. rewrite String.eqb_refl.
    split; [reflexivity|]. split; [|split; reflexivity].
    intros k Hk. destruct (String.eqb_spec (id t) k); [congruence|reflexivity].
Qed.

End PlaygroundFacts.

Section ObserverFacts.
Context {platform : Platform} {collaborators : Collaborators}.

Lemma observed_executions_app a b :
  observed_executions (a ++ b)
  = (observed_executions a ++ observed_executions b)%list.
Proof. unfold observed_executions. apply flat_map_app. Qed.

Lemma tells_of_refl i s : tells_of i s s.
Proof. exists []. split; [now rewrite app_nil_r|constructor]. Qed.

Lemma tells_of_trans i s1 s2 s3 :
  tells_of i s1 s2 -> tells_of i s2 s3 -> tells_of i s1 s3.
Proof.
  intros (m1 & E1 & T1) (m2 & E2 & T2). exists (m1 ++ m2)%list. split.
  - now rewrite E2, E1, app_assoc.
  - rewrite observed_executions_app. apply Forall_app. now split.
Qed.

Lemma told_observed e more :
  Forall (told e) more ->
  Forall (fun u => match e with
                   | Some e => later_version e u
                   | None => False
                   end) (observed_executions more).
Proof.
  induction 1 as [|ev more Hev _ IH]; [constructor|].
  destruct ev as [| u |]; cbn [observed_executions flat_map app];
    try exact IH.
  constructor; [exact Hev|exact IH].
Qed.

(** A closure that continues tells of its Execution only, and keeps it. *)
Lemma continues_tells_of i s s' :
  continues s s' ->
  (exists e, execution s = Some e /\ id e = i) ->
  tells_of i s s' /\ exists e', execution s' = Some e' /\ id e' = i.
Proof.
  intros Hc (e & He & Hi).
  destruct (continues_some _ _ _ Hc He)
    as (_ & (e' & He' & Hid' & _) & more & Hev & Htold).
  apply told_observed in Htold. split.
  - exists more. split; [exact Hev|].
    revert Htold. apply Forall_impl. intros u (H & _). congruence.
  - exists e'. split; [exact He'|congruence].
Qed.

Lemma within_get : within continues get.
Proof. intros s. apply continues_refl. Qed.

(** The closure's [run], however it ends: [createExecution] makes the
    Execution of the run and tells nothing, and the rest continues. *)
Lemma run_continues def args fuel arg _executionId s :
  exists fid now s1,
    events s1 = events s
    /\ execution s1
       = Some {| id := execution_id_of _executionId s;
                 createdAt := now;
                 functionsExecuted :=
                   [{| functionExecutionId := fid;
                       inputs := arg;
                       trace := [];
                       sub_finalResponse := None;
                       functionDef := def |}];
                 finalResponse := None;
                 verified := None |}
    /\ continues s1 (snd (Engine.run def args fuel arg _executionId s)).
Proof.
  destruct (createExecution_spec def arg _executionId s)
    as (i & fid & now & w & Hce & Hid).
  assert (Hi : i = execution_id_of _executionId s).
  { unfold execution_id_of. destruct _executionId as [j|]; [|exact Hid].
    destruct (j =? ""); exact Hid. }
  clear Hid. subst i.
  exists fid, now. eexists. split; [|split]; [| |
    unfold Engine.run; unfold bind at 1; rewrite Hce;
    match goal with
    | |- continues _ (snd (?c ?st)) =>
        assert (Hw : within continues c)
          by (unfold Engine.getQueryDoc; repeat within_run_step);
        exact (Hw st)
    end]; reflexivity.
Qed.

(** X16.  Whatever the closure's [run] does and however it ends, every
    Execution it tells the observer is a version of the one Execution that
    [createExecution] made for the run: it has the id of the run, the same
    date, and one sub-record, always the same one, for the arguments and the
    Definition of the run. *)
Theorem run_tells_the_observer_of_one_execution
    def args fuel arg _executionId s :
  exists fid now more,
    events (snd (Engine.run def args fuel arg _executionId s))
    = (events s ++ more)%list
    /\ Forall (fun u =>
                 id u = execution_id_of _executionId s
                 /\ createdAt u = now
                 /\ exists fe,
                      functionsExecuted u = [fe]
                      /\ functionExecutionId fe = fid
                      /\ inputs fe = arg
                      /\ functionDef fe = def)
         (observed_executions more).
Proof.
  destruct (run_continues def args fuel arg _executionId s)
    as (fid & now & s1 & Hev1 & He1 & Hw).
  exists fid, now.
  destruct (continues_some _ _ _ Hw He1) as (_ & _ & more & Hev & Htold).
  exists more. split; [now rewrite <- Hev1|].
  apply told_observed in Htold. revert Htold. apply Forall_impl.
  intros u (H1 & H2 & _ & H4). cbn in H1, H2, H4.
  split; [exact H1|]. split; [exact H2|].
  destruct (Forall2_same_record_one _ _ H4) as (fe & Hfe & R1 & R2 & R3 & _).
  exists fe. auto.
Qed.


Lemma in_new_closure_state {A : Type} (c : Async A) st :
  let fresh := {| execution := None;
                  current_functionExecutionId := None;
                  world := world st;
                  events := events st |} in
  fst (Builder.in_new_closure c st) = fst (c fresh)
  /\ execution (snd (Builder.in_new_closure c st)) = execution st
  /\ current_functionExecutionId (snd (Builder.in_new_closure c st))
     = current_functionExecutionId st
  /\ events (snd (Builder.in_new_closure c st)) = events (snd (c fresh)).
Proof.
  cbv zeta. unfold Builder.in_new_closure.
  destruct (c _) as [r sn]. repeat split.
Qed.

(** The method [run], however it ends, tells the observer of Executions
    with the id of the run only, map steps included. *)
Lemma method_run_tells_of_one_id fuel :
  forall b runtimeArgs executionId s,
    execution_id_of executionId s <> "" ->
    tells_of (execution_id_of executionId s) s
      (snd (Builder.run fuel b runtimeArgs executionId s)).
Proof.
  induction fuel as [|fuel IH]; intros b runtimeArgs executionId s Hi;
    [apply tells_of_refl|].
  cbn [Builder.run]. cbv zeta.
  destruct (run_continues (Builder.internal_def b) (Builder.callbacks b) fuel
              runtimeArgs executionId s)
    as (fid & now & s1 & Hev1 & He1 & Hw).
  set (i := execution_id_of executionId s) in *.
  assert (Hrun : tells_of i s
                   (snd (Engine.run (Builder.internal_def b) (Builder.callbacks b)
                           fuel runtimeArgs executionId s))
                 /\ exists e',
                      execution
                        (snd (Engine.run (Builder.internal_def b)
                                (Builder.callbacks b) fuel runtimeArgs
                                executionId s)) = Some e'
                      /\ id e' = i).
  { destruct (continues_tells_of i _ _ Hw) as ((more & Hm & Ht) & Hid).
    - eexists. split; [exact He1|reflexivity].
    - split; [|exact Hid]. exists more. split; [now rewrite <- Hev1|exact Ht]. }
  clear Hw He1 Hev1 s1. destruct Hrun as (Hrun & Hid).
  unfold bind at 1.
  destruct (Engine.run (Builder.internal_def b) (Builder.callbacks b) fuel
              runtimeArgs executionId s) as [[first| |] s1];
    cbn [snd] in *; try exact Hrun.
  apply (tells_of_trans i s s1); [exact Hrun|]. clear Hrun.
  revert first s1 Hid.
  generalize (or_empty (def_mapFns (Builder.internal_def b))) as mapFns.
  induction mapFns as [|fn rest IHl]; intros p st Hid; [apply tells_of_refl|].
  assert (Hstep : forall (c : Async Execution)
                         (k : Execution -> Async Execution),
             (forall next st1,
                 (exists e', execution st1 = Some e' /\ id e' = i) ->
                 tells_of i st1 (snd (k next st1))) ->
             (tells_of i st (snd (c st))
              /\ exists e', execution (snd (c st)) = Some e' /\ id e' = i) ->
             tells_of i st (snd ((next <- c ;; k next) st))).
  { intros c k Hk (Hc & Hidc). unfold bind at 1.
    destruct (c st) as [[next| |] st1]; cbn [snd] in *; try exact Hc.
    apply (tells_of_trans i st st1); [exact Hc|]. now apply Hk. }
  apply Hstep; [intros next st1 Hid1; now apply IHl|]. clear Hstep IHl.
  destruct fn as [f|functionDef].
  - match goal with
    | |- context [snd (?c st)] =>
        assert (Hw : within continues c)
          by (repeat first [apply within_get | within_run_step]);
        exact (continues_tells_of i _ _ (Hw st) Hid)
    end.
  - unfold bind, get.
    pose proof (within_createTrace (Builder.callbacks b)
                  (ExecutingFunction functionDef (Builder.finalResponse_of p))
                  None st) as Hw.
    destruct (continues_tells_of i _ _ Hw Hid) as (Ht & Hid').
    destruct (Engine.createTrace (Builder.callbacks b)
                (ExecutingFunction functionDef (Builder.finalResponse_of p))
                None st) as [[x| |] st0]; cbn [snd] in *;
      try (split; [exact Ht|exact Hid']).
    destruct Hid' as (e0 & He0 & Hid0).
    match goal with
    | |- context [Builder.in_new_closure ?c st0] =>
        destruct (in_new_closure_state c st0) as (_ & Hex & _ & Hev);
        cbv zeta in Hev; rewrite Hex; split; [|now exists e0];
        apply (tells_of_trans i st st0); [exact Ht|]
    end.
    unfold tells_of. rewrite Hev. rewrite He0. cbn [option_map]. rewrite Hid0.
    match goal with
    | |- context [snd (Builder.run fuel ?b' ?a' ?x' ?fresh)] =>
        pose proof (IH b' a' x' fresh) as Hn
    end.
    cbn [execution_id_of] in Hn.
    apply String.eqb_neq in Hi. rewrite Hi in Hn.
    apply String.eqb_neq in Hi. exact (Hn Hi).
Qed.


(** X17.  One run makes one entry in the registry.  With the run's id not
    empty, whatever the method [run] does, map steps that are AI functions
    included, and however it ends, every Execution the observer is told has
    the id of the run; so when the observer is [logHandler], the ids in
    [executionLogs] after the run are the ids before it, followed by the id
    of the run when it was not among them and the observer was told at all. *)
Theorem method_run_makes_one_log_entry
    fuel b runtimeArgs executionId s logsProvider logs :
  let i := execution_id_of executionId s in
  let ids := map id (Registry.executionLogs logs) in
  i <> "" ->
  exists more,
    events (snd (Builder.run fuel b runtimeArgs executionId s))
    = (events s ++ more)%list
    /\ Forall (fun u => id u = i) (observed_executions more)
    /\ map id (Registry.executionLogs (logs_after logsProvider more logs))
       = (if existsb (String.eqb i) ids then ids
          else match observed_executions more with
               | [] => ids
               | _ :: _ => ids ++ [i]
               end)%list.
Proof.
  intros i ids Hi.
  destruct (method_run_tells_of_one_id fuel b runtimeArgs executionId s Hi)
    as (more & Hev & Hmore).
  exists more. split; [exact Hev|]. split; [exact Hmore|].
  unfold logs_after. apply ids_after_one_id. exact Hmore.
Qed.

End ObserverFacts.

Section GuardFacts.
Context {platform : Platform} {collaborators : Collaborators}.

Lemma continues_keeps_execution s s' :
  continues s s' -> execution s <> None -> execution s' <> None.
Proof.
  intros (_ & H & _) He. destruct (execution s) as [e|]; [|congruence].
  destruct H as (e' & -> & _). discriminate.
Qed.

Lemma guarded_ret {A : Type} (a : A) : guarded (ret a).
Proof. intros s _. discriminate. Qed.

Lemma guarded_out_of_fuel {A : Type} : guarded (out_of_fuel (A := A)).
Proof. intros s _. discriminate. Qed.

Lemma guarded_throw {A : Type} e :
  e <> "Execution not found" -> guarded (throw (A := A) e).
Proof. intros He s _. cbn. congruence. Qed.

Lemma guarded_get : guarded get.
Proof. intros s _. discriminate. Qed.

Lemma guarded_bind {A B : Type} (c : Async A) (k : A -> Async B) :
  within continues c -> guarded c -> (forall a, guarded (k a)) ->
  guarded (x <- c ;; k x).
Proof.
  intros Hw Hc Hk s He. specialize (Hw s). specialize (Hc s He). unfold bind.
  destruct (c s) as [[a| |] s1]; cbn [fst snd] in *.
  - apply Hk. exact (continues_keeps_execution _ _ Hw He).
  - intros H. apply Hc. congruence.
  - discriminate.
Qed.

Lemma guarded_external {A : Type} (f : World -> A * World) :
  guarded (external f).
Proof. intros s _. unfold external. destruct (f (world s)). discriminate. Qed.

Lemma guarded_createTrace args body resp :
  guarded (Engine.createTrace args body resp).
Proof.
  intros s He. destruct (createTrace_ok args body resp s He) as (s1 & -> & _).
  discriminate.
Qed.

Lemma guarded_updateTrace args id p : guarded (Engine.updateTrace args id p).
Proof.
  intros s He. destruct (updateTrace_ok args id p s He) as (s1 & -> & _).
  discriminate.
Qed.

Lemma guarded_call_model def messages fns mode :
  guarded (Engine.call_model def messages fns mode).
Proof.
  intros s He.
  destruct (call_model_ok def messages fns mode s He) as (s1 & -> & _).
  discriminate.
Qed.

Lemma guarded_resolveExecution args r trace' :
  guarded (Engine.resolveExecution args r trace').
Proof.
  intros s He. unfold Engine.resolveExecution, get. unfold bind at 1.
  destruct (execution s) as [e|]; [|congruence].
  unfold bind, modify, Engine.notify, when, emit, modify, ret.
  destruct (onExecutionUpdate args); discriminate.
Qed.

Lemma guarded_forM {A B : Type} (f : A -> Async B) l :
  (forall a, within continues (f a)) -> (forall a, guarded (f a)) ->
  guarded (forM f l).
Proof.
  intros Hw Hf. induction l as [|a l IH]; cbn [forM]; [apply guarded_ret|].
  apply guarded_bind; [apply Hw|apply Hf|]. intros b.
  apply guarded_bind; [now apply within_forM|exact IH|].
  intros bs. apply guarded_ret.
Qed.

Lemma interpolate_nodes_errors nodes values :
  forall res e,
    interpolate_nodes nodes values res = Thrown e ->
    e = "TypeError: Cannot use 'in' operator"
    \/ exists name, e = "Missing value for input " ++ name.
Proof.
  induction nodes as [|n nodes IH]; intros res e; cbn [interpolate_nodes];
    [discriminate|].
  destruct n as [text|name]; [apply IH|].
  destruct (has_prop name values) as [[|]|].
  - apply IH.
  - intros [= <-]. right. now exists name.
  - intros [= <-]. now left.
Qed.

Lemma guarded_interpolateFString template values :
  guarded (Engine.lift_outcome (interpolateFString template values)).
Proof.
  intros s _. unfold interpolateFString, parseFString.
  pose proof (parseFString_loop_outcome (List.length (chars template))
                (chars template) [] (le_n _)) as Hp.
  destruct (parseFString_loop _ _ _) as [nodes|e|]; cbn.
  2: destruct Hp as [-> | ->]; discriminate.
  2: discriminate.
  destruct (interpolate_nodes nodes values "") as [r|e|] eqn:E; cbn;
    try discriminate.
  destruct (interpolate_nodes_errors _ _ _ _ E) as [->|(name & ->)];
    discriminate.
Qed.


End GuardFacts.

Ltac not_the_recorder_error :=
  let H := fresh in intros H; discriminate H.

Ltac guarded_atom :=
  first
    [ apply guarded_createTrace
    | apply guarded_updateTrace
    | apply guarded_resolveExecution
    | apply guarded_call_model
    | apply guarded_external
    | apply guarded_get
    | apply guarded_interpolateFString
    | apply guarded_ret
    | apply guarded_out_of_fuel
    | apply guarded_throw; not_the_recorder_error ].

Ltac guarded_step IH :=
  first
    [ apply IH
    | guarded_atom
    | apply guarded_forM; [intros ?; repeat within_run_step|intros ?]
    | apply guarded_bind;
        [ repeat first [apply within_get | within_run_step] | | intros ? ]
    | match goal with
      | |- guarded (match ?x with _ => _ end) => destruct x
      end ].

Section GuardedRuns.
Context {platform : Platform} {collaborators : Collaborators}.

Lemma guarded_callZodOutput def args fuel :
  forall messages zodSchema retries,
    guarded (Engine.callZodOutput def args fuel messages zodSchema retries).
Proof.
  induction fuel as [|fuel IH]; intros messages zodSchema retries;
    cbn [Engine.callZodOutput]; [apply guarded_out_of_fuel|].
  cbv zeta. repeat guarded_step IH.
Qed.


Lemma closure_run_outcome def args fuel arg _executionId s :
  fst (Engine.run def args fuel arg _executionId s)
  <> Thrown "Execution not found"
  /\ forall first s1,
       Engine.run def args fuel arg _executionId s = (Returned first, s1) ->
       execution s1 <> None.
Proof.
  destruct (createExecution_spec def arg _executionId s)
    as (i & fid & now & w & Hce & _).
  unfold Engine.run. rewrite (bind_returned _ _ _ _ _ Hce).
  match goal with
  | |- context [fst (?c ?st)] =>
      assert (Hg : guarded c)
        by (unfold Engine.getQueryDoc;
            repeat guarded_step guarded_callZodOutput);
      assert (Hw : within continues c)
        by (unfold Engine.getQueryDoc; repeat within_run_step);
      specialize (Hg st); specialize (Hw st);
      destruct (c st) as [r s']
  end.
  cbn [fst snd] in *. split.
  - apply Hg. discriminate.
  - intros first s1 [= -> <-].
    apply (continues_keeps_execution _ _ Hw). discriminate.
Qed.

(** X18.  The error [Execution not found] of the trace recorder is never
    the error of a run: whatever the Definition, the arguments, the replies
    of the chat model and the map steps, the method [run] does not fail with
    it, since [createExecution] comes first and the Execution is never taken
    away. *)
Theorem method_run_never_misses_its_execution
    fuel b runtimeArgs executionId s :
  fst (Builder.run fuel b runtimeArgs executionId s)
  <> Thrown "Execution not found".
Proof.
  revert b runtimeArgs executionId s.
  induction fuel as [|fuel IH]; intros b runtimeArgs executionId s;
    [discriminate|].
  cbn [Builder.run]. cbv zeta.
  destruct (closure_run_outcome (Builder.internal_def b) (Builder.callbacks b)
              fuel runtimeArgs executionId s) as (Hrun & Hex).
  unfold bind at 1.
  destruct (Engine.run (Builder.internal_def b) (Builder.callbacks b) fuel
              runtimeArgs executionId s) as [[first| |] s1];
    cbn [fst] in *; try exact Hrun.
  specialize (Hex first s1 eq_refl). clear Hrun.
  revert first s1 Hex.
  generalize (or_empty (def_mapFns (Builder.internal_def b))) as mapFns.
  induction mapFns as [|fn rest IHl]; intros p st Hex; [discriminate|].
  assert (Hstep : forall (c : Async Execution)
                         (k : Execution -> Async Execution),
             (forall next st1, execution st1 <> None ->
                               fst (k next st1) <> Thrown "Execution not found") ->
             fst (c st) <> Thrown "Execution not found" ->
             (forall next st1, c st = (Returned next, st1) ->
                               execution st1 <> None) ->
             fst ((next <- c ;; k next) st) <> Thrown "Execution not found").
  { intros c k Hk Hc Hce. unfold bind.
    destruct (c st) as [[next| |] st1]; cbn [fst] in *;
      [|exact Hc|discriminate].
    apply Hk. now apply (Hce next st1). }
  apply Hstep; [intros next st1 H1; now apply IHl| |]; clear Hstep IHl;
    destruct fn as [f|functionDef].
  - match goal with
    | |- fst (?c st) <> _ =>
        assert (Hg : guarded c) by (repeat guarded_step guarded_callZodOutput);
        exact (Hg st Hex)
    end.
  - unfold bind, get.
    pose proof (guarded_createTrace (Builder.callbacks b)
                  (ExecutingFunction functionDef (Builder.finalResponse_of p))
                  None st Hex) as Hg.
    destruct (Engine.createTrace (Builder.callbacks b)
                (ExecutingFunction functionDef (Builder.finalResponse_of p))
                None st) as [[x| |] st0]; cbn [fst snd] in *;
      [|intros H; apply Hg; congruence|discriminate].
    match goal with
    | |- context [Builder.in_new_closure ?c st0] =>
        destruct (in_new_closure_state c st0) as (Hfst & _);
        cbv zeta in Hfst; rewrite Hfst
    end.
    apply IH.
  - intros next st1 Hc.
    match type of Hc with
    | ?c st = _ =>
        assert (Hw : within continues c)
          by (repeat first [apply within_get | within_run_step]);
        specialize (Hw st); rewrite Hc in Hw
    end.
    exact (continues_keeps_execution _ _ Hw Hex).
  - intros next st1 Hc.
    destruct (bind_returned_inv _ _ _ _ _ Hc) as (x & st0 & Hct & Hc').
    pose proof (within_createTrace (Builder.callbacks b)
                  (ExecutingFunction functionDef (Builder.finalResponse_of p))
                  None st) as Hw.
    rewrite Hct in Hw.
    pose proof (continues_keeps_execution _ _ Hw Hex) as Hex0.
    destruct (bind_returned_inv _ _ _ _ _ Hc') as (s0 & st0' & Hg & Hnest).
    injection Hg as <- <-.
    destruct (in_new_closure_returned _ _ _ _ Hnest) as (sn & _ & He1 & _).
    now rewrite He1.
Qed.

End GuardedRuns.

Section PromptFacts.
Context {platform : Platform} {collaborators : Collaborators}.

(** X19.  A template that cannot be filled stops the run before the chat
    model is asked anything: when the Definition has instructions and
    [interpolateFString] throws on them with the [instructions] of the
    arguments (a variable without a value, a template that does not parse),
    [run] fails with that error, after [createExecution] and the
    [executing-function] action, and without a call of the chat model. *)
Theorem run_fails_on_a_template_it_cannot_fill
    def args fuel arg _executionId s template instructions error :
  Engine.instructions_template def = Some template ->
  get_prop "instructions" arg = Some instructions ->
  interpolateFString template instructions = Thrown error ->
  exists s',
    Engine.run def args fuel arg _executionId s = (Thrown error, s')
    /\ model_calls s' = model_calls s
    /\ active s'.
Proof.
  intros Htemplate Harg Hthrow. unfold Engine.run.
  destruct (createExecution_active def arg _executionId s)
    as (executionId & s1 & Heq & Hact & Hm).
  rewrite (bind_returned _ _ _ _ _ Heq).
  assert (Hdefined : get_prop "instructions" arg <> None) by congruence.
  destruct (get_prop_defined _ "documents" _ Hdefined) as (docs & ->).
  destruct (get_prop_defined _ "query" _ Hdefined) as (queryArg & ->).
  rewrite Harg. cbv zeta.
  destruct (produces_createTrace args (ExecutingFunction def arg) None s1 Hact)
    as (x & s2 & Heq2 & _ & Hact2 & Hm2).
  rewrite (bind_returned _ _ _ _ _ Heq2).
  destruct (produces_getQueryDoc args def queryArg s2 Hact2)
    as (queryDoc & s3 & Heq3 & _ & Hact3 & Hm3).
  rewrite (bind_returned _ _ _ _ _ Heq3).
  rewrite Htemplate, Hthrow. exists s3. split; [reflexivity|].
  split; [congruence|exact Hact3].
Qed.

Lemma bind_assoc {S A B C : Type} (c : M S A) (f : A -> M S B)
    (k : B -> M S C) s :
  bind (bind c f) k s = bind c (fun x => bind (f x) k) s.
Proof. unfold bind. destruct (c s) as [[a| |] s1]; reflexivity. Qed.

Lemma bind_ret {S A B : Type} (a : A) (k : A -> M S B) s :
  bind (ret a) k s = k a s.
Proof. reflexivity. Qed.

Lemma appends_quiet {A : Type} (c : Async A) :
  emits (fun cs => cs = []) c -> appends c.
Proof. intros H. eapply emits_weaken; [exact H|auto]. Qed.

Lemma appends_bind {A B : Type} (c : Async A) (k : A -> Async B) :
  appends c -> (forall a, appends (k a)) -> appends (x <- c ;; k x).
Proof.
  intros Hc Hk s. destruct (Hc s) as (cs & H1 & _). unfold bind.
  destruct (c s) as [[a| |] s1]; cbn [snd] in *.
  - destruct (Hk a s1) as (cs' & H2 & _). exists (cs ++ cs')%list.
    split; [exact (new_calls_trans _ _ _ _ _ H1 H2)|exact I].
  - now exists cs.
  - now exists cs.
Qed.

Lemma appends_call_model def messages fns mode :
  appends (Engine.call_model def messages fns mode).
Proof.
  intros s. unfold Engine.call_model, emit, modify, external, bind.
  cbn [world events].
  destruct (ChatOpenAI_call (def_model def) messages fns mode (world s)).
  exists [(messages, fns, mode)]. split; [|exact I].
  now exists [ModelCall messages fns mode].
Qed.

Ltac appends_step IH :=
  first
    [ apply IH
    | apply appends_call_model
    | apply appends_quiet;
      first [ apply quiet_createTrace | apply quiet_updateTrace
            | apply quiet_external | apply quiet_resolveExecution ]
    | apply emits_ret; exact I
    | apply emits_throw; exact I
    | apply emits_out_of_fuel; exact I
    | apply appends_bind; [|intros ?]
    | match goal with
      | |- appends (match ?x with _ => _ end) => destruct x
      | |- appends (if ?x then _ else _) => destruct x
      end ].

Lemma appends_callZodOutput def args fuel messages zodSchema retries :
  appends (Engine.callZodOutput def args fuel messages zodSchema retries).
Proof.
  revert messages retries.
  induction fuel as [|fuel IH]; intros messages retries.
  - apply emits_out_of_fuel. exact I.
  - cbn [Engine.callZodOutput]. cbv zeta. repeat appends_step IH.
Qed.

(** A round of [callZodOutput] on an execution starts with a call of the
    chat model with the conversation it was given. *)
Lemma callZodOutput_first_call {B : Type} def args n messages zodSchema retries
    (k : JSValue * list BaseMessage -> Async B) s :
  execution s <> None ->
  (forall a, appends (k a)) ->
  exists cs,
    new_calls s
      (snd ((a <- Engine.callZodOutput def args (S n) messages zodSchema retries ;;
             k a) s))
      ((messages,
        map toOpenAiFunction
          (or_empty (def_functions def) ++ [Engine.printFn zodSchema])%list,
        if (List.length (or_empty (def_functions def)) =? 0)%nat
        then ForceName "print" else Auto) :: cs).
Proof.
  intros He Hk.
  pose proof (appends_callZodOutput def args n) as IH.
  cbn [Engine.callZodOutput]. cbv zeta.
  match goal with
  | |- context [Engine.createTrace ?a ?b ?r] =>
      destruct (createTrace_ok a b r s He) as (s1 & Heq & _);
      destruct (quiet_createTrace a b r s) as (cs0 & Hq & ->)
  end.
  rewrite Heq in Hq. cbn [snd] in Hq.
  rewrite bind_assoc, (bind_returned _ _ _ _ _ Heq), bind_assoc.
  match goal with
  | |- context [bind (Engine.call_model ?d ?m ?f ?md) ?k' ?st] =>
      assert (Hk' : forall w,
                 emits ((fun _ _ => True) w)
                   (k' (fst (ChatOpenAI_call (def_model d) m f md w))))
        by (intros w; cbv beta; change (emits (fun _ => True)) with (@appends _ B);
            repeat appends_step IH; apply Hk);
      destruct (emits_after_call (fun _ _ => True) d m f md k' Hk' st)
        as (cs & Hn & w & rest & -> & _)
  end.
  exists rest. exact (new_calls_trans _ _ _ _ _ Hq Hn).
Qed.

(** X20.  What the chat model is asked first.  For a Definition with
    instructions and with no document and no query, and arguments whose
    [instructions] fill the template, the first call of the chat model that
    [run] makes has the system prompt followed by one human message, the
    interpolated instructions (and no second message when that text is
    empty); it offers the functions of the Definition followed by [print]
    for the schema of the run. *)
Theorem run_asks_with_the_interpolated_instructions
    def args n arg _executionId s template instructions prompt :
  Engine.instructions_template def = Some template ->
  get_prop "instructions" arg = Some instructions ->
  interpolateFString template instructions = Returned prompt ->
  or_empty (def_documents def) = [] ->
  def_query def = None ->
  exists cs,
    new_calls s (snd (Engine.run def args (S n) arg _executionId s))
      ((Engine.systemPrompt
          :: (if prompt =? "" then [] else [HumanMessage (JSString prompt)]),
        map toOpenAiFunction
          (or_empty (def_functions def)
             ++ [Engine.printFn (Engine.output_schema def)])%list,
        if (List.length (or_empty (def_functions def)) =? 0)%nat
        then ForceName "print" else Auto) :: cs).
Proof.
  intros Htemplate Harg Hfill Hdocs Hquery. unfold Engine.run.
  destruct (createExecution_spec def arg _executionId s)
    as (i & fid & now & w & Hce & _).
  rewrite (bind_returned _ _ _ _ _ Hce).
  assert (Hdefined : get_prop "instructions" arg <> None) by congruence.
  destruct (get_prop_defined _ "documents" _ Hdefined) as (docs & ->).
  destruct (get_prop_defined _ "query" _ Hdefined) as (queryArg & ->).
  rewrite Harg. cbv zeta.
  match goal with
  | |- context [bind _ _ ?st] => set (s1 := st)
  end.
  assert (Hs1 : new_calls s s1 []) by (exists []; cbn; now rewrite app_nil_r).
  assert (He1 : execution s1 <> None) by discriminate.
  destruct (createTrace_ok args (ExecutingFunction def arg) None s1 He1)
    as (s2 & Heq2 & _ & Hev2).
  assert (He2 : execution s2 <> None).
  { exact (proj1 Hev2). }
  destruct (quiet_createTrace args (ExecutingFunction def arg) None s1)
    as (cs2 & Hq2 & ->).
  rewrite Heq2 in Hq2. cbn [snd] in Hq2.
  rewrite (bind_returned _ _ _ _ _ Heq2).
  unfold Engine.getQueryDoc. rewrite Hquery, Htemplate, Hfill, Hdocs.
  destruct (truthy queryArg); rewrite bind_ret;
    cbn [Engine.lift_outcome Engine.mapi_from forM];
    rewrite bind_assoc, !bind_ret.
  all: assert (Hmsgs :
      ((if (0 <? List.length (@nil string))%nat
        then [HumanMessage (JSString (join nl []))] else [])
         ++ (if truthy (JSString prompt)
             then [HumanMessage (JSString prompt)] else []))%list
      = (if prompt =? "" then [] else [HumanMessage (JSString prompt)]))
      by (cbn; now destruct (prompt =? "")).
  all: cbn [forM]; rewrite bind_ret.
  all: destruct (def_output def); cbn [app]; rewrite Hmsgs.
  all: match goal with
       | |- context [bind (Engine.callZodOutput ?d ?a _ ?m ?z ?r) ?k ?st] =>
           destruct (callZodOutput_first_call d a n m z r k st He2) as (cs & Hcs);
             [intros ?; apply appends_quiet, quiet_resolveExecution|]
       end.
  all: exists cs;
    exact (new_calls_trans _ _ _ _ _ Hs1 (new_calls_trans _ _ _ _ _ Hq2 Hcs)).
Qed.


End PromptFacts.

Section SubFunctionOutcomes.
Context {platform : Platform} {collaborators : Collaborators}.
Variable def : ProcedureBuilderDef.
Variable args : Callbacks.

Lemma callZodOutput_enter_world messages zodSchema s :
  execution s <> None ->
  exists s2,
    evolves 1 (recorded (fst (nanoid (world s))) messages []) s s2
    /\ world s2 = world_after_reply def zodSchema messages s
    /\ forall (k : string -> AIMessage -> Async (JSValue * list BaseMessage)),
        (id <- Engine.createTrace args
                 (CallingOpenAi (map fromLangChainMessage messages))
                 (Some Loading) ;;
         resp <- Engine.call_model def messages
                   (map toOpenAiFunction
                      (or_empty (def_functions def) ++ [Engine.printFn zodSchema])%list)
                   (if (List.length (or_empty (def_functions def)) =? 0)%nat
                    then ForceName "print" else Auto) ;;
         k id resp) s
        = k (fst (nanoid (world s))) (reply_of def zodSchema messages s) s2.
Proof.
  intros He.
  destruct (createTrace_ok args
              (CallingOpenAi (map fromLangChainMessage messages))
              (Some Loading) s He) as (s1 & Heq1 & Hw1 & Hev1).
  destruct (call_model_ok def messages
              (map toOpenAiFunction (functions_of def zodSchema))
              (if (List.length (or_empty (def_functions def)) =? 0)%nat
               then ForceName "print" else Auto) s1 (proj1 Hev1))
    as (s2 & Heq2 & Hw2 & Hev2).
  exists s2. split; [|split].
  - apply (evolves_ext _ _ _ _ _ (fun t => eq_refl)
             (evolves_trans _ _ _ _ _ _ _ Hev1 Hev2)).
  - rewrite Hw2, Hw1. reflexivity.
  - intros k. rewrite (bind_returned _ _ _ _ _ Heq1).
    rewrite (bind_returned _ _ _ _ _ Heq2). rewrite Hw1. reflexivity.
Qed.



End SubFunctionOutcomes.

Section EvaluationFacts.
Context {platform : Platform} {collaborators : Collaborators}.

Lemma find_app_first {A : Type} (p : A -> bool) l1 l2 :
  find p (l1 ++ l2)%list
  = match find p l1 with
    | Some x => Some x
    | None => find p l2
    end.
Proof.
  induction l1 as [|a l1 IH]; [reflexivity|]. cbn. now destruct (p a).
Qed.

(** X22.  A function that was created can be evaluated.  [create()] on a
    builder that has the observer [onCreate] tells it the finalized
    Definition once; with the Definition pushed on [functionsDefs], the
    lookup that [evaluateFn] and [evaluateDataset] start with does not end
    in [Function not found] for the id of the function: it finds the first
    Definition with that id, which is the Definition of the function itself
    when no Definition pushed earlier has the same id. *)
Theorem created_function_is_found_by_its_id initDef args s functionsDefs :
  onCreated args = true ->
  exists fn s' sha more,
    Builder.create (Builder.createFn initDef args) s = (Returned fn, s')
    /\ def_id (Builder.ai_internal_def fn) = Some sha
    /\ events s' = (events s ++ more)%list
    /\ functionsDefs_after more functionsDefs
       = (functionsDefs ++ [Builder.ai_internal_def fn])%list
    /\ (exists fnDef,
          find_fnDef sha (functionsDefs_after more functionsDefs) = Returned fnDef
          /\ def_id fnDef = Some sha)
    /\ (Forall (fun d => def_id d <> Some sha) functionsDefs ->
        find_fnDef sha (functionsDefs_after more functionsDefs)
        = Returned (Builder.ai_internal_def fn)).
Proof.
  intros Hon.
  set (b := Builder.createFn initDef args).
  pose proof (createFn_builder_def initDef args) as Hb. fold b in Hb.
  set (sha := Builder.Number_of_N
                (cyrb53 (Builder.hashed_text (Builder.internal_def b)))).
  set (d := set_entry key_of (Fid sha) (Builder.internal_def b)).
  assert (Hid : def_id d = Some sha).
  { unfold d. rewrite def_id_field_at.
    pose proof (find_set_entry_same key_of (Fid sha) (Builder.internal_def b)) as H.
    cbn [key_of] in H. unfold field_at. now rewrite H. }
  exists {| Builder.ai_internal_def := d; Builder.ai_callbacks := args |},
         {| execution := execution s;
            current_functionExecutionId := current_functionExecutionId s;
            world := world s;
            events := (events s ++ [Created d])%list |},
         sha, [Created d].
  cbn [Builder.ai_internal_def events].
  split.
  { unfold Builder.create. rewrite (def_literal_field _ _ Hb).
    unfold Engine.when_created, when, bind, emit, modify, ret.
    change (Builder.callbacks b) with args. rewrite Hon. reflexivity. }
  split; [exact Hid|]. split; [reflexivity|]. split; [reflexivity|].
  unfold functionsDefs_after, find_fnDef. cbn [flat_map app].
  rewrite find_app_first. cbn [find]. rewrite Hid, String.eqb_refl.
  split.
  - destruct (find _ functionsDefs) as [x|] eqn:Hf.
    + exists x. split; [reflexivity|].
      apply find_some in Hf. destruct Hf as (_ & Hx).
      destruct (def_id x) as [i|]; [|discriminate].
      apply String.eqb_eq in Hx. now subst.
    + exists d. split; [reflexivity|exact Hid].
  - intros Hfresh.
    destruct (find _ functionsDefs) as [x|] eqn:Hf; [|reflexivity].
    apply find_some in Hf. destruct Hf as (Hin & Hx).
    pose proof (proj1 (Forall_forall _ _) Hfresh x Hin) as Hne.
    cbv beta in Hne.
    destruct (def_id x) as [i|]; [|discriminate].
    apply String.eqb_eq in Hx. congruence.
Qed.

End EvaluationFacts.

(** ** The further properties on the sample platform *)

Lemma run_returns_the_execution_of_its_arguments_witness :
  let c := Sample.collaborators_with Sample.good_print in
  let arg := JSObject [("instructions", JSObject [])] in
  exists e s',
    Engine.run (collaborators := c) Sample.instructed_def Sample.observed 2
      arg (Some "run-1") Sample.initial = (Returned e, s')
    /\ resolved Sample.observed e s'
    /\ id e = "run-1"
    /\ exists fe first rest,
         functionsExecuted e = [fe]
         /\ inputs fe = arg
         /\ functionDef fe = Sample.instructed_def
         /\ sub_finalResponse fe = finalResponse e
         /\ trace fe = first :: rest
         /\ action first = ExecutingFunction Sample.instructed_def arg.
Proof.
  intros c arg.
  assert (Hret : exists e s',
             Engine.run (collaborators := c) Sample.instructed_def
               Sample.observed 2 arg (Some "run-1") Sample.initial
             = (Returned e, s'))
    by (eexists; eexists; vm_compute; reflexivity).
  destruct Hret as (e & s' & Hrun).
  exists e, s'. split; [exact Hrun|].
  exact (run_returns_the_execution_of_its_arguments (collaborators := c)
           _ _ _ _ _ _ _ _ Hrun).
Defined.

Lemma method_run_keeps_the_execution_id_witness :
  let c := Sample.collaborators_with Sample.good_print in
  exists e s',
    Builder.run (collaborators := c) 5 Sample.ai_mapped_builder (JSObject [])
      (Some "run-1") Sample.initial = (Returned e, s')
    /\ id e = "run-1".
Proof.
  intros c.
  assert (Hret : exists e s',
             Builder.run (collaborators := c) 5 Sample.ai_mapped_builder
               (JSObject []) (Some "run-1") Sample.initial
             = (Returned e, s'))
    by (eexists; eexists; vm_compute; reflexivity).
  destruct Hret as (e & s' & Hrun).
  exists e, s'. split; [exact Hrun|].
  apply (proj1 (method_run_keeps_the_execution_id (collaborators := c)
                  _ _ _ _ _ _ _ Hrun)).
  cbn. discriminate.
Defined.


Lemma unknown_function_call_throws_witness :
  let c := Sample.collaborators_with
             (fun _ => Sample.function_call_reply "search" JSNull) in
  let s := Sample.started Sample.lookup_def in
  execution s <> None
  /\ exists s',
       Engine.callZodOutput (collaborators := c) Sample.lookup_def Sample.observed
         1 [Engine.systemPrompt] Sample.string_schema 0 s
       = (Thrown
            ("Function search not found in ["
               ++ JSON_quote "lookup" ++ "," ++ JSON_quote "print" ++ "]"), s')
       /\ model_calls s' = 1 + model_calls s.
Proof.
  intros c s.
  assert (He : execution s <> None) by (vm_compute; discriminate).
  split; [exact He|].
  destruct (unknown_function_call_throws (platform := Sample.platform)
              (collaborators := c)
              Sample.lookup_def Sample.observed 0 [Engine.systemPrompt]
              Sample.string_schema 0 s
              {| call_name := "search"; call_arguments := JSNull |} He eq_refl)
    as (s' & Heq & Hev).
  exists s'. split; [exact Heq|]. exact (proj1 (proj2 Hev)).
Defined.

Lemma created_action_is_found_by_its_id_witness :
  let c := Sample.collaborators_with Sample.plain_text in
  let s := Sample.started Sample.plain_def in
  execution s <> None
  /\ current_traces s = [[]]
  /\ exists s',
       (id <- Engine.createTrace (collaborators := c) Sample.observed
                (Query JSNull) (Some Loading) ;;
        Engine.updateTrace Sample.observed id
          (response_update (Success (JSString "done")))) s
       = (Returned tt, s')
       /\ current_traces s'
          = [[{| action_id := "id2";
                 action := Query JSNull;
                 response := Some (Success (JSString "done")) |}]].
Proof.
  intros c s.
  assert (He : execution s <> None) by (vm_compute; discriminate).
  split; [exact He|]. split; [reflexivity|].
  apply (created_action_is_found_by_its_id (platform := Sample.platform)
           (collaborators := c) Sample.observed
           (Query JSNull) Loading (Success (JSString "done")) s He).
  repeat constructor.
Defined.

Lemma registry_executionLogs_stops_following_witness :
  let handle := fun x st => snd (Shared.logHandler true x st) in
  let once := handle Sample.stored_execution Shared.initial in
  let twice := handle Sample.incoming_execution once in
  let later :=
    handle {| id := "other"; createdAt := 3%Z; functionsExecuted := [];
              finalResponse := None; verified := None |} twice in
  Shared.well_formed Shared.initial
  /\ Shared.registry_executionLogs once = [Sample.stored_execution]
  /\ Shared.registry_executionLogs twice = [Sample.stored_execution]
  /\ Shared.registry_executionLogs later = [Sample.stored_execution]
  /\ map id (Registry.executionLogs (Shared.logs_of later)) = ["run"; "other"].
Proof.
  intros handle once twice later.
  assert (Hwf0 : Shared.well_formed Shared.initial) by (cbv; lia).
  assert (Hwf1 : Shared.well_formed once) by (cbv; lia).
  split; [exact Hwf0|].
  pose proof (proj1 (registry_executionLogs_stops_following true
                       Sample.stored_execution Shared.initial Hwf0) eq_refl)
    as H1.
  cbn [find Shared.registry_executionLogs Shared.array_at Shared.initial
       Shared.arrays nth] in H1.
  destruct H1 as (Hv1 & H1).
  pose proof (proj1 (registry_executionLogs_stops_following true
                       Sample.incoming_execution once Hwf1) Hv1) as H2.
  fold handle in H2. fold twice in H2.
  change (Shared.registry_executionLogs once) with [Sample.stored_execution]
    in H2.
  change (find (fun e => id e =? id Sample.incoming_execution)
            [Sample.stored_execution]) with (Some Sample.stored_execution) in H2.
  destruct H2 as (Hv2 & H2).
  split; [exact H1|]. split; [exact H2|]. split; [|reflexivity].
  assert (Hwf2 : Shared.well_formed twice) by (cbv; lia).
  destruct (proj1 (proj2 (registry_executionLogs_stops_following true
                            Sample.incoming_execution twice Hwf2)) Hv2
              [{| id := "other"; createdAt := 3%Z; functionsExecuted := [];
                  finalResponse := None; verified := None |}]) as (_ & H3).
  cbn [fold_left] in H3. exact (eq_trans H3 H2).
Defined.

Lemma method_run_makes_one_log_entry_witness :
  let c := Sample.collaborators_with Sample.good_print in
  let b := Builder.map (Builder.createFn None Sample.observed)
             (MapAiFunction Sample.instructed_def) in
  let s' := snd (Builder.run (collaborators := c) 5 b (JSObject [])
                   (Some "run-1") Sample.initial) in
  let empty := {| Registry.executionLogs := []; Registry.saved := [] |} in
  execution_id_of (collaborators := c) (Some "run-1") Sample.initial <> ""
  /\ List.length (observed_executions (events s')) = 7
  /\ Forall (fun u => id u = "run-1") (observed_executions (events s'))
  /\ map id (Registry.executionLogs (logs_after true (events s') empty))
     = ["run-1"].
Proof.
  intros c b s' empty.
  assert (Hi : execution_id_of (collaborators := c) (Some "run-1") Sample.initial
               <> "") by (cbn; discriminate).
  split; [exact Hi|].
  destruct (method_run_makes_one_log_entry (collaborators := c)
              5 b (JSObject []) (Some "run-1") Sample.initial true empty Hi)
    as (more & Hev & Hmore & Hids).
  change (events s' = more) in Hev. subst more.
  split; [vm_compute; reflexivity|]. split; [exact Hmore|].
  rewrite Hids. vm_compute. reflexivity.
Defined.

Lemma run_fails_on_a_template_it_cannot_fill_witness :
  let c := Sample.collaborators_with Sample.good_print in
  let def :=
    Builder.internal_def
      (Builder.instructions (Builder.createFn None Sample.no_callbacks)
         "Say {word}") in
  exists s',
    Engine.run (collaborators := c) def Sample.observed 2
      (JSObject [("instructions", JSObject [])]) None Sample.initial
    = (Thrown "Missing value for input word", s')
    /\ model_calls s' = 0.
Proof.
  intros c def.
  destruct (run_fails_on_a_template_it_cannot_fill (platform := Sample.platform)
              (collaborators := c) def Sample.observed 2
              (JSObject [("instructions", JSObject [])]) None Sample.initial
              "Say {word}" (JSObject []) "Missing value for input word"
              eq_refl eq_refl eq_refl) as (s' & Heq & Hm & _).
  exists s'. split; [exact Heq|exact Hm].
Defined.

Lemma run_asks_with_the_interpolated_instructions_witness :
  let c := Sample.collaborators_with Sample.good_print in
  let def :=
    Builder.internal_def
      (Builder.instructions (Builder.createFn None Sample.no_callbacks)
         "Say {word}") in
  exists cs,
    new_calls Sample.initial
      (snd (Engine.run (collaborators := c) def Sample.observed 1
              (JSObject [("instructions", JSObject [("word", JSString "hi")])])
              None Sample.initial))
      (([Engine.systemPrompt; HumanMessage (JSString "Say hi")],
        ["print"], ForceName "print") :: cs).
Proof.
  intros c def.
  exact (run_asks_with_the_interpolated_instructions
           (platform := Sample.platform) (collaborators := c)
           def Sample.observed 0
           (JSObject [("instructions", JSObject [("word", JSString "hi")])])
           None Sample.initial "Say {word}"
           (JSObject [("word", JSString "hi")]) "Say hi"
           eq_refl eq_refl eq_refl eq_refl eq_refl).
Defined.


Lemma created_function_is_found_by_its_id_witness :
  let c := Sample.collaborators_with Sample.good_print in
  exists fn s' sha,
    Builder.create (collaborators := c) Sample.registry_builder Sample.initial
    = (Returned fn, s')
    /\ def_id (Builder.ai_internal_def fn) = Some sha
    /\ find_fnDef sha (functionsDefs_after (events s') [])
       = Returned (Builder.ai_internal_def fn).
Proof.
  intros c.
  destruct (created_function_is_found_by_its_id (platform := Sample.platform)
              (collaborators := c) (Some [Fid "test"]) Sample.observed
              Sample.initial [] eq_refl)
    as (fn & s' & sha & more & Heq & Hid & Hev & _ & _ & Hfind).
  exists fn, s', sha. split; [exact Heq|]. split; [exact Hid|].
  cbn [Sample.initial events app] in Hev. rewrite Hev.
  apply Hfind. constructor.
Defined.

(** ** [runDataset]: the runs of a dataset in one closure *)

Section PromiseFacts.
Context {platform : Platform} {collaborators : Collaborators}.
Import Promises.

Lemma Promise_induction {A : Type} (P : Promise A -> Prop) :
  (forall o, P (Settled o)) ->
  (forall resume, (forall s, P (fst (resume s))) -> P (Pending resume)) ->
  forall t, P t.
Proof.
  intros HS HP. fix IH 1. intros [o|resume].
  - apply HS.
  - apply HP. intros s. apply IH.
Qed.

Lemma keeps_weaken {A : Type} (I : State -> Prop) (Q Q' : A -> Prop) t :
  (forall a, Q a -> Q' a) -> keeps I Q t -> keeps I Q' t.
Proof.
  intros HQ. induction t as [[a|e|]|resume IH] using Promise_induction;
    cbn [keeps]; auto.
  intros H s Hs. destruct (H s Hs) as (H1 & H2). split; [exact H1|].
  now apply IH.
Qed.

Lemma keeps_suspended {A : Type} (I : State -> Prop) (Q : A -> Prop) t :
  keeps I Q t -> keeps I Q (suspended t).
Proof.
  induction t as [o|resume IH] using Promise_induction; cbn [suspended keeps].
  - intros H s Hs. cbn [fst snd]. split; [exact Hs|]. exact H.
  - intros H s Hs. destruct (H s Hs) as (H1 & H2).
    specialize (IH s). destruct (resume s) as [t' s']. cbn [fst snd] in *.
    split; [exact H1|]. now apply IH.
Qed.

(** What follows a promise, for a call made in [I]. *)
Lemma keeps_continue {A B : Type} (I : State -> Prop) (Q' : A -> Prop)
    (Q : B -> Prop) t (k : A -> Proc B) :
  keeps I Q' t ->
  (forall a, Q' a -> proc_keeps I Q (k a)) ->
  forall s, I s ->
    I (snd (continue t k s)) /\ keeps I Q (fst (continue t k s)).
Proof.
  intros Ht Hk.
  induction t as [[a|e|]|resume IH] using Promise_induction; intros s Hs;
    cbn [continue]; cbn [keeps] in Ht.
  - exact (Hk a Ht s Hs).
  - split; [exact Hs|exact Logic.I].
  - split; [exact Hs|exact Logic.I].
  - cbn [fst snd]. split; [exact Hs|]. cbn [keeps]. intros s1 Hs1.
    destruct (Ht s1 Hs1) as (H1 & H2). specialize (IH s1).
    destruct (resume s1) as [t' s2]. cbn [fst snd] in *.
    exact (IH H2 s2 H1).
Qed.

(** What follows a promise that is not fulfilled yet, for a call made
    anywhere. *)
Lemma keeps_continue_later {A B : Type} (I : State -> Prop) (Q' : A -> Prop)
    (Q : B -> Prop) t (k : A -> Proc B) :
  (forall a, t <> Settled (Returned a)) ->
  keeps I Q' t ->
  (forall a, Q' a -> proc_keeps I Q (k a)) ->
  forall s, keeps I Q (fst (continue t k s)) /\ snd (continue t k s) = s.
Proof.
  intros Hn Ht Hk s. destruct t as [[a|e|]|resume]; cbn [continue fst snd].
  - now elim (Hn a).
  - split; [exact Logic.I|reflexivity].
  - split; [exact Logic.I|reflexivity].
  - split; [|reflexivity]. cbn [keeps]. intros s1 Hs1.
    cbn [keeps] in Ht. destruct (Ht s1 Hs1) as (H1 & H2).
    destruct (resume s1) as [t' s2]. cbn [fst snd] in *.
    exact (keeps_continue I Q' Q t' k H2 Hk s2 H1).
Qed.

Lemma suspended_not_fulfilled {A : Type} (t : Promise A) a :
  suspended t <> Settled (Returned a).
Proof. destruct t; discriminate. Qed.

(** *** Calls made in [I] *)

Lemma pk_sync {A : Type} (I : State -> Prop) (Q : A -> Prop) (c : Async A) :
  stays I Q c -> proc_keeps I Q (sync c).
Proof.
  intros H s Hs. unfold sync. destruct (H s Hs) as (H1 & H2).
  destruct (c s) as [[a|e|] s']; cbn [fst snd keeps] in *; auto.
Qed.

Lemma pk_bind {A B : Type} (I : State -> Prop) (Q' : A -> Prop) (Q : B -> Prop)
    (p : Proc A) (k : A -> Proc B) :
  proc_keeps I Q' p -> (forall a, Q' a -> proc_keeps I Q (k a)) ->
  proc_keeps I Q (pbind p k).
Proof.
  intros Hp Hk s Hs. unfold pbind. destruct (Hp s Hs) as (H1 & H2).
  destruct (p s) as [t s']. cbn [fst snd] in *.
  exact (keeps_continue I Q' Q t k H2 Hk s' H1).
Qed.

Lemma pk_await {A : Type} (I : State -> Prop) (Q : A -> Prop) (p : Proc A) :
  proc_keeps I Q p -> proc_keeps I Q (await p).
Proof.
  intros Hp s Hs. unfold await. destruct (Hp s Hs) as (H1 & H2).
  destruct (p s) as [t s']. cbn [fst snd] in *.
  split; [exact H1|now apply keeps_suspended].
Qed.

Lemma pk_later {A : Type} (I : State -> Prop) (Q : A -> Prop) (c : Async A) :
  stays I Q c -> proc_keeps I Q (later c).
Proof.
  intros H s Hs. unfold later. cbn [fst snd keeps]. split; [exact Hs|].
  exact (pk_sync I Q c H).
Qed.

Lemma pk_weaken {A : Type} (I : State -> Prop) (Q Q' : A -> Prop) (p : Proc A) :
  (forall a, Q a -> Q' a) -> proc_keeps I Q p -> proc_keeps I Q' p.
Proof.
  intros HQ Hp s Hs. destruct (Hp s Hs) as (H1 & H2).
  split; [exact H1|]. exact (keeps_weaken I Q Q' _ HQ H2).
Qed.

Lemma pk_each {A B : Type} (I : State -> Prop) (f : A -> Proc B) l :
  (forall a, proc_keeps I (fun _ => True) (f a)) ->
  proc_keeps I (fun _ => True) (each f l).
Proof.
  intros Hf. induction l as [|a l IH]; cbn [each].
  - apply pk_sync. intros s Hs. cbn. auto.
  - apply (pk_bind I (fun _ => True)); [apply pk_await, Hf|]. intros b _.
    apply (pk_bind I (fun _ => True)); [exact IH|]. intros bs _.
    apply pk_sync. intros s Hs. cbn. auto.
Qed.

(** *** The promise of a call made anywhere *)

Lemma pa_sync {A : Type} (I : State -> Prop) (Q : A -> Prop) (c : Async A) :
  (forall s a, fst (c s) = Returned a -> Q a) -> proc_after I Q (sync c).
Proof.
  intros H s. unfold sync. specialize (H s).
  destruct (c s) as [[a|e|] s']; cbn [fst snd keeps] in *; auto.
Qed.

Lemma pa_sync_bind {A B : Type} (I : State -> Prop) (Q : B -> Prop)
    (c : Async A) (k : A -> Proc B) :
  (forall a, proc_after I Q (k a)) -> proc_after I Q (pbind (sync c) k).
Proof.
  intros Hk s. unfold pbind, sync.
  destruct (c s) as [[a|e|] s']; cbn [continue fst keeps]; auto.
  apply Hk.
Qed.

Lemma pa_await_bind {A B : Type} (I : State -> Prop) (Q' : A -> Prop)
    (Q : B -> Prop) (p : Proc A) (k : A -> Proc B) :
  proc_after I Q' p -> (forall a, Q' a -> proc_keeps I Q (k a)) ->
  proc_after I Q (pbind (await p) k).
Proof.
  intros Hp Hk s. unfold pbind, await. specialize (Hp s).
  destruct (p s) as [t s']. cbn [fst] in Hp.
  apply (keeps_continue_later I Q' Q (suspended t) k).
  - apply suspended_not_fulfilled.
  - now apply keeps_suspended.
  - exact Hk.
Qed.

Lemma pa_later {A : Type} (I : State -> Prop) (Q : A -> Prop) (c : Async A) :
  stays I Q c -> proc_after I Q (later c).
Proof. intros H s. exact (pk_sync I Q c H). Qed.

Lemma pa_await {A : Type} (I : State -> Prop) (Q : A -> Prop) (p : Proc A) :
  proc_after I Q p -> proc_after I Q (await p).
Proof.
  intros Hp s. unfold await. specialize (Hp s).
  destruct (p s) as [t s']. now apply keeps_suspended.
Qed.

(** *** A nested closure *)

Lemma keeps_in_closure {A : Type} (I I' : State -> Prop) (Q : A -> Prop) :
  of_closure I -> of_closure I' ->
  forall t closure w ev,
    keeps I' Q t ->
    I' {| execution := fst closure;
          current_functionExecutionId := snd closure;
          world := w; events := ev |} ->
    keeps I Q (in_closure closure t).
Proof.
  intros HI HI'.
  induction t as [o|resume IH] using Promise_induction;
    intros closure w ev Ht Hl; cbn [in_closure keeps].
  - exact Ht.
  - intros s Hs. cbn [keeps] in Ht.
    match goal with
    | |- context [resume ?st] => set (local := st)
    end.
    assert (Hlocal : I' local).
    { revert Hl. apply HI'; reflexivity. }
    destruct (Ht local Hlocal) as (H1 & H2). specialize (IH local).
    destruct (resume local) as [t' s']. cbn [fst snd] in *. split.
    + revert Hs. apply HI; reflexivity.
    + apply (IH _ (world s') (events s') H2). revert H1.
      apply HI'; reflexivity.
Qed.

(** *** The closure that holds an Execution *)

Lemma holds_of_closure e0 fid : of_closure (holds e0 fid).
Proof.
  intros s s' He Hc (H1 & e & H2 & H3). split; [congruence|].
  exists e. split; [congruence|exact H3].
Qed.

Lemma holds_continues e0 fid s s' :
  continues s s' -> holds e0 fid s -> holds e0 fid s'.
Proof.
  intros Hc (H1 & e & He & Hl).
  destruct (continues_some _ _ _ Hc He) as (C1 & (e' & He' & Hl') & _).
  split; [congruence|]. exists e'. split; [exact He'|].
  eapply later_version_trans; eassumption.
Qed.

Lemma stays_true {A : Type} e0 fid (c : Async A) :
  within continues c -> stays (holds e0 fid) (fun _ => True) c.
Proof.
  intros Hc s Hs. split; [|auto]. exact (holds_continues _ _ _ _ (Hc s) Hs).
Qed.

Lemma stays_throw {A : Type} (I : State -> Prop) (Q : A -> Prop) e :
  stays I Q (throw e).
Proof. intros s Hs. split; [exact Hs|discriminate]. Qed.

Lemma stays_out_of_fuel {A : Type} (I : State -> Prop) (Q : A -> Prop) :
  stays I Q out_of_fuel.
Proof. intros s Hs. split; [exact Hs|discriminate]. Qed.

Lemma stays_ret {A : Type} (I : State -> Prop) (Q : A -> Prop) a :
  Q a -> stays I Q (ret a).
Proof. intros Ha s Hs. split; [exact Hs|]. now intros ? [= <-]. Qed.

Lemma stays_get e0 fid : stays (holds e0 fid) (holds e0 fid) get.
Proof. intros s Hs. split; [exact Hs|]. now intros ? [= <-]. Qed.

Lemma stays_resolveExecution e0 fid args r trace' :
  stays (holds e0 fid) (later_version e0) (Engine.resolveExecution args r trace').
Proof.
  intros s Hs.
  pose proof (holds_continues e0 fid _ _
                (within_resolveExecution args r trace' s) Hs) as Hs'.
  split; [exact Hs'|]. intros e He.
  destruct (Engine.resolveExecution args r trace' s) as [o s'] eqn:Heq.
  cbn [fst snd] in *. subst o.
  destruct (post_resolveExecution args r trace' _ _ _ Heq) as (Hex & _).
  destruct Hs' as (_ & e' & He' & Hl). congruence.
Qed.

End PromiseFacts.

Ltac within_all :=
  repeat first [apply within_emit_call | apply within_get | within_run_step].

Ltac pk_step :=
  first
    [ apply pk_await
    | apply pk_later; apply stays_true; within_all
    | apply pk_sync;
      first [ apply stays_resolveExecution | apply stays_throw
            | apply stays_out_of_fuel | apply stays_true; within_all ]
    | apply (pk_bind _ (fun _ => True)); [|intros ? _]
    | match goal with
      | |- proc_keeps _ _ (match ?x with _ => _ end) => destruct x
      end ].

Section RetrieverPromises.
Context {platform : Platform} {collaborators : Collaborators}.
Import Promises.

Lemma pk_call_model def e0 fid messages fns mode :
  proc_keeps (holds e0 fid) (fun _ => True)
    (Promises.call_model def messages fns mode).
Proof. unfold Promises.call_model. repeat pk_step. Qed.

Lemma pk_callZodOutput def args e0 fid fuel :
  forall messages zodSchema retries,
    proc_keeps (holds e0 fid) (fun _ => True)
      (Promises.callZodOutput def args fuel messages zodSchema retries).
Proof.
  induction fuel as [|fuel IH]; intros messages zodSchema retries;
    cbn [Promises.callZodOutput]; [repeat pk_step|].
  cbv zeta.
  repeat first [apply IH | apply pk_call_model | pk_step].
Qed.

End RetrieverPromises.

Ltac pa_step :=
  first
    [ apply pa_sync_bind; intros ?
    | apply (pa_await_bind _ (fun _ => True)); [|intros ? _]
    | apply pa_await
    | apply pa_later; apply stays_true; within_all
    | apply pa_sync; first [discriminate | intros; exact Logic.I]
    | match goal with
      | |- proc_after _ _ (match ?x with _ => _ end) => destruct x
      end ].

Section RunPromises.
Context {platform : Platform} {collaborators : Collaborators}.
Import Promises.

Lemma pk_getQueryDoc def args e0 fid queryArg :
  proc_keeps (holds e0 fid) (fun _ => True)
    (Promises.getQueryDoc def args queryArg).
Proof. unfold Promises.getQueryDoc. repeat pk_step. Qed.

Lemma pa_getQueryDoc def args e0 fid queryArg :
  proc_after (holds e0 fid) (fun _ => True)
    (Promises.getQueryDoc def args queryArg).
Proof.
  unfold Promises.getQueryDoc.
  repeat first [pa_step | repeat pk_step].
Qed.

Ltac pk_run_step :=
  first
    [ apply pk_callZodOutput
    | apply pk_getQueryDoc
    | apply pk_each; intros ?
    | pk_step ].

Lemma pa_run def args fuel arg _executionId e0 fid :
  proc_after (holds e0 fid) (later_version e0)
    (Promises.run def args fuel arg _executionId).
Proof.
  unfold Promises.run. apply pa_sync_bind; intros executionId.
  destruct (get_prop "instructions" arg) as [instructions|];
    [|apply pa_sync; discriminate].
  destruct (get_prop "documents" arg) as [docs|];
    [|apply pa_sync; discriminate].
  destruct (get_prop "query" arg) as [queryArg|];
    [|apply pa_sync; discriminate].
  apply pa_sync_bind; intros _.
  apply (pa_await_bind _ (fun _ => True)); [apply pa_getQueryDoc|].
  intros queryDoc _. cbv zeta. repeat pk_run_step.
Qed.

(** The first turn of [run]: the closure holds the new Execution from then
    on. *)
Lemma run_started def args fuel arg _executionId s :
  exists i fid now,
    let e1 := {| id := i;
                 createdAt := now;
                 functionsExecuted :=
                   [{| functionExecutionId := fid;
                       inputs := arg;
                       trace := [];
                       sub_finalResponse := None;
                       functionDef := def |}];
                 finalResponse := None;
                 verified := None |} in
    match _executionId with
    | Some j => if j =? "" then i = fst (nanoid (world s)) else i = j
    | None => i = fst (nanoid (world s))
    end
    /\ holds e1 (Some fid) (snd (Promises.run def args fuel arg _executionId s))
    /\ keeps (holds e1 (Some fid)) (later_version e1)
         (fst (Promises.run def args fuel arg _executionId s)).
Proof.
  destruct (createExecution_spec def arg _executionId s)
    as (i & fid & now & w & Hc & Hi).
  exists i, fid, now. cbv zeta. split; [exact Hi|].
  remember (Promises.run def args fuel arg _executionId s) as r eqn:Hr.
  unfold Promises.run, pbind at 1, sync at 1 in Hr. rewrite Hc in Hr.
  cbn [continue] in Hr. subst r.
  match goal with
  | |- holds ?e ?f (snd (?K ?st)) /\ _ =>
      cut (proc_keeps (holds e f) (later_version e) K);
        [intros Hpk; refine (Hpk st _)|]
  end.
  - split; [reflexivity|]. eexists. split; [reflexivity|].
    apply later_version_refl.
  - destruct (get_prop "instructions" arg) as [instructions|];
      [|repeat pk_run_step].
    destruct (get_prop "documents" arg) as [docs|]; [|repeat pk_run_step].
    destruct (get_prop "query" arg) as [queryArg|]; [|repeat pk_run_step].
    cbv zeta. repeat pk_run_step.
Qed.

End RunPromises.

Section MethodPromises.
Context {platform : Platform} {collaborators : Collaborators}.
Import Promises.

Lemma pk_in_new_closure {A : Type} (I : State -> Prop) (Q : A -> Prop)
    (p : Proc A) :
  of_closure I ->
  (forall s, exists I',
      of_closure I' /\ I' (snd (p s)) /\ keeps I' Q (fst (p s))) ->
  proc_keeps I Q (in_new_closure p).
Proof.
  intros HI Hp s Hs. unfold in_new_closure.
  match goal with
  | |- context [p ?st] => set (local := st)
  end.
  destruct (Hp local) as (I' & HI' & H1 & H2).
  destruct (p local) as [t s']. cbn [fst snd] in *. split.
  - revert Hs. apply HI; reflexivity.
  - apply (keeps_in_closure I I' Q HI HI' t _ (world s') (events s') H2).
    cbn [fst snd]. revert H1. apply HI'; reflexivity.
Qed.

Lemma of_run_later_version e0 flag r : later_version e0 r -> of_run e0 flag r.
Proof. intros H. split; intros _; [apply H|exact H]. Qed.

(** The method [run] in a closure: whichever Execution the closure holds
    when the promise is resumed, it holds a later version of it afterwards;
    and after the first turn it holds the Execution made for this run. *)
Lemma method_run_promise fuel :
  forall b runtimeArgs executionId,
    (forall e0 fid,
        proc_after (holds e0 fid)
          (of_run e0 (plain (or_empty (def_mapFns (Builder.internal_def b)))))
          (Promises.method_run fuel b runtimeArgs executionId))
    /\ (forall s,
          fuel <> O ->
          exists fid now,
            let e1 := {| id := execution_id_of executionId s;
                         createdAt := now;
                         functionsExecuted :=
                           [{| functionExecutionId := fid;
                               inputs := runtimeArgs;
                               trace := [];
                               sub_finalResponse := None;
                               functionDef := Builder.internal_def b |}];
                         finalResponse := None;
                         verified := None |} in
            holds e1 (Some fid)
              (snd (Promises.method_run fuel b runtimeArgs executionId s))
            /\ keeps (holds e1 (Some fid))
                 (of_run e1
                    (plain (or_empty (def_mapFns (Builder.internal_def b)))))
                 (fst (Promises.method_run fuel b runtimeArgs executionId s))).
Proof.
  induction fuel as [|fuel IH]; intros b runtimeArgs executionId.
  { split; [|intros s Hf; now elim Hf]. intros e0 fid.
    cbn [Promises.method_run]. apply pa_sync. discriminate. }
  cbn [Promises.method_run]. cbv zeta.
  match goal with
  | |- context [pbind (await _) ?K] => set (callback := K)
  end.
  assert (Hk : forall e0 fid first,
             later_version e0 first ->
             proc_keeps (holds e0 fid)
               (of_run e0
                  (plain (or_empty (def_mapFns (Builder.internal_def b)))))
               (callback first)).
  { intros e0 fid first Hfirst. subst callback. cbv beta.
    match goal with
    | |- proc_keeps ?I ?Q _ =>
        apply (pk_bind I Q);
          [|intros r Hr; apply pk_sync, stays_ret; exact Hr]
    end.
    apply pk_await.
    assert (H0 : proc_keeps (holds e0 fid) (of_run e0 true)
                   (sync (ret first))).
    { apply pk_sync, stays_ret. now apply of_run_later_version. }
    change (plain (or_empty (def_mapFns (Builder.internal_def b))))
      with (true && plain (or_empty (def_mapFns (Builder.internal_def b)))).
    revert H0. generalize true as flag. generalize (sync (ret first)) as _p.
    generalize (or_empty (def_mapFns (Builder.internal_def b))) as mapFns.
    induction mapFns as [|fn rest IHl]; intros _p flag H_p.
    - cbn [plain forallb]. rewrite andb_true_r. exact H_p.
    - cbn [plain forallb]. fold (plain rest). rewrite andb_assoc. apply IHl.
      apply (pk_bind _ (of_run e0 flag)); [apply pk_await, H_p|].
      intros p Hp. destruct fn as [f|functionDef].
      + apply (pk_bind _ (fun _ => True));
          [apply pk_sync, stays_true, within_get|]. intros s0 _.
        apply (pk_bind _ (fun _ => True));
          [apply pk_await, pk_later, stays_true; within_all|]. intros ap _.
        apply (pk_weaken _ (later_version e0));
          [intros r; apply of_run_later_version|].
        apply pk_sync, stays_resolveExecution.
      + rewrite andb_false_r.
        apply (pk_bind _ (fun _ => True));
          [apply pk_sync, stays_true; within_all|]. intros _ _.
        apply (pk_bind _ (holds e0 fid)); [apply pk_sync, stays_get|].
        intros s0 Hs0. apply pk_in_new_closure; [apply holds_of_closure|].
        intros s.
        destruct (IH (Builder.createFn (Some functionDef) (Builder.callbacks b))
                     (JSObject (own_props (Builder.finalResponse_of p)))
                     (option_map id (execution s0))) as (_ & Hn).
        destruct fuel as [|fuel'].
        { exists (fun _ => True). split; [now intros ? ? _ _ _|].
          split; [exact Logic.I|]. cbn. exact Logic.I. }
        destruct (Hn s) as (fid1 & now1 & H1 & H2); [discriminate|].
        cbv zeta in H1, H2. eexists. split; [apply holds_of_closure|].
        split; [exact H1|]. eapply keeps_weaken; [|exact H2].
        intros r (Hr & _). split; [|discriminate]. intros Hne.
        cbn [id] in Hr.
        destruct Hs0 as (_ & e & He & Hl). rewrite He in Hr.
        cbn [option_map execution_id_of] in Hr.
        assert (Hid : id e = id e0) by apply Hl. rewrite Hid in Hr.
        apply String.eqb_neq in Hne. rewrite Hne in Hr.
        apply Hr. now apply String.eqb_neq. }
  split.
  - intros e0 fid. apply (pa_await_bind _ (later_version e0));
      [apply pa_run|]. intros first Hf. now apply Hk.
  - intros s _.
    destruct (run_started (Builder.internal_def b) (Builder.callbacks b) fuel
                runtimeArgs executionId s)
      as (i & fid & now & Hi & Hh & Hkp).
    cbv zeta in Hh, Hkp.
    assert (Hie : i = execution_id_of executionId s).
    { unfold execution_id_of. destruct executionId as [j|]; [|exact Hi].
      destruct (j =? ""); exact Hi. }
    subst i. exists fid, now. cbv zeta. unfold pbind, await.
    destruct (Promises.run _ _ fuel runtimeArgs executionId s) as [t s1].
    cbn [fst snd] in *.
    eapply keeps_continue.
    + apply keeps_suspended. exact Hkp.
    + intros first Hf. now apply Hk.
    + exact Hh.
Qed.

End MethodPromises.

Section Scheduler.
Context {platform : Platform} {collaborators : Collaborators}.
Import Promises.

Lemma start_all_app {A : Type} (l1 l2 : list (Proc A)) s :
  start_all (l1 ++ l2) s
  = (fst (start_all l1 s) ++ fst (start_all l2 (snd (start_all l1 s))),
     snd (start_all l2 (snd (start_all l1 s))))%list.
Proof.
  revert s. induction l1 as [|p l1 IH]; intros s; cbn [start_all app fst snd].
  - now destruct (start_all l2 s).
  - destruct (p s) as [t s1]. rewrite IH.
    destruct (start_all l1 s1) as [ts s2]. cbn [fst snd].
    now destruct (start_all l2 s2).
Qed.

Lemma start_all_length {A : Type} (l : list (Proc A)) s :
  List.length (fst (start_all l s)) = List.length l.
Proof.
  revert s. induction l as [|p l IH]; intros s; cbn [start_all]; [reflexivity|].
  destruct (p s) as [t s1]. specialize (IH s1).
  destruct (start_all l s1) as [ts s2]. cbn [fst List.length] in *. now rewrite IH.
Qed.

Lemma start_all_after {A : Type} (I : State -> Prop) (Q : A -> Prop)
    (l : list (Proc A)) :
  Forall (proc_after I Q) l ->
  forall s, Forall (keeps I Q) (fst (start_all l s)).
Proof.
  induction 1 as [|p l Hp _ IH]; intros s; cbn [start_all]; [constructor|].
  specialize (Hp s). destruct (p s) as [t s1]. specialize (IH s1).
  destruct (start_all l s1) as [ts s2]. cbn [fst] in *. now constructor.
Qed.

Lemma Forall_replace_nth {A : Type} (P : A -> Prop) i x (l : list A) :
  P x -> Forall P l -> Forall P (replace_nth i x l).
Proof.
  intros Hx Hl. revert i. induction Hl as [|y l Hy Hl IH]; intros [|i];
    cbn [replace_nth]; constructor; auto.
Qed.

Lemma replace_nth_length {A : Type} i (x : A) l :
  List.length (replace_nth i x l) = List.length l.
Proof.
  revert i. induction l as [|y l IH]; intros [|i];
    cbn [replace_nth List.length]; auto.
Qed.

(** The turns of a schedule keep what every promise keeps. *)
Lemma scheduled_keeps {A : Type} (I : State -> Prop) (Q : A -> Prop) schedule :
  forall (ts : list (Promise A)) rejected s,
    I s -> Forall (keeps I Q) ts ->
    I (snd (scheduled schedule ts rejected s))
    /\ Forall (keeps I Q) (fst (fst (scheduled schedule ts rejected s)))
    /\ List.length (fst (fst (scheduled schedule ts rejected s)))
       = List.length ts.
Proof.
  induction schedule as [|i turns IH]; intros ts rejected s Hs Hts;
    cbn [scheduled]; [auto|].
  destruct (nth_error ts i) as [[o|resume]|] eqn:Hi; [now apply IH| |now apply IH].
  assert (Ht : keeps I Q (Pending resume)).
  { apply nth_error_In in Hi. rewrite Forall_forall in Hts. now apply Hts. }
  cbn [keeps] in Ht. destruct (Ht s Hs) as (H1 & H2).
  destruct (resume s) as [t' s']. cbn [fst snd] in *.
  match goal with
  | |- context [scheduled turns ?l ?r s'] =>
      destruct (IH l r s' H1) as (G1 & G2 & G3)
  end.
  - now apply Forall_replace_nth.
  - split; [exact G1|]. split; [exact G2|]. rewrite G3.
    apply replace_nth_length.
Qed.

Lemma fulfilled_keeps {A : Type} (I : State -> Prop) (Q : A -> Prop)
    (ts : list (Promise A)) values :
  fulfilled ts = Some values -> Forall (keeps I Q) ts ->
  Forall Q values /\ List.length values = List.length ts.
Proof.
  intros Hf Hts. revert values Hf.
  induction Hts as [|t ts Ht _ IH]; intros values Hf; cbn [fulfilled] in Hf.
  - injection Hf as <-. split; [constructor|reflexivity].
  - destruct t as [[a| |]|]; try discriminate.
    destruct (fulfilled ts) as [vs|]; [|discriminate].
    injection Hf as <-. destruct (IH vs eq_refl) as (H1 & H2).
    split; [constructor; [exact Ht|exact H1]|]. cbn [List.length]. now rewrite H2.
Qed.

(** What [Promise.all] returns, of calls whose promises keep [I] from the
    state that the calls leave. *)
Lemma Promise_all_keeps {A : Type} (I : State -> Prop) (Q : A -> Prop)
    (procs : list (Proc A)) schedule s values s' :
  Forall (proc_after I Q) procs ->
  I (snd (start_all procs s)) ->
  Promise_all procs schedule s = (Returned values, s') ->
  Forall Q values /\ List.length values = List.length procs.
Proof.
  intros Hp Hs. unfold Promise_all.
  pose proof (start_all_after I Q procs Hp s) as Hts.
  pose proof (start_all_length procs s) as Hlen.
  destruct (start_all procs s) as [ts s1]. cbn [fst snd] in *.
  destruct (scheduled_keeps I Q schedule ts (first_rejection ts) s1 Hs Hts)
    as (_ & G2 & G3).
  destruct (scheduled schedule ts (first_rejection ts) s1) as [[ts' rej] s2].
  cbn [fst snd] in *. destruct rej; [discriminate|].
  destruct (fulfilled ts') as [vs|] eqn:Hf; [|discriminate].
  intros [= <- <-]. destruct (fulfilled_keeps I Q ts' vs Hf G2) as (F1 & F2).
  split; [exact F1|]. congruence.
Qed.

Lemma Promise_all_length {A : Type} (procs : list (Proc A)) schedule s values s' :
  Promise_all procs schedule s = (Returned values, s') ->
  List.length values = List.length procs.
Proof.
  intros H.
  refine (proj2 (Promise_all_keeps (fun _ => True) (fun _ => True) procs
                   schedule s values s' _ Logic.I H)).
  apply Forall_forall. intros p _ s0.
  generalize (fst (p s0)). intros t.
  induction t as [[a| |]|resume IH] using Promise_induction; cbn [keeps]; auto.
Qed.

End Scheduler.

Section Fulfilment.
Context {platform : Platform} {collaborators : Collaborators}.
Import Promises.

Lemma fulfils_mono {A : Type} (I : State -> Prop) (Q : A -> Prop) (t : Promise A) :
  forall n m, (n <= m)%nat -> fulfils n I Q t -> fulfils m I Q t.
Proof.
  induction t as [[a| |]|resume IH] using Promise_induction; intros n m Hnm;
    cbn [fulfils]; auto.
  destruct n as [|n]; [intros []|]. destruct m as [|m]; [inversion Hnm|].
  intros H s Hs. destruct (H s Hs) as (H1 & H2). split; [exact H1|].
  apply (IH s n m); [lia|exact H2].
Qed.

Lemma fulfils_weaken {A : Type} (I : State -> Prop) (Q Q' : A -> Prop)
    (t : Promise A) :
  (forall a, Q a -> Q' a) -> forall n, fulfils n I Q t -> fulfils n I Q' t.
Proof.
  intros HQ.
  induction t as [[a| |]|resume IH] using Promise_induction; intros n;
    cbn [fulfils]; auto.
  destruct n as [|n]; [intros []|].
  intros H s Hs. destruct (H s Hs) as (H1 & H2). split; [exact H1|].
  now apply IH.
Qed.

Lemma fulfils_suspended {A : Type} (I : State -> Prop) (Q : A -> Prop)
    (t : Promise A) :
  forall n, fulfils n I Q t -> fulfils (S n) I Q (suspended t).
Proof.
  induction t as [[a| |]|resume IH] using Promise_induction; intros n;
    cbn [fulfils suspended].
  - intros Ha s Hs. cbn [fst snd fulfils]. auto.
  - intros [].
  - intros [].
  - destruct n as [|n]; [intros []|]. intros H s Hs.
    destruct (H s Hs) as (H1 & H2). specialize (IH s n).
    destruct (resume s) as [t' s']. cbn [fst snd] in *. auto.
Qed.

Lemma fulfils_continue {A B : Type} (I : State -> Prop) (Q' : A -> Prop)
    (Q : B -> Prop) (t : Promise A) (k : A -> Proc B) m :
  (forall a, Q' a -> proc_fulfils m I Q (k a)) ->
  forall n s, fulfils n I Q' t -> I s ->
    I (snd (continue t k s)) /\ fulfils (n + m) I Q (fst (continue t k s)).
Proof.
  intros Hk.
  induction t as [[a| |]|resume IH] using Promise_induction; intros n s Ht Hs;
    cbn [continue]; cbn [fulfils] in Ht; try (now elim Ht).
  - destruct (Hk a Ht s Hs) as (H1 & H2). split; [exact H1|].
    apply (fulfils_mono I Q _ m); [lia|exact H2].
  - destruct n as [|n]; [now elim Ht|]. cbn [fst snd]. split; [exact Hs|].
    cbn [Nat.add fulfils]. intros s1 Hs1. destruct (Ht s1 Hs1) as (H1 & H2).
    specialize (IH s1 n). destruct (resume s1) as [t' s2].
    cbn [fst snd] in *. now apply IH.
Qed.

Lemma pf_mono {A : Type} (I : State -> Prop) (Q : A -> Prop) (p : Proc A) n m :
  (n <= m)%nat -> proc_fulfils n I Q p -> proc_fulfils m I Q p.
Proof.
  intros Hnm H s Hs. destruct (H s Hs) as (H1 & H2). split; [exact H1|].
  now apply (fulfils_mono I Q _ n).
Qed.

Lemma pf_sync {A : Type} (I : State -> Prop) (Q : A -> Prop) (c : Async A) :
  returns I Q c -> proc_fulfils 0 I Q (sync c).
Proof.
  intros H s Hs. destruct (H s Hs) as (H1 & a & Ha & Hq). unfold sync.
  destruct (c s) as [o s']. cbn [fst snd] in *. subst o. now split.
Qed.

Lemma pf_bind {A B : Type} (I : State -> Prop) (Q' : A -> Prop)
    (Q : B -> Prop) (p : Proc A) (k : A -> Proc B) n m :
  proc_fulfils n I Q' p -> (forall a, Q' a -> proc_fulfils m I Q (k a)) ->
  proc_fulfils (n + m) I Q (pbind p k).
Proof.
  intros Hp Hk s Hs. unfold pbind. destruct (Hp s Hs) as (H1 & H2).
  destruct (p s) as [t s']. cbn [fst snd] in *.
  now apply (fulfils_continue I Q').
Qed.

Lemma pf_sync_bind {A B : Type} (I : State -> Prop) (Q' : A -> Prop)
    (Q : B -> Prop) (c : Async A) (k : A -> Proc B) m :
  returns I Q' c -> (forall a, Q' a -> proc_fulfils m I Q (k a)) ->
  proc_fulfils m I Q (pbind (sync c) k).
Proof.
  intros H Hk. apply (pf_bind I Q' Q (sync c) k 0 m); [|exact Hk].
  now apply pf_sync.
Qed.

Lemma pf_await {A : Type} (I : State -> Prop) (Q : A -> Prop) (p : Proc A) n :
  proc_fulfils n I Q p -> proc_fulfils (S n) I Q (await p).
Proof.
  intros Hp s Hs. unfold await. destruct (Hp s Hs) as (H1 & H2).
  destruct (p s) as [t s']. cbn [fst snd] in *.
  split; [exact H1|now apply fulfils_suspended].
Qed.

Lemma pf_later {A : Type} (I : State -> Prop) (Q : A -> Prop) (c : Async A) :
  returns I Q c -> proc_fulfils 1 I Q (later c).
Proof.
  intros H s Hs. unfold later. cbn [fst snd fulfils]. split; [exact Hs|].
  exact (pf_sync I Q c H).
Qed.

Lemma pf_each {A B : Type} (I : State -> Prop) (f : A -> Proc B) n l :
  (forall a, proc_fulfils n I (fun _ => True) (f a)) ->
  proc_fulfils (List.length l * S n) I (fun _ => True) (each f l).
Proof.
  intros Hf. induction l as [|a l IH]; cbn [each List.length Nat.mul].
  - apply pf_sync. intros s Hs. cbn. eauto.
  - apply (pf_bind I (fun _ => True) _ _ _ (S n)); [apply pf_await, Hf|].
    intros b _.
    replace (List.length l * S n)%nat with (List.length l * S n + 0)%nat by lia.
    apply (pf_bind I (fun _ => True)); [exact IH|]. intros bs _.
    apply pf_sync. intros s Hs. cbn. eauto.
Qed.

(** *** Code that returns in a closure that holds an Execution *)

Lemma returns_ret {A : Type} (I : State -> Prop) (Q : A -> Prop) a :
  Q a -> returns I Q (ret a).
Proof. intros Ha s Hs. cbn. eauto. Qed.

Lemma returns_bind {A B : Type} (I : State -> Prop) (Q' : A -> Prop)
    (Q : B -> Prop) (c : Async A) (k : A -> Async B) :
  returns I Q' c -> (forall a, Q' a -> returns I Q (k a)) ->
  returns I Q (bind c k).
Proof.
  intros Hc Hk s Hs. destruct (Hc s Hs) as (H1 & a & Ha & Hq). unfold bind.
  destruct (c s) as [o s']. cbn [fst snd] in *. subst o. now apply Hk.
Qed.

Lemma returns_weaken {A : Type} (I : State -> Prop) (Q Q' : A -> Prop)
    (c : Async A) :
  (forall a, Q a -> Q' a) -> returns I Q c -> returns I Q' c.
Proof.
  intros HQ H s Hs. destruct (H s Hs) as (H1 & a & Ha & Hq). eauto.
Qed.

Lemma returns_get : returns busy (fun _ => True) get.
Proof. intros s Hs. cbn. eauto. Qed.

Lemma returns_external {A : Type} (f : World -> A * World) :
  returns busy (fun _ => True) (external f).
Proof.
  intros s Hs. unfold external. destruct (f (world s)) as [a w].
  cbn [fst snd]. split; [exact Hs|eauto].
Qed.

Lemma returns_notify args e : returns busy (fun _ => True) (Engine.notify args e).
Proof.
  intros s Hs. unfold Engine.notify, when.
  destruct (onExecutionUpdate args); cbn; split; eauto.
Qed.

Lemma busy_continues s s' : continues s s' -> busy s -> busy s'.
Proof.
  unfold busy. intros (_ & H & _) Hs. destruct (execution s) as [e|];
    [|now elim Hs]. destruct H as (e' & -> & _). discriminate.
Qed.

Lemma returns_createTrace args body resp :
  returns busy (fun _ => True) (Engine.createTrace args body resp).
Proof.
  intros s Hs.
  split; [exact (busy_continues _ _ (within_createTrace args body resp s) Hs)|].
  unfold Engine.createTrace, bind, external, get.
  destruct (nanoid (world s)) as [i w]. cbn [execution].
  unfold busy in Hs. destruct (execution s) as [e|]; [|now elim Hs].
  unfold modify, Engine.notify, when, emit, modify, ret.
  destruct (onExecutionUpdate args); cbn; eauto.
Qed.

Lemma returns_updateTrace args i action :
  returns busy (fun _ => True) (Engine.updateTrace args i action).
Proof.
  intros s Hs. unfold busy in *.
  unfold Engine.updateTrace, bind, get.
  destruct (execution s) as [e|]; [|now elim Hs].
  unfold modify, Engine.notify, when, emit, modify, ret.
  destruct (onExecutionUpdate args); cbn; (split; [discriminate|eauto]).
Qed.

Lemma returns_resolveExecution args r trace' :
  returns busy (fun _ => True) (Engine.resolveExecution args r trace').
Proof.
  intros s Hs.
  split; [exact (busy_continues _ _ (within_resolveExecution args r trace' s) Hs)|].
  unfold Engine.resolveExecution, bind, get.
  unfold busy in Hs. destruct (execution s) as [e|]; [|now elim Hs].
  unfold modify, Engine.notify, when, emit, modify, ret.
  destruct (onExecutionUpdate args); cbn; eauto.
Qed.

Lemma returns_forM {A B : Type} (I : State -> Prop) (f : A -> Async B) l :
  (forall a, returns I (fun _ => True) (f a)) ->
  returns I (fun bs => List.length bs = List.length l) (forM f l).
Proof.
  intros Hf. induction l as [|a l IH]; cbn [forM].
  - now apply returns_ret.
  - apply (returns_bind I (fun _ => True)); [apply Hf|]. intros b _.
    apply (returns_bind I (fun bs => List.length bs = List.length l));
      [exact IH|].
    intros bs Hbs. apply returns_ret. cbn [List.length]. now rewrite Hbs.
Qed.

Lemma mapi_from_length {A B : Type} (f : A -> nat -> B) l :
  forall i, List.length (Engine.mapi_from i f l) = List.length l.
Proof.
  induction l as [|a l IH]; intros i; cbn [Engine.mapi_from List.length];
    [reflexivity|]. now rewrite IH.
Qed.

Lemma returns_external_in {A : Type} (Q : A -> Prop) (f : World -> A * World) :
  (forall w, Q (fst (f w))) -> returns busy Q (external f).
Proof.
  intros Hf s Hs. unfold external. specialize (Hf (world s)).
  destruct (f (world s)) as [a w]. cbn [fst snd] in *. split; [exact Hs|eauto].
Qed.

Lemma get_prop_some key v :
  v <> JSUndefined -> v <> JSNull -> exists x, get_prop key v = Some x.
Proof.
  intros H1 H2. destruct v; cbn [get_prop]; try (now elim H1);
    try (now elim H2); try destruct (key =? "length"); eauto.
Qed.

(** *** Runs without a call of the chat model *)

Lemma pf_getQueryDoc def args queryArg :
  proc_fulfils 2 busy (fun _ => True) (Promises.getQueryDoc def args queryArg).
Proof.
  unfold Promises.getQueryDoc.
  destruct (truthy queryArg);
    [|apply (pf_mono _ _ _ 0); [lia|]; apply pf_sync; now apply returns_ret].
  destruct (def_query def) as [[q fn]|];
    [|apply (pf_mono _ _ _ 0); [lia|]; apply pf_sync; now apply returns_ret].
  apply (pf_sync_bind _ (fun _ => True)); [apply returns_createTrace|].
  intros i _. change 2%nat with (2 + 0)%nat.
  apply (pf_bind _ (fun _ => True));
    [apply pf_await, (pf_later _ (fun _ => True)), returns_external|].
  intros query _. cbv zeta.
  apply (pf_sync_bind _ (fun _ => True)); [apply returns_updateTrace|].
  intros _ _. apply pf_sync. now apply returns_ret.
Qed.

Section Quiet.
Variable def : ProcedureBuilderDef.
Variable args : Callbacks.
Hypothesis no_output : def_output def = None.
Hypothesis no_instructions : Engine.instructions_template def = None.
Hypothesis documents_answer :
  forall d i prompt w,
    get_prop "result" (fst (splitDocument d i prompt w)) <> None.

Lemma run_fulfils fuel arg _executionId s :
  arg <> JSUndefined -> arg <> JSNull ->
  busy (snd (Promises.run def args fuel arg _executionId s))
  /\ fulfils (4 + 3 * List.length (or_empty (def_documents def))) busy
       (fun _ => True)
       (fst (Promises.run def args fuel arg _executionId s)).
Proof.
  intros Hu Hn.
  destruct (createExecution_spec def arg _executionId s)
    as (i & fid & now & w & Hc & Hi).
  remember (Promises.run def args fuel arg _executionId s) as r eqn:Hr.
  unfold Promises.run, pbind at 1, sync at 1 in Hr. rewrite Hc in Hr.
  cbn [continue] in Hr. subst r.
  destruct (get_prop_some "instructions" arg Hu Hn) as (instructions & ->).
  destruct (get_prop_some "documents" arg Hu Hn) as (docs & ->).
  destruct (get_prop_some "query" arg Hu Hn) as (queryArg & ->).
  match goal with
  | |- busy (snd (?K ?st)) /\ fulfils ?n _ _ _ =>
      cut (proc_fulfils n busy (fun _ => True) K);
        [intros Hpf; refine (Hpf st _); discriminate|]
  end.
  apply (pf_sync_bind _ (fun _ => True)); [apply returns_createTrace|].
  intros _ _.
  change (4 + 3 * List.length (or_empty (def_documents def)))%nat
    with (3 + (1 + 3 * List.length (or_empty (def_documents def))))%nat.
  apply (pf_bind _ (fun _ => True)); [apply pf_await, pf_getQueryDoc|].
  intros queryDoc _. cbv zeta. rewrite no_instructions, no_output.
  apply (pf_sync_bind _ (fun _ => True)); [now apply returns_ret|].
  intros userPrompt _.
  eapply pf_sync_bind.
  { apply returns_forM. intros d.
    apply (returns_bind _ (fun _ => True)); [apply returns_createTrace|].
    intros ? _. now apply returns_ret. }
  cbv beta. intros started Hlen. rewrite mapi_from_length in Hlen.
  replace (1 + 3 * List.length (or_empty (def_documents def)))%nat
    with (S (List.length started * 3) + 0)%nat by lia.
  apply (pf_bind _ (fun _ => True)).
  - apply pf_await, (pf_each _ _ 2). intros task.
    change 2%nat with (2 + 0)%nat.
    apply (pf_bind _ (fun dc => get_prop "result" dc <> None)).
    + apply pf_await, (pf_later _ (fun dc => get_prop "result" dc <> None)).
      apply returns_external_in. intros w0. apply documents_answer.
    + intros dc Hdc.
      apply (pf_sync_bind _ (fun _ => True)); [apply returns_updateTrace|].
      intros _ _. destruct (get_prop "result" dc) as [result|];
        [|now elim Hdc].
      apply pf_sync. now apply returns_ret.
  - intros documentsTemplate _. apply pf_sync.
    apply returns_resolveExecution.
Qed.

End Quiet.

(** The method [run] of a builder without output, instructions and AI
    steps: fulfilled in a number of turns that its documents and steps
    give. *)
Lemma method_run_fulfils fuel b arg _executionId s :
  def_output (Builder.internal_def b) = None ->
  Engine.instructions_template (Builder.internal_def b) = None ->
  (forall d i prompt w,
      get_prop "result" (fst (splitDocument d i prompt w)) <> None) ->
  plain (or_empty (def_mapFns (Builder.internal_def b))) = true ->
  arg <> JSUndefined -> arg <> JSNull ->
  busy (snd (Promises.method_run (S fuel) b arg _executionId s))
  /\ fulfils
       (6 + 3 * (List.length (or_empty (def_documents (Builder.internal_def b)))
                 + List.length (or_empty (def_mapFns (Builder.internal_def b)))))
       busy (fun _ => True)
       (fst (Promises.method_run (S fuel) b arg _executionId s)).
Proof.
  intros Hout Hins Hdocs Hplain Hu Hn.
  remember (Promises.method_run (S fuel) b arg _executionId s) as r eqn:Hr.
  cbn [Promises.method_run] in Hr. cbv zeta in Hr.
  unfold pbind at 1, await at 1 in Hr.
  destruct (run_fulfils (Builder.internal_def b) (Builder.callbacks b)
              Hout Hins Hdocs fuel arg _executionId s Hu Hn) as (H1 & H2).
  destruct (Promises.run _ _ fuel arg _executionId s) as [t s1].
  cbn [fst snd] in *. subst r.
  match goal with
  | |- _ /\ fulfils ?n _ _ _ =>
      replace n
        with (S (4 + 3 * List.length
                          (or_empty (def_documents (Builder.internal_def b))))
              + (S (0 + 3 * List.length
                            (or_empty (def_mapFns (Builder.internal_def b))))
                 + 0))%nat
        by lia
  end.
  apply (fulfils_continue busy (fun _ => True)); [|now apply fulfils_suspended|exact H1].
  intros first _.
  apply (pf_bind _ (fun _ => True));
    [|intros r _; apply pf_sync; now apply returns_ret].
  apply pf_await.
  match goal with
  | |- proc_fulfils _ _ _ (?R _ (sync (ret first))) => set (reduce := R)
  end.
  assert (Hred : forall mapFns (_p : Proc Execution) n,
             proc_fulfils n busy (fun _ => True) _p ->
             plain mapFns = true ->
             proc_fulfils (n + 3 * List.length mapFns) busy (fun _ => True)
               (reduce mapFns _p)).
  { subst reduce. induction mapFns as [|fn rest IHl]; intros _p n H_p Hpl.
    - cbn [List.length]. now rewrite Nat.mul_0_r, Nat.add_0_r.
    - cbn [plain forallb] in Hpl. apply andb_true_iff in Hpl.
      destruct Hpl as (Hfn & Hrest). destruct fn as [f|functionDef];
        [|discriminate].
      replace (n + 3 * List.length (MapTransform f :: rest))%nat
        with ((S n + (2 + 0)) + 3 * List.length rest)%nat
        by (cbn [List.length]; lia).
      apply IHl; [|exact Hrest].
      apply (pf_bind _ (fun _ => True)); [apply pf_await, H_p|]. intros p _.
      apply (pf_sync_bind _ (fun _ => True)); [apply returns_get|].
      intros s0 _.
      apply (pf_bind _ (fun _ => True));
        [apply pf_await, (pf_later _ (fun _ => True)), returns_external|].
      intros appliedMap _. apply pf_sync. apply returns_resolveExecution. }
  apply Hred; [|exact Hplain]. apply pf_sync. now apply returns_ret.
Qed.

(** *** The turns that a schedule gives *)

Lemma nth_error_replace_nth_eq {A : Type} i (x y : A) l :
  nth_error l i = Some y -> nth_error (replace_nth i x l) i = Some x.
Proof.
  revert l. induction i as [|i IH]; intros [|z l]; cbn; try discriminate; auto.
Qed.

Lemma nth_error_replace_nth_neq {A : Type} i j (x : A) l :
  j <> i -> nth_error (replace_nth i x l) j = nth_error l j.
Proof.
  revert j l. induction i as [|i IH]; intros [|j] [|z l] Hne; cbn; auto;
    try (now elim Hne).
Qed.

Lemma fulfilled_at_once {A : Type} (I : State -> Prop) (Q : A -> Prop)
    (ts : list (Promise A)) :
  (forall j t, nth_error ts j = Some t -> fulfils 0 I Q t) ->
  exists values, fulfilled ts = Some values.
Proof.
  induction ts as [|t ts IH]; intros H; cbn [fulfilled]; [eauto|].
  pose proof (H 0%nat t eq_refl) as Ht.
  destruct t as [[a| |]|resume]; cbn [fulfils] in Ht; try (now elim Ht).
  destruct IH as (vs & ->); [|cbn; eauto].
  intros j t Hj. exact (H (S j) t Hj).
Qed.

Lemma fulfils_settled {A : Type} (I : State -> Prop) (Q : A -> Prop) o n m :
  fulfils n I Q (Settled o) -> fulfils m I Q (Settled o).
Proof. now cbn [fulfils]. Qed.

Lemma fulfils_not_rejected {A : Type} (I : State -> Prop) (Q : A -> Prop) n
    (ts : list (Promise A)) :
  (forall j t, nth_error ts j = Some t -> fulfils (n j) I Q t) ->
  first_rejection ts = None.
Proof.
  revert n. induction ts as [|t ts IH]; intros n H; cbn [first_rejection];
    [reflexivity|].
  pose proof (H 0%nat t eq_refl) as Ht.
  assert (Hrest : first_rejection ts = None).
  { apply (IH (fun j => n (S j))). intros j t' Hj. exact (H (S j) t' Hj). }
  destruct t as [[a|e|]|resume]; cbn [fulfils] in Ht; auto. now elim Ht.
Qed.

(** When every promise is fulfilled within the turns that the schedule
    gives it, no promise is rejected and every one is fulfilled at the end
    of the schedule. *)
Lemma scheduled_fulfils {A : Type} (I : State -> Prop) (Q : A -> Prop) schedule :
  forall (ts : list (Promise A)) s,
    I s ->
    (forall j t, nth_error ts j = Some t ->
                 fulfils (count_occ Nat.eq_dec schedule j) I Q t) ->
    snd (fst (scheduled schedule ts None s)) = None
    /\ exists values,
         fulfilled (fst (fst (scheduled schedule ts None s))) = Some values.
Proof.
  induction schedule as [|i turns IH]; intros ts s Hs Hts; cbn [scheduled].
  - cbn [fst snd]. split; [reflexivity|].
    now apply (fulfilled_at_once I Q).
  - assert (Hskip : forall o, nth_error ts i = Some (Settled o) \/
                               nth_error ts i = None ->
                      forall j t, nth_error ts j = Some t ->
                        fulfils (count_occ Nat.eq_dec turns j) I Q t).
    { intros o Hi j t Hj. specialize (Hts j t Hj). cbn [count_occ] in Hts.
      destruct (Nat.eq_dec i j) as [->|Hne]; [|exact Hts].
      destruct Hi as [Hi|Hi]; rewrite Hi in Hj; [|discriminate].
      injection Hj as <-. exact (fulfils_settled I Q o _ _ Hts). }
    destruct (nth_error ts i) as [[o|resume]|] eqn:Hi.
    + apply IH; [exact Hs|]. apply (Hskip o). now left.
    + pose proof (Hts i _ Hi) as Ht. cbn [count_occ] in Ht.
      destruct (Nat.eq_dec i i) as [_|Hne]; [|now elim Hne].
      cbn [fulfils] in Ht. destruct (Ht s Hs) as (H1 & H2).
      destruct (resume s) as [t' s']. cbn [fst snd] in *.
      assert (Hrej : match t' with
                     | Settled (Thrown e) => Some e
                     | _ => None
                     end = None).
      { destruct t' as [[a|e|]|r]; cbn [fulfils] in H2; auto. now elim H2. }
      rewrite Hrej. apply IH; [exact H1|]. intros j t Hj.
      destruct (Nat.eq_dec j i) as [->|Hne].
      * rewrite (nth_error_replace_nth_eq _ _ _ _ Hi) in Hj.
        injection Hj as <-. exact H2.
      * rewrite (nth_error_replace_nth_neq _ _ _ _ Hne) in Hj.
        specialize (Hts j t Hj). cbn [count_occ] in Hts.
        destruct (Nat.eq_dec i j) as [Heq|_]; [now elim Hne|exact Hts].
    + apply IH; [exact Hs|]. apply (Hskip OutOfFuel). now right.
Qed.

Lemma start_all_fulfils {A : Type} (I : State -> Prop) (Q : A -> Prop) n
    (procs : list (Proc A)) :
  Forall (fun p => forall s, I (snd (p s)) /\ fulfils n I Q (fst (p s))) procs ->
  forall s,
    (procs <> [] -> I (snd (start_all procs s)))
    /\ Forall (fulfils n I Q) (fst (start_all procs s)).
Proof.
  induction 1 as [|p l Hp _ IH]; intros s; cbn [start_all].
  - split; [intros H; now elim H|constructor].
  - destruct (Hp s) as (H1 & H2). destruct (p s) as [t s1].
    destruct (IH s1) as (G1 & G2).
    pose proof (start_all_length l s1) as Hlen.
    destruct (start_all l s1) as [ts s2] eqn:Hst. cbn [fst snd] in *.
    split; [|now constructor]. intros _.
    destruct l as [|q l]; [|apply G1; discriminate].
    cbn [start_all] in Hst. injection Hst as <- <-. exact H1.
Qed.

(** [Promise.all] returns when the schedule gives every promise the turns
    it needs. *)
Lemma Promise_all_fulfils {A : Type} (I : State -> Prop) (Q : A -> Prop) n
    (procs : list (Proc A)) schedule s :
  Forall (fun p => forall s, I (snd (p s)) /\ fulfils n I Q (fst (p s))) procs ->
  (forall j, (j < List.length procs)%nat ->
             (n <= count_occ Nat.eq_dec schedule j)%nat) ->
  exists values s', Promise_all procs schedule s = (Returned values, s').
Proof.
  intros Hp Hturns. unfold Promise_all.
  destruct (start_all_fulfils I Q n procs Hp s) as (H1 & H2).
  pose proof (start_all_length procs s) as Hlen.
  destruct (start_all procs s) as [ts s1]. cbn [fst snd] in *.
  assert (Hts : forall j t, nth_error ts j = Some t ->
                  fulfils (count_occ Nat.eq_dec schedule j) I Q t).
  { intros j t Hj. apply (fulfils_mono I Q t n).
    - apply Hturns. rewrite <- Hlen. apply nth_error_Some. congruence.
    - rewrite Forall_forall in H2. apply H2. now apply nth_error_In in Hj. }
  rewrite (fulfils_not_rejected I Q _ ts Hts).
  destruct procs as [|p procs].
  - destruct ts; [|discriminate].
    assert (Hsch : forall sch s0,
               scheduled sch (@nil (Promise A)) None s0 = ([], None, s0)).
    { induction sch as [|i sch IHs]; intros s0; cbn [scheduled];
        [reflexivity|]. destruct i; cbn [nth_error]; apply IHs. }
    rewrite Hsch. cbn. eauto.
  - destruct (scheduled_fulfils I Q schedule ts s1) as (G1 & vs & G2);
      [apply H1; discriminate|exact Hts|].
    destruct (scheduled schedule ts None s1) as [[ts' rej] s2].
    cbn [fst snd] in *. subst rej. rewrite G2. eauto.
Qed.

End Fulfilment.

(** *** A promise taken alone *)

Section Alone.
Context {platform : Platform} {collaborators : Collaborators}.
Import Promises.

Lemma same_refl {A : Type} (c : Async A) : same c c.
Proof. now intros s. Qed.

Lemma same_trans {A : Type} (c1 c2 c3 : Async A) :
  same c1 c2 -> same c2 c3 -> same c1 c3.
Proof. intros H1 H2 s. now rewrite H1. Qed.

Lemma same_bind {A B : Type} (c c' : Async A) (k k' : A -> Async B) :
  same c c' -> (forall a, same (k a) (k' a)) -> same (bind c k) (bind c' k').
Proof.
  intros Hc Hk s. unfold bind. rewrite Hc.
  destruct (c' s) as [[a| |] s']; auto. apply Hk.
Qed.

Lemma same_forM {A B : Type} (f g : A -> Async B) l :
  (forall a, same (f a) (g a)) -> same (forM f l) (forM g l).
Proof.
  intros H. induction l as [|a l IH]; cbn [forM]; [apply same_refl|].
  apply same_bind; [apply H|]. intros b.
  apply same_bind; [exact IH|]. intros bs. apply same_refl.
Qed.

Lemma alone_continue {A B : Type} (t : Promise A) (k : A -> Proc B) :
  forall s,
    alone (fst (continue t k s)) (snd (continue t k s))
    = bind (alone t) (fun a => call_alone (k a)) s.
Proof.
  induction t as [[a| |]|resume IH] using Promise_induction; intros s;
    cbn [continue]; unfold bind; cbn [alone fst snd]; try reflexivity.
  - unfold call_alone. now destruct (k a s).
  - specialize (IH s). destruct (resume s) as [t' s1]. cbn [fst snd] in *.
    specialize (IH s1). unfold bind in IH.
    destruct (continue t' k s1) as [t'' s2]. cbn [fst snd] in IH. exact IH.
Qed.

Lemma call_alone_bind {A B : Type} (p : Proc A) (k : A -> Proc B) :
  same (call_alone (pbind p k))
       (bind (call_alone p) (fun a => call_alone (k a))).
Proof.
  intros s. unfold call_alone at 1, pbind.
  destruct (p s) as [t s1] eqn:Hp.
  pose proof (alone_continue t k s1) as H.
  destruct (continue t k s1) as [t' s2]. cbn [fst snd] in H. rewrite H.
  unfold bind, call_alone at 2. now rewrite Hp.
Qed.

Lemma call_alone_sync {A : Type} (c : Async A) : same (call_alone (sync c)) c.
Proof. intros s. unfold call_alone, sync. now destruct (c s). Qed.

Lemma alone_suspended {A : Type} (t : Promise A) :
  forall s, alone (suspended t) s = alone t s.
Proof.
  induction t as [o|resume IH] using Promise_induction; intros s;
    cbn [suspended alone]; [reflexivity|].
  specialize (IH s). destruct (resume s) as [t' s1]. apply IH.
Qed.

Lemma call_alone_await {A : Type} (p : Proc A) :
  same (call_alone (await p)) (call_alone p).
Proof.
  intros s. unfold call_alone, await. destruct (p s) as [t s1].
  apply alone_suspended.
Qed.

Lemma call_alone_later {A : Type} (c : Async A) : same (call_alone (later c)) c.
Proof.
  intros s. unfold call_alone, later. cbn [alone]. unfold sync.
  now destruct (c s).
Qed.

Lemma call_alone_each {A B : Type} (f : A -> Proc B) l :
  same (call_alone (each f l)) (forM (fun a => call_alone (f a)) l).
Proof.
  induction l as [|a l IH]; cbn [each forM]; [apply call_alone_sync|].
  eapply same_trans; [apply call_alone_bind|]. apply same_bind.
  - apply call_alone_await.
  - intros b. eapply same_trans; [apply call_alone_bind|].
    apply same_bind; [exact IH|]. intros bs. apply call_alone_sync.
Qed.

Lemma alone_in_closure {A : Type} (t : Promise A) :
  forall closure s,
    alone (in_closure closure t) s
    = (fst (alone t {| execution := fst closure;
                       current_functionExecutionId := snd closure;
                       world := world s;
                       events := events s |}),
       {| execution := execution s;
          current_functionExecutionId := current_functionExecutionId s;
          world := world (snd (alone t {| execution := fst closure;
                                          current_functionExecutionId := snd closure;
                                          world := world s;
                                          events := events s |}));
          events := events (snd (alone t {| execution := fst closure;
                                           current_functionExecutionId := snd closure;
                                           world := world s;
                                           events := events s |})) |}).
Proof.
  induction t as [o|resume IH] using Promise_induction; intros closure s;
    cbn [in_closure alone fst snd].
  - now destruct s.
  - match goal with
    | |- context [resume ?st] => set (local := st)
    end.
    specialize (IH local). destruct (resume local) as [t' s1].
    rewrite IH. cbn [fst snd execution current_functionExecutionId world events].
    now destruct s1.
Qed.

Lemma call_alone_in_new_closure {A : Type} (p : Proc A) :
  same (call_alone (in_new_closure p)) (Builder.in_new_closure (call_alone p)).
Proof.
  intros s. unfold call_alone at 1, in_new_closure, Builder.in_new_closure.
  unfold call_alone.
  match goal with
  | |- context [p ?st] => set (local := st)
  end.
  destruct (p local) as [t s1]. rewrite alone_in_closure.
  cbn [fst snd execution current_functionExecutionId world events].
  destruct s1 as [e1 f1 w1 ev1]. cbn [fst snd execution current_functionExecutionId world events].
  now destruct (alone t _).
Qed.

Lemma call_alone_await_ret {A B : Type} (x : A) (k : A -> Proc B) :
  same (call_alone (pbind (await (sync (ret x))) k)) (call_alone (k x)).
Proof.
  intros s. rewrite (call_alone_bind _ _ s). unfold bind.
  rewrite (call_alone_await _ s), (call_alone_sync _ s). reflexivity.
Qed.

End Alone.

Ltac alone_step :=
  lazymatch goal with
  | |- same (Promises.call_alone
               (Promises.pbind (Promises.await (Promises.sync (ret _))) _)) _ =>
      eapply same_trans; [apply call_alone_await_ret|]; cbv beta
  | |- same (Promises.call_alone (Promises.pbind _ _)) _ =>
      eapply same_trans; [apply call_alone_bind|]; apply same_bind; [|intros ?]
  | |- same (Promises.call_alone (Promises.await _)) _ =>
      eapply same_trans; [apply call_alone_await|]
  | |- same (Promises.call_alone (Promises.sync _)) _ => apply call_alone_sync
  | |- same (Promises.call_alone (Promises.later _)) _ => apply call_alone_later
  | |- same (Promises.call_alone (match ?x with _ => _ end)) _ => destruct x
  end.

Section AloneRuns.
Context {platform : Platform} {collaborators : Collaborators}.
Import Promises.

Lemma call_model_alone def messages fns mode :
  same (call_alone (Promises.call_model def messages fns mode))
       (Engine.call_model def messages fns mode).
Proof. unfold Promises.call_model, Engine.call_model. repeat alone_step. Qed.

Lemma callZodOutput_alone def args fuel :
  forall messages zodSchema retries,
    same (call_alone (Promises.callZodOutput def args fuel messages zodSchema retries))
         (Engine.callZodOutput def args fuel messages zodSchema retries).
Proof.
  induction fuel as [|fuel IH]; intros messages zodSchema retries;
    cbn [Promises.callZodOutput Engine.callZodOutput]; [apply call_alone_sync|].
  cbv zeta.
  repeat first [apply IH | apply call_model_alone | alone_step].
Qed.

Lemma getQueryDoc_alone def args queryArg :
  same (call_alone (Promises.getQueryDoc def args queryArg))
       (Engine.getQueryDoc def args queryArg).
Proof.
  unfold Promises.getQueryDoc, Engine.getQueryDoc. repeat alone_step.
Qed.

Lemma run_alone def args fuel arg _executionId :
  same (call_alone (Promises.run def args fuel arg _executionId))
       (Engine.run def args fuel arg _executionId).
Proof.
  unfold Promises.run, Engine.run.
  repeat first [ apply callZodOutput_alone | apply getQueryDoc_alone
               | eapply same_trans; [apply call_alone_each|];
                 apply same_forM; intros ?; cbv beta
               | alone_step ].
Qed.

(** A method [run] taken alone, from its call to its result, is the method
    [run] of the builder. *)
Lemma method_run_alone fuel :
  forall b runtimeArgs executionId,
    same (call_alone (Promises.method_run fuel b runtimeArgs executionId))
         (Builder.run fuel b runtimeArgs executionId).
Proof.
  induction fuel as [|fuel IH]; intros b runtimeArgs executionId;
    cbn [Promises.method_run Builder.run]; [apply call_alone_sync|].
  cbv zeta.
  eapply same_trans; [apply call_alone_bind|].
  apply same_bind; [eapply same_trans; [apply call_alone_await|apply run_alone]|].
  intros firstResponse.
  eapply same_trans; [apply call_alone_bind|].
  eapply same_trans;
    [apply same_bind; [apply call_alone_await|intros r; apply call_alone_sync]|].
  match goal with
  | |- same (bind (call_alone (?R _ _)) _) (?R' _ _) =>
      set (reduce := R); set (reduce' := R')
  end.
  assert (Hred : forall mapFns (_p : Proc Execution),
             same (call_alone (reduce mapFns _p))
                  (bind (call_alone _p) (reduce' mapFns))).
  { subst reduce reduce'. induction mapFns as [|fn rest IHl]; intros _p.
    - intros s. unfold bind. destruct (call_alone _p s) as [[a| |] s'];
        reflexivity.
    - eapply same_trans; [apply IHl|].
      eapply same_trans; [apply same_bind; [apply call_alone_bind|intros r; apply same_refl]|].
      eapply same_trans; [intros s; apply bind_assoc|].
      apply same_bind; [apply call_alone_await|]. intros p.
      apply same_bind; [|intros r; apply same_refl].
      destruct fn as [f|functionDef].
      + repeat alone_step.
      + eapply same_trans; [apply call_alone_bind|].
        apply same_bind; [apply call_alone_sync|]. intros _.
        eapply same_trans; [apply call_alone_bind|].
        apply same_bind; [apply call_alone_sync|]. intros s0.
        eapply same_trans; [apply call_alone_in_new_closure|].
        intros s. unfold Builder.in_new_closure. now rewrite IH. }
  eapply same_trans;
    [apply same_bind; [apply Hred|intros r; apply same_refl]|].
  intros s. unfold bind. rewrite (call_alone_sync _ s). unfold ret.
  destruct (reduce' _ firstResponse s) as [[a| |] s']; reflexivity.
Qed.

End AloneRuns.

Section OnePromise.
Context {platform : Platform} {collaborators : Collaborators}.
Import Promises.

Lemma scheduled_settled {A : Type} (o : Outcome A) schedule :
  forall rejected s,
    scheduled schedule [Settled o] rejected s = ([Settled o], rejected, s).
Proof.
  induction schedule as [|i turns IH]; intros rejected s; cbn [scheduled];
    [reflexivity|].
  destruct i as [|[|i]]; cbn [nth_error]; apply IH.
Qed.

(** One promise that is fulfilled when taken alone is fulfilled, with the
    same value and state, by every schedule that gives it enough turns. *)
Lemma scheduled_alone {A : Type} (t : Promise A) :
  forall s a s',
    alone t s = (Returned a, s') ->
    exists turns,
      forall schedule,
        (turns <= count_occ Nat.eq_dec schedule 0)%nat ->
        scheduled schedule [t] None s = ([Settled (Returned a)], None, s').
Proof.
  induction t as [o|resume IH] using Promise_induction; intros s a s' Ha;
    cbn [alone] in Ha.
  - injection Ha as -> <-. exists 0%nat. intros schedule _.
    apply scheduled_settled.
  - specialize (IH s). destruct (resume s) as [t' s1] eqn:Hr.
    cbn [fst] in IH. destruct (IH s1 a s' Ha) as (n & Hn). exists (S n).
    induction schedule as [|i turns IHs]; intros Hc;
      cbn [count_occ] in Hc; [lia|].
    cbn [scheduled]. destruct i as [|i].
    + cbn [nth_error]. rewrite Hr. cbn [replace_nth].
      destruct (Nat.eq_dec 0 0) as [_|Hne]; [|now elim Hne].
      assert (Hrej : match t' with
                     | Settled (Thrown e) => Some e
                     | _ => None
                     end = None).
      { destruct t' as [[x|e|]|r]; auto. cbn [alone] in Ha. discriminate. }
      rewrite Hrej. apply Hn. lia.
    + destruct (Nat.eq_dec (S i) 0) as [Heq|_]; [discriminate|].
      replace (nth_error [Pending resume] (S i)) with (@None (Promise A))
        by (now destruct i).
      now apply IHs.
Qed.

Lemma Promise_all_alone {A : Type} (p : Proc A) s a s' :
  call_alone p s = (Returned a, s') ->
  exists turns,
    forall schedule,
      (turns <= count_occ Nat.eq_dec schedule 0)%nat ->
      Promise_all [p] schedule s = (Returned [a], s').
Proof.
  unfold call_alone, Promise_all. cbn [start_all].
  destruct (p s) as [t s1]. intros Ha.
  destruct (scheduled_alone t s1 a s' Ha) as (n & Hn). exists n.
  intros schedule Hc.
  assert (Hrej : first_rejection [t] = None).
  { destruct t as [[x|e|]|r]; auto. cbn [alone] in Ha. discriminate. }
  rewrite Hrej, (Hn schedule Hc). reflexivity.
Qed.

End OnePromise.

(** *** What [runDataset] returns *)

Section DatasetClaims.
Context {platform : Platform} {collaborators : Collaborators}.

Lemma later_version_one_record e0 fe0 r :
  functionsExecuted e0 = [fe0] -> later_version e0 r ->
  exists fe,
    functionsExecuted r = [fe]
    /\ inputs fe = inputs fe0 /\ functionDef fe = functionDef fe0.
Proof.
  intros H0 (_ & _ & _ & H). rewrite H0 in H.
  inversion H as [|? fe ? l' Hsame Hrest Heq1 Heq2]; subst.
  inversion Hrest; subst. exists fe. split; [reflexivity|].
  destruct Hsame as (_ & Hin & Hdef & _). now split.
Qed.


End DatasetClaims.


